(** * The lexer of [mark] (lexer.go), embedded in Rocq

    The development follows the source file top to bottom:

    - Go strings are byte sequences ([list byte]); a rune is an [int32],
      modelled as [Z];
    - [utf8.DecodeRuneInString], used both by [lexer.next] and by the
      [regexp] package when it steps over a string;
    - the fragment of Go regular expressions used by the grammar tables
      [block] and [span], with the leftmost-first (backtracking priority)
      semantics of package [regexp];
    - the lexer record, its methods [next], [backup], [peek], [emit] and
      the state functions [lexAny] ... [lexText], with the run-time panics
      of out-of-range slice expressions made explicit;
    - [run], the loop that drives the state machine. *)

From Stdlib Require Import String Ascii.
From Stdlib Require Import List Sorted ZArith Zbitwise Lia Bool Arith.
From Stdlib Require Import Strings.Byte.
Import ListNotations.

Local Open Scope Z_scope.

(* ================================================================== *)
(** ** Go strings *)

(** A Go [string] is an immutable sequence of bytes. *)
Definition gostring := list byte.

Definition b2z (b : byte) : Z := Z.of_N (Byte.to_N b).

(** [len(s)] *)
Definition len (s : gostring) : Z := Z.of_nat (length s).

(** String literals of the examples: the bytes of a Rocq string. *)
Definition bs (s : string) : gostring := list_byte_of_string s.

Definition NL : byte := x0a. (* '\n' *)
Definition SP : byte := x20. (* ' '  *)

(* ================================================================== *)
(** ** Outcomes of running Go code

    [Panic] is a run-time panic (here always "slice bounds out of
    range"); [OutOfFuel] is not a behaviour of the program: it only says
    that the step budget given to a loop of the model was too small. *)

Inductive result (A : Type) : Type :=
| Ok (a : A)
| Panic
| OutOfFuel.

Arguments Ok {A} a.
Arguments Panic {A}.
Arguments OutOfFuel {A}.

Definition bind {A B : Type} (m : result A) (f : A -> result B) : result B :=
  match m with
  | Ok a => f a
  | Panic => Panic
  | OutOfFuel => OutOfFuel
  end.

Notation "x <- m ;; f" := (bind m (fun x => f))
  (at level 61, m at next level, right associativity).
Notation "' p <- m ;; f" := (bind m (fun x => let p := x in f))
  (at level 61, p pattern, m at next level, right associativity).

(** Slice expressions [s[lo:]] and [s[lo:hi]] on strings: the indices are
    in range when [0 <= lo <= hi <= len(s)], otherwise the program
    panics. *)
Definition slice_from (s : gostring) (lo : Z) : result gostring :=
  if (0 <=? lo) && (lo <=? len s) then Ok (skipn (Z.to_nat lo) s) else Panic.

Definition slice (s : gostring) (lo hi : Z) : result gostring :=
  if (0 <=? lo) && (lo <=? hi) && (hi <=? len s)
  then Ok (firstn (Z.to_nat (hi - lo)) (skipn (Z.to_nat lo) s))
  else Panic.

(* ================================================================== *)
(** ** unicode/utf8: DecodeRuneInString *)

Module utf8.

Definition RuneError : Z := 0xFFFD.

Definition locb : Z := 0x80.
Definition hicb : Z := 0xBF.
Definition maskx : Z := 0x3F.
Definition mask2 : Z := 0x1F.
Definition mask3 : Z := 0x0F.
Definition mask4 : Z := 0x07.

Definition xx : Z := 0xF1.  (* invalid: size 1 *)
Definition as_ : Z := 0xF0. (* ASCII: size 1 *)
Definition s1 : Z := 0x02.  (* accept 0, size 2 *)
Definition s2 : Z := 0x13.  (* accept 1, size 3 *)
Definition s3 : Z := 0x03.  (* accept 0, size 3 *)
Definition s4 : Z := 0x23.  (* accept 2, size 3 *)
Definition s5 : Z := 0x34.  (* accept 3, size 4 *)
Definition s6 : Z := 0x04.  (* accept 0, size 4 *)
Definition s7 : Z := 0x44.  (* accept 4, size 4 *)

(** The table [first], indexed by the first byte of a sequence. *)
Definition first (b : Z) : Z :=
  if b <? 0x80 then as_
  else if b <? 0xC2 then xx
  else if b <? 0xE0 then s1
  else if b =? 0xE0 then s2
  else if b <? 0xED then s3
  else if b =? 0xED then s4
  else if b <? 0xF0 then s3
  else if b =? 0xF0 then s5
  else if b <? 0xF4 then s6
  else if b =? 0xF4 then s7
  else xx.

(** The table [acceptRanges]: bounds on the second byte. *)
Definition acceptRanges (i : Z) : Z * Z :=
  if i =? 0 then (locb, hicb)
  else if i =? 1 then (0xA0, hicb)
  else if i =? 2 then (locb, 0x9F)
  else if i =? 3 then (0x90, hicb)
  else if i =? 4 then (locb, 0x8F)
  else (0, 0).

(** Conversion to [int32] after a shift: two's complement wrap-around. *)
Definition wrap32 (z : Z) : Z := (z + 2 ^ 31) mod 2 ^ 32 - 2 ^ 31.

(** [DecodeRuneInString s] is the first rune of [s] and its width in
    bytes: [(RuneError, 0)] for the empty string, [(RuneError, 1)] for an
    invalid encoding. *)
Definition DecodeRuneInString (s : gostring) : Z * Z :=
  match s with
  | [] => (RuneError, 0)
  | c0 :: t0 =>
    let b0 := b2z c0 in
    let x := first b0 in
    if as_ <=? x then
      (* mask is 0 for ASCII and -1 (all ones) for an invalid byte *)
      let mask := Z.shiftr (wrap32 (Z.shiftl x 31)) 31 in
      (Z.lor (Z.land b0 (Z.lnot mask)) (Z.land RuneError mask), 1)
    else
      let sz := Z.land x 7 in
      let accept := acceptRanges (Z.shiftr x 4) in
      if len s <? sz then (RuneError, 1) else
      match t0 with
      | [] => (RuneError, 1)
      | c1 :: t1 =>
        let b1 := b2z c1 in
        if (b1 <? fst accept) || (snd accept <? b1) then (RuneError, 1) else
        if sz <=? 2 then
          (Z.lor (Z.shiftl (Z.land b0 mask2) 6) (Z.land b1 maskx), 2)
        else
        match t1 with
        | [] => (RuneError, 1)
        | c2 :: t2 =>
          let b2 := b2z c2 in
          if (b2 <? locb) || (hicb <? b2) then (RuneError, 1) else
          if sz <=? 3 then
            (Z.lor (Z.lor (Z.shiftl (Z.land b0 mask3) 12)
                          (Z.shiftl (Z.land b1 maskx) 6))
                   (Z.land b2 maskx), 3)
          else
          match t2 with
          | [] => (RuneError, 1)
          | c3 :: _ =>
            let b3 := b2z c3 in
            if (b3 <? locb) || (hicb <? b3) then (RuneError, 1) else
            (Z.lor (Z.lor (Z.lor (Z.shiftl (Z.land b0 mask4) 18)
                                 (Z.shiftl (Z.land b1 maskx) 12))
                          (Z.shiftl (Z.land b2 maskx) 6))
                   (Z.land b3 maskx), 4)
          end
        end
      end
  end.

End utf8.

(* ================================================================== *)
(** ** Package regexp: the fragment used by the grammar tables *)

Module regexp.

(** Members of a bracket expression: a rune, or one of the Perl classes
    [\s] (which is [[\t\n\f\r ]] in Go) and [\S]. *)
Inductive citem : Type :=
| Ch (c : Z)
| PerlSpace
| PerlNotSpace.

Definition is_space (r : Z) : bool :=
  (r =? 9) || (r =? 10) || (r =? 12) || (r =? 13) || (r =? 32).

Definition citem_match (i : citem) (r : Z) : bool :=
  match i with
  | Ch c => r =? c
  | PerlSpace => is_space r
  | PerlNotSpace => negb (is_space r)
  end.

Definition class_match (neg : bool) (items : list citem) (r : Z) : bool :=
  xorb neg (existsb (fun i => citem_match i r) items).

(** Abstract syntax after the parser's simplification of counted
    repetitions (see [Plus], [Quest], [AtLeast], [Between] below). *)
Inductive regex : Type :=
| Empty                                   (* the empty string        *)
| BeginText                               (* ^  (no m flag)          *)
| EndText                                 (* $  (no m flag)          *)
| Class (neg : bool) (items : list citem) (* one rune of the class   *)
| Cat (a b : regex)
| Alt (a b : regex)                       (* a|b, a preferred        *)
| Star (greedy : bool) (a : regex)        (* a* or a*?               *)
| Group (i : nat) (a : regex).            (* capturing group number i *)

Definition Lit (c : Z) : regex := Class false [Ch c].

Definition Plus (greedy : bool) (a : regex) : regex := Cat a (Star greedy a).

Definition Quest (greedy : bool) (a : regex) : regex :=
  if greedy then Alt a Empty else Alt Empty a.

Fixpoint Times (n : nat) (a : regex) : regex :=
  match n with
  | O => Empty
  | S O => a
  | S n' => Cat a (Times n' a)
  end.

(** [a{n,}] for [n >= 1] *)
Definition AtLeast (n : nat) (a : regex) : regex :=
  match n with
  | O => Star true a
  | S n' => Cat (Times n' a) (Plus true a)
  end.

(** [a{0,k}] as the nested options [(a(a(a)?)?)?] *)
Fixpoint UpTo (k : nat) (a : regex) : regex :=
  match k with
  | O => Empty
  | S O => Quest true a
  | S k' => Quest true (Cat a (UpTo k' a))
  end.

(** [a{n,m}] for [1 <= n <= m] *)
Definition Between (n m : nat) (a : regex) : regex :=
  if Nat.eqb n m then Times n a else Cat (Times n a) (UpTo (m - n) a).

(** Submatches: the most recent binding of a group comes first. *)
Definition caps := list (nat * (nat * nat)).

Fixpoint cap_lookup (i : nat) (c : caps) : option (nat * nat) :=
  match c with
  | [] => None
  | (j, v) :: c' => if Nat.eqb i j then Some v else cap_lookup i c'
  end.

(** The rest of the match, given the offset reached, the text left and
    the submatches so far. *)
Definition kont := nat -> gostring -> caps -> option (nat * caps).

(** One rune of the text must satisfy [p]. *)
Definition step (p : Z -> bool) (n : nat) (s : gostring) (c : caps) (k : kont)
  : option (nat * caps) :=
  match s with
  | [] => None
  | _ :: _ =>
    let '(r, w) := utf8.DecodeRuneInString s in
    if p r then k (n + Z.to_nat w)%nat (skipn (Z.to_nat w) s) c else None
  end.

Definition orelse {A : Type} (x y : option A) : option A :=
  match x with
  | Some v => Some v
  | None => y
  end.

(** Iteration of [body]: greedy prefers one more round, non-greedy
    prefers to stop.  A round that consumes nothing is not repeated. *)
Fixpoint star_loop (body : nat -> gostring -> caps -> kont -> option (nat * caps))
    (greedy : bool) (fuel : nat) (n : nat) (s : gostring) (c : caps) (k : kont)
  : option (nat * caps) :=
  match fuel with
  | O => k n s c
  | S fuel' =>
    let more :=
      body n s c (fun n' s' c' =>
        if (n <? n')%nat then star_loop body greedy fuel' n' s' c' k else None) in
    if greedy then orelse more (k n s c) else orelse (k n s c) more
  end.

(** [exec r n s c k]: match [r] against the text [s] that begins at
    offset [n] of the subject, then continue with [k]; alternatives are
    tried in priority order and the first success is returned. *)
Fixpoint exec (r : regex) (n : nat) (s : gostring) (c : caps) (k : kont)
  : option (nat * caps) :=
  match r with
  | Empty => k n s c
  | BeginText => if Nat.eqb n 0 then k n s c else None
  | EndText => match s with [] => k n s c | _ :: _ => None end
  | Class neg items => step (class_match neg items) n s c k
  | Cat a b => exec a n s c (fun n' s' c' => exec b n' s' c' k)
  | Alt a b => orelse (exec a n s c k) (exec b n s c k)
  | Star greedy a => star_loop (exec a) greedy (S (length s)) n s c k
  | Group i a => exec a n s c (fun n' s' c' => k n' s' ((i, (n, n')) :: c'))
  end.

Definition accept : kont := fun n _ c => Some (n, c).

(** A match that begins at the first byte of [s]. *)
Definition match_here (r : regex) (s : gostring) : option (nat * caps) :=
  exec r 0%nat s [] accept.

(** The leftmost match: starting points are tried from left to right,
    one rune at a time; the text before the starting point counts for
    [^].  The result is the start and end offsets and the submatches. *)
Fixpoint search (r : regex) (fuel : nat) (n : nat) (s : gostring)
  : option (nat * nat * caps) :=
  match exec r n s [] accept with
  | Some (e, c) => Some (n, e, c)
  | None =>
    match fuel, s with
    | S fuel', _ :: _ =>
      let w := Z.to_nat (snd (utf8.DecodeRuneInString s)) in
      search r fuel' (n + w)%nat (skipn w s)
    | _, _ => None
    end
  end.

Definition find (r : regex) (s : gostring) : option (nat * nat * caps) :=
  search r (length s) 0%nat s.

(** [re.MatchString(s)] *)
Definition MatchString (r : regex) (s : gostring) : bool :=
  match find r s with Some _ => true | None => false end.

(** [re.FindString(s)]: the text of the leftmost match, [""] if there
    is none. *)
Definition FindString (r : regex) (s : gostring) : gostring :=
  match find r s with
  | Some (b, e, _) => firstn (e - b) (skipn b s)
  | None => []
  end.

(** [re.FindStringSubmatch(s)[i]] for a group [i >= 1] that took part
    in the match. *)
Definition Submatch (r : regex) (i : nat) (s : gostring) : option gostring :=
  match find r s with
  | Some (_, _, c) =>
    match cap_lookup i c with
    | Some (b, e) => Some (firstn (e - b) (skipn b s))
    | None => None
    end
  | None => None
  end.

(** *** What a pattern matches, without the priorities

    [matches r n w rest]: read at offset [n] of the subject, with the
    text [w ++ rest] ahead, the pattern [r] can consume exactly [w].
    [exec] explores these possibilities in priority order. *)
Inductive matches : regex -> nat -> gostring -> gostring -> Prop :=
| M_Empty n rest :
    matches Empty n [] rest
| M_BeginText rest :
    matches BeginText 0%nat [] rest
| M_EndText n :
    matches EndText n [] []
| M_Class neg items n w rest r :
    w <> [] ->
    utf8.DecodeRuneInString (w ++ rest) = (r, len w) ->
    class_match neg items r = true ->
    matches (Class neg items) n w rest
| M_Cat a b n w1 w2 rest :
    matches a n w1 (w2 ++ rest) ->
    matches b (n + length w1)%nat w2 rest ->
    matches (Cat a b) n (w1 ++ w2) rest
| M_AltL a b n w rest :
    matches a n w rest ->
    matches (Alt a b) n w rest
| M_AltR a b n w rest :
    matches b n w rest ->
    matches (Alt a b) n w rest
| M_StarNil g a n rest :
    matches (Star g a) n [] rest
| M_StarCons g a n w1 w2 rest :
    w1 <> [] ->
    matches a n w1 (w2 ++ rest) ->
    matches (Star g a) (n + length w1)%nat w2 rest ->
    matches (Star g a) n (w1 ++ w2) rest
| M_Group i a n w rest :
    matches a n w rest ->
    matches (Group i a) n w rest.

(** The groups of a pattern. *)
Fixpoint groups (r : regex) : list nat :=
  match r with
  | Cat a b | Alt a b => groups a ++ groups b
  | Star _ a => groups a
  | Group i a => i :: groups a
  | _ => []
  end.

(** Patterns every alternative of which begins with [^]. *)
Fixpoint anchored (r : regex) : bool :=
  match r with
  | BeginText => true
  | Cat a _ => anchored a
  | Alt a b => anchored a && anchored b
  | Group _ a => anchored a
  | _ => false
  end.


End regexp.

(* ================================================================== *)
(** ** lexer.go: items and grammar tables *)

Import regexp.

(** type Pos int.  Positions stay within a few bytes of the interval
    [0 .. len(input)], far from the limits of a 64-bit [int], so the
    arithmetic on them is that of [Z]. *)
Definition Pos := Z.

(** itemType identifies the type of lex items. *)
Inductive itemType : Type :=
| itemError
| itemNewLine
| itemHTML
| itemText
| itemLineBreak
| itemHeading
| itemLHeading
| itemBlockQuote
| itemList
| itemCodeBlock
| itemGfmCodeBlock
| itemHr
| itemTable
| itemLinks
| itemStrong
| itemItalic
| itemStrike
| itemCode
| itemImages.

Definition itemType_eqb (a b : itemType) : bool :=
  match a, b with
  | itemError, itemError | itemNewLine, itemNewLine | itemHTML, itemHTML
  | itemText, itemText | itemLineBreak, itemLineBreak
  | itemHeading, itemHeading | itemLHeading, itemLHeading
  | itemBlockQuote, itemBlockQuote | itemList, itemList
  | itemCodeBlock, itemCodeBlock | itemGfmCodeBlock, itemGfmCodeBlock
  | itemHr, itemHr | itemTable, itemTable | itemLinks, itemLinks
  | itemStrong, itemStrong | itemItalic, itemItalic
  | itemStrike, itemStrike | itemCode, itemCode
  | itemImages, itemImages => true
  | _, _ => false
  end.

(** An item is a token returned from the scanner: its type, its starting
    position in bytes in the input string, and its value. *)
Record item : Type := mkItem {
  typ : itemType;
  item_pos : Pos;
  val : gostring
}.

Definition eof : Z := -1.

(** The runes the lexer and the grammar name. *)
Definition c_nl : Z := 10.     (* '\n' *)
Definition c_sp : Z := 32.     (* ' '  *)
Definition c_hash : Z := 35.   (* '#'  *)
Definition c_star : Z := 42.   (* '*'  *)
Definition c_dash : Z := 45.   (* '-'  *)
Definition c_under : Z := 95.  (* '_'  *)
Definition c_tick : Z := 96.   (* '`'  *)
Definition c_tilde : Z := 126. (* '~'  *)

(** Concatenation of a sequence of pieces. *)
Fixpoint Seq (rs : list regex) : regex :=
  match rs with
  | [] => Empty
  | [r] => r
  | r :: rs' => Cat r (Seq rs')
  end.

Definition re_any : regex := Class false [PerlSpace; PerlNotSpace]. (* [\s\S] *)
Definition re_ws : regex := Class false [PerlSpace].                 (* \s     *)
Definition re_nws : regex := Class false [PerlNotSpace].             (* \S     *)
Definition re_notnl : regex := Class true [Ch c_nl].                 (* [^\n]  *)
(** (?:\n+|$) *)
Definition re_eol : regex := Alt (Plus true (Lit c_nl)) EndText.

(** reEmphasise with [%[1]d] replaced by [n]:
    ^_{n}([\s\S]+?)_{n}|^\*{n}([\s\S]+?)\*{n} *)
Definition reEmphasise (n : nat) : regex :=
  Alt (Seq [BeginText; Times n (Lit c_under);
            Group 1 (Plus false re_any); Times n (Lit c_under)])
      (Seq [BeginText; Times n (Lit c_star);
            Group 2 (Plus false re_any); Times n (Lit c_star)]).

(** reGfmCode with both [%s] replaced by the fence character [f]; [g] is
    the number of the first of its two groups:
    ^f{3,} *(\S+)? *\n([\s\S]+?)\s*f{3,}$*(?:\n+|$) *)
Definition reGfmCode (f : Z) (g : nat) : regex :=
  Seq [BeginText; AtLeast 3 (Lit f); Star true (Lit c_sp);
       Quest true (Group g (Plus true re_nws)); Star true (Lit c_sp);
       Lit c_nl; Group (S g) (Plus false re_any); Star true re_ws;
       AtLeast 3 (Lit f); Star true EndText; re_eol].

(** Block grammar *)
Definition block (t : itemType) : regex :=
  match t with
  | itemHeading =>
    (* ^ *(#{1,6}) *([^\n]+?) *#* *(?:\n+|$) *)
    Seq [BeginText; Star true (Lit c_sp); Group 1 (Between 1 6 (Lit c_hash));
         Star true (Lit c_sp); Group 2 (Plus false re_notnl);
         Star true (Lit c_sp); Star true (Lit c_hash); Star true (Lit c_sp);
         re_eol]
  | itemHr =>
    (* ^( *[-*_]){3,} *(?:\n+|$) *)
    Seq [BeginText;
         AtLeast 3 (Group 1 (Cat (Star true (Lit c_sp))
                                 (Class false [Ch c_dash; Ch c_star; Ch c_under])));
         Star true (Lit c_sp); re_eol]
  | itemCodeBlock =>
    (* ^(G)+ where the group G is: {4} of a space, [^\n]+, \n* *)
    Seq [BeginText;
         Plus true (Group 1 (Seq [Times 4 (Lit c_sp); Plus true re_notnl;
                                  Star true (Lit c_nl)]))]
  | itemGfmCodeBlock =>
    Alt (reGfmCode c_tick 1) (reGfmCode c_tilde 3)
  | _ => Empty (* no entry in the map; never looked up *)
  end.

(** Inline grammar *)
Definition span (t : itemType) : regex :=
  match t with
  | itemItalic => reEmphasise 1
  | itemStrong => reEmphasise 2
  | itemStrike =>
    (* ^~{2}([\s\S]+?)~{2} *)
    Seq [BeginText; Times 2 (Lit c_tilde); Group 1 (Plus false re_any);
         Times 2 (Lit c_tilde)]
  | itemCode =>
    (* ^`{1,2}\s*([\s\S]*?[^`])\s*`{1,2} *)
    Seq [BeginText; Between 1 2 (Lit c_tick); Star true re_ws;
         Group 1 (Cat (Star false re_any) (Class true [Ch c_tick]));
         Star true re_ws; Between 1 2 (Lit c_tick)]
  | _ => Empty (* no entry in the map; never looked up *)
  end.

(* ================================================================== *)
(** ** lexer.go: the scanner *)

(** The states of the scanner; the state [nil] is [None]. *)
Inductive stateFn : Type :=
| lexAny
| lexHeading
| lexHr
| lexGfmCode
| lexCode
| lexList
| lexText.

(** The channel of scanned items, as its producer sees it: what has been
    sent, in order, and whether it has been closed. *)
Record chan : Type := mkChan {
  sent : list item;
  closed : bool
}.

(** lexer holds the state of the scanner.  The fields [name], [lastPos]
    and [parenDepth] are never read by the scanner and are left out; the
    field [state] is the first component of the machine in [run_loop]. *)
Record lexer : Type := mkLexer {
  input : gostring; (* the string being scanned *)
  pos : Pos;        (* current position in the input *)
  start : Pos;      (* start position of this item *)
  width : Pos;      (* width of last rune read from input *)
  items : chan      (* channel of scanned items *)
}.

Definition set_pos (l : lexer) (p : Pos) : lexer :=
  mkLexer (input l) p (start l) (width l) (items l).

(** next returns the next rune in the input. *)
Definition next (l : lexer) : result (Z * lexer) :=
  if len (input l) <=? pos l then
    Ok (eof, mkLexer (input l) (pos l) (start l) 0 (items l))
  else
    s <- slice_from (input l) (pos l) ;;
    let '(r, w) := utf8.DecodeRuneInString s in
    Ok (r, mkLexer (input l) (pos l + w) (start l) w (items l)).

(** backup steps back one rune. *)
Definition backup (l : lexer) : lexer := set_pos l (pos l - width l).

(** peek returns but does not consume the next rune in the input. *)
Definition peek (l : lexer) : result (Z * lexer) :=
  '(r, l1) <- next l ;;
  Ok (r, backup l1).

(** emit passes an item back to the client. *)
Definition emit (t : itemType) (l : lexer) : result lexer :=
  v <- slice (input l) (start l) (pos l) ;;
  Ok (mkLexer (input l) (pos l) (pos l) (width l)
              (mkChan (sent (items l) ++ [mkItem t (start l) v])
                      (closed (items l)))).

Definition bytes_eqb (a b : gostring) : bool :=
  if list_eq_dec Byte.byte_eq_dec a b then true else false.

(** lexAny scans non-space items. *)
Definition lexAny_tail (l : lexer) : result (option stateFn * lexer) :=
  (* case '`', '~' (also reached from case ' ') *)
  c <- slice (input l) (pos l) (pos l + 2) ;;
  if bytes_eqb c (bs "``") || bytes_eqb c (bs "~~") then
    Ok (Some lexGfmCode, backup l)
  else
    (* default *)
    Ok (Some lexText, backup l).

Definition lexAny_fn (l : lexer) : result (option stateFn * lexer) :=
  '(r, l) <- next l ;;
  if r =? eof then Ok (None, l)
  else if (r =? c_star) || (r =? c_dash) then
    '(p1, l) <- peek l ;;
    if p1 =? c_star then Ok (Some lexHr, backup l)
    else
      '(p2, l) <- peek l ;;
      if p2 =? c_dash then Ok (Some lexHr, backup l)
      else Ok (Some lexList, backup l)
  else if r =? c_hash then Ok (Some lexHeading, backup l)
  else if r =? c_sp then
    s <- slice_from (input l) (pos l - 1) ;;
    if MatchString (block itemCodeBlock) s then Ok (Some lexCode, backup l)
    else lexAny_tail l
  else if (r =? c_tick) || (r =? c_tilde) then lexAny_tail l
  else Ok (Some lexText, backup l).

(** The common shape of lexHeading, lexHr and lexGfmCode. *)
Definition lexBlock (t : itemType) (l : lexer) : result (option stateFn * lexer) :=
  s <- slice_from (input l) (pos l) ;;
  if MatchString (block t) s then
    s' <- slice_from (input l) (pos l) ;;
    let m := FindString (block t) s' in
    l <- emit t (set_pos l (pos l + len m)) ;;
    Ok (Some lexAny, l)
  else Ok (Some lexText, l).

(** lexHeading scans heading items. *)
Definition lexHeading_fn := lexBlock itemHeading.

(** lexHr scans horizontal rules items. *)
Definition lexHr_fn := lexBlock itemHr.

(** lexGfmCode scans GFM code block. *)
Definition lexGfmCode_fn := lexBlock itemGfmCodeBlock.

(** lexCode scans code block. *)
Definition lexCode_fn (l : lexer) : result (option stateFn * lexer) :=
  s <- slice_from (input l) (pos l) ;;
  let m := FindString (block itemCodeBlock) s in
  l <- emit itemCodeBlock (set_pos l (pos l + len m)) ;;
  Ok (Some lexAny, l).

(** lexList scans ordered and unordered lists. *)
Definition lexList_fn (l : lexer) : result (option stateFn * lexer) :=
  Ok (Some lexText, l).

(** How one round of the loop of lexText ends. *)
Inductive ctl : Type := Continue | Break.

(** The condition of the second case of the switch in lexText,
    [r == '\n' && l.peek() == '\n' || r == ' ' && l.peek() == ' '],
    with the calls of peek it makes. *)
Definition lexText_boundary (r : Z) (l : lexer) : result (bool * lexer) :=
  '(a, l) <- (if r =? c_nl then '(p, l) <- peek l ;; Ok (p =? c_nl, l)
              else Ok (false, l)) ;;
  if a : bool then Ok (true, l)
  else if r =? c_sp then '(p, l) <- peek l ;; Ok (p =? c_sp, l)
  else Ok (false, l).

(** The span rules in the order lexText tries them. *)
Definition span_order : list itemType :=
  [itemStrong; itemItalic; itemStrike; itemCode].

(** The first rule of [ts] that finds a non-empty match in [s]. *)
Fixpoint first_span (ts : list itemType) (s : gostring) : option (itemType * gostring) :=
  match ts with
  | [] => None
  | t :: ts' =>
    let m := FindString (span t) s in
    match m with
    | [] => first_span ts' s
    | _ :: _ => Some (t, m)
    end
  end.

Definition is_delim (r : Z) : bool :=
  (r =? c_under) || (r =? c_star) || (r =? c_tilde) || (r =? c_tick).

(** One round of the loop of lexText. *)
Definition lexText_iter (l : lexer) : result (ctl * lexer) :=
  '(r, l) <- next l ;;
  if r =? eof then Ok (Break, l)
  else
    '(b, l) <- lexText_boundary r l ;;
    if b : bool then
      (* length of new-line *)
      l <- emit itemNewLine (set_pos l (pos l + 1)) ;;
      Ok (Break, l)
    else if is_delim r then
      let l := backup l in
      s <- slice_from (input l) (pos l) ;;
      match first_span span_order s with
      | Some (t, m) =>
        l <- emit t (set_pos l (pos l + len m)) ;;
        Ok (Continue, l)
      | None =>
        (* ~backup() *)
        l <- emit itemText (set_pos l (pos l + width l)) ;;
        Ok (Continue, l)
      end
    else
      l <- emit itemText l ;;
      Ok (Continue, l).

(** lexText scans until a boundary.  In the source lexText is one state
    function whose [for] loop runs to a [break] and then returns lexAny.
    The machine below takes one round of that loop per step: a round
    that ends in [break] goes to lexAny, any other round comes back to
    lexText.  Every step then sends at most one item, and it does so as
    its last action, so the items of a run that panics part-way are all
    present in the last state reached. *)
Definition lexText_fn (l : lexer) : result (option stateFn * lexer) :=
  '(c, l) <- lexText_iter l ;;
  match c with
  | Break => Ok (Some lexAny, l)
  | Continue => Ok (Some lexText, l)
  end.

(** Calling a state function. *)
Definition call (f : stateFn) (l : lexer) : result (option stateFn * lexer) :=
  match f with
  | lexAny => lexAny_fn l
  | lexHeading => lexHeading_fn l
  | lexHr => lexHr_fn l
  | lexGfmCode => lexGfmCode_fn l
  | lexCode => lexCode_fn l
  | lexList => lexList_fn l
  | lexText => lexText_fn l
  end.

Definition close (l : lexer) : lexer :=
  mkLexer (input l) (pos l) (start l) (width l) (mkChan (sent (items l)) true).

(** The loop of run: [fuel] bounds the number of steps; [OutOfFuel]
    says that the state [nil] was not reached within that bound. *)
Fixpoint run_loop (fuel : nat) (state : option stateFn) (l : lexer) : result lexer :=
  match state with
  | None => Ok (close l)
  | Some f =>
    match fuel with
    | O => OutOfFuel
    | S fuel' =>
      '(state', l') <- call f l ;;
      run_loop fuel' state' l'
    end
  end.

(** run runs the state machine for the lexer. *)
Definition run (fuel : nat) (l : lexer) : result lexer :=
  run_loop fuel (Some lexAny) l.

(** lex creates a new lexer for the input string (and starts run). *)
Definition new_lexer (inp : gostring) : lexer :=
  mkLexer inp 0 0 0 (mkChan [] false).

Definition lex (fuel : nat) (inp : gostring) : result lexer :=
  run fuel (new_lexer inp).

(** The items the client has received once the scanner has taken at
    most [fuel] steps, whether it then stopped, panicked or is still
    running. *)
Fixpoint trace (fuel : nat) (state : option stateFn) (l : lexer) : list item :=
  match state, fuel with
  | Some f, S fuel' =>
    match call f l with
    | Ok (state', l') => trace fuel' state' l'
    | _ => sent (items l)
    end
  | _, _ => sent (items l)
  end.

Definition emitted (fuel : nat) (inp : gostring) : list item :=
  trace fuel (Some lexAny) (new_lexer inp).

(** The items of a run that ended. *)
Definition tokens (fuel : nat) (inp : gostring) : result (list item) :=
  l <- lex fuel inp ;; Ok (sent (items l)).

(** A newline, for the examples. *)
Definition nl : string := String (ascii_of_nat 10) EmptyString.

(* ================================================================== *)
(** ** Vocabulary of the properties *)

(** [tiles inp p its q]: the items [its] lie end to end in [inp]; the
    first begins at offset [p], each one's value is the text of [inp]
    from its position to the position of the next, and the last ends at
    offset [q]. *)
Fixpoint tiles (inp : gostring) (p : Z) (its : list item) (q : Z) : Prop :=
  match its with
  | [] => p = q
  | it :: its' =>
    item_pos it = p /\
    slice inp p (p + len (val it)) = Ok (val it) /\
    tiles inp (p + len (val it)) its' q
  end.

(** The types of item a state function can emit. *)
Definition emitter (f : stateFn) (t : itemType) : Prop :=
  match f with
  | lexHeading => t = itemHeading
  | lexHr => t = itemHr
  | lexGfmCode => t = itemGfmCodeBlock
  | lexCode => t = itemCodeBlock
  | lexText =>
    t = itemNewLine \/ t = itemText \/ In t span_order
  | lexAny | lexList => False
  end.

(** [l'] differs from [l] only in the cursor and the last width. *)
Definition same_out (l l' : lexer) : Prop :=
  input l' = input l /\ start l' = start l /\ items l' = items l.

(** The cursor of [l] stands between [pre] and [s]. *)
Definition at_cursor (l : lexer) (pre s : gostring) : Prop :=
  input l = pre ++ s /\ pos l = len pre.

(** The text begins with two newlines or with two spaces. *)
Definition starts_boundary (s : gostring) : bool :=
  match s with
  | a :: b :: _ =>
    (Byte.eqb a NL && Byte.eqb b NL) || (Byte.eqb a SP && Byte.eqb b SP)
  | _ => false
  end.

(** The shape of the text of a span, by rule: the delimiters that open
    and close it, around a body that is not empty. *)
Definition span_shape (t : itemType) (m : gostring) : Prop :=
  match t with
  | itemStrong =>
    exists d body, (d = x5f \/ d = x2a) /\ body <> [] /\
                   m = [d; d] ++ body ++ [d; d]
  | itemItalic =>
    exists d body, (d = x5f \/ d = x2a) /\ body <> [] /\
                   m = [d] ++ body ++ [d]
  | itemStrike =>
    exists body, body <> [] /\ m = [x7e; x7e] ++ body ++ [x7e; x7e]
  | itemCode =>
    exists a b body, (1 <= a <= 2)%nat /\ (1 <= b <= 2)%nat /\ body <> [] /\
                     m = repeat x60 a ++ body ++ repeat x60 b
  | _ => True
  end.

(** The text cut into its runes. *)
Fixpoint runes_fuel (fuel : nat) (s : gostring) : list gostring :=
  match fuel, s with
  | S fuel', _ :: _ =>
    let w := Z.to_nat (snd (utf8.DecodeRuneInString s)) in
    firstn w s :: runes_fuel fuel' (skipn w s)
  | _, _ => []
  end.

Definition runes (s : gostring) : list gostring := runes_fuel (length s) s.

(** One text item per piece, end to end from offset [p]. *)
Fixpoint text_items (p : Pos) (pieces : list gostring) : list item :=
  match pieces with
  | [] => []
  | r :: pieces' => mkItem itemText p r :: text_items (p + len r) pieces'
  end.

(** Bytes that neither lexAny nor lexText treats specially: not a
    newline, a space, [#], [*], [-], [_], a backtick or [~]. *)
Definition plain_byte (b : byte) : bool :=
  negb (existsb (Byte.eqb b) [x0a; x20; x23; x2a; x2d; x5f; x60; x7e]).

(** The number of newlines the text begins with. *)
Fixpoint leading_nl (s : gostring) : nat :=
  match s with
  | b :: s' => if Byte.eqb b NL then S (leading_nl s') else O
  | [] => O
  end.

(** The text does not begin with a newline. *)
Definition no_nl_ahead (s : gostring) : Prop :=
  match s with
  | [] => True
  | b :: _ => b <> NL
  end.

(** The block rules that end with [(?:\n+|$)], without that end. *)
Definition heading_front : regex :=
  Seq [BeginText; Star true (Lit c_sp); Group 1 (Between 1 6 (Lit c_hash));
       Star true (Lit c_sp); Group 2 (Plus false re_notnl);
       Star true (Lit c_sp); Star true (Lit c_hash); Star true (Lit c_sp)].

Definition hr_front : regex :=
  Seq [BeginText;
       AtLeast 3 (Group 1 (Cat (Star true (Lit c_sp))
                               (Class false [Ch c_dash; Ch c_star; Ch c_under])));
       Star true (Lit c_sp)].

Definition gfm_front (f : Z) (g : nat) : regex :=
  Seq [BeginText; AtLeast 3 (Lit f); Star true (Lit c_sp);
       Quest true (Group g (Plus true re_nws)); Star true (Lit c_sp);
       Lit c_nl; Group (S g) (Plus false re_any); Star true re_ws;
       AtLeast 3 (Lit f); Star true EndText].

(** What is known of the cursor when a state function is entered, in a
    run of the scanner: top-level scanning and the block rules start at
    the start of the pending item, and each block rule is entered at
    the characters lexAny saw. *)
Definition aligned (state : option stateFn) (l : lexer) : Prop :=
  match state with
  | Some lexAny => start l = pos l \/ len (input l) <= pos l
  | Some lexHeading =>
    exists pre t, at_cursor l pre (x23 :: t) /\ start l = pos l
  | Some lexHr =>
    exists pre c1 c2 t, at_cursor l pre (c1 :: c2 :: t) /\ start l = pos l /\
      (c1 = x2a \/ c1 = x2d) /\ (c2 = x2a \/ c2 = x2d)
  | Some lexGfmCode =>
    exists pre c f t, at_cursor l pre (c :: f :: f :: t) /\ start l = pos l /\
      (c = SP \/ c = x60 \/ c = x7e) /\ (f = x60 \/ f = x7e)
  | Some lexCode =>
    exists pre t, at_cursor l pre (SP :: t) /\ start l = pos l
  | _ => True
  end.


(** The first bytes lexAny has seen where it enters a block rule. *)
Definition entered_at (t : itemType) (s : gostring) : Prop :=
  match t with
  | itemHeading => exists u, s = x23 :: u
  | itemHr =>
    exists c1 c2 u, s = c1 :: c2 :: u /\
      (c1 = x2a \/ c1 = x2d) /\ (c2 = x2a \/ c2 = x2d)
  | itemGfmCodeBlock =>
    exists c f u, s = c :: f :: f :: u /\
      (c = SP \/ c = x60 \/ c = x7e) /\ (f = x60 \/ f = x7e)
  | _ => True
  end.

(** What is recorded of an item of a block rule that ends with the end
    of a line: at its position in the input, where lexAny entered the
    rule, the rule matches, and what the rule finds there is the value
    of the item. *)
Definition found_by_rule (inp : gostring) (it : item) : Prop :=
  typ it = itemHeading \/ typ it = itemHr \/ typ it = itemGfmCodeBlock ->
  exists pre rest,
    inp = pre ++ val it ++ rest /\ item_pos it = len pre /\
    entered_at (typ it) (val it ++ rest) /\
    MatchString (block (typ it)) (val it ++ rest) = true /\
    FindString (block (typ it)) (val it ++ rest) = val it.

(** The invariant of a run: the state function about to be called is
    entered as [aligned] says, and every item of a block rule sent so
    far is what the rule finds at the position of the item. *)
Definition run_inv (inp : gostring) (state : option stateFn) (l : lexer) : Prop :=
  input l = inp /\ aligned state l /\ Forall (found_by_rule inp) (sent (items l)).

(** The text of a horizontal rule: groups, each made of spaces and one
    marker, then spaces. *)
Definition is_hr_marker (m : byte) : Prop := m = x2d \/ m = x2a \/ m = x5f.

Definition hr_group (g : nat * byte) : gostring := repeat SP (fst g) ++ [snd g].

Definition hr_line (gs : list (nat * byte)) (t : nat) : gostring :=
  concat (map hr_group gs) ++ repeat SP t.


(** The group of the horizontal rule. *)
Definition hr_group_re : regex :=
  Group 1 (Cat (Star true (Lit c_sp))
               (Class false [Ch c_dash; Ch c_star; Ch c_under])).

(** The shape of the value of a fenced-code item with the fence
    character [f]: a fence of 3 or more [f], the rest of the first
    line, a newline, a body that is not empty, a fence of 3 or more of
    the same [f], then newlines. *)
Definition fence_shape (f : byte) (m : gostring) : Prop :=
  exists a info body b k,
    (3 <= a)%nat /\ (3 <= b)%nat /\
    Forall (fun c => c <> NL) info /\ body <> [] /\
    m = repeat f a ++ info ++ [NL] ++ body ++ repeat f b ++ repeat NL k.

(** The bytes of ASCII white space, [\s]. *)
Definition space_byte (b : byte) : bool :=
  existsb (Byte.eqb b) [x09; x0a; x0c; x0d; x20].

(** A fenced block: an opening fence of [a] characters [f], [i]
    spaces, a tag, [j] spaces, a newline, a body, and a closing fence
    of [b] characters [f]. *)
Definition fenced (f : byte) (a i : nat) (tag : gostring) (j : nat)
    (body : gostring) (b : nat) : gostring :=
  repeat f a ++ repeat SP i ++ tag ++ repeat SP j ++ [NL] ++
  body ++ repeat f b.

(** The fenced-code rule after the newline of the first line, without
    the end of the line. *)
Definition gfm_tail (f : Z) (g : nat) : regex :=
  Seq [Group (S g) (Plus false re_any); Star true re_ws;
       AtLeast 3 (Lit f); Star true EndText].

(** The group of the language tag in the fenced-code rule: the first
    group of the alternative of the fence character. *)
Definition tag_group (f : byte) : nat :=
  if Byte.eqb f x60 then 1%nat else 3%nat.

(** [extends r c c']: the submatches [c'] are [c] with bindings of
    groups of [r] added. *)
Definition extends (r : regex) (c c' : caps) : Prop :=
  exists d, c' = d ++ c /\ Forall (fun e => In (fst e) (groups r)) d.

(** A run of a pattern is sound when each of its results comes from a
    match of the pattern followed by a success of the continuation. *)
Definition sound_at (r : regex)
    (run : nat -> gostring -> caps -> kont -> option (nat * caps)) : Prop :=
  forall n s c k v,
    run n s c k = Some v ->
    exists w rest c',
      s = w ++ rest /\ matches r n w rest /\ extends r c c' /\
      k (n + length w)%nat rest c' = Some v.

(** A run of a pattern is complete when it finds a match whenever the
    pattern can consume some text after which the continuation
    succeeds whatever the submatches. *)
Definition complete_at (r : regex)
    (run : nat -> gostring -> caps -> kont -> option (nat * caps)) : Prop :=
  forall n w rest c k,
    matches r n w rest ->
    (forall c', k (n + length w)%nat rest c' <> None) ->
    run n (w ++ rest) c k <> None.

(** The items sent so far tile the input up to the start of the
    pending item. *)
Definition tiled (inp : gostring) (l : lexer) : Prop :=
  input l = inp /\ tiles inp 0 (sent (items l)) (start l).

(** Every item sent so far has a type with the property [P]. *)
Definition only_types (P : itemType -> Prop) (l : lexer) : Prop :=
  Forall (fun it => P (typ it)) (sent (items l)).

(** Two newlines, a star and the three bytes of the euro sign. *)
Definition loop_input : gostring := [NL; NL; x2a; xe2; x82; xac].



(** The group of the indented-code rule: 4 spaces, a text without
    newline that is not empty, and newlines. *)
Definition code_group : regex :=
  Group 1 (Seq [Times 4 (Lit c_sp); Plus true re_notnl; Star true (Lit c_nl)]).

(** An indented line: 4 spaces, the text of the line and the newlines
    that follow it. *)
Definition code_chunk (ch : gostring * nat) : gostring :=
  repeat SP 4 ++ fst ch ++ repeat NL (snd ch).

Definition code_text (chs : list (gostring * nat)) : gostring :=
  concat (map code_chunk chs).

(** The text of an indented line is not empty and holds no newline. *)
Definition chunk_ok (ch : gostring * nat) : Prop :=
  fst ch <> [] /\ Forall (fun b => b <> NL) (fst ch).

(** The text begins with an indented line: 4 spaces and a byte other
    than a newline. *)
Definition starts_chunk (s : gostring) : Prop :=
  exists c t, s = repeat SP 4 ++ c :: t /\ c <> NL.

(** [code_canon chs rest]: the indented lines [chs], followed by
    [rest], are cut as the rule cuts them.  Each line runs to the end
    of its line; each line but the last has its newlines, all of them;
    after the last line come all its newlines, or the end of the
    input, and then no further indented line. *)
Fixpoint code_canon (chs : list (gostring * nat)) (rest : gostring) : Prop :=
  match chs with
  | [] => ~ starts_chunk rest
  | ch :: chs' =>
    chunk_ok ch /\
    match chs' with
    | [] => (snd ch = 0%nat -> rest = []) /\ no_nl_ahead rest
    | _ :: _ => (1 <= snd ch)%nat
    end /\
    code_canon chs' rest
  end.

(** What is recorded of an indented-code item: at its position in the
    input the rule matches, and what the rule finds there is the value
    of the item. *)
Definition found_code (inp : gostring) (it : item) : Prop :=
  typ it = itemCodeBlock ->
  exists pre rest,
    inp = pre ++ val it ++ rest /\ item_pos it = len pre /\
    MatchString (block itemCodeBlock) (val it ++ rest) = true /\
    FindString (block itemCodeBlock) (val it ++ rest) = val it.

(** The invariant of a run for the indented-code rule: lexCode is
    entered where the rule matches, and every indented-code item sent
    so far is what the rule finds at the position of the item. *)
Definition code_inv (inp : gostring) (state : option stateFn) (l : lexer) : Prop :=
  run_inv inp state l /\
  (state = Some lexCode ->
   MatchString (block itemCodeBlock) (skipn (Z.to_nat (pos l)) (input l)) = true) /\
  Forall (found_code inp) (sent (items l)).

(** The input holds ASCII bytes only. *)
Definition ascii_only (s : gostring) : Prop := Forall (fun b => b2z b < 0x80) s.

(** A bound on the number of steps the machine can still take, for an
    input of ASCII bytes: 4 per byte left, and a rank of the state
    function, which orders the steps that leave the cursor where it
    is. *)
Definition state_rank (at_end : bool) (f : stateFn) : nat :=
  if at_end then
    match f with lexAny => 1 | lexText => 2 | _ => 3 end
  else
    match f with lexText => 0 | lexAny => 2 | _ => 1 end.

Definition steps_left (st : option stateFn) (l : lexer) : nat :=
  match st with
  | None => 0
  | Some f =>
    let d := Z.to_nat (len (input l) - pos l) in
    4 * d + state_rank (Nat.eqb d 0) f
  end.

(** What a run on ASCII input keeps: the input, and that lexCode is
    entered where its rule matches. *)
Definition ascii_inv (st : option stateFn) (l : lexer) : Prop :=
  ascii_only (input l) /\
  (st = Some lexCode ->
   MatchString (block itemCodeBlock) (skipn (Z.to_nat (pos l)) (input l)) = true).

(** The start of the pending item and the cursor are in the input, in
    that order. *)
Definition in_bounds (l : lexer) : Prop :=
  0 <= start l <= pos l /\ pos l <= len (input l).

(** The bytes after which lexAny takes its two-byte lookahead. *)
Definition fence_or_space (c : byte) : Prop := c = SP \/ c = x60 \/ c = x7e.

(** The last two bytes of a text (all of it when it is shorter). *)
Definition last_two (s : gostring) : gostring := skipn (length s - 2) s.

(** Inputs on which lexAny reads a star or a dash and peeks at a rune
    of several bytes: a rule or a heading or a break, then the marker
    and the rune. *)
Definition euro : gostring := [xe2; x82; xac].          (* U+20AC *)
Definition clef : gostring := [xf0; x9d; x84; x9e].     (* U+1D11E *)
Definition e_acute : gostring := [xc3; xa9].            (* U+00E9 *)

Definition rule_dash_euro : gostring := bs "***" ++ [NL] ++ bs "-" ++ euro.
Definition rule_star_euro : gostring := bs "***" ++ [NL] ++ bs "*" ++ euro.
Definition heading_star_clef : gostring :=
  bs "# a" ++ [NL; NL; NL] ++ bs "*" ++ clef.
Definition break_star_e_acute : gostring :=
  bs "ab" ++ [NL; NL] ++ bs "*" ++ e_acute.

(** What a call of the rule for [t] does to the items: it returns
    lexText and leaves the scanner as it was, or it returns lexAny and
    has sent one item of type [t] at the start of the pending item. *)
Definition sent_by_rule (t : itemType) (l : lexer) (st : option stateFn)
    (l' : lexer) : Prop :=
  (st = Some lexText /\ l' = l) \/
  (st = Some lexAny /\
   exists v, sent (items l') = sent (items l) ++ [mkItem t (start l) v]).

(** The pattern of a span that opens and closes with [j + 1] copies of
    the delimiter [d] around a text that is not empty and is taken as
    short as possible: [^d{j+1}([\s\S]+?)d{j+1}] with group [g]. *)
Definition delimited (d : Z) (j g : nat) : regex :=
  Seq [BeginText; Times (S j) (Lit d); Group g (Plus false re_any);
       Times (S j) (Lit d)].

(** A byte of a word: ASCII, not of the class [\s], not a backtick. *)
Definition word_byte (c : byte) : Prop :=
  b2z c < 0x80 /\ is_space (b2z c) = false /\ c <> x60.

(** A round of lexText that sends the item of type [t] and value [m]
    at the start of the pending item, leaves the cursor after [m] and
    stays in the text run. *)
Definition sends_in_run (l : lexer) (t : itemType) (m : gostring) : Prop :=
  exists w',
    call lexText l =
      Ok (Some lexText,
          mkLexer (input l) (pos l + len m) (pos l + len m) w'
            (mkChan (sent (items l) ++ [mkItem t (start l) m])
                    (closed (items l)))).

(** The state function to call next and the scanner after [n] steps of
    the machine from [st] and [l] (fewer when [nil] is reached
    before), when none of these steps panics. *)
Fixpoint steps (n : nat) (st : option stateFn) (l : lexer)
  : result (option stateFn * lexer) :=
  match n, st with
  | S n', Some f => '(st', l') <- call f l ;; steps n' st' l'
  | _, _ => Ok (st, l)
  end.
(* ================================================================== *)
(** * Properties *)

(** ** Bytes and UTF-8 decoding *)

Lemma b2z_range (b : byte) : 0 <= b2z b < 256.
Proof.
  unfold b2z. pose proof (Byte.to_N_bounded b). lia.
Qed.

Lemma len_nonneg (s : gostring) : 0 <= len s.
Proof. unfold len. lia. Qed.

Lemma len_app (a b : gostring) : len (a ++ b) = len a + len b.
Proof. unfold len. rewrite length_app. lia. Qed.

Lemma len_cons (x : byte) (s : gostring) : len (x :: s) = 1 + len s.
Proof. unfold len. simpl length. lia. Qed.

Module utf8_facts.
Import utf8.

(** What the table [first] holds, by ranges of the first byte. *)
Lemma first_cases (b : Z) :
  (b < 0x80 /\ first b = as_) \/
  (0x80 <= b /\ first b = xx) \/
  (0xC2 <= b < 0xE0 /\ first b = s1) \/
  (b = 0xE0 /\ first b = s2) \/
  (0xE1 <= b < 0xF0 /\ b <> 0xED /\ first b = s3) \/
  (b = 0xED /\ first b = s4) \/
  (b = 0xF0 /\ first b = s5) \/
  (0xF1 <= b < 0xF4 /\ first b = s6) \/
  (b = 0xF4 /\ first b = s7).
Proof.
  unfold first.
  repeat match goal with
  | |- context [if ?c then _ else _] =>
      let E := fresh "E" in destruct c eqn:E
  end; lia.
Qed.

Lemma lor_lower (a b : Z) : 0 <= b -> a <= Z.lor a b.
Proof.
  intros Hb. pose proof (Z.sub_lor_l_same_l b a) as H.
  assert (0 <= Z.land b (Z.lnot a)) by (apply Z.land_nonneg; lia).
  lia.
Qed.

Lemma land_mask_nonneg (a m : Z) : 0 <= m -> 0 <= Z.land a m.
Proof. intros. apply Z.land_nonneg. lia. Qed.

Lemma shl_nonneg (a n : Z) : 0 <= a -> 0 <= Z.shiftl a n.
Proof. intros. apply Z.shiftl_nonneg. lia. Qed.

(** The width of a decoded rune. *)
Lemma decode_width (s : gostring) :
  s <> [] -> 1 <= snd (DecodeRuneInString s) <= len s.
Proof.
  intros Hs. unfold DecodeRuneInString.
  destruct s as [|c0 [|c1 [|c2 [|c3 t]]]]; [congruence | ..];
  repeat match goal with
  | |- context [if ?c then _ else _] => destruct c
  end; cbn [snd]; unfold len; cbn [length]; lia.
Qed.

Lemma decode_nil : DecodeRuneInString [] = (RuneError, 0).
Proof. reflexivity. Qed.

(** An ASCII byte decodes to itself. *)
Lemma decode_ascii (c : byte) (t : gostring) :
  b2z c < 0x80 -> DecodeRuneInString (c :: t) = (b2z c, 1).
Proof.
  intros Hc. unfold DecodeRuneInString.
  destruct (first_cases (b2z c)) as [[_ E]|H].
  - rewrite E. change (as_ <=? as_) with true. cbv iota.
    change (Z.shiftr (wrap32 (Z.shiftl as_ 31)) 31) with 0.
    change (Z.lnot 0) with (-1). rewrite Z.land_m1_r, Z.land_0_r, Z.lor_0_r.
    reflexivity.
  - exfalso. repeat destruct H as [H|H]; lia.
Qed.

Ltac ev t := let v := eval vm_compute in t in change t with v.

(** Evaluate the table look-ups once the entry of [first] is known. *)
Ltac decode_consts e :=
  ev (as_ <=? e); cbv iota;
  try (ev (Z.land e 7); ev (acceptRanges (Z.shiftr e 4)); cbn [fst snd]);
  try (ev (Z.shiftr (wrap32 (Z.shiftl e 31)) 31)).

Ltac split_ifs :=
  repeat match goal with
  | |- context [if ?c then _ else _] =>
      let E := fresh "E" in destruct c eqn:E
  | |- context [match ?l with [] => _ | _ :: _ => _ end] =>
      destruct l
  end.

Lemma land_ones' (a : Z) (n : Z) (m : Z) :
  0 <= n -> m = Z.ones n -> Z.land a m = a mod 2 ^ n.
Proof. intros Hn ->. apply Z.land_ones. exact Hn. Qed.

Ltac bits :=
  unfold maskx, mask2, mask3, mask4, locb, hicb in *;
  repeat match goal with
  | |- context [Z.land ?a 63] => rewrite (land_ones' a 6 63) by (reflexivity || lia)
  | |- context [Z.land ?a 31] => rewrite (land_ones' a 5 31) by (reflexivity || lia)
  | |- context [Z.land ?a 15] => rewrite (land_ones' a 4 15) by (reflexivity || lia)
  | |- context [Z.land ?a 7] => rewrite (land_ones' a 3 7) by (reflexivity || lia)
  | |- context [Z.shiftl ?a ?n] => rewrite (Z.shiftl_mul_pow2 a n) by lia
  end.

Lemma lor2_lower (a b : Z) :
  0 <= a -> 0 <= b -> a <= Z.lor a b /\ b <= Z.lor a b.
Proof.
  intros Ha Hb. split; [apply lor_lower; exact Hb|].
  rewrite Z.lor_comm. apply lor_lower; exact Ha.
Qed.

Lemma lor3_lower (a b c : Z) :
  0 <= a -> 0 <= b -> 0 <= c ->
  a <= Z.lor (Z.lor a b) c /\ b <= Z.lor (Z.lor a b) c.
Proof.
  intros Ha Hb Hc. destruct (lor2_lower a b Ha Hb).
  pose proof (lor_lower (Z.lor a b) c Hc). lia.
Qed.

Lemma lor4_lower (a b c d : Z) :
  0 <= a -> 0 <= b -> 0 <= c -> 0 <= d ->
  a <= Z.lor (Z.lor (Z.lor a b) c) d /\ b <= Z.lor (Z.lor (Z.lor a b) c) d.
Proof.
  intros Ha Hb Hc Hd. destruct (lor3_lower a b c Ha Hb Hc).
  pose proof (lor_lower (Z.lor (Z.lor a b) c) d Hd). lia.
Qed.

Ltac lor_bound :=
  bits;
  change (2 ^ 3) with 8; change (2 ^ 4) with 16; change (2 ^ 5) with 32;
  change (2 ^ 6) with 64; change (2 ^ 12) with 4096; change (2 ^ 18) with 262144;
  match goal with
  | |- _ <= Z.lor (Z.lor (Z.lor ?a ?b) ?c) ?d => pose proof (lor4_lower a b c d)
  | |- _ <= Z.lor (Z.lor ?a ?b) ?c => pose proof (lor3_lower a b c)
  | |- _ <= Z.lor ?a ?b => pose proof (lor2_lower a b)
  end;
  repeat match goal with
  | c : byte |- _ => pose proof (b2z_range c); generalize dependent (b2z c); clear c; intros
  end;
  Z.div_mod_to_equations; lia.

(** A rune that begins with a non-ASCII byte is not an ASCII rune. *)
Lemma decode_high (c0 : byte) (t : gostring) :
  0x80 <= b2z c0 -> 0x80 <= fst (DecodeRuneInString (c0 :: t)).
Proof.
  intros Hc. unfold DecodeRuneInString.
  destruct (first_cases (b2z c0))
    as [[H E]|[[H E]|[[H E]|[[H E]|[[H [H' E]]|[[H E]|[[H E]|[[H E]|[H E]]]]]]]]];
    rewrite E;
    [ decode_consts as_ | decode_consts xx | decode_consts s1 | decode_consts s2
    | decode_consts s3 | decode_consts s4 | decode_consts s5 | decode_consts s6
    | decode_consts s7 ];
    try lia;
    try (cbn [fst]; ev (Z.lnot (-1)); rewrite Z.land_0_r, Z.land_m1_r;
         vm_compute; congruence);
    clear E; split_ifs; cbn [fst]; try (vm_compute; congruence); lor_bound.
Qed.

(** The bytes of a rune of width two or more are all non-ASCII. *)
Lemma decode_multi (s : gostring) :
  2 <= snd (DecodeRuneInString s) ->
  Forall (fun b => 0x80 <= b2z b)
         (firstn (Z.to_nat (snd (DecodeRuneInString s))) s).
Proof.
  unfold DecodeRuneInString. destruct s as [|c0 t]; [cbn; lia|].
  destruct (first_cases (b2z c0))
    as [[H E]|[[H E]|[[H E]|[[H E]|[[H [H' E]]|[[H E]|[[H E]|[[H E]|[H E]]]]]]]]];
    rewrite E;
    [ decode_consts as_ | decode_consts xx | decode_consts s1 | decode_consts s2
    | decode_consts s3 | decode_consts s4 | decode_consts s5 | decode_consts s6
    | decode_consts s7 ];
    try (cbn [snd]; lia);
    clear E; split_ifs; cbn [snd]; try lia; intros _;
    cbn [Z.to_nat Pos.to_nat Pos.iter_op Nat.add firstn];
    unfold locb, hicb in *;
    repeat (constructor; try lia).
Qed.

(** An ASCII rune is a single byte, equal to the rune. *)
Lemma decode_ascii_inv (s : gostring) (r w : Z) :
  s <> [] -> DecodeRuneInString s = (r, w) -> r < 0x80 ->
  exists c t, s = c :: t /\ b2z c = r /\ w = 1.
Proof.
  intros Hs Hd Hr. destruct s as [|c t]; [congruence|].
  exists c, t. destruct (Z.lt_ge_cases (b2z c) 0x80) as [Hc|Hc].
  - rewrite decode_ascii in Hd by exact Hc. inversion Hd; subst. auto.
  - pose proof (decode_high c t Hc) as Hh. rewrite Hd in Hh. cbn [fst] in Hh. lia.
Qed.

(** A rune does not run over a following ASCII byte. *)
Lemma decode_no_cross (a b : gostring) :
  a <> [] ->
  match b with [] => True | c :: _ => b2z c < 0x80 end ->
  snd (DecodeRuneInString (a ++ b)) <= len a.
Proof.
  intros Ha Hb.
  assert (Hne : a ++ b <> []) by (destruct a; [congruence|discriminate]).
  pose proof (decode_width _ Hne) as Hw.
  destruct (Z.le_gt_cases (snd (DecodeRuneInString (a ++ b))) (len a)) as [Hle|Hgt];
    [exact Hle|exfalso].
  assert (H2 : 2 <= snd (DecodeRuneInString (a ++ b))).
  { destruct a; [congruence|]. rewrite len_cons in Hgt. pose proof (len_nonneg a). lia. }
  pose proof (decode_multi _ H2) as Hall.
  destruct b as [|c b'].
  - rewrite app_nil_r in *. lia.
  - rewrite Forall_forall in Hall.
    assert (Hin : In c (firstn (Z.to_nat (snd (DecodeRuneInString (a ++ c :: b')))) (a ++ c :: b'))).
    { rewrite firstn_app. apply in_or_app. right.
      replace (Z.to_nat (snd (DecodeRuneInString (a ++ c :: b'))) - length a)%nat
        with (S (Z.to_nat (snd (DecodeRuneInString (a ++ c :: b'))) - length a - 1))%nat
        by (unfold len in Hgt; lia).
      cbn [firstn]. left. reflexivity. }
    apply Hall in Hin. lia.
Qed.

(** An ASCII byte among the bytes of a rune is the whole rune. *)
Lemma decode_has_ascii (s : gostring) (c : byte) :
  s <> [] -> b2z c < 0x80 ->
  In c (firstn (Z.to_nat (snd (DecodeRuneInString s))) s) ->
  DecodeRuneInString s = (b2z c, 1).
Proof.
  intros Hs Hc Hin.
  pose proof (decode_width _ Hs) as Hw.
  destruct (Z.le_gt_cases 2 (snd (DecodeRuneInString s))) as [H2|H1].
  - pose proof (decode_multi _ H2) as Hall. rewrite Forall_forall in Hall.
    apply Hall in Hin. lia.
  - assert (E : snd (DecodeRuneInString s) = 1) by lia. rewrite E in Hin.
    destruct s as [|c0 t]; [congruence|]. cbn in Hin. destruct Hin as [->|[]].
    apply decode_ascii. exact Hc.
Qed.

End utf8_facts.

(* ================================================================== *)
(** ** The regular-expression matcher *)

Module regexp_facts.
Import regexp.

Lemma orelse_some {A : Type} (x y : option A) (v : A) :
  orelse x y = Some v -> x = Some v \/ (x = None /\ y = Some v).
Proof. destruct x; cbn; intros H; [left; exact H | right; auto]. Qed.

Lemma orelse_none {A : Type} (x y : option A) :
  orelse x y = None <-> x = None /\ y = None.
Proof. destruct x; cbn; split; intros H; try tauto; try discriminate; destruct H; discriminate. Qed.

Lemma skipn_len_app (w rest : gostring) :
  skipn (Z.to_nat (len w)) (w ++ rest) = rest.
Proof.
  unfold len. rewrite Nat2Z.id, skipn_app, skipn_all, Nat.sub_diag. reflexivity.
Qed.

Lemma split_at (s : gostring) (w : Z) :
  0 <= w <= len s ->
  s = firstn (Z.to_nat w) s ++ skipn (Z.to_nat w) s /\
  len (firstn (Z.to_nat w) s) = w.
Proof.
  intros H. split; [symmetry; apply firstn_skipn|].
  unfold len in *. rewrite length_firstn. lia.
Qed.

(** *** Soundness: a result of [exec] comes from a match of the pattern
    followed by a success of the continuation; the submatches are
    extended by bindings of groups of the pattern only. *)

Lemma extends_refl r c : extends r c c.
Proof. exists []. split; [reflexivity | constructor]. Qed.

Lemma extends_weaken (r r' : regex) c c' :
  (forall i, In i (groups r) -> In i (groups r')) ->
  extends r c c' -> extends r' c c'.
Proof.
  intros Hsub (d & -> & Hd). exists d. split; [reflexivity|].
  eapply Forall_impl; [|exact Hd]. cbn. intros e He. apply Hsub, He.
Qed.

Lemma extends_trans (r : regex) c1 c2 c3 :
  extends r c1 c2 -> extends r c2 c3 -> extends r c1 c3.
Proof.
  intros (d1 & -> & H1) (d2 & -> & H2). exists (d2 ++ d1).
  rewrite app_assoc. split; [reflexivity|]. apply Forall_app. auto.
Qed.

Lemma step_sound neg items :
  sound_at (Class neg items) (step (class_match neg items)).
Proof.
  intros n s c k v H. unfold step in H.
  destruct s as [|b s']; [discriminate|].
  destruct (utf8.DecodeRuneInString (b :: s')) as [r w] eqn:D.
  destruct (class_match neg items r) eqn:Hc; [|discriminate].
  assert (Hne : b :: s' <> []) by discriminate.
  pose proof (utf8_facts.decode_width _ Hne) as Hw. rewrite D in Hw. cbn [snd] in Hw.
  destruct (split_at (b :: s') w ltac:(lia)) as [Hs Hl].
  exists (firstn (Z.to_nat w) (b :: s')), (skipn (Z.to_nat w) (b :: s')), c.
  split; [exact Hs|]. split.
  - econstructor.
    + intros E. rewrite E in Hl. unfold len in Hl. cbn in Hl. lia.
    + rewrite <- Hs, Hl. exact D.
    + exact Hc.
  - split; [apply extends_refl|].
    replace (length (firstn (Z.to_nat w) (b :: s'))) with (Z.to_nat w)
      by (unfold len in Hl; lia).
    exact H.
Qed.

Lemma star_sound g a body :
  sound_at a body ->
  forall fuel, sound_at (Star g a) (star_loop body g fuel).
Proof.
  intros Hb fuel. induction fuel as [|fuel IH]; intros n s c k v H.
  - cbn in H. exists [], s, c. rewrite Nat.add_0_r.
    repeat split; [constructor | apply extends_refl | exact H].
  - cbn in H.
    assert (Hcases :
      k n s c = Some v \/
      body n s c (fun n' s' c' =>
        if (n <? n')%nat then star_loop body g fuel n' s' c' k else None) = Some v).
    { destruct g; apply orelse_some in H; tauto. }
    destruct Hcases as [Hk|Hm].
    + exists [], s, c. rewrite Nat.add_0_r.
      repeat split; [constructor | apply extends_refl | exact Hk].
    + apply Hb in Hm. destruct Hm as (w1 & rest1 & c1 & -> & Hm1 & He1 & Hk1).
      destruct (n <? n + length w1)%nat eqn:Hlt; [|discriminate].
      apply Nat.ltb_lt in Hlt.
      apply IH in Hk1. destruct Hk1 as (w2 & rest & c2 & -> & Hm2 & He2 & Hk2).
      exists (w1 ++ w2), rest, c2. rewrite <- app_assoc. split; [reflexivity|].
      split.
      { constructor; [destruct w1; [cbn in Hlt; lia | discriminate] | exact Hm1 | exact Hm2]. }
      split.
      { eapply extends_trans; [|exact He2].
        eapply extends_weaken; [|exact He1]. cbn. auto. }
      rewrite length_app, Nat.add_assoc. exact Hk2.
Qed.

Theorem exec_sound (r : regex) : sound_at r (exec r).
Proof.
  induction r as [ | | | neg items | a IHa b IHb | a IHa b IHb | g a IHa | i a IHa ];
    intros n s c k v H; cbn [exec] in H.
  - exists [], s, c. rewrite Nat.add_0_r.
    repeat split; [constructor | apply extends_refl | exact H].
  - destruct (Nat.eqb n 0) eqn:E; [|discriminate]. apply Nat.eqb_eq in E. subst n.
    exists [], s, c. repeat split; [constructor | apply extends_refl | exact H].
  - destruct s; [|discriminate]. exists [], [], c. rewrite Nat.add_0_r.
    repeat split; [constructor | apply extends_refl | exact H].
  - apply step_sound in H. exact H.
  - apply IHa in H. destruct H as (w1 & rest1 & c1 & -> & Hm1 & He1 & Hk1).
    apply IHb in Hk1. destruct Hk1 as (w2 & rest & c2 & -> & Hm2 & He2 & Hk2).
    exists (w1 ++ w2), rest, c2. rewrite <- app_assoc. split; [reflexivity|].
    split; [constructor; assumption|]. split.
    + eapply extends_trans.
      * eapply extends_weaken; [|exact He1]. cbn. intros; apply in_or_app; auto.
      * eapply extends_weaken; [|exact He2]. cbn. intros; apply in_or_app; auto.
    + rewrite length_app, Nat.add_assoc. exact Hk2.
  - apply orelse_some in H. destruct H as [H|[_ H]].
    + apply IHa in H. destruct H as (w & rest & c' & -> & Hm & He & Hk).
      exists w, rest, c'. repeat split; [apply M_AltL; exact Hm | | exact Hk].
      eapply extends_weaken; [|exact He]. cbn. intros; apply in_or_app; auto.
    + apply IHb in H. destruct H as (w & rest & c' & -> & Hm & He & Hk).
      exists w, rest, c'. repeat split; [apply M_AltR; exact Hm | | exact Hk].
      eapply extends_weaken; [|exact He]. cbn. intros; apply in_or_app; auto.
  - eapply star_sound in H; [exact H | exact IHa].
  - apply IHa in H. destruct H as (w & rest & c' & -> & Hm & He & Hk).
    exists w, rest, ((i, (n, n + length w)%nat) :: c').
    repeat split; [constructor; exact Hm | | exact Hk].
    destruct He as (d & -> & Hd). exists ((i, (n, (n + length w)%nat)) :: d).
    split; [reflexivity|]. constructor; [cbn; auto|].
    eapply Forall_impl; [|exact Hd]. cbn. auto.
Qed.

(** *** Completeness: if the pattern can consume [w] and the
    continuation then succeeds whatever the submatches, [exec] finds a
    match (possibly another one, of higher priority). *)

Lemma star_complete g a body :
  complete_at a body ->
  forall fuel n w rest c k,
    matches (Star g a) n w rest ->
    (length w < fuel)%nat ->
    (forall c', k (n + length w)%nat rest c' <> None) ->
    star_loop body g fuel n (w ++ rest) c k <> None.
Proof.
  intros Hb fuel. induction fuel as [|fuel IH]; intros n w rest c k Hm Hf Hk; [lia|].
  cbn [star_loop].
  inversion Hm as [ | | | | | | | g' a' n' rest' | g' a' n' w1 w2 rest' Hne H1 H2 | ]; subst.
  - specialize (Hk c). rewrite Nat.add_0_r in Hk. cbn [app].
    destruct g; rewrite orelse_none; tauto.
  - assert (Hmore :
      body n ((w1 ++ w2) ++ rest) c (fun n' s' c' =>
        if (n <? n')%nat then star_loop body g fuel n' s' c' k else None) <> None).
    { rewrite <- app_assoc. apply Hb; [exact H1|]. intros c'.
      assert (Hlt : (n <? n + length w1)%nat = true).
      { apply Nat.ltb_lt. destruct w1; [congruence | cbn; lia]. }
      rewrite Hlt. apply IH; [exact H2 | |].
      - rewrite length_app in Hf. destruct w1; [congruence | cbn in Hf; lia].
      - intros c''. rewrite <- Nat.add_assoc, <- length_app. apply Hk. }
    destruct g; rewrite orelse_none; tauto.
Qed.

Theorem exec_complete (r : regex) : complete_at r (exec r).
Proof.
  induction r as [ | | | neg items | a IHa b IHb | a IHa b IHb | g a IHa | i a IHa ];
    intros n w rest c k Hm Hk; cbn [exec].
  - inversion Hm; subst. specialize (Hk c). rewrite Nat.add_0_r in Hk. exact Hk.
  - inversion Hm; subst. cbn. apply Hk.
  - inversion Hm; subst. cbn. specialize (Hk c). rewrite Nat.add_0_r in Hk. exact Hk.
  - inversion Hm as [ | | | neg' items' n' w' rest' r Hne Hd Hc | | | | | | ]; subst.
    unfold step. destruct (w ++ rest) as [|b s'] eqn:E.
    { destruct w; [congruence | discriminate]. }
    rewrite Hd, Hc, <- E, skipn_len_app.
    unfold len. rewrite Nat2Z.id. apply Hk.
  - inversion Hm as [ | | | | a' b' n' w1 w2 rest' H1 H2 | | | | | ]; subst.
    rewrite <- app_assoc. apply IHa; [exact H1|]. intros c'.
    apply IHb; [exact H2|]. intros c''.
    rewrite <- Nat.add_assoc, <- length_app. apply Hk.
  - rewrite orelse_none. intros [Ha Hb].
    inversion Hm; subst.
    + revert Ha. apply IHa; assumption.
    + revert Hb. apply IHb; assumption.
  - eapply star_complete; [exact IHa | exact Hm | | exact Hk].
    rewrite length_app. lia.
  - inversion Hm; subst. apply IHa; [assumption|]. intros c'. apply Hk.
Qed.

(** *** Anchored patterns match at the first byte or not at all *)

Lemma exec_anchored (r : regex) :
  anchored r = true ->
  forall n s c k, (0 < n)%nat -> exec r n s c k = None.
Proof.
  induction r as [ | | | neg items | a IHa b IHb | a IHa b IHb | g a IHa | i a IHa ];
    cbn [anchored]; intros Ha n s c k Hn; try discriminate; cbn [exec].
  - destruct n; [lia | reflexivity].
  - apply IHa; assumption.
  - apply andb_prop in Ha. destruct Ha as [H1 H2].
    rewrite IHa, IHb by assumption. reflexivity.
  - apply IHa; assumption.
Qed.

Lemma search_anchored (r : regex) :
  anchored r = true ->
  forall fuel n s, (0 < n)%nat -> search r fuel n s = None.
Proof.
  intros Ha fuel. induction fuel as [|fuel IH]; intros n s Hn; cbn [search];
    rewrite (exec_anchored r Ha) by exact Hn.
  - reflexivity.
  - destruct s; [reflexivity|]. apply IH. lia.
Qed.

Lemma find_anchored (r : regex) (s : gostring) :
  anchored r = true ->
  find r s =
    match match_here r s with
    | Some (e, c) => Some (0%nat, e, c)
    | None => None
    end.
Proof.
  intros Ha. unfold find, match_here.
  destruct (length s) as [|fuel] eqn:El; cbn [search];
    destruct (exec r 0 s [] accept) as [[e c]|]; try reflexivity.
  destruct s as [|b s']; [reflexivity|].
  apply search_anchored; [exact Ha|].
  assert (Hne : b :: s' <> []) by discriminate.
  pose proof (utf8_facts.decode_width _ Hne). lia.
Qed.

(** A match at the first byte is a match of the pattern, of a prefix of
    the text. *)
Lemma match_here_sound (r : regex) (s : gostring) (e : nat) (c : caps) :
  match_here r s = Some (e, c) ->
  exists w rest, s = w ++ rest /\ e = length w /\ matches r 0%nat w rest.
Proof.
  unfold match_here. intros H. apply exec_sound in H.
  destruct H as (w & rest & c' & Hs & Hm & _ & Hk).
  unfold accept in Hk. inversion Hk; subst. exists w, rest. auto.
Qed.

Lemma match_here_complete (r : regex) (w rest : gostring) :
  matches r 0%nat w rest -> match_here r (w ++ rest) <> None.
Proof.
  intros Hm. unfold match_here. apply exec_complete; [exact Hm|].
  intros c'. unfold accept. discriminate.
Qed.

Lemma FindString_anchored (r : regex) (s : gostring) :
  anchored r = true ->
  FindString r s =
    match match_here r s with
    | Some (e, _) => firstn e s
    | None => []
    end.
Proof.
  intros Ha. unfold FindString. rewrite (find_anchored r s Ha).
  destruct (match_here r s) as [[e c]|]; [|reflexivity].
  rewrite Nat.sub_0_r. reflexivity.
Qed.

Lemma MatchString_anchored (r : regex) (s : gostring) :
  anchored r = true ->
  MatchString r s = match match_here r s with Some _ => true | None => false end.
Proof.
  intros Ha. unfold MatchString. rewrite (find_anchored r s Ha).
  destruct (match_here r s) as [[e c]|]; reflexivity.
Qed.

(** What FindString returns for an anchored pattern is a prefix of the
    text, and a match of the pattern when it is not empty. *)
Lemma FindString_prefix (r : regex) (s : gostring) :
  anchored r = true ->
  exists rest, s = FindString r s ++ rest /\
    (FindString r s <> [] -> matches r 0%nat (FindString r s) rest).
Proof.
  intros Ha. rewrite (FindString_anchored r s Ha).
  destruct (match_here r s) as [[e c]|] eqn:E.
  - apply match_here_sound in E. destruct E as (w & rest & -> & -> & Hm).
    exists rest. rewrite firstn_app, firstn_all, Nat.sub_diag. cbn. rewrite app_nil_r. auto.
  - exists s. split; [reflexivity | congruence].
Qed.

(** If the pattern matches [w] here, FindString finds a match. *)
Lemma MatchString_complete (r : regex) (w rest : gostring) :
  anchored r = true -> matches r 0%nat w rest ->
  MatchString r (w ++ rest) = true.
Proof.
  intros Ha Hm. rewrite (MatchString_anchored _ _ Ha).
  pose proof (match_here_complete r w rest Hm).
  destruct (match_here r (w ++ rest)); [reflexivity | congruence].
Qed.

Lemma MatchString_sound (r : regex) (s : gostring) :
  anchored r = true -> MatchString r s = true ->
  exists w rest, s = w ++ rest /\ FindString r s = w /\ matches r 0%nat w rest.
Proof.
  intros Ha H. rewrite (MatchString_anchored _ _ Ha) in H.
  rewrite (FindString_anchored _ _ Ha).
  destruct (match_here r s) as [[e c]|] eqn:E; [|discriminate].
  apply match_here_sound in E. destruct E as (w & rest & -> & -> & Hm).
  exists w, rest. rewrite firstn_app, firstn_all, Nat.sub_diag. cbn.
  rewrite app_nil_r. auto.
Qed.

End regexp_facts.

(* ================================================================== *)
(** ** Reading a match of a pattern *)

Module shape_facts.
Import regexp utf8_facts regexp_facts.

Lemma b2z_inj (a b : byte) : b2z a = b2z b -> a = b.
Proof.
  unfold b2z. intros H. apply N2Z.inj in H.
  pose proof (Byte.of_to_N a) as Ha. pose proof (Byte.of_to_N b) as Hb.
  rewrite H in Ha. congruence.
Qed.

Lemma matches_Empty_inv n w rest : matches Empty n w rest -> w = [].
Proof. intros H. inversion H. reflexivity. Qed.

Lemma matches_BeginText_inv n w rest : matches BeginText n w rest -> w = [] /\ n = 0%nat.
Proof. intros H. inversion H. auto. Qed.

Lemma matches_EndText_inv n w rest : matches EndText n w rest -> w = [] /\ rest = [].
Proof. intros H. inversion H. auto. Qed.

Lemma matches_Cat_inv a b n w rest :
  matches (Cat a b) n w rest ->
  exists w1 w2, w = w1 ++ w2 /\ matches a n w1 (w2 ++ rest) /\
                matches b (n + length w1)%nat w2 rest.
Proof. intros H. inversion H; subst. eauto. Qed.

Lemma matches_Alt_inv a b n w rest :
  matches (Alt a b) n w rest -> matches a n w rest \/ matches b n w rest.
Proof. intros H. inversion H; subst; auto. Qed.

Lemma matches_Group_inv i a n w rest :
  matches (Group i a) n w rest -> matches a n w rest.
Proof. intros H. inversion H; subst; auto. Qed.

Lemma matches_Star_inv g a n w rest :
  matches (Star g a) n w rest ->
  w = [] \/
  exists w1 w2, w = w1 ++ w2 /\ w1 <> [] /\ matches a n w1 (w2 ++ rest) /\
                matches (Star g a) (n + length w1)%nat w2 rest.
Proof. intros H. inversion H; subst; eauto 10. Qed.

(** One rune of a class: the bytes consumed are the first rune of the
    text, and the class accepts it. *)
Lemma matches_Class_inv neg items n w rest :
  matches (Class neg items) n w rest ->
  w <> [] /\
  exists r, utf8.DecodeRuneInString (w ++ rest) = (r, len w) /\
            class_match neg items r = true.
Proof. intros H. inversion H; subst. eauto. Qed.

(** A literal ASCII character is one byte. *)
Lemma matches_Lit_inv (b : byte) n w rest :
  b2z b < 0x80 -> matches (Lit (b2z b)) n w rest -> w = [b].
Proof.
  intros Hb H. apply matches_Class_inv in H. destruct H as (Hne & r & D & Hc).
  unfold class_match in Hc. cbn in Hc. rewrite orb_false_r in Hc.
  apply Z.eqb_eq in Hc. subst r.
  assert (Hne' : w ++ rest <> []) by (destruct w; [congruence | discriminate]).
  destruct (decode_ascii_inv _ _ _ Hne' D Hb) as (c & t & Hs & Hc & Hl).
  apply b2z_inj in Hc. subst c.
  destruct w as [|x [|y w']]; [congruence | | unfold len in Hl; cbn in Hl; lia].
  cbn in Hs. inversion Hs. reflexivity.
Qed.

Lemma matches_Lit_intro (b : byte) n rest :
  b2z b < 0x80 -> matches (Lit (b2z b)) n [b] rest.
Proof.
  intros Hb. unfold Lit. apply M_Class with (r := b2z b).
  - discriminate.
  - cbn [app]. rewrite decode_ascii by exact Hb. reflexivity.
  - unfold class_match. cbn. rewrite Z.eqb_refl. reflexivity.
Qed.

(** Repetitions of a literal. *)
Lemma matches_Star_Lit_inv (b : byte) g n w rest :
  b2z b < 0x80 -> matches (Star g (Lit (b2z b))) n w rest ->
  exists k, w = repeat b k.
Proof.
  intros Hb H. remember (Star g (Lit (b2z b))) as r eqn:Er.
  induction H; try discriminate; inversion Er; subst.
  - exists 0%nat. reflexivity.
  - apply matches_Lit_inv in H0; [|exact Hb]. subst w1.
    destruct (IHmatches2 eq_refl) as [k ->]. exists (S k). reflexivity.
Qed.

Lemma matches_Star_Lit_intro (b : byte) g k n rest :
  b2z b < 0x80 -> matches (Star g (Lit (b2z b))) n (repeat b k) rest.
Proof.
  intros Hb. revert n. induction k as [|k IH]; intros n; cbn [repeat].
  - constructor.
  - change (b :: repeat b k) with ([b] ++ repeat b k).
    constructor; [discriminate | apply matches_Lit_intro; exact Hb | apply IH].
Qed.

(** Every rune consumed by a repetition of a class is made of bytes
    with the property [P], when the class only accepts such runes. *)
Lemma matches_Star_Class_inv (P : byte -> Prop) neg items g n w rest :
  (forall s r, s <> [] ->
     class_match neg items r = true ->
     utf8.DecodeRuneInString s = (r, snd (utf8.DecodeRuneInString s)) ->
     Forall P (firstn (Z.to_nat (snd (utf8.DecodeRuneInString s))) s)) ->
  matches (Star g (Class neg items)) n w rest -> Forall P w.
Proof.
  intros HP H. remember (Star g (Class neg items)) as r eqn:Er.
  induction H; try discriminate; inversion Er; subst.
  - constructor.
  - apply Forall_app. split; [|apply IHmatches2; reflexivity].
    apply matches_Class_inv in H0. destruct H0 as (Hne & r & D & Hc).
    assert (Hne' : w1 ++ w2 ++ rest <> []) by (destruct w1; [congruence | discriminate]).
    specialize (HP (w1 ++ w2 ++ rest) r Hne' Hc).
    rewrite D in HP. cbn [snd] in HP. specialize (HP eq_refl).
    unfold len in HP. rewrite Nat2Z.id, firstn_app, firstn_all, Nat.sub_diag in HP.
    cbn in HP. rewrite app_nil_r in HP. exact HP.
Qed.

(** A text all of whose bytes have the property [P], followed by the
    end of the text or by an ASCII byte, is matched by a repetition of
    a class that accepts every rune made of such bytes. *)
Lemma matches_Star_Class_intro (P : byte -> Prop) neg items g :
  (forall s r w, s <> [] -> utf8.DecodeRuneInString s = (r, w) ->
     Forall P (firstn (Z.to_nat w) s) -> class_match neg items r = true) ->
  forall w n rest,
    Forall P w ->
    match rest with [] => True | c :: _ => b2z c < 0x80 end ->
    matches (Star g (Class neg items)) n w rest.
Proof.
  intros HP w. remember (length w) as k eqn:Ek. revert w Ek.
  induction k as [k IH] using lt_wf_ind. intros w Ek n rest Hw Hrest.
  destruct w as [|c w']; [constructor|].
  assert (Hne : c :: w' <> []) by discriminate.
  pose proof (decode_no_cross (c :: w') rest Hne Hrest) as Hcross.
  assert (Hne' : (c :: w') ++ rest <> []) by discriminate.
  pose proof (decode_width _ Hne') as Hwd.
  destruct (utf8.DecodeRuneInString ((c :: w') ++ rest)) as [r wd] eqn:D.
  cbn [snd] in *.
  assert (Hsplit : c :: w' = firstn (Z.to_nat wd) (c :: w') ++ skipn (Z.to_nat wd) (c :: w'))
    by (symmetry; apply firstn_skipn).
  assert (Hl : length (firstn (Z.to_nat wd) (c :: w')) = Z.to_nat wd).
  { rewrite length_firstn. unfold len in Hcross. lia. }
  rewrite Hsplit. constructor.
  - intros E. rewrite E in Hl. cbn in Hl. lia.
  - apply M_Class with (r := r).
    + intros E. rewrite E in Hl. cbn in Hl. lia.
    + rewrite app_assoc, firstn_skipn, D. f_equal. unfold len. rewrite Hl. lia.
    + eapply HP; [exact Hne' | exact D |].
      rewrite firstn_app.
      replace (Z.to_nat wd - length (c :: w'))%nat with 0%nat
        by (unfold len in Hcross; lia).
      cbn [firstn]. rewrite app_nil_r.
      rewrite <- (firstn_skipn (Z.to_nat wd) (c :: w')) in Hw.
      apply Forall_app in Hw. tauto.
  - eapply IH; [| reflexivity | | exact Hrest].
    + subst k. rewrite length_skipn. cbn [length]. lia.
    + rewrite <- (firstn_skipn (Z.to_nat wd) (c :: w')) in Hw.
      apply Forall_app in Hw. tauto.
Qed.

(** Taking a match apart along the pattern. *)
Ltac lit_inv H :=
  first
    [ apply (matches_Lit_inv x0a) in H; [|vm_compute; reflexivity]
    | apply (matches_Lit_inv x20) in H; [|vm_compute; reflexivity]
    | apply (matches_Lit_inv x23) in H; [|vm_compute; reflexivity]
    | apply (matches_Lit_inv x2a) in H; [|vm_compute; reflexivity]
    | apply (matches_Lit_inv x2d) in H; [|vm_compute; reflexivity]
    | apply (matches_Lit_inv x5f) in H; [|vm_compute; reflexivity]
    | apply (matches_Lit_inv x60) in H; [|vm_compute; reflexivity]
    | apply (matches_Lit_inv x7e) in H; [|vm_compute; reflexivity] ].

Ltac minv_step :=
  match goal with
  | H : matches (Cat _ _) _ _ _ |- _ =>
      apply matches_Cat_inv in H;
      let w1 := fresh "w" in let w2 := fresh "w" in
      let E := fresh "E" in let H1 := fresh "M" in let H2 := fresh "M" in
      destruct H as (w1 & w2 & E & H1 & H2)
  | H : matches (Group _ _) _ _ _ |- _ => apply matches_Group_inv in H
  | H : matches Empty _ _ _ |- _ => apply matches_Empty_inv in H
  | H : matches BeginText _ _ _ |- _ =>
      apply matches_BeginText_inv in H; destruct H as [H _]
  | H : matches EndText _ _ _ |- _ =>
      apply matches_EndText_inv in H;
      let E := fresh "E" in destruct H as [H E]
  | H : matches (Alt _ _) _ _ _ |- _ =>
      apply matches_Alt_inv in H; destruct H as [H|H]
  | H : matches (Lit _) _ _ _ |- _ => lit_inv H
  end.

Ltac minv := repeat minv_step.

Ltac open_re H :=
  unfold span, block, reEmphasise, reGfmCode, re_eol, AtLeast, Between, Plus, Quest in H;
  cbn [Seq Times UpTo Nat.eqb Nat.sub] in H;
  unfold Plus, Quest in H.

Lemma matches_any_nonempty n w rest : matches re_any n w rest -> w <> [].
Proof. intros H. apply matches_Class_inv in H. tauto. Qed.

Lemma app_nonempty_l (a b : gostring) : a <> [] -> a ++ b <> [].
Proof. destruct a; [congruence | discriminate]. Qed.

Lemma app_nonempty_r (a b : gostring) : b <> [] -> a ++ b <> [].
Proof. destruct a; [cbn; auto | discriminate]. Qed.

Ltac code_case :=
  match goal with
  | M : matches (Class true _) _ _ _ |- _ =>
      apply matches_Class_inv in M; destruct M as [M _]
  end;
  match goal with
  | |- exists a b body, _ /\ _ /\ _ /\ _ :: _ :: ?x ++ ?y ++ ?z ++ [_; _] = _ =>
      exists 2%nat, 2%nat, (x ++ y ++ z)
  | |- exists a b body, _ /\ _ /\ _ /\ _ :: _ :: ?x ++ ?y ++ ?z ++ [_] = _ =>
      exists 2%nat, 1%nat, (x ++ y ++ z)
  | |- exists a b body, _ /\ _ /\ _ /\ _ :: ?x ++ ?y ++ ?z ++ [_; _] = _ =>
      exists 1%nat, 2%nat, (x ++ y ++ z)
  | |- exists a b body, _ /\ _ /\ _ /\ _ :: ?x ++ ?y ++ ?z ++ [_] = _ =>
      exists 1%nat, 1%nat, (x ++ y ++ z)
  end;
  split; [lia|]; split; [lia|]; split;
  [ apply app_nonempty_r, app_nonempty_l, app_nonempty_r; assumption
  | cbn [repeat app]; rewrite <- ?app_assoc; reflexivity ].

(** The text of a span begins and ends with the delimiters of its
    rule. *)
Lemma span_shape_of_match t m rest :
  In t span_order -> matches (span t) 0%nat m rest -> span_shape t m.
Proof.
  intros [<-|[<-|[<-|[<-|[]]]]] H; open_re H; minv; subst; cbn [span_shape app].
  - exists x5f. eexists. split; [auto|]. split; [|reflexivity].
    apply app_nonempty_l. eapply matches_any_nonempty; eassumption.
  - exists x2a. eexists. split; [auto|]. split; [|reflexivity].
    apply app_nonempty_l. eapply matches_any_nonempty; eassumption.
  - exists x5f. eexists. split; [auto|]. split; [|reflexivity].
    apply app_nonempty_l. eapply matches_any_nonempty; eassumption.
  - exists x2a. eexists. split; [auto|]. split; [|reflexivity].
    apply app_nonempty_l. eapply matches_any_nonempty; eassumption.
  - eexists. split; [|reflexivity].
    apply app_nonempty_l. eapply matches_any_nonempty; eassumption.
  - code_case.
  - code_case.
  - code_case.
  - code_case.
Qed.

End shape_facts.

(* ================================================================== *)
(** ** The scanner: what a step can do *)

Module lexer_facts.
Import regexp.

Lemma same_out_refl l : same_out l l.
Proof. repeat split. Qed.

Lemma same_out_trans l1 l2 l3 : same_out l1 l2 -> same_out l2 l3 -> same_out l1 l3.
Proof. unfold same_out. intros (A & B & C) (D & E & F). repeat split; congruence. Qed.

Lemma same_out_set_pos l p : same_out l (set_pos l p).
Proof. repeat split. Qed.

Lemma same_out_backup l : same_out l (backup l).
Proof. repeat split. Qed.

Lemma bind_ok {A B : Type} (m : result A) (f : A -> result B) (b : B) :
  bind m f = Ok b -> exists a, m = Ok a /\ f a = Ok b.
Proof. destruct m; cbn; intros H; try discriminate. eauto. Qed.

Lemma slice_from_ok s lo t :
  slice_from s lo = Ok t -> 0 <= lo <= len s /\ t = skipn (Z.to_nat lo) s.
Proof.
  unfold slice_from. destruct (_ && _) eqn:E; intros H; inversion H; subst.
  split; [lia | reflexivity].
Qed.

Lemma slice_ok s lo hi t :
  slice s lo hi = Ok t ->
  0 <= lo <= hi /\ hi <= len s /\
  t = firstn (Z.to_nat (hi - lo)) (skipn (Z.to_nat lo) s) /\ len t = hi - lo.
Proof.
  unfold slice. destruct (_ && _) eqn:E; intros H; inversion H; subst.
  repeat split; try lia.
  unfold len in *. rewrite length_firstn, length_skipn. lia.
Qed.

Lemma slice_intro s lo hi :
  0 <= lo <= hi -> hi <= len s ->
  slice s lo hi = Ok (firstn (Z.to_nat (hi - lo)) (skipn (Z.to_nat lo) s)).
Proof.
  intros H1 H2. unfold slice.
  replace ((0 <=? lo) && (lo <=? hi) && (hi <=? len s)) with true by lia.
  reflexivity.
Qed.

Lemma slice_from_intro s lo :
  0 <= lo <= len s -> slice_from s lo = Ok (skipn (Z.to_nat lo) s).
Proof.
  intros H. unfold slice_from.
  replace ((0 <=? lo) && (lo <=? len s)) with true by lia. reflexivity.
Qed.

(** next, peek: the rune read and the new cursor. *)
Lemma next_spec l r l' :
  next l = Ok (r, l') ->
  same_out l l' /\
  ((len (input l) <= pos l /\ r = eof /\ pos l' = pos l /\ width l' = 0) \/
   (0 <= pos l < len (input l) /\
    utf8.DecodeRuneInString (skipn (Z.to_nat (pos l)) (input l)) = (r, width l') /\
    pos l' = pos l + width l' /\ 1 <= width l' /\ pos l' <= len (input l))).
Proof.
  unfold next. destruct (len (input l) <=? pos l) eqn:E.
  - intros H. inversion H; subst. split; [repeat split|]. left. cbn. lia.
  - intros H. apply bind_ok in H. destruct H as (s & Hs & H).
    apply slice_from_ok in Hs. destruct Hs as [Hr ->].
    destruct (utf8.DecodeRuneInString _) as [r0 w] eqn:D.
    inversion H; subst. split; [repeat split|]. right. cbn.
    assert (Hne : skipn (Z.to_nat (pos l)) (input l) <> []).
    { intros E0. apply (f_equal (@length byte)) in E0.
      rewrite length_skipn in E0. cbn in E0. unfold len in *. lia. }
    pose proof (utf8_facts.decode_width _ Hne) as Hw. rewrite D in Hw. cbn in Hw.
    unfold len in Hw. rewrite length_skipn in Hw. unfold len in *.
    repeat split; try lia.
Qed.

Lemma next_never_panics_in_range l :
  0 <= pos l -> exists r l', next l = Ok (r, l').
Proof.
  intros H. unfold next. destruct (len (input l) <=? pos l) eqn:E; [eauto|].
  rewrite slice_from_intro by lia. cbn.
  destruct (utf8.DecodeRuneInString _); eauto.
Qed.

Lemma peek_spec l r l' :
  peek l = Ok (r, l') ->
  same_out l l' /\ pos l' = pos l /\
  ((len (input l) <= pos l /\ r = eof /\ width l' = 0) \/
   (0 <= pos l < len (input l) /\
    utf8.DecodeRuneInString (skipn (Z.to_nat (pos l)) (input l)) = (r, width l') /\
    1 <= width l' /\ pos l + width l' <= len (input l))).
Proof.
  unfold peek. intros H. apply bind_ok in H. destruct H as ([r1 l1] & Hn & H).
  inversion H; subst. apply next_spec in Hn. destruct Hn as [Hs Hn].
  split; [eapply same_out_trans; [exact Hs | apply same_out_backup]|].
  unfold backup. cbn.
  destruct Hn as [(A & B & C & D)|(A & B & C & D & E)].
  - split; [lia|]. left. auto.
  - split; [lia|]. right. repeat split; try lia. exact B.
Qed.

(** emit: the item sent and the new start. *)
Lemma emit_spec t l l' :
  emit t l = Ok l' ->
  exists v,
    slice (input l) (start l) (pos l) = Ok v /\
    sent (items l') = sent (items l) ++ [mkItem t (start l) v] /\
    closed (items l') = closed (items l) /\
    input l' = input l /\ pos l' = pos l /\ start l' = pos l /\ width l' = width l.
Proof.
  unfold emit. intros H. apply bind_ok in H. destruct H as (v & Hv & H).
  inversion H; subst. exists v. cbn. auto 10.
Qed.

Lemma emit_intro t l :
  0 <= start l <= pos l -> pos l <= len (input l) ->
  exists l', emit t l = Ok l'.
Proof.
  intros H1 H2. unfold emit. rewrite slice_intro by assumption. cbn. eauto.
Qed.

Lemma first_span_in ts s t m :
  first_span ts s = Some (t, m) -> In t ts /\ m = FindString (span t) s /\ m <> [].
Proof.
  induction ts as [|t0 ts IH]; cbn; [discriminate|].
  destruct (FindString (span t0) s) eqn:E.
  - intros H. apply IH in H. tauto.
  - intros H. inversion H; subst. rewrite E. split; [auto | split; [reflexivity | discriminate]].
Qed.

Lemma lexText_boundary_same r l b l' :
  lexText_boundary r l = Ok (b, l') -> same_out l l' /\ pos l' = pos l.
Proof.
  unfold lexText_boundary. intros H.
  apply bind_ok in H. destruct H as ([a l1] & H1 & H).
  assert (S1 : same_out l l1 /\ pos l1 = pos l).
  { destruct (r =? c_nl).
    - apply bind_ok in H1. destruct H1 as ([p l2] & Hp & H1). inversion H1; subst.
      apply peek_spec in Hp. tauto.
    - inversion H1; subst. split; [apply same_out_refl | reflexivity]. }
  destruct S1 as [S1 P1]. cbv beta iota in H. destruct a.
  - inversion H; subst. auto.
  - destruct (r =? c_sp).
    + apply bind_ok in H. destruct H as ([p l2] & Hp & H). inversion H; subst.
      apply peek_spec in Hp. destruct Hp as (S2 & P2 & _).
      split; [eapply same_out_trans; eassumption | congruence].
    + inversion H; subst. auto.
Qed.

(** A step leaves the output alone, or ends by emitting one item of a
    type its state function can emit. *)
Theorem call_cases f l st l' :
  call f l = Ok (st, l') ->
  same_out l l' \/
  exists l1 t, same_out l l1 /\ emit t l1 = Ok l' /\ emitter f t.
Proof.
  destruct f; cbn [call].
  - (* lexAny *)
    unfold lexAny_fn. intros H. left.
    apply bind_ok in H. destruct H as ([r l1] & Hn & H).
    apply next_spec in Hn. destruct Hn as [S1 _]. cbv beta iota in H.
    assert (Tail : forall st l', lexAny_tail l1 = Ok (st, l') -> same_out l l').
    { intros st0 l0 Ht. unfold lexAny_tail in Ht.
      apply bind_ok in Ht. destruct Ht as (c & _ & Ht).
      destruct (bytes_eqb c _ || _); inversion Ht; subst;
        (eapply same_out_trans; [exact S1 | apply same_out_backup]). }
    destruct (r =? eof); [inversion H; subst; exact S1|].
    destruct ((r =? c_star) || (r =? c_dash)).
    { apply bind_ok in H. destruct H as ([p1 l2] & Hp1 & H).
      apply peek_spec in Hp1. destruct Hp1 as (S2 & _). cbv beta iota in H.
      destruct (p1 =? c_star).
      - inversion H; subst.
        eapply same_out_trans; [exact S1|].
        eapply same_out_trans; [exact S2 | apply same_out_backup].
      - apply bind_ok in H. destruct H as ([p2 l3] & Hp2 & H).
        apply peek_spec in Hp2. destruct Hp2 as (S3 & _). cbv beta iota in H.
        destruct (p2 =? c_dash); inversion H; subst;
          (eapply same_out_trans; [exact S1|];
           eapply same_out_trans; [exact S2|];
           eapply same_out_trans; [exact S3 | apply same_out_backup]). }
    destruct (r =? c_hash).
    { inversion H; subst. eapply same_out_trans; [exact S1 | apply same_out_backup]. }
    destruct (r =? c_sp).
    { apply bind_ok in H. destruct H as (s & _ & H).
      destruct (MatchString _ s).
      - inversion H; subst. eapply same_out_trans; [exact S1 | apply same_out_backup].
      - eapply Tail; exact H. }
    destruct ((r =? c_tick) || (r =? c_tilde)); [eapply Tail; exact H|].
    inversion H; subst. eapply same_out_trans; [exact S1 | apply same_out_backup].
  - (* lexHeading *)
    unfold lexHeading_fn, lexBlock. intros H.
    apply bind_ok in H. destruct H as (s & _ & H).
    destruct (MatchString _ s).
    + apply bind_ok in H. destruct H as (s' & _ & H).
      apply bind_ok in H. destruct H as (l2 & He & H). inversion H; subst.
      right. eexists _, _. split; [apply same_out_set_pos|]. split; [exact He|]. reflexivity.
    + inversion H; subst. left. apply same_out_refl.
  - (* lexHr *)
    unfold lexHr_fn, lexBlock. intros H.
    apply bind_ok in H. destruct H as (s & _ & H).
    destruct (MatchString _ s).
    + apply bind_ok in H. destruct H as (s' & _ & H).
      apply bind_ok in H. destruct H as (l2 & He & H). inversion H; subst.
      right. eexists _, _. split; [apply same_out_set_pos|]. split; [exact He|]. reflexivity.
    + inversion H; subst. left. apply same_out_refl.
  - (* lexGfmCode *)
    unfold lexGfmCode_fn, lexBlock. intros H.
    apply bind_ok in H. destruct H as (s & _ & H).
    destruct (MatchString _ s).
    + apply bind_ok in H. destruct H as (s' & _ & H).
      apply bind_ok in H. destruct H as (l2 & He & H). inversion H; subst.
      right. eexists _, _. split; [apply same_out_set_pos|]. split; [exact He|]. reflexivity.
    + inversion H; subst. left. apply same_out_refl.
  - (* lexCode *)
    unfold lexCode_fn. intros H.
    apply bind_ok in H. destruct H as (s & _ & H).
    apply bind_ok in H. destruct H as (l2 & He & H). inversion H; subst.
    right. eexists _, _. split; [apply same_out_set_pos|]. split; [exact He|]. reflexivity.
  - (* lexList *)
    unfold lexList_fn. intros H. inversion H; subst. left. apply same_out_refl.
  - (* lexText *)
    unfold lexText_fn, lexText_iter. intros H.
    apply bind_ok in H. destruct H as ([c l2] & Hi & H).
    assert (Hl : l2 = l') by (destruct c; inversion H; reflexivity). subst l2. clear H.
    apply bind_ok in Hi. destruct Hi as ([r l1] & Hn & H).
    apply next_spec in Hn. destruct Hn as [S1 _]. cbv beta iota in H.
    destruct (r =? eof); [inversion H; subst; left; exact S1|].
    apply bind_ok in H. destruct H as ([b l3] & Hb & H).
    apply lexText_boundary_same in Hb. destruct Hb as [S3 _]. cbv beta iota in H.
    assert (S13 : same_out l l3) by (eapply same_out_trans; eassumption).
    destruct b.
    { apply bind_ok in H. destruct H as (l4 & He & H). inversion H; subst.
      right. eexists _, _. split; [|split; [exact He|]].
      - eapply same_out_trans; [exact S13 | apply same_out_set_pos].
      - cbn. auto. }
    destruct (is_delim r).
    { apply bind_ok in H. destruct H as (s & _ & H).
      destruct (first_span span_order s) as [[t m]|] eqn:Hf.
      - apply bind_ok in H. destruct H as (l4 & He & H). inversion H; subst.
        right. eexists _, _. split; [|split; [exact He|]].
        + eapply same_out_trans; [exact S13|].
          eapply same_out_trans; [apply same_out_backup | apply same_out_set_pos].
        + cbn. right. right. apply first_span_in in Hf. tauto.
      - apply bind_ok in H. destruct H as (l4 & He & H). inversion H; subst.
        right. eexists _, _. split; [|split; [exact He|]].
        + eapply same_out_trans; [exact S13|].
          eapply same_out_trans; [apply same_out_backup | apply same_out_set_pos].
        + cbn. auto. }
    apply bind_ok in H. destruct H as (l4 & He & H). inversion H; subst.
    right. eexists _, _. split; [exact S13|]. split; [exact He|]. cbn. auto.
Qed.

End lexer_facts.

(* ================================================================== *)
(** ** The scanner at a known place of the input *)

Module at_facts.
Import lexer_facts.

Lemma at_cursor_skipn l pre s :
  at_cursor l pre s -> skipn (Z.to_nat (pos l)) (input l) = s.
Proof.
  intros [Hi Hp]. rewrite Hi, Hp. apply regexp_facts.skipn_len_app.
Qed.

Lemma at_cursor_slice_from l pre s :
  at_cursor l pre s -> slice_from (input l) (pos l) = Ok s.
Proof.
  intros H. rewrite slice_from_intro.
  - rewrite (at_cursor_skipn _ _ _ H). reflexivity.
  - destruct H as [Hi Hp]. rewrite Hi, Hp, len_app.
    pose proof (len_nonneg pre). pose proof (len_nonneg s). lia.
Qed.

Lemma next_at l pre s r w :
  at_cursor l pre s -> s <> [] -> utf8.DecodeRuneInString s = (r, w) ->
  next l = Ok (r, mkLexer (input l) (pos l + w) (start l) w (items l)).
Proof.
  intros H Hs D. unfold next.
  assert (Hlt : (len (input l) <=? pos l) = false).
  { destruct H as [Hi Hp]. rewrite Hi, Hp, len_app. apply Z.leb_gt.
    destruct s; [congruence|]. rewrite len_cons. pose proof (len_nonneg s). lia. }
  rewrite Hlt, (at_cursor_slice_from _ _ _ H). cbn [bind]. rewrite D. reflexivity.
Qed.

Lemma next_eof l :
  len (input l) <= pos l ->
  next l = Ok (eof, mkLexer (input l) (pos l) (start l) 0 (items l)).
Proof.
  intros H. unfold next. apply Z.leb_le in H. rewrite H. reflexivity.
Qed.

Lemma peek_at l pre s r w :
  at_cursor l pre s -> s <> [] -> utf8.DecodeRuneInString s = (r, w) ->
  peek l = Ok (r, mkLexer (input l) (pos l) (start l) w (items l)).
Proof.
  intros H Hs D. unfold peek. rewrite (next_at _ _ _ _ _ H Hs D). cbn [bind].
  unfold backup, set_pos. cbn [input pos start width items].
  rewrite Z.add_simpl_r. reflexivity.
Qed.

Lemma peek_eof l :
  len (input l) <= pos l ->
  peek l = Ok (eof, mkLexer (input l) (pos l) (start l) 0 (items l)).
Proof.
  intros H. unfold peek. rewrite (next_eof _ H). cbn [bind].
  unfold backup, set_pos. cbn [input pos start width items].
  rewrite Z.sub_0_r. reflexivity.
Qed.

(** Moving the cursor over the first bytes of what is ahead. *)
Lemma at_cursor_advance inp p st w it pre a s :
  at_cursor (mkLexer inp p st w it) pre (a ++ s) ->
  forall w' st' it',
    at_cursor (mkLexer inp (p + len a) st' w' it') (pre ++ a) s.
Proof.
  intros [Hi Hp] w' st' it'. cbn in *. split; cbn.
  - rewrite Hi, app_assoc. reflexivity.
  - rewrite len_app. lia.
Qed.

Lemma emit_at t l pre s :
  at_cursor l (pre ++ s) [] \/ (exists rest, at_cursor l (pre ++ s) rest) ->
  start l = len pre ->
  emit t l =
    Ok (mkLexer (input l) (pos l) (pos l) (width l)
          (mkChan (sent (items l) ++ [mkItem t (start l) s]) (closed (items l)))).
Proof.
  intros H Hst.
  assert (H' : exists rest, at_cursor l (pre ++ s) rest)
    by (destruct H as [H|H]; [eauto | exact H]).
  destruct H' as (rest & Hi & Hp).
  unfold emit. rewrite slice_intro.
  - cbn [bind]. do 4 f_equal. rewrite Hi, Hst, Hp, len_app.
    replace (len pre + len s - len pre) with (len s) by lia.
    rewrite <- app_assoc, regexp_facts.skipn_len_app.
    unfold len. rewrite Nat2Z.id, firstn_app, firstn_all, Nat.sub_diag.
    cbn. rewrite app_nil_r. reflexivity.
  - rewrite Hst, Hp, len_app. pose proof (len_nonneg pre). pose proof (len_nonneg s). lia.
  - rewrite Hi, Hp, !len_app. pose proof (len_nonneg rest). lia.
Qed.

End at_facts.

(* ================================================================== *)
(** ** Text runs *)

Module text_facts.
Import regexp utf8_facts regexp_facts shape_facts lexer_facts at_facts.

(** Testing a rune against an ASCII character is testing the first
    byte. *)
Lemma rune_eqb_byte (c ca : byte) (t : gostring) (r w : Z) :
  utf8.DecodeRuneInString (c :: t) = (r, w) -> b2z ca < 0x80 ->
  (r =? b2z ca) = Byte.eqb c ca.
Proof.
  intros D Ha. destruct (Byte.eqb c ca) eqn:E.
  - apply Byte.byte_dec_bl in E. subst c.
    rewrite decode_ascii in D by exact Ha. inversion D; subst. apply Z.eqb_refl.
  - apply Z.eqb_neq. intros Hr. subst r.
    destruct (decode_ascii_inv (c :: t) _ _ ltac:(discriminate) D Ha)
      as (c' & t' & Hs & Hc & _).
    inversion Hs; subst. apply b2z_inj in Hc. subst.
    rewrite (Byte.byte_dec_lb eq_refl) in E. discriminate.
Qed.


Lemma rune_nonneg (s : gostring) : 0 <= fst (utf8.DecodeRuneInString s).
Proof.
  destruct s as [|c t]; [cbn; unfold utf8.RuneError; lia|].
  destruct (Z.lt_ge_cases (b2z c) 0x80) as [H|H].
  - rewrite decode_ascii by exact H. cbn. pose proof (b2z_range c). lia.
  - pose proof (decode_high c t H). lia.
Qed.

(** The boundary test of lexText, at a known place: it holds when the
    text ahead begins with two newlines or two spaces; the width is
    left alone unless the rune read is a newline or a space. *)
Lemma lexText_boundary_at l pre s r w :
  at_cursor l pre s ->
  s <> [] -> utf8.DecodeRuneInString s = (r, w) ->
  exists w',
    lexText_boundary r (mkLexer (input l) (pos l + w) (start l) w (items l))
      = Ok (starts_boundary s, mkLexer (input l) (pos l + w) (start l) w' (items l)) /\
    (r <> c_nl -> r <> c_sp -> w' = w).
Proof.
  destruct l as [inp p st w0 it]. cbn [input pos start items].
  intros Hat Hs D. destruct s as [|c t]; [congruence|]. clear Hs.
  pose proof (rune_eqb_byte c NL t r w D ltac:(vm_compute; reflexivity)) as Enl.
  pose proof (rune_eqb_byte c SP t r w D ltac:(vm_compute; reflexivity)) as Esp.
  change (b2z NL) with c_nl in Enl. change (b2z SP) with c_sp in Esp.
  (* what peek returns after the first rune, when that rune is one byte *)
  assert (Hpeek : w = 1 ->
    exists p2 w2,
      peek (mkLexer inp (p + w) st w it) = Ok (p2, mkLexer inp (p + w) st w2 it) /\
      (p2 =? c_nl) = match t with b :: _ => Byte.eqb b NL | [] => false end /\
      (p2 =? c_sp) = match t with b :: _ => Byte.eqb b SP | [] => false end).
  { intros ->.
    assert (Hat1 : at_cursor (mkLexer inp (p + 1) st 1 it) (pre ++ [c]) t).
    { apply (at_cursor_advance inp p st w0 it pre [c] t Hat). }
    destruct t as [|b t'].
    - exists eof, 0. rewrite peek_eof.
      + cbn. auto.
      + destruct Hat1 as [Hi Hp]. cbn in *. rewrite Hi, Hp, app_nil_r. lia.
    - destruct (utf8.DecodeRuneInString (b :: t')) as [r2 w2] eqn:D2.
      exists r2, w2. rewrite (peek_at _ _ _ _ _ Hat1 ltac:(discriminate) D2).
      split; [reflexivity|]. split.
      + apply (rune_eqb_byte b NL t' r2 w2 D2). vm_compute; reflexivity.
      + apply (rune_eqb_byte b SP t' r2 w2 D2). vm_compute; reflexivity. }
  assert (Hw1 : Byte.eqb c NL = true \/ Byte.eqb c SP = true -> w = 1).
  { intros [E|E]; apply Byte.byte_dec_bl in E; subst c;
      rewrite decode_ascii in D by (vm_compute; reflexivity); inversion D; reflexivity. }
  unfold lexText_boundary. rewrite Enl, Esp.
  destruct (Byte.eqb c NL) eqn:E1.
  - destruct (Hpeek (Hw1 (or_introl eq_refl))) as (p2 & w2 & Hp & Hn & _).
    rewrite Hp. cbn [bind]. rewrite Hn.
    assert (E2 : Byte.eqb c SP = false).
    { apply Byte.byte_dec_bl in E1. subst c. reflexivity. }
    rewrite E2. exists w2. split.
    + cbn [starts_boundary]. destruct t as [|b t']; cbn [bind].
      * reflexivity.
      * rewrite E1, E2. cbn [andb orb]. destruct (Byte.eqb b NL); reflexivity.
    + intros Hr. apply Z.eqb_neq in Hr. congruence.
  - cbn [bind]. destruct (Byte.eqb c SP) eqn:E2.
    + destruct (Hpeek (Hw1 (or_intror eq_refl))) as (p2 & w2 & Hp & _ & Hsp).
      rewrite Hp. cbn [bind]. rewrite Hsp. exists w2. split.
      * cbn [starts_boundary]. destruct t as [|b t'].
        -- reflexivity.
        -- rewrite E1, E2. cbn [andb orb]. reflexivity.
      * intros _ Hr. apply Z.eqb_neq in Hr. congruence.
    + exists w. split; [|reflexivity].
      cbn [starts_boundary]. destruct t as [|b t']; [reflexivity|].
      rewrite E1, E2. reflexivity.
Qed.

(** The span rules are anchored. *)
Lemma span_anchored t : In t span_order -> anchored (span t) = true.
Proof. intros [<-|[<-|[<-|[<-|[]]]]]; reflexivity. Qed.

Lemma first_span_prefix s t m :
  first_span span_order s = Some (t, m) ->
  exists rest, s = m ++ rest /\ m <> [] /\ In t span_order /\
               matches (span t) 0%nat m rest.
Proof.
  intros H. apply first_span_in in H. destruct H as (Hin & -> & Hne).
  destruct (FindString_prefix (span t) s (span_anchored t Hin)) as (rest & Hs & Hm).
  exists rest. auto.
Qed.

(** A delimiter is one byte. *)
Lemma delim_rune s r w :
  s <> [] -> utf8.DecodeRuneInString s = (r, w) -> is_delim r = true ->
  exists d rest, s = d :: rest /\ b2z d = r /\ w = 1 /\ r <> c_nl /\ r <> c_sp.
Proof.
  intros Hs D Hd.
  assert (Hr : r < 0x80 /\ r <> c_nl /\ r <> c_sp).
  { unfold is_delim, c_under, c_star, c_tilde, c_tick, c_nl, c_sp in *. lia. }
  destruct Hr as (Hr & H1 & H2).
  destruct (decode_ascii_inv s r w Hs D Hr) as (d & rest & -> & Hb & ->).
  exists d, rest. auto.
Qed.

(** *** The three ways a round of lexText goes *)

(** At the end of the input the run ends and nothing is sent. *)
Lemma lexText_at_eof l pre :
  at_cursor l pre [] ->
  call lexText l = Ok (Some lexAny, mkLexer (input l) (pos l) (start l) 0 (items l)).
Proof.
  intros [Hi Hp]. cbn [call]. unfold lexText_fn, lexText_iter.
  rewrite next_eof by (rewrite Hi, Hp, app_nil_r; lia). reflexivity.
Qed.

(** At two newlines or two spaces the run ends with a boundary item
    that holds both. *)
Lemma lexText_at_boundary l pre s :
  at_cursor l pre s -> start l = len pre -> starts_boundary s = true ->
  exists c rest w',
    s = c :: c :: rest /\ (c = NL \/ c = SP) /\
    call lexText l =
      Ok (Some lexAny,
          mkLexer (input l) (pos l + 2) (pos l + 2) w'
            (mkChan (sent (items l) ++ [mkItem itemNewLine (start l) [c; c]])
                    (closed (items l)))).
Proof.
  intros Hat Hst Hb.
  assert (Hs : exists c rest, s = c :: c :: rest /\ (c = NL \/ c = SP)).
  { destruct s as [|a [|b rest]]; try discriminate. cbn in Hb.
    apply orb_prop in Hb. destruct Hb as [Hb|Hb]; apply andb_prop in Hb;
      destruct Hb as [H1 H2]; apply Byte.byte_dec_bl in H1, H2; subst; eauto. }
  destruct Hs as (c & rest & -> & Hc).
  assert (D : utf8.DecodeRuneInString (c :: c :: rest) = (b2z c, 1))
    by (apply decode_ascii; destruct Hc; subst; vm_compute; reflexivity).
  destruct (lexText_boundary_at l pre _ _ _ Hat ltac:(discriminate) D) as (w' & Hbd & _).
  exists c, rest, w'. split; [reflexivity|]. split; [exact Hc|].
  cbn [call]. unfold lexText_fn, lexText_iter.
  rewrite (next_at _ _ _ _ _ Hat ltac:(discriminate) D). cbn [bind].
  replace (b2z c =? eof) with false by (destruct Hc; subst; reflexivity).
  rewrite Hbd, Hb. cbn [bind].
  rewrite (emit_at itemNewLine _ pre [c; c]).
  - cbn [bind set_pos input pos start width items].
    do 3 f_equal. lia. lia.
  - right. exists rest. destruct l as [inp p st w0 it]. destruct Hat as [Hi Hp].
    cbn in *. split; cbn.
    + rewrite Hi, <- app_assoc. reflexivity.
    + rewrite len_app. unfold len at 2. cbn. lia.
  - exact Hst.
Qed.

(** Anywhere else the run goes on, after one item: the span found by
    the first rule that matches when the rune read is a delimiter, the
    rune itself as text otherwise. *)
Lemma lexText_at_char l pre s r w :
  at_cursor l pre s -> start l = len pre ->
  s <> [] -> starts_boundary s = false ->
  utf8.DecodeRuneInString s = (r, w) ->
  exists t m rest w',
    s = m ++ rest /\
    call lexText l =
      Ok (Some lexText,
          mkLexer (input l) (pos l + len m) (pos l + len m) w'
            (mkChan (sent (items l) ++ [mkItem t (start l) m]) (closed (items l)))) /\
    (if is_delim r
     then match first_span span_order s with
          | Some tm => (t, m) = tm
          | None => t = itemText /\ m = firstn 1 s
          end
     else t = itemText /\ m = firstn (Z.to_nat w) s).
Proof.
  intros Hat Hst Hs Hb D.
  destruct (lexText_boundary_at l pre s r w Hat Hs D) as (w' & Hbd & Hw').
  pose proof (decode_width s Hs) as Hw. rewrite D in Hw. cbn [snd] in Hw.
  pose proof (rune_nonneg s) as Hr. rewrite D in Hr. cbn [fst] in Hr.
  (* emitting after a move of the cursor over a prefix [m] of [s] *)
  assert (Hemit : forall t m rest wd p',
    s = m ++ rest -> p' = pos l + len m ->
    emit t (mkLexer (input l) p' (start l) wd (items l)) =
      Ok (mkLexer (input l) (pos l + len m) (pos l + len m) wd
            (mkChan (sent (items l) ++ [mkItem t (start l) m]) (closed (items l))))).
  { intros t m rest wd p' Hm ->. rewrite (emit_at t _ pre m).
    - reflexivity.
    - right. exists rest. destruct l as [inp p st w0 it]. destruct Hat as [Hi Hp].
      cbn in *. split; cbn.
      + rewrite Hi, Hm, app_assoc. reflexivity.
      + rewrite len_app. lia.
    - exact Hst. }
  cbn [call]. unfold lexText_fn, lexText_iter.
  rewrite (next_at _ _ _ _ _ Hat Hs D). cbn [bind].
  replace (r =? eof) with false by (unfold eof; lia).
  rewrite Hbd, Hb. cbn [bind].
  destruct (is_delim r) eqn:Hd.
  - destruct (delim_rune s r w Hs D Hd) as (d & rest & -> & Hbr & -> & N1 & N2).
    rewrite (Hw' N1 N2).
    unfold backup, set_pos. cbn [input pos start width items].
    rewrite Z.add_simpl_r.
    rewrite (at_cursor_slice_from _ _ _ Hat). cbn [bind].
    destruct (first_span span_order (d :: rest)) as [[t m]|] eqn:Hf.
    + destruct (first_span_prefix _ _ _ Hf) as (rest' & Hm & _).
      rewrite (Hemit t m rest' 1 _ Hm eq_refl). cbn [bind].
      exists t, m, rest', 1. auto.
    + rewrite (Hemit itemText [d] rest 1 _ eq_refl).
      * cbn [bind]. exists itemText, [d], rest, 1. auto.
      * unfold len. cbn. lia.
  - assert (Hm : s = firstn (Z.to_nat w) s ++ skipn (Z.to_nat w) s)
      by (symmetry; apply firstn_skipn).
    assert (Hl : len (firstn (Z.to_nat w) s) = w).
    { unfold len in *. rewrite length_firstn. lia. }
    rewrite (Hemit itemText _ _ w' _ Hm).
    + cbn [bind]. exists itemText, (firstn (Z.to_nat w) s), (skipn (Z.to_nat w) s), w'. auto.
    + rewrite Hl. reflexivity.
Qed.

Lemma first_span_split ts s t m :
  first_span ts s = Some (t, m) ->
  exists ts1 ts2,
    ts = ts1 ++ t :: ts2 /\
    Forall (fun t' => FindString (span t') s = []) ts1 /\
    FindString (span t) s = m /\ m <> [].
Proof.
  induction ts as [|t0 ts IH]; cbn [first_span]; [discriminate|].
  destruct (FindString (span t0) s) as [|b m0] eqn:E.
  - intros H. destruct (IH H) as (ts1 & ts2 & -> & Hall & Hm & Hne).
    exists (t0 :: ts1), ts2. split; [reflexivity|]. split; [constructor; assumption|]. auto.
  - intros H. inversion H; subst. exists [], ts. split; [reflexivity|].
    split; [constructor|]. split; [exact E | discriminate].
Qed.

Lemma first_span_none ts s :
  first_span ts s = None -> Forall (fun t' => FindString (span t') s = []) ts.
Proof.
  induction ts as [|t0 ts IH]; cbn [first_span]; [constructor|].
  destruct (FindString (span t0) s) as [|b m0] eqn:E; [|discriminate].
  intros H. constructor; [exact E | apply IH; exact H].
Qed.

(** The bytes of the delimiters. *)
Lemma is_delim_byte (d : byte) :
  is_delim (b2z d) = true -> d = x5f \/ d = x2a \/ d = x7e \/ d = x60.
Proof.
  unfold is_delim. intros H.
  repeat (apply orb_prop in H; destruct H as [H|H]); apply Z.eqb_eq in H.
  - left. apply b2z_inj. exact H.
  - right. left. apply b2z_inj. exact H.
  - right. right. left. apply b2z_inj. exact H.
  - right. right. right. apply b2z_inj. exact H.
Qed.

End text_facts.

(* ================================================================== *)
(** ** The block rules *)

Module block_facts.
Import regexp utf8_facts regexp_facts shape_facts lexer_facts at_facts text_facts.

Lemma block_anchored t :
  t = itemHeading \/ t = itemHr \/ t = itemGfmCodeBlock \/ t = itemCodeBlock ->
  anchored (block t) = true.
Proof. intros [->|[->|[->| ->]]]; reflexivity. Qed.

(** *** The end of a line: (?:\n+|$) followed by nothing *)

Lemma class_nl_rune (r : Z) : class_match false [Ch c_nl] r = (r =? c_nl).
Proof. unfold class_match. cbn. rewrite orb_false_r. reflexivity. Qed.

Lemma exec_Star_unfold g a n s c k :
  exec (Star g a) n s c k = star_loop (exec a) g (S (length s)) n s c k.
Proof. reflexivity. Qed.

Lemma star_loop_unfold body g fuel n s c k :
  star_loop body g (S fuel) n s c k =
    if g
    then orelse (body n s c (fun n' s' c' =>
                   if (n <? n')%nat then star_loop body g fuel n' s' c' k else None))
                (k n s c)
    else orelse (k n s c)
                (body n s c (fun n' s' c' =>
                   if (n <? n')%nat then star_loop body g fuel n' s' c' k else None)).
Proof. reflexivity. Qed.

Lemma exec_Class_unfold neg items n s c k :
  exec (Class neg items) n s c k = step (class_match neg items) n s c k.
Proof. reflexivity. Qed.

Lemma exec_star_nl_accept (s : gostring) :
  forall n c, exec (Star true (Lit c_nl)) n s c accept = Some ((n + leading_nl s)%nat, c).
Proof.
  unfold Lit. induction s as [|b t IH]; intros n c;
    rewrite exec_Star_unfold, star_loop_unfold, exec_Class_unfold.
  - cbn. unfold accept. rewrite Nat.add_0_r. reflexivity.
  - unfold step.
    destruct (utf8.DecodeRuneInString (b :: t)) as [r w] eqn:D.
    rewrite class_nl_rune.
    pose proof (rune_eqb_byte b NL t r w D ltac:(vm_compute; reflexivity)) as E0.
    change (b2z NL) with c_nl in E0. rewrite E0.
    cbn [leading_nl]. destruct (Byte.eqb b NL) eqn:E.
    + apply Byte.byte_dec_bl in E. subst b.
      rewrite decode_ascii in D by (vm_compute; reflexivity). inversion D; subst.
      change (Z.to_nat 1) with 1%nat. cbn [skipn length].
      replace (n <? n + 1)%nat with true by (symmetry; apply Nat.ltb_lt; lia).
      rewrite <- exec_Star_unfold, IH. cbn [orelse].
      do 2 f_equal. lia.
    + cbn [orelse]. unfold accept. rewrite Nat.add_0_r. reflexivity.
Qed.

Lemma exec_eol_accept (s : gostring) (n : nat) (c : caps) :
  exec re_eol n s c accept =
    match s with
    | [] => Some (n, c)
    | b :: _ => if Byte.eqb b NL then Some ((n + leading_nl s)%nat, c) else None
    end.
Proof.
  unfold re_eol, Plus, Lit.
  change (exec (Alt (Cat (Class false [Ch c_nl]) (Star true (Class false [Ch c_nl]))) EndText) n s c accept)
    with (orelse (step (class_match false [Ch c_nl]) n s c
                    (fun n' s' c' => exec (Star true (Class false [Ch c_nl])) n' s' c' accept))
                 (exec EndText n s c accept)).
  destruct s as [|b t].
  - reflexivity.
  - unfold step. destruct (utf8.DecodeRuneInString (b :: t)) as [r w] eqn:D.
    rewrite class_nl_rune.
    pose proof (rune_eqb_byte b NL t r w D ltac:(vm_compute; reflexivity)) as E0.
    change (b2z NL) with c_nl in E0. rewrite E0.
    destruct (Byte.eqb b NL) eqn:E; [|reflexivity].
    apply Byte.byte_dec_bl in E. subst b.
    rewrite decode_ascii in D by (vm_compute; reflexivity). inversion D; subst.
    change (Z.to_nat 1) with 1%nat. cbn [skipn].
    pose proof (exec_star_nl_accept t (n + 1)%nat c) as H. unfold Lit in H.
    rewrite H. cbn [orelse].
    replace (leading_nl (NL :: t)) with (S (leading_nl t)) by reflexivity.
    do 2 f_equal. lia.
Qed.

Lemma leading_nl_split (s : gostring) :
  exists rest, s = repeat NL (leading_nl s) ++ rest /\ no_nl_ahead rest.
Proof.
  induction s as [|b t IH].
  - exists []. split; [reflexivity | exact I].
  - cbn [leading_nl]. destruct (Byte.eqb b NL) eqn:E.
    + apply Byte.byte_dec_bl in E. subst b. destruct IH as (rest & Ht & Hn).
      exists rest. split; [|exact Hn]. cbn [repeat app]. f_equal. exact Ht.
    + exists (b :: t). split; [reflexivity|]. cbn. intros ->.
      rewrite (Byte.byte_dec_lb eq_refl) in E. discriminate.
Qed.

Lemma leading_nl_repeat (k : nat) (rest : gostring) :
  no_nl_ahead rest -> leading_nl (repeat NL k ++ rest) = k.
Proof.
  intros Hr. induction k as [|k IH]; cbn [repeat app leading_nl].
  - destruct rest as [|b t]; [reflexivity|]. cbn in *.
    destruct (Byte.eqb b NL) eqn:E; [|reflexivity].
    apply Byte.byte_dec_bl in E. contradiction.
  - rewrite IH. reflexivity.
Qed.

(** A rule [front] followed by the end of a line: what FindString
    returns is a match of [front] and all the newlines after it. *)
Lemma find_front_eol (front : regex) (s : gostring) (e : nat) (c : caps) :
  exec front 0%nat s [] (fun n' s' c' => exec re_eol n' s' c' accept) = Some (e, c) ->
  exists w k rest,
    s = w ++ repeat NL k ++ rest /\ e = (length w + k)%nat /\
    matches front 0%nat w (repeat NL k ++ rest) /\
    no_nl_ahead rest /\ (k = 0%nat -> rest = []).
Proof.
  intros H. apply exec_sound in H. destruct H as (w & rest0 & c' & -> & Hm & _ & Hk).
  rewrite exec_eol_accept in Hk. cbn [Nat.add] in Hk.
  destruct (leading_nl_split rest0) as (rest & Hr & Hn).
  exists w, (leading_nl rest0), rest. rewrite <- Hr.
  split; [reflexivity|]. destruct rest0 as [|b t].
  - inversion Hk; subst. cbn in *. subst rest.
    repeat split; auto.
  - destruct (Byte.eqb b NL) eqn:E; [|discriminate]. inversion Hk; subst.
    repeat split; auto. cbn [leading_nl]. rewrite E. discriminate.
Qed.





(** *** The block rules at a known place *)

Lemma lexBlock_match t l pre m rest :
  at_cursor l pre (m ++ rest) -> start l = len pre ->
  MatchString (block t) (m ++ rest) = true ->
  FindString (block t) (m ++ rest) = m ->
  lexBlock t l =
    Ok (Some lexAny,
        mkLexer (input l) (pos l + len m) (pos l + len m) (width l)
          (mkChan (sent (items l) ++ [mkItem t (start l) m]) (closed (items l)))).
Proof.
  intros Hat Hst HM HF. unfold lexBlock.
  rewrite (at_cursor_slice_from _ _ _ Hat). cbn [bind]. rewrite HM. cbn [bind]. rewrite HF.
  rewrite (emit_at t _ pre m).
  - reflexivity.
  - right. exists rest. destruct l as [inp p st w0 it]. destruct Hat as [Hi Hp].
    cbn in *. split; cbn.
    + rewrite Hi, app_assoc. reflexivity.
    + rewrite len_app. lia.
  - exact Hst.
Qed.

Lemma lexBlock_nomatch t l pre s :
  at_cursor l pre s -> MatchString (block t) s = false ->
  lexBlock t l = Ok (Some lexText, l).
Proof.
  intros Hat HM. unfold lexBlock.
  rewrite (at_cursor_slice_from _ _ _ Hat). cbn [bind]. rewrite HM. reflexivity.
Qed.



(** lexAny at a fence character followed by two more. *)
Lemma lexAny_fence l pre f t :
  at_cursor l pre (f :: f :: f :: t) -> f = x60 \/ f = x7e ->
  call lexAny l = Ok (Some lexGfmCode, mkLexer (input l) (pos l) (start l) 1 (items l)).
Proof.
  intros Hat Hf. cbn [call]. unfold lexAny_fn.
  assert (D1 : utf8.DecodeRuneInString (f :: f :: f :: t) = (b2z f, 1))
    by (apply decode_ascii; destruct Hf; subst; vm_compute; reflexivity).
  rewrite (next_at _ _ _ _ _ Hat ltac:(discriminate) D1). cbn [bind].
  replace (b2z f =? eof) with false by (destruct Hf; subst; reflexivity).
  replace ((b2z f =? c_star) || (b2z f =? c_dash)) with false
    by (destruct Hf; subst; reflexivity).
  replace (b2z f =? c_hash) with false by (destruct Hf; subst; reflexivity).
  replace (b2z f =? c_sp) with false by (destruct Hf; subst; reflexivity).
  replace ((b2z f =? c_tick) || (b2z f =? c_tilde)) with true
    by (destruct Hf; subst; reflexivity).
  cbv iota. unfold lexAny_tail. cbn [input pos start width items].
  destruct Hat as [Hi Hp]. rewrite slice_intro.
  - cbn [bind]. rewrite Hi, Hp.
    replace (len pre + 1 + 2 - (len pre + 1)) with 2 by lia.
    replace (Z.to_nat (len pre + 1)) with (length (pre ++ [f]))
      by (rewrite length_app; unfold len; cbn; lia).
    change (pre ++ f :: f :: f :: t) with (pre ++ [f] ++ f :: f :: t).
    rewrite app_assoc, skipn_app, skipn_all, Nat.sub_diag.
    change (Z.to_nat 2) with 2%nat. cbn [app skipn firstn].
    replace (bytes_eqb [f; f] (bs "``") || bytes_eqb [f; f] (bs "~~")) with true
      by (destruct Hf; subst; reflexivity).
    unfold backup, set_pos. cbn [input pos start width items].
    rewrite Z.add_simpl_r. reflexivity.
  - pose proof (len_nonneg pre). lia.
  - rewrite Hi, Hp, len_app. unfold len at 3. cbn [length]. lia.
Qed.

End block_facts.

(* ================================================================== *)
(** ** The path of highest priority

    How [exec] runs through a pattern when its first choice succeeds
    at each step: a greedy repetition takes all it can, a lazy one
    stops at the first place from which the rest of the pattern
    matches. *)

Module path_facts.
Import regexp utf8_facts regexp_facts shape_facts lexer_facts at_facts text_facts
       block_facts.

Lemma exec_Cat a b n s c k :
  exec (Cat a b) n s c k = exec a n s c (fun n' s' c' => exec b n' s' c' k).
Proof. reflexivity. Qed.

Lemma exec_Alt a b n s c k :
  exec (Alt a b) n s c k = orelse (exec a n s c k) (exec b n s c k).
Proof. reflexivity. Qed.

Lemma exec_Group i a n s c k :
  exec (Group i a) n s c k =
    exec a n s c (fun n' s' c' => k n' s' ((i, (n, n')) :: c')).
Proof. reflexivity. Qed.

Lemma exec_BeginText_0 s c k : exec BeginText 0%nat s c k = k 0%nat s c.
Proof. reflexivity. Qed.

Lemma exec_Lit_hit (b : byte) n s c k :
  b2z b < 0x80 -> exec (Lit (b2z b)) n (b :: s) c k = k (n + 1)%nat s c.
Proof.
  intros Hb. unfold Lit. rewrite exec_Class_unfold. unfold step.
  rewrite decode_ascii by exact Hb. unfold class_match.
  cbn [existsb citem_match xorb orb]. rewrite Z.eqb_refl. reflexivity.
Qed.

Lemma exec_Lit_miss (b : byte) n s c k :
  b2z b < 0x80 -> hd_error s <> Some b -> exec (Lit (b2z b)) n s c k = None.
Proof.
  intros Hb Hh. unfold Lit. rewrite exec_Class_unfold. unfold step.
  destruct s as [|x t]; [reflexivity|].
  destruct (utf8.DecodeRuneInString (x :: t)) as [r w] eqn:D.
  unfold class_match. cbn [existsb citem_match xorb]. rewrite orb_false_r.
  destruct (r =? b2z b) eqn:E; [|reflexivity].
  apply Z.eqb_eq in E. subst r.
  destruct (decode_ascii_inv (x :: t) _ _ ltac:(discriminate) D Hb)
    as (c0 & t0 & Hs & Hc & _).
  inversion Hs; subst. apply b2z_inj in Hc. subst. exfalso. apply Hh. reflexivity.
Qed.

(** A greedy repetition of a literal takes all the copies ahead, when
    the rest of the match succeeds from there. *)
Lemma exec_Star_Lit_greedy (b : byte) m n s c k v :
  b2z b < 0x80 -> hd_error s <> Some b ->
  k (n + m)%nat s c = Some v ->
  exec (Star true (Lit (b2z b))) n (repeat b m ++ s) c k = Some v.
Proof.
  intros Hb Hh. revert n. induction m as [|m IH]; intros n Hk.
  - cbn [repeat app]. rewrite exec_Star_unfold, star_loop_unfold.
    rewrite exec_Lit_miss by assumption. cbn [orelse].
    rewrite Nat.add_0_r in Hk. exact Hk.
  - cbn [repeat app]. rewrite exec_Star_unfold, star_loop_unfold.
    rewrite exec_Lit_hit by exact Hb.
    replace (n <? n + 1)%nat with true by (symmetry; apply Nat.ltb_lt; lia).
    cbn [length]. rewrite <- exec_Star_unfold.
    rewrite (IH (n + 1)%nat); [reflexivity|].
    rewrite <- Hk. f_equal. lia.
Qed.

(** One step of a class over a text whose bytes the class accepts. *)
Lemma step_take (P : byte -> Prop) neg items :
  (forall s r w, s <> [] -> utf8.DecodeRuneInString s = (r, w) ->
     Forall P (firstn (Z.to_nat w) s) -> class_match neg items r = true) ->
  forall x w s n c k,
    Forall P (x :: w) ->
    match s with [] => True | y :: _ => b2z y < 0x80 end ->
    exists wd,
      (1 <= wd <= length (x :: w))%nat /\
      Forall P (skipn wd (x :: w)) /\
      step (class_match neg items) n ((x :: w) ++ s) c k =
        k (n + wd)%nat (skipn wd (x :: w) ++ s) c.
Proof.
  intros HP x w s n c k Hw Hs.
  assert (Hne : x :: w <> []) by discriminate.
  pose proof (decode_no_cross (x :: w) s Hne Hs) as Hcross.
  assert (Hne' : (x :: w) ++ s <> []) by discriminate.
  pose proof (decode_width _ Hne') as Hwd.
  destruct (utf8.DecodeRuneInString ((x :: w) ++ s)) as [r wd] eqn:D.
  cbn [snd] in *. unfold len in Hcross.
  rewrite <- (firstn_skipn (Z.to_nat wd) (x :: w)) in Hw.
  apply Forall_app in Hw. destruct Hw as [Hw1 Hw2].
  exists (Z.to_nat wd). split; [lia|]. split; [exact Hw2|].
  assert (Hc : class_match neg items r = true).
  { eapply HP; [exact Hne' | exact D |].
    rewrite firstn_app.
    replace (Z.to_nat wd - length (x :: w))%nat with 0%nat by lia.
    cbn [firstn]. rewrite app_nil_r. exact Hw1. }
  unfold step. change ((x :: w) ++ s) with (x :: (w ++ s)) in *.
  rewrite D, Hc. f_equal.
  change (x :: w ++ s) with ((x :: w) ++ s).
  rewrite skipn_app.
  replace (Z.to_nat wd - length (x :: w))%nat with 0%nat by lia.
  reflexivity.
Qed.

(** A greedy repetition of a class takes all the text the class
    accepts, up to a byte it rejects, when the rest of the match
    succeeds from there. *)
Lemma star_class_greedy (P : byte -> Prop) neg items :
  (forall s r w, s <> [] -> utf8.DecodeRuneInString s = (r, w) ->
     Forall P (firstn (Z.to_nat w) s) -> class_match neg items r = true) ->
  forall fuel w n s c k v,
    (length w < fuel)%nat -> Forall P w ->
    match s with
    | [] => True
    | y :: _ => b2z y < 0x80 /\ class_match neg items (b2z y) = false
    end ->
    k (n + length w)%nat s c = Some v ->
    star_loop (exec (Class neg items)) true fuel n (w ++ s) c k = Some v.
Proof.
  intros HP fuel. induction fuel as [|fuel IH]; intros w n s c k v Hlen Hw Hs Hk; [lia|].
  rewrite star_loop_unfold, exec_Class_unfold.
  destruct w as [|x w].
  - cbn [app length] in *. rewrite Nat.add_0_r in Hk.
    replace (step (class_match neg items) n s c _) with (@None (nat * caps)).
    + cbn [orelse]. exact Hk.
    + unfold step. destruct s as [|y t]; [reflexivity|]. destruct Hs as [Hy Hc].
      rewrite decode_ascii by exact Hy. rewrite Hc. reflexivity.
  - assert (Hs' : match s with [] => True | y :: _ => b2z y < 0x80 end)
      by (destruct s; tauto).
    destruct (step_take P neg items HP x w s n c
                (fun n' s' c' =>
                   if (n <? n')%nat
                   then star_loop (exec (Class neg items)) true fuel n' s' c' k
                   else None) Hw Hs') as (wd & Hwd & Hrest & E).
    rewrite E.
    replace (n <? n + wd)%nat with true by (symmetry; apply Nat.ltb_lt; lia).
    rewrite (IH (skipn wd (x :: w)) (n + wd)%nat s c k v); [reflexivity| | | |].
    + rewrite length_skipn. lia.
    + exact Hrest.
    + exact Hs.
    + rewrite <- Hk. f_equal. rewrite length_skipn. lia.
Qed.

Lemma exec_Plus_class_greedy (P : byte -> Prop) neg items :
  (forall s r w, s <> [] -> utf8.DecodeRuneInString s = (r, w) ->
     Forall P (firstn (Z.to_nat w) s) -> class_match neg items r = true) ->
  forall w n s c k v,
    w <> [] -> Forall P w ->
    match s with
    | [] => True
    | y :: _ => b2z y < 0x80 /\ class_match neg items (b2z y) = false
    end ->
    k (n + length w)%nat s c = Some v ->
    exec (Cat (Class neg items) (Star true (Class neg items))) n (w ++ s) c k = Some v.
Proof.
  intros HP w n s c k v Hne Hw Hs Hk.
  destruct w as [|x w]; [congruence|].
  rewrite exec_Cat, exec_Class_unfold.
  assert (Hs' : match s with [] => True | y :: _ => b2z y < 0x80 end)
    by (destruct s; tauto).
  destruct (step_take P neg items HP x w s n c
              (fun n' s' c' => exec (Star true (Class neg items)) n' s' c' k) Hw Hs')
    as (wd & Hwd & Hrest & E).
  rewrite E, exec_Star_unfold.
  apply (star_class_greedy P neg items HP); auto.
  - rewrite length_app. lia.
  - rewrite <- Hk. f_equal. rewrite length_skipn. lia.
Qed.

Lemma hd_error_app (a b : gostring) : a <> [] -> hd_error (a ++ b) = hd_error a.
Proof. destruct a; [congruence | reflexivity]. Qed.

Ltac cat_step := rewrite ?exec_Cat; cbv beta.


(** A lazy repetition of a class stops at the first place from which
    the rest of the match succeeds. *)
Lemma star_class_lazy (P : byte -> Prop) neg items :
  (forall s r w, s <> [] -> utf8.DecodeRuneInString s = (r, w) ->
     Forall P (firstn (Z.to_nat w) s) -> class_match neg items r = true) ->
  forall fuel w n s c k v,
    (length w < fuel)%nat -> Forall P w ->
    match s with [] => True | y :: _ => b2z y < 0x80 end ->
    (forall w1 w2, w = w1 ++ w2 -> w2 <> [] ->
       k (n + length w1)%nat (w2 ++ s) c = None) ->
    k (n + length w)%nat s c = Some v ->
    star_loop (exec (Class neg items)) false fuel n (w ++ s) c k = Some v.
Proof.
  intros HP fuel. induction fuel as [|fuel IH];
    intros w n s c k v Hlen Hw Hs Hfail Hk; [lia|].
  rewrite star_loop_unfold, exec_Class_unfold.
  destruct w as [|x w].
  - cbn [app length] in *. rewrite Nat.add_0_r in Hk. rewrite Hk. reflexivity.
  - pose proof (Hfail [] (x :: w) eq_refl ltac:(discriminate)) as H0.
    cbn [length app] in H0. rewrite Nat.add_0_r in H0.
    change ((x :: w) ++ s) with (x :: w ++ s). rewrite H0. cbn [orelse].
    change (x :: w ++ s) with ((x :: w) ++ s).
    destruct (step_take P neg items HP x w s n c
                (fun n' s' c' =>
                   if (n <? n')%nat
                   then star_loop (exec (Class neg items)) false fuel n' s' c' k
                   else None) Hw Hs) as (wd & Hwd & Hrest & E).
    rewrite E.
    replace (n <? n + wd)%nat with true by (symmetry; apply Nat.ltb_lt; lia).
    apply IH.
    + rewrite length_skipn. lia.
    + exact Hrest.
    + exact Hs.
    + intros w1 w2 Hsplit Hne.
      replace (n + wd + length w1)%nat
        with (n + length (firstn wd (x :: w) ++ w1))%nat
        by (rewrite length_app, length_firstn; lia).
      apply Hfail; [|exact Hne].
      rewrite <- app_assoc, <- Hsplit. symmetry. apply firstn_skipn.
    + rewrite <- Hk. f_equal. rewrite length_skipn. lia.
Qed.

Lemma exec_Plus_class_lazy (P : byte -> Prop) neg items :
  (forall s r w, s <> [] -> utf8.DecodeRuneInString s = (r, w) ->
     Forall P (firstn (Z.to_nat w) s) -> class_match neg items r = true) ->
  forall w n s c k v,
    w <> [] -> Forall P w ->
    match s with [] => True | y :: _ => b2z y < 0x80 end ->
    (forall w1 w2, w = w1 ++ w2 -> w1 <> [] -> w2 <> [] ->
       k (n + length w1)%nat (w2 ++ s) c = None) ->
    k (n + length w)%nat s c = Some v ->
    exec (Cat (Class neg items) (Star false (Class neg items))) n (w ++ s) c k = Some v.
Proof.
  intros HP w n s c k v Hne Hw Hs Hfail Hk.
  destruct w as [|x w]; [congruence|].
  rewrite exec_Cat, exec_Class_unfold.
  destruct (step_take P neg items HP x w s n c
              (fun n' s' c' => exec (Star false (Class neg items)) n' s' c' k) Hw Hs)
    as (wd & Hwd & Hrest & E).
  rewrite E, exec_Star_unfold.
  apply (star_class_lazy P neg items HP); auto.
  - rewrite length_app. lia.
  - intros w1 w2 Hsplit Hne2.
    replace (n + wd + length w1)%nat
      with (n + length (firstn wd (x :: w) ++ w1))%nat
      by (rewrite length_app, length_firstn; lia).
    apply Hfail; [| |exact Hne2].
    + rewrite <- app_assoc, <- Hsplit. symmetry. apply firstn_skipn.
    + intros E0. apply (f_equal (@length byte)) in E0.
      rewrite length_app, length_firstn in E0. cbn [length] in *. lia.
  - rewrite <- Hk. f_equal. rewrite length_skipn. lia.
Qed.


End path_facts.

(* ================================================================== *)
(** ** The heading rule *)

Module heading_facts.
Import regexp utf8_facts regexp_facts shape_facts lexer_facts at_facts text_facts block_facts.

Lemma notnl_rune_bytes (s : gostring) (r : Z) :
  s <> [] ->
  class_match true [Ch c_nl] r = true ->
  utf8.DecodeRuneInString s = (r, snd (utf8.DecodeRuneInString s)) ->
  Forall (fun b => b <> NL) (firstn (Z.to_nat (snd (utf8.DecodeRuneInString s))) s).
Proof.
  intros Hs Hc D. apply Forall_forall. intros b Hin ->.
  pose proof (decode_has_ascii s NL Hs ltac:(vm_compute; reflexivity) Hin) as D'.
  rewrite D' in D. inversion D; subst.
  unfold class_match in Hc. cbn in Hc. discriminate.
Qed.

Lemma matches_notnl_free n w rest :
  matches re_notnl n w rest -> Forall (fun b => b <> NL) w.
Proof.
  intros H. apply matches_Class_inv in H. destruct H as (Hne & r & D & Hc).
  assert (Hne' : w ++ rest <> []) by (apply app_nonempty_l; exact Hne).
  pose proof (notnl_rune_bytes (w ++ rest) r Hne' Hc) as HP.
  rewrite D in HP. cbn [snd] in HP. specialize (HP eq_refl).
  unfold len in HP. rewrite Nat2Z.id, firstn_app, firstn_all, Nat.sub_diag in HP.
  cbn in HP. rewrite app_nil_r in HP. exact HP.
Qed.

Lemma matches_star_notnl_free g n w rest :
  matches (Star g re_notnl) n w rest -> Forall (fun b => b <> NL) w.
Proof.
  apply (matches_Star_Class_inv (fun b => b <> NL)). intros s r. apply notnl_rune_bytes.
Qed.


Lemma repeat_free (b : byte) k : b <> NL -> Forall (fun c => c <> NL) (repeat b k).
Proof. intros H. induction k; cbn; constructor; auto. Qed.

Lemma matches_UpTo_Lit_inv (b : byte) k :
  b2z b < 0x80 ->
  forall n w rest, matches (UpTo k (Lit (b2z b))) n w rest ->
  exists h, (h <= k)%nat /\ w = repeat b h.
Proof.
  intros Hb. induction k as [|k IH]; intros n w rest H.
  - cbn in H. apply matches_Empty_inv in H. exists 0%nat. auto.
  - destruct k as [|k'].
    + cbn in H. unfold Quest in H. apply matches_Alt_inv in H. destruct H as [H|H].
      * apply matches_Lit_inv in H; [|exact Hb]. exists 1%nat. subst. auto.
      * apply matches_Empty_inv in H. exists 0%nat. subst. auto.
    + change (UpTo (S (S k')) (Lit (b2z b)))
        with (Quest true (Cat (Lit (b2z b)) (UpTo (S k') (Lit (b2z b))))) in H.
      unfold Quest in H. apply matches_Alt_inv in H. destruct H as [H|H].
      * apply matches_Cat_inv in H. destruct H as (w1 & w2 & -> & H1 & H2).
        apply matches_Lit_inv in H1; [|exact Hb]. subst w1.
        apply IH in H2. destruct H2 as (h & Hh & ->).
        exists (S h). split; [lia | reflexivity].
      * apply matches_Empty_inv in H. exists 0%nat. subst. split; [lia | reflexivity].
Qed.

(** What the heading rule matches before the end of the line. *)
Lemma heading_front_inv w rest :
  matches heading_front 0%nat w rest ->
  exists i h line,
    w = repeat SP i ++ repeat x23 h ++ line /\ (1 <= h <= 6)%nat /\
    line <> [] /\ Forall (fun b => b <> NL) line.
Proof.
  intros H. unfold heading_front, Between, Plus in H.
  cbn [Seq Times Nat.eqb Nat.sub] in H.
  repeat match goal with
  | H : matches (Cat _ _) _ _ _ |- _ =>
      apply matches_Cat_inv in H;
      let w1 := fresh "w" in let w2 := fresh "w" in
      let E := fresh "E" in let H1 := fresh "M" in let H2 := fresh "M" in
      destruct H as (w1 & w2 & E & H1 & H2)
  | H : matches (Group _ _) _ _ _ |- _ => apply matches_Group_inv in H
  | H : matches BeginText _ _ _ |- _ =>
      apply matches_BeginText_inv in H; destruct H as [H _]
  end.
  change c_sp with (b2z SP) in *. change c_hash with (b2z x23) in *.
  repeat match goal with
  | H : matches (Star _ (Lit (b2z ?b))) _ _ _ |- _ =>
      apply matches_Star_Lit_inv in H; [destruct H as [? H] | vm_compute; reflexivity]
  | H : matches (UpTo _ (Lit (b2z ?b))) _ _ _ |- _ =>
      apply matches_UpTo_Lit_inv in H; [destruct H as (? & ? & H) | vm_compute; reflexivity]
  | H : matches (Lit (b2z ?b)) _ _ _ |- _ =>
      apply matches_Lit_inv in H; [|vm_compute; reflexivity]
  end.
  subst.
  match goal with
  | M1 : matches re_notnl _ ?a _, M2 : matches (Star false re_notnl) _ ?b _ |- _ =>
      pose proof (matches_notnl_free _ _ _ M1) as F1;
      pose proof (matches_star_notnl_free _ _ _ _ M2) as F2;
      apply matches_Class_inv in M1; destruct M1 as [N1 _]
  end.
  match goal with
  | |- exists _ _ _, [] ++ repeat SP ?i0 ++ ([x23] ++ repeat x23 ?h0) ++ ?line0 = _ /\ _ =>
      exists i0, (S h0), line0
  end.
  split; [reflexivity|]. split; [lia|]. split.
  - apply app_nonempty_r, app_nonempty_l, app_nonempty_l. exact N1.
  - repeat (apply Forall_app; split); try assumption;
      apply repeat_free; discriminate.
Qed.



Lemma match_here_heading s :
  match_here (block itemHeading) s =
    exec heading_front 0%nat s [] (fun n' s' c' => exec re_eol n' s' c' accept).
Proof. reflexivity. Qed.



End heading_facts.

(* ================================================================== *)
(** ** The groups of the heading rule *)

Module heading_group_facts.
Import regexp utf8_facts regexp_facts shape_facts lexer_facts at_facts text_facts
       block_facts path_facts heading_facts.


Lemma notnl_rune (s : gostring) (r w : Z) :
  s <> [] -> utf8.DecodeRuneInString s = (r, w) ->
  Forall (fun b => b <> NL) (firstn (Z.to_nat w) s) ->
  class_match true [Ch c_nl] r = true.
Proof.
  intros Hs D Hall. unfold class_match. cbn. rewrite orb_false_r.
  apply negb_true_iff. apply Z.eqb_neq. intros ->.
  destruct (decode_ascii_inv s _ _ Hs D ltac:(vm_compute; reflexivity))
    as (c & t & -> & Hc & ->).
  change (Z.to_nat 1) with 1%nat in Hall. cbn in Hall. apply Forall_inv in Hall.
  apply Hall. apply b2z_inj. exact Hc.
Qed.









End heading_group_facts.

(* ================================================================== *)
(** ** The horizontal rule *)

Module hr_facts.
Import regexp utf8_facts regexp_facts shape_facts lexer_facts at_facts text_facts
       block_facts heading_facts.

Lemma hr_front_unfold :
  hr_front =
    Cat BeginText
      (Cat (Cat (Cat hr_group_re hr_group_re)
                (Cat hr_group_re (Star true hr_group_re)))
           (Star true (Lit c_sp))).
Proof. reflexivity. Qed.



Lemma hr_group_inv n w rest :
  matches hr_group_re n w rest ->
  exists g, w = hr_group g /\ is_hr_marker (snd g).
Proof.
  intros H. unfold hr_group_re in H. apply matches_Group_inv in H.
  apply matches_Cat_inv in H. destruct H as (w1 & w2 & -> & H1 & H2).
  change c_sp with (b2z SP) in H1.
  apply matches_Star_Lit_inv in H1; [|vm_compute; reflexivity]. destruct H1 as [a ->].
  apply matches_Class_inv in H2. destruct H2 as (Hne & r & D & Hc).
  unfold class_match in Hc. cbn in Hc. rewrite orb_false_r in Hc.
  assert (Hr : r < 0x80).
  { unfold c_dash, c_star, c_under in Hc. lia. }
  assert (Hne' : w2 ++ rest <> []) by (apply app_nonempty_l; exact Hne).
  destruct (decode_ascii_inv _ _ _ Hne' D Hr) as (m & t & Hs & Hm & Hl).
  destruct w2 as [|x [|y w2']]; [congruence | | unfold len in Hl; cbn in Hl; lia].
  cbn in Hs. inversion Hs; subst x t.
  exists (a, m). split; [reflexivity|]. cbn [snd]. unfold is_hr_marker.
  rewrite <- Hm in Hc.
  repeat (apply orb_prop in Hc; destruct Hc as [Hc|Hc]); apply Z.eqb_eq in Hc.
  - left. apply b2z_inj. exact Hc.
  - right. left. apply b2z_inj. exact Hc.
  - right. right. apply b2z_inj. exact Hc.
Qed.


Lemma hr_group_nonempty g : hr_group g <> [].
Proof. unfold hr_group. apply app_nonempty_r. discriminate. Qed.

Lemma hr_groups_inv n w rest :
  matches (Star true hr_group_re) n w rest ->
  exists gs, w = concat (map hr_group gs) /\ Forall (fun g => is_hr_marker (snd g)) gs.
Proof.
  intros H. remember (Star true hr_group_re) as r eqn:Er.
  induction H; try discriminate; inversion Er; subst.
  - exists []. split; [reflexivity | constructor].
  - apply hr_group_inv in H0. destruct H0 as (g & -> & Hg).
    destruct (IHmatches2 eq_refl) as (gs & -> & Hgs).
    exists (g :: gs). split; [reflexivity | constructor; assumption].
Qed.


(** What the rule matches before the end of the line. *)
Lemma hr_front_inv w rest :
  matches hr_front 0%nat w rest ->
  exists gs t,
    w = hr_line gs t /\ (3 <= length gs)%nat /\
    Forall (fun g => is_hr_marker (snd g)) gs.
Proof.
  rewrite hr_front_unfold. intros H.
  apply matches_Cat_inv in H. destruct H as (w0 & w1 & -> & H0 & H).
  apply matches_BeginText_inv in H0. destruct H0 as [-> _].
  apply matches_Cat_inv in H. destruct H as (wg & wt & -> & Hg & Ht).
  change c_sp with (b2z SP) in Ht.
  apply matches_Star_Lit_inv in Ht; [|vm_compute; reflexivity]. destruct Ht as [t ->].
  apply matches_Cat_inv in Hg. destruct Hg as (w12 & w3s & -> & H12 & H3s).
  apply matches_Cat_inv in H12. destruct H12 as (w1' & w2' & -> & H1 & H2).
  apply matches_Cat_inv in H3s. destruct H3s as (w3' & ws & -> & H3 & Hs).
  apply hr_group_inv in H1, H2, H3.
  destruct H1 as (g1 & -> & G1). destruct H2 as (g2 & -> & G2).
  destruct H3 as (g3 & -> & G3).
  apply hr_groups_inv in Hs. destruct Hs as (gs & -> & Gs).
  exists (g1 :: g2 :: g3 :: gs), t. split.
  - unfold hr_line. cbn [map concat app]. rewrite <- !app_assoc. reflexivity.
  - split; [cbn; lia|]. repeat (constructor; try assumption).
Qed.




Lemma match_here_hr s :
  match_here (block itemHr) s =
    exec hr_front 0%nat s [] (fun n' s' c' => exec re_eol n' s' c' accept).
Proof. reflexivity. Qed.


End hr_facts.

(* ================================================================== *)
(** ** The fenced-code rule *)

Module gfm_facts.
Import regexp utf8_facts regexp_facts shape_facts lexer_facts at_facts text_facts
       block_facts path_facts heading_facts.

Lemma gfm_front_unfold f g :
  gfm_front f g =
    Cat BeginText
   (Cat (Cat (Cat (Lit f) (Lit f)) (Cat (Lit f) (Star true (Lit f))))
   (Cat (Star true (Lit c_sp))
   (Cat (Alt (Group g (Cat re_nws (Star true re_nws))) Empty)
   (Cat (Star true (Lit c_sp))
   (Cat (Lit c_nl)
   (Cat (Group (S g) (Cat re_any (Star false re_any)))
   (Cat (Star true re_ws)
   (Cat (Cat (Cat (Lit f) (Lit f)) (Cat (Lit f) (Star true (Lit f))))
        (Star true EndText))))))))).
Proof. reflexivity. Qed.

(** A class that rejects the newline consumes no newline byte. *)
Lemma class_rune_free neg items (s : gostring) (r : Z) :
  class_match neg items c_nl = false ->
  s <> [] ->
  class_match neg items r = true ->
  utf8.DecodeRuneInString s = (r, snd (utf8.DecodeRuneInString s)) ->
  Forall (fun b => b <> NL) (firstn (Z.to_nat (snd (utf8.DecodeRuneInString s))) s).
Proof.
  intros Hnl Hs Hc D. apply Forall_forall. intros b Hin ->.
  pose proof (decode_has_ascii s NL Hs ltac:(vm_compute; reflexivity) Hin) as D'.
  rewrite D' in D. inversion D; subst. change (b2z NL) with c_nl in Hc. congruence.
Qed.

Lemma matches_class_free neg items n w rest :
  class_match neg items c_nl = false ->
  matches (Class neg items) n w rest -> Forall (fun b => b <> NL) w.
Proof.
  intros Hnl H. apply matches_Class_inv in H. destruct H as (Hne & r & D & Hc).
  assert (Hne' : w ++ rest <> []) by (apply app_nonempty_l; exact Hne).
  pose proof (class_rune_free neg items (w ++ rest) r Hnl Hne' Hc) as HP.
  rewrite D in HP. cbn [snd] in HP. specialize (HP eq_refl).
  unfold len in HP. rewrite Nat2Z.id, firstn_app, firstn_all, Nat.sub_diag in HP.
  cbn in HP. rewrite app_nil_r in HP. exact HP.
Qed.

Lemma matches_star_class_free neg items g n w rest :
  class_match neg items c_nl = false ->
  matches (Star g (Class neg items)) n w rest -> Forall (fun b => b <> NL) w.
Proof.
  intros Hnl. apply (matches_Star_Class_inv (fun b => b <> NL)).
  intros s r. apply class_rune_free. exact Hnl.
Qed.

Lemma matches_Star_EndText_inv g n w rest :
  matches (Star g EndText) n w rest -> w = [].
Proof.
  intros H. apply matches_Star_inv in H.
  destruct H as [H|(w1 & w2 & _ & Hne & H1 & _)]; [exact H|].
  apply matches_EndText_inv in H1. destruct H1. congruence.
Qed.

(** Three or more of a literal. *)
Lemma matches_fence_inv (f : byte) n w rest :
  b2z f < 0x80 ->
  matches (Cat (Cat (Lit (b2z f)) (Lit (b2z f)))
               (Cat (Lit (b2z f)) (Star true (Lit (b2z f))))) n w rest ->
  exists a, w = repeat f (3 + a).
Proof.
  intros Hf H.
  apply matches_Cat_inv in H. destruct H as (w12 & w3 & -> & H12 & H3).
  apply matches_Cat_inv in H12. destruct H12 as (w1 & w2 & -> & H1 & H2).
  apply matches_Cat_inv in H3. destruct H3 as (w3' & ws & -> & H3 & Hs).
  apply matches_Lit_inv in H1, H2, H3; try exact Hf. subst.
  apply matches_Star_Lit_inv in Hs; [|exact Hf]. destruct Hs as [a ->].
  exists a. reflexivity.
Qed.

Lemma matches_fence_intro (f : byte) a n rest :
  b2z f < 0x80 ->
  matches (Cat (Cat (Lit (b2z f)) (Lit (b2z f)))
               (Cat (Lit (b2z f)) (Star true (Lit (b2z f))))) n (repeat f (3 + a)) rest.
Proof.
  intros Hf. change (repeat f (3 + a)) with (([f] ++ [f]) ++ ([f] ++ repeat f a)).
  apply M_Cat; apply M_Cat; try (apply matches_Lit_intro; exact Hf).
  apply matches_Star_Lit_intro. exact Hf.
Qed.

(** What the rule matches before the end of the line: an opening fence,
    the rest of the first line, a newline, a body, a closing fence of
    the same character. *)
Lemma gfm_front_inv (f : byte) g w rest :
  b2z f < 0x80 ->
  matches (gfm_front (b2z f) g) 0%nat w rest ->
  exists a info body b,
    w = repeat f (3 + a) ++ info ++ [NL] ++ body ++ repeat f (3 + b) /\
    Forall (fun c => c <> NL) info /\ body <> [].
Proof.
  intros Hf H. rewrite gfm_front_unfold in H.
  apply matches_Cat_inv in H. destruct H as (w0 & r1 & -> & H0 & H).
  apply matches_BeginText_inv in H0. destruct H0 as [-> _].
  apply matches_Cat_inv in H. destruct H as (wo & r2 & -> & Ho & H).
  apply matches_fence_inv in Ho; [|exact Hf]. destruct Ho as [a ->].
  apply matches_Cat_inv in H. destruct H as (wi & r3 & -> & Hi & H).
  change c_sp with (b2z SP) in Hi.
  apply matches_Star_Lit_inv in Hi; [|vm_compute; reflexivity]. destruct Hi as [i ->].
  apply matches_Cat_inv in H. destruct H as (wt & r4 & -> & Ht & H).
  apply matches_Cat_inv in H. destruct H as (wj & r5 & -> & Hj & H).
  change c_sp with (b2z SP) in Hj.
  apply matches_Star_Lit_inv in Hj; [|vm_compute; reflexivity]. destruct Hj as [j ->].
  apply matches_Cat_inv in H. destruct H as (wn & r6 & -> & Hn & H).
  change c_nl with (b2z NL) in Hn.
  apply matches_Lit_inv in Hn; [|vm_compute; reflexivity]. subst wn.
  apply matches_Cat_inv in H. destruct H as (wb & r7 & -> & Hb & H).
  apply matches_Group_inv in Hb.
  apply matches_Cat_inv in Hb. destruct Hb as (wb1 & wb2 & -> & Hb1 & _).
  apply matches_any_nonempty in Hb1.
  apply matches_Cat_inv in H. destruct H as (ws & r8 & -> & _ & H).
  apply matches_Cat_inv in H. destruct H as (wc & we & -> & Hc & He).
  apply matches_fence_inv in Hc; [|exact Hf]. destruct Hc as [b ->].
  apply matches_Star_EndText_inv in He. subst we.
  assert (Htag : Forall (fun c => c <> NL) wt).
  { apply matches_Alt_inv in Ht. destruct Ht as [Ht|Ht].
    - apply matches_Group_inv in Ht.
      apply matches_Cat_inv in Ht. destruct Ht as (t1 & t2 & -> & Ht1 & Ht2).
      apply Forall_app. split.
      + eapply matches_class_free; [|exact Ht1]. reflexivity.
      + eapply matches_star_class_free; [|exact Ht2]. reflexivity.
    - apply matches_Empty_inv in Ht. subst. constructor. }
  exists a, (repeat SP i ++ wt ++ repeat SP j), ((wb1 ++ wb2) ++ ws), b.
  split; [|split].
  - cbn [app]. rewrite app_nil_r, <- !app_assoc. reflexivity.
  - repeat (apply Forall_app; split); try assumption; apply repeat_free; discriminate.
  - apply app_nonempty_l, app_nonempty_l. exact Hb1.
Qed.

Lemma match_here_gfm s :
  match_here (block itemGfmCodeBlock) s =
    orelse (exec (gfm_front (b2z x60) 1) 0%nat s []
              (fun n' s' c' => exec re_eol n' s' c' accept))
           (exec (gfm_front (b2z x7e) 3) 0%nat s []
              (fun n' s' c' => exec re_eol n' s' c' accept)).
Proof. reflexivity. Qed.

Lemma firstn_front (w : gostring) k rest :
  firstn (length w + k) (w ++ repeat NL k ++ rest) = w ++ repeat NL k.
Proof.
  rewrite app_assoc, firstn_app.
  replace (length w + k - length (w ++ repeat NL k))%nat with 0%nat
    by (rewrite length_app, repeat_length; lia).
  rewrite firstn_all2 by (rewrite length_app, repeat_length; lia).
  cbn [firstn]. rewrite app_nil_r. reflexivity.
Qed.

(** What one alternative of the rule finds has the shape of a fenced
    block with its fence character. *)
Lemma gfm_alt_shape (f : byte) g s e c :
  b2z f < 0x80 ->
  exec (gfm_front (b2z f) g) 0%nat s []
       (fun n' s' c' => exec re_eol n' s' c' accept) = Some (e, c) ->
  fence_shape f (firstn e s) /\
  exists rest, s = firstn e s ++ rest /\ no_nl_ahead rest.
Proof.
  intros Hf E.
  destruct (find_front_eol _ _ _ _ E) as (w & k & rest & Hs & He & Hm & Hn & Hk).
  apply gfm_front_inv in Hm; [|exact Hf].
  destruct Hm as (a & info & body & b & Hw & Hinfo & Hbody).
  subst e.
  assert (Hfn : firstn (length w + k) s = w ++ repeat NL k)
    by (rewrite Hs; apply firstn_front).
  rewrite Hfn. split.
  - exists (3 + a)%nat, info, body, (3 + b)%nat, k.
    repeat split; try lia; try assumption.
    rewrite Hw, <- !app_assoc. reflexivity.
  - exists rest. split; [|exact Hn]. rewrite <- app_assoc. exact Hs.
Qed.

(** *** The path of highest priority through the rule *)

(** Bytes that are not white space make runes that are not white
    space. *)
Lemma nws_rune (s : gostring) (r w : Z) :
  s <> [] -> utf8.DecodeRuneInString s = (r, w) ->
  Forall (fun c => space_byte c = false) (firstn (Z.to_nat w) s) ->
  class_match false [PerlNotSpace] r = true.
Proof.
  intros Hs D Hall. unfold class_match. cbn [existsb citem_match xorb].
  rewrite orb_false_r. apply negb_true_iff.
  destruct (is_space r) eqn:E; [|reflexivity]. exfalso.
  assert (Hr : r < 0x80).
  { unfold is_space in E. repeat (apply orb_true_iff in E; destruct E as [E|E]);
      apply Z.eqb_eq in E; lia. }
  destruct (decode_ascii_inv s r w Hs D Hr) as (c & t & -> & Hc & ->).
  change (Z.to_nat 1) with 1%nat in Hall. cbn [firstn] in Hall.
  apply Forall_inv in Hall.
  assert (Hsp : space_byte c = true).
  { unfold is_space in E. unfold space_byte. cbn [existsb].
    repeat (apply orb_true_iff in E; destruct E as [E|E]);
      apply Z.eqb_eq in E; rewrite <- Hc in E;
      [apply (b2z_inj c x09) in E | apply (b2z_inj c x0a) in E
      | apply (b2z_inj c x0c) in E | apply (b2z_inj c x0d) in E
      | apply (b2z_inj c x20) in E]; subst c; reflexivity. }
  congruence.
Qed.

Lemma gfm_front_tail f g :
  gfm_front f g =
    Cat BeginText
   (Cat (Cat (Cat (Lit f) (Lit f)) (Cat (Lit f) (Star true (Lit f))))
   (Cat (Star true (Lit c_sp))
   (Cat (Alt (Group g (Cat re_nws (Star true re_nws))) Empty)
   (Cat (Star true (Lit c_sp))
   (Cat (Lit c_nl) (gfm_tail f g)))))).
Proof. reflexivity. Qed.

Lemma fence_ascii f : f = x60 \/ f = x7e -> b2z f < 0x80.
Proof. intros [-> | ->]; vm_compute; reflexivity. Qed.

(** The first line of a fenced block with a tag: the fence, the
    spaces, the tag, which the group records, the spaces and the
    newline are taken in one pass. *)
Lemma gfm_head_exec (f : byte) g a i tag j s1 k v :
  f = x60 \/ f = x7e ->
  tag <> [] -> Forall (fun c => space_byte c = false) tag ->
  hd_error tag <> Some f ->
  exec (gfm_tail (b2z f) g) (3 + a + i + length tag + j + 1)%nat s1
       [(g, ((3 + a + i)%nat, (3 + a + i + length tag)%nat))] k = Some v ->
  exec (gfm_front (b2z f) g) 0%nat
       (repeat f (3 + a) ++ repeat SP i ++ tag ++ repeat SP j ++ [NL] ++ s1) [] k
    = Some v.
Proof.
  intros Hf Hne Htag Hhd Hk. pose proof (fence_ascii f Hf) as Hfa.
  assert (Hsp : hd_error tag <> Some SP).
  { destruct tag as [|x t]; [congruence|]. apply Forall_inv in Htag.
    cbn. intros E. inversion E; subst. discriminate. }
  rewrite gfm_front_tail. cat_step. rewrite exec_BeginText_0. cat_step.
  cbn [repeat Nat.add app].
  rewrite exec_Lit_hit by exact Hfa. cat_step.
  rewrite exec_Lit_hit by exact Hfa. cat_step.
  rewrite exec_Lit_hit by exact Hfa.
  apply exec_Star_Lit_greedy; [exact Hfa | |].
  { destruct i; cbn [repeat app].
    - rewrite hd_error_app by exact Hne. exact Hhd.
    - cbn. destruct Hf as [-> | ->]; discriminate. }
  cat_step. change c_sp with (b2z SP).
  apply exec_Star_Lit_greedy; [vm_compute; reflexivity | |].
  { rewrite hd_error_app by exact Hne. exact Hsp. }
  cat_step. rewrite exec_Alt, exec_Group.
  replace (exec (Cat re_nws (Star true re_nws)) _ _ _ _) with (Some v); [reflexivity|].
  symmetry. unfold re_nws.
  apply (exec_Plus_class_greedy (fun c => space_byte c = false) false [PerlNotSpace]
           nws_rune); [exact Hne | exact Htag | |].
  { destruct j; cbn; split; reflexivity. }
  cat_step.
  apply exec_Star_Lit_greedy; [vm_compute; reflexivity | |].
  { cbn. discriminate. }
  cat_step. cbn [app]. change c_nl with (b2z NL).
  rewrite exec_Lit_hit by (vm_compute; reflexivity).
  rewrite <- Hk. repeat (f_equal; try lia).
Qed.

(** The first line of a fenced block without a tag. *)
Lemma gfm_head_exec_notag (f : byte) g a i s1 k v :
  f = x60 \/ f = x7e ->
  exec (gfm_tail (b2z f) g) (3 + a + i + 1)%nat s1 [] k = Some v ->
  exec (gfm_front (b2z f) g) 0%nat (repeat f (3 + a) ++ repeat SP i ++ [NL] ++ s1) [] k
    = Some v.
Proof.
  intros Hf Hk. pose proof (fence_ascii f Hf) as Hfa.
  rewrite gfm_front_tail. cat_step. rewrite exec_BeginText_0. cat_step.
  cbn [repeat Nat.add app].
  rewrite exec_Lit_hit by exact Hfa. cat_step.
  rewrite exec_Lit_hit by exact Hfa. cat_step.
  rewrite exec_Lit_hit by exact Hfa.
  apply exec_Star_Lit_greedy; [exact Hfa | |].
  { destruct i; cbn; destruct Hf as [-> | ->]; discriminate. }
  cat_step. change c_sp with (b2z SP).
  apply exec_Star_Lit_greedy; [vm_compute; reflexivity | |].
  { cbn. discriminate. }
  cat_step. rewrite exec_Alt, exec_Group.
  replace (exec (Cat re_nws (Star true re_nws)) _ _ _ _) with (@None (nat * caps)).
  2:{ rewrite exec_Cat. unfold re_nws. rewrite exec_Class_unfold. reflexivity. }
  cbn [orelse exec].
  apply (exec_Star_Lit_greedy SP 0%nat); [vm_compute; reflexivity | |].
  { cbn. discriminate. }
  cat_step. change c_nl with (b2z NL).
  rewrite exec_Lit_hit by (vm_compute; reflexivity).
  rewrite <- Hk. repeat (f_equal; try lia).
Qed.

(** A pattern that does not begin with the fence character. *)
Lemma gfm_front_miss (f : byte) g s k :
  b2z f < 0x80 -> hd_error s <> Some f ->
  exec (gfm_front (b2z f) g) 0%nat s [] k = None.
Proof.
  intros Hf Hh. rewrite gfm_front_tail. cat_step. rewrite exec_BeginText_0. cat_step.
  apply exec_Lit_miss; assumption.
Qed.

(** *** The body and the closing fence *)

Lemma gfm_tail_unfold f g :
  gfm_tail f g =
    Cat (Group (S g) (Cat re_any (Star false re_any)))
   (Cat (Star true re_ws)
   (Cat (Cat (Cat (Lit f) (Lit f)) (Cat (Lit f) (Star true (Lit f))))
        (Star true EndText))).
Proof. reflexivity. Qed.

Lemma gfm_tail_inv (f : byte) g n w rest :
  b2z f < 0x80 ->
  matches (gfm_tail (b2z f) g) n w rest ->
  exists body b, w = body ++ repeat f (3 + b) /\ body <> [].
Proof.
  intros Hf H. rewrite gfm_tail_unfold in H.
  apply matches_Cat_inv in H. destruct H as (wb & r1 & -> & Hb & H).
  apply matches_Group_inv in Hb.
  apply matches_Cat_inv in Hb. destruct Hb as (wb1 & wb2 & -> & Hb1 & _).
  apply matches_any_nonempty in Hb1.
  apply matches_Cat_inv in H. destruct H as (ws & r2 & -> & _ & H).
  apply matches_Cat_inv in H. destruct H as (wc & we & -> & Hc & He).
  apply matches_fence_inv in Hc; [|exact Hf]. destruct Hc as [b ->].
  apply matches_Star_EndText_inv in He. subst we.
  exists ((wb1 ++ wb2) ++ ws), b. split.
  - rewrite app_nil_r, <- !app_assoc. reflexivity.
  - apply app_nonempty_l, app_nonempty_l. exact Hb1.
Qed.

Lemma matches_Plus_of_Star g a n w rest :
  matches (Star g a) n w rest -> w <> [] -> matches (Cat a (Star g a)) n w rest.
Proof.
  intros H Hne. apply matches_Star_inv in H.
  destruct H as [H|(w1 & w2 & -> & _ & H1 & H2)]; [congruence|].
  apply M_Cat; assumption.
Qed.

Lemma any_rune (s : gostring) (r w : Z) :
  s <> [] -> utf8.DecodeRuneInString s = (r, w) ->
  Forall (fun _ : byte => True) (firstn (Z.to_nat w) s) ->
  class_match false [PerlSpace; PerlNotSpace] r = true.
Proof.
  intros _ _ _. unfold class_match. cbn [existsb citem_match xorb].
  destruct (is_space r); reflexivity.
Qed.

Lemma gfm_tail_intro (f : byte) g n body b rest :
  b2z f < 0x80 -> body <> [] ->
  matches (gfm_tail (b2z f) g) n (body ++ repeat f (3 + b)) rest.
Proof.
  intros Hf Hne. rewrite gfm_tail_unfold.
  replace (body ++ repeat f (3 + b)) with (body ++ [] ++ repeat f (3 + b) ++ [])
    by (cbn [app]; rewrite app_nil_r; reflexivity).
  apply M_Cat; [|apply M_Cat; [|apply M_Cat]].
  - apply M_Group. apply matches_Plus_of_Star; [|exact Hne].
    apply (matches_Star_Class_intro (fun _ => True) false [PerlSpace; PerlNotSpace]
             false any_rune).
    + apply Forall_forall. auto.
    + cbn. exact Hf.
  - apply M_StarNil.
  - apply matches_fence_intro. exact Hf.
  - apply M_StarNil.
Qed.

(** The closing fence is the last run of the fence character: the text
    before it holds none, and neither does the text after it. *)
Lemma last_fence_split (f : byte) (X Y B N : gostring) (b : nat) :
  X ++ f :: Y = B ++ repeat f b ++ N ->
  Forall (fun c => c <> f) B -> Forall (fun c => c <> f) N ->
  hd_error Y <> Some f ->
  Y = N /\ X ++ [f] = B ++ repeat f b.
Proof.
  intros E HB HN HY. revert X E. induction B as [|b0 B IH]; intros X E.
  - cbn [app] in E |- *. revert X E. induction b as [|b IHb]; intros X E.
    + cbn [repeat app] in E. exfalso.
      rewrite Forall_forall in HN. apply (HN f); [|reflexivity].
      rewrite <- E. apply in_or_app. right. left. reflexivity.
    + cbn [repeat app] in E. destruct X as [|x X].
      * cbn [app] in E. inversion E as [E']. subst Y.
        destruct b as [|b].
        -- cbn [repeat app]. auto.
        -- exfalso. apply HY. reflexivity.
      * cbn [app] in E. inversion E as [[Ex E']]. subst x.
        destruct (IHb X E') as [-> E2]. split; [reflexivity|].
        cbn [app repeat]. rewrite E2. reflexivity.
  - destruct X as [|x X].
    + cbn [app] in E. inversion E as [[Ex E']]. apply Forall_inv in HB. congruence.
    + cbn [app] in E. inversion E as [[Ex E']]. subst x.
      destruct (IH (Forall_inv_tail HB) X E') as [-> E2]. split; [reflexivity|].
      cbn [app]. rewrite E2. reflexivity.
Qed.

(** The groups of the first line are kept by the rest of the rule. *)
Lemma gfm_tail_frame f g c c' :
  extends (gfm_tail f g) c c' -> cap_lookup g c' = cap_lookup g c.
Proof.
  intros (d & -> & Hd). induction d as [|[i v] d IH]; [reflexivity|].
  cbn [app cap_lookup]. pose proof (Forall_inv Hd) as Hi. cbn in Hi.
  destruct Hi as [<- |[]].
  replace (g =? S g)%nat with false by (symmetry; apply Nat.eqb_neq; lia).
  apply IH. exact (Forall_inv_tail Hd).
Qed.

(** From the body on, the rule takes the body and the closing fence,
    then all the newlines. *)
Lemma gfm_tail_exec (f : byte) g n body b k rest c :
  f = x60 \/ f = x7e ->
  body <> [] -> Forall (fun x => x <> f) body ->
  Forall (fun x => x <> f) rest -> no_nl_ahead rest -> (k = 0%nat -> rest = []) ->
  exists c',
    exec (gfm_tail (b2z f) g) n (body ++ repeat f (3 + b) ++ repeat NL k ++ rest) c
         (fun n' s' c' => exec re_eol n' s' c' accept)
      = Some ((n + length body + (3 + b) + k)%nat, c') /\
    cap_lookup g c' = cap_lookup g c.
Proof.
  intros Hf Hne Hbody Hrest Hn Hk. pose proof (fence_ascii f Hf) as Hfa.
  assert (HfNL : f <> NL) by (destruct Hf as [-> | ->]; discriminate).
  set (s := body ++ repeat f (3 + b) ++ repeat NL k ++ rest).
  destruct (exec (gfm_tail (b2z f) g) n s c
              (fun n' s' c' => exec re_eol n' s' c' accept)) as [[e c'']|] eqn:E.
  - destruct (exec_sound _ _ _ _ _ _ E) as (w & rest' & c' & Hs & Hm & Hext & HK).
    rewrite exec_eol_accept in HK.
    assert (Hrest' : hd_error rest' <> Some f /\
                     (e, c'') = ((n + length w + leading_nl rest')%nat, c')).
    { destruct rest' as [|y t].
      - inversion HK. split; [discriminate|]. cbn [leading_nl]. f_equal. lia.
      - destruct (Byte.eqb y NL) eqn:Ey; [|discriminate].
        apply Byte.byte_dec_bl in Ey. subst y. inversion HK. split; [|reflexivity].
        cbn. intros E'. inversion E'. congruence. }
    destruct Hrest' as [Hhd Hec]. inversion Hec; subst e c''. clear Hec HK.
    apply gfm_tail_inv in Hm; [|exact Hfa]. destruct Hm as (body' & b' & Hw & Hne').
    assert (HN : Forall (fun x => x <> f) (repeat NL k ++ rest)).
    { apply Forall_app. split; [|exact Hrest].
      apply Forall_forall. intros x Hx. apply repeat_spec in Hx. congruence. }
    assert (Hsplit : (body' ++ repeat f (2 + b')) ++ f :: rest' =
                     body ++ repeat f (3 + b) ++ repeat NL k ++ rest).
    { fold s. rewrite Hs, Hw.
      change (repeat f (3 + b')) with (f :: repeat f (2 + b')).
      rewrite repeat_cons, <- !app_assoc. reflexivity. }
    destruct (last_fence_split f _ _ _ _ _ Hsplit Hbody HN Hhd) as [Hr Hw'].
    assert (Hw2 : w = body ++ repeat f (3 + b)).
    { rewrite Hw. rewrite <- Hw'.
      change (repeat f (3 + b')) with (f :: repeat f (2 + b')).
      rewrite repeat_cons, <- !app_assoc. reflexivity. }
    exists c'. split.
    + rewrite Hr, (leading_nl_repeat k rest Hn), Hw2, length_app, repeat_length.
      f_equal. f_equal. lia.
    + eapply gfm_tail_frame. exact Hext.
  - exfalso. revert E. unfold s. rewrite app_assoc.
    apply exec_complete; [apply gfm_tail_intro; assumption|].
    intros c'. rewrite exec_eol_accept.
    destruct k as [|k]; [rewrite Hk by reflexivity; discriminate|].
    cbn [repeat app]. rewrite (Byte.byte_dec_lb (eq_refl NL)). discriminate.
Qed.

(** *** What the rule finds at a fenced block *)

Lemma fenced_length f a i tag j body b :
  length (fenced f a i tag j body b) =
    (a + i + length tag + j + 1 + length body + b)%nat.
Proof.
  unfold fenced. rewrite !length_app, !repeat_length. cbn [length]. lia.
Qed.

Lemma gfm_front_exec (f : byte) g a i tag j body b k rest :
  f = x60 \/ f = x7e ->
  Forall (fun c => space_byte c = false) tag -> hd_error tag <> Some f ->
  body <> [] -> Forall (fun x => x <> f) body ->
  Forall (fun x => x <> f) rest -> no_nl_ahead rest -> (k = 0%nat -> rest = []) ->
  exists c',
    exec (gfm_front (b2z f) g) 0%nat
         (fenced f (3 + a) i tag j body (3 + b) ++ repeat NL k ++ rest) []
         (fun n' s' c' => exec re_eol n' s' c' accept)
      = Some ((length (fenced f (3 + a) i tag j body (3 + b)) + k)%nat, c') /\
    cap_lookup g c' =
      match tag with
      | [] => None
      | _ :: _ => Some ((3 + a + i)%nat, (3 + a + i + length tag)%nat)
      end.
Proof.
  intros Hf Htag Hhd Hne Hbody Hrest Hn Hk.
  rewrite fenced_length. unfold fenced. destruct tag as [|x t].
  - destruct (gfm_tail_exec f g (3 + a + (i + j) + 1)%nat body b k rest []
                Hf Hne Hbody Hrest Hn Hk) as (c' & E & Hc).
    exists c'. split; [|exact Hc].
    replace ((repeat f (3 + a) ++ repeat SP i ++ [] ++ repeat SP j ++ [NL] ++
              body ++ repeat f (3 + b)) ++ repeat NL k ++ rest)
      with (repeat f (3 + a) ++ repeat SP (i + j) ++ [NL] ++
            body ++ repeat f (3 + b) ++ repeat NL k ++ rest)
      by (rewrite (repeat_app SP i j), <- !app_assoc; reflexivity).
    apply gfm_head_exec_notag; [exact Hf|].
    rewrite E. f_equal. f_equal. cbn [length]. lia.
  - set (tag := x :: t) in *.
    destruct (gfm_tail_exec f g (3 + a + i + length tag + j + 1)%nat body b k rest
                [(g, ((3 + a + i)%nat, (3 + a + i + length tag)%nat))]
                Hf Hne Hbody Hrest Hn Hk) as (c' & E & Hc).
    exists c'. split.
    + replace ((repeat f (3 + a) ++ repeat SP i ++ tag ++ repeat SP j ++ [NL] ++
                body ++ repeat f (3 + b)) ++ repeat NL k ++ rest)
        with (repeat f (3 + a) ++ repeat SP i ++ tag ++ repeat SP j ++ [NL] ++
              body ++ repeat f (3 + b) ++ repeat NL k ++ rest)
        by (rewrite <- !app_assoc; reflexivity).
      apply gfm_head_exec; [exact Hf | discriminate | exact Htag | exact Hhd |].
      rewrite E. f_equal.
    + rewrite Hc. cbn [cap_lookup]. rewrite Nat.eqb_refl. reflexivity.
Qed.

Lemma gfm_match_here (f : byte) a i tag j body b k rest :
  f = x60 \/ f = x7e ->
  Forall (fun c => space_byte c = false) tag -> hd_error tag <> Some f ->
  body <> [] -> Forall (fun x => x <> f) body ->
  Forall (fun x => x <> f) rest -> no_nl_ahead rest -> (k = 0%nat -> rest = []) ->
  exists c',
    match_here (block itemGfmCodeBlock)
         (fenced f (3 + a) i tag j body (3 + b) ++ repeat NL k ++ rest)
      = Some ((length (fenced f (3 + a) i tag j body (3 + b)) + k)%nat, c') /\
    cap_lookup (tag_group f) c' =
      match tag with
      | [] => None
      | _ :: _ => Some ((3 + a + i)%nat, (3 + a + i + length tag)%nat)
      end.
Proof.
  intros Hf Htag Hhd Hne Hbody Hrest Hn Hk.
  destruct (gfm_front_exec f (tag_group f) a i tag j body b k rest
              Hf Htag Hhd Hne Hbody Hrest Hn Hk) as (c' & E & Hc).
  exists c'. split; [|exact Hc]. rewrite match_here_gfm.
  destruct Hf as [-> | ->].
  - change (tag_group x60) with 1%nat in E. rewrite E. reflexivity.
  - change (tag_group x7e) with 3%nat in E.
    rewrite (gfm_front_miss x60 1); [cbn [orelse]; exact E | vm_compute; reflexivity |].
    unfold fenced. cbn. discriminate.
Qed.

(** At a fenced block whose fences have 3 characters or more, of any
    two lengths, the rule finds the block with the newlines that follow
    it, and the group of the tag holds the tag. *)
Lemma gfm_find (f : byte) a i tag j body b k rest :
  f = x60 \/ f = x7e ->
  Forall (fun c => space_byte c = false) tag -> hd_error tag <> Some f ->
  body <> [] -> Forall (fun x => x <> f) body ->
  Forall (fun x => x <> f) rest -> no_nl_ahead rest -> (k = 0%nat -> rest = []) ->
  MatchString (block itemGfmCodeBlock)
     (fenced f (3 + a) i tag j body (3 + b) ++ repeat NL k ++ rest) = true /\
  FindString (block itemGfmCodeBlock)
     (fenced f (3 + a) i tag j body (3 + b) ++ repeat NL k ++ rest)
    = fenced f (3 + a) i tag j body (3 + b) ++ repeat NL k /\
  Submatch (block itemGfmCodeBlock) (tag_group f)
     (fenced f (3 + a) i tag j body (3 + b) ++ repeat NL k ++ rest)
    = match tag with [] => None | _ :: _ => Some tag end.
Proof.
  intros Hf Htag Hhd Hne Hbody Hrest Hn Hk.
  destruct (gfm_match_here f a i tag j body b k rest
              Hf Htag Hhd Hne Hbody Hrest Hn Hk) as (c' & E & Hc).
  unfold Submatch.
  rewrite MatchString_anchored, FindString_anchored, find_anchored by reflexivity.
  rewrite E, Hc. split; [reflexivity|]. split; [apply firstn_front|].
  destruct tag as [|x t]; [reflexivity|]. f_equal.
  replace (3 + a + i + length (x :: t) - (3 + a + i))%nat with (length (x :: t)) by lia.
  unfold fenced.
  replace ((repeat f (3 + a) ++ repeat SP i ++ (x :: t) ++ repeat SP j ++ [NL] ++
            body ++ repeat f (3 + b)) ++ repeat NL k ++ rest)
    with ((repeat f (3 + a) ++ repeat SP i) ++ (x :: t) ++ repeat SP j ++ [NL] ++
          body ++ repeat f (3 + b) ++ repeat NL k ++ rest)
    by (rewrite <- !app_assoc; reflexivity).
  rewrite skipn_app.
  replace (3 + a + i - length (repeat f (3 + a) ++ repeat SP i))%nat with 0%nat
    by (rewrite length_app, !repeat_length; lia).
  rewrite skipn_all2 by (rewrite length_app, !repeat_length; lia).
  cbn [skipn app].
  change (x :: t ++ _) with ((x :: t) ++ repeat SP j ++ [NL] ++
          body ++ repeat f (3 + b) ++ repeat NL k ++ rest).
  rewrite firstn_app, firstn_all, Nat.sub_diag. cbn [firstn].
  rewrite app_nil_r. reflexivity.
Qed.

End gfm_facts.

(* ================================================================== *)
(** ** Runs of the scanner *)

Module run_facts.
Import lexer_facts.

(** An invariant of the steps holds of the state whose items [trace]
    returns. *)
Lemma trace_inv (P : lexer -> Prop) :
  (forall f l st l', P l -> call f l = Ok (st, l') -> P l') ->
  forall fuel st l, P l -> exists l', P l' /\ trace fuel st l = sent (items l').
Proof.
  intros Hstep fuel. induction fuel as [|fuel IH]; intros st l Hl.
  - exists l. split; [exact Hl|]. destruct st; reflexivity.
  - destruct st as [f|]; [|exists l; split; [exact Hl | reflexivity]].
    cbn [trace]. destruct (call f l) as [[st' l']| |] eqn:E.
    + apply IH. eapply Hstep; eassumption.
    + exists l. auto.
    + exists l. auto.
Qed.

(** A run that ends has sent exactly the items of [trace]. *)
Lemma run_loop_trace fuel st l l' :
  run_loop fuel st l = Ok l' -> trace fuel st l = sent (items l') /\ closed (items l') = true.
Proof.
  revert st l. induction fuel as [|fuel IH]; intros st l H.
  - destruct st; cbn in H; [discriminate|]. inversion H; subst. cbn. auto.
  - destruct st as [f|]; cbn in H; [|inversion H; subst; cbn; auto].
    cbn [trace]. destruct (call f l) as [[st' l1]| |]; cbn in H; try discriminate.
    apply IH. exact H.
Qed.

Lemma call_sent f l st l' :
  call f l = Ok (st, l') ->
  input l' = input l /\
  (sent (items l') = sent (items l) \/
   exists t v, emitter f t /\
     slice (input l) (start l) (start l') = Ok v /\
     sent (items l') = sent (items l) ++ [mkItem t (start l) v]).
Proof.
  intros H. apply call_cases in H.
  destruct H as [(A & B & C)|(l1 & t & (A & B & C) & He & Ht)].
  - split; [exact A|]. left. rewrite C. reflexivity.
  - apply emit_spec in He. destruct He as (v & Hv & Hs & _ & Hi & Hp & Hst & _).
    split; [congruence|]. right. exists t, v. split; [exact Ht|].
    rewrite Hst, Hs, C, <- A, <- B. auto.
Qed.

(** Items once sent stay as they are: a longer run only adds items at
    the end. *)
Lemma trace_step_prefix fuel :
  forall st l, exists more, trace (S fuel) st l = trace fuel st l ++ more.
Proof.
  induction fuel as [|fuel IH]; intros st l.
  - destruct st as [f|]; [|exists []; cbn; rewrite app_nil_r; reflexivity].
    cbn. destruct (call f l) as [[st' l']| |] eqn:E;
      try (exists []; rewrite app_nil_r; reflexivity).
    apply call_sent in E. destruct E as [_ [E|(t & v & _ & _ & E)]].
    + exists []. rewrite app_nil_r.
      destruct st'; rewrite E; reflexivity.
    + eexists. destruct st'; rewrite E; reflexivity.
  - destruct st as [f|]; [|exists []; cbn; rewrite app_nil_r; reflexivity].
    change (trace (S (S fuel)) (Some f) l)
      with (match call f l with Ok (st', l') => trace (S fuel) st' l' | _ => sent (items l) end).
    change (trace (S fuel) (Some f) l)
      with (match call f l with Ok (st', l') => trace fuel st' l' | _ => sent (items l) end).
    destruct (call f l) as [[st' l']| |];
      try (exists []; rewrite app_nil_r; reflexivity).
    apply IH.
Qed.

Lemma trace_prefix fuel fuel' st l :
  (fuel <= fuel')%nat -> exists more, trace fuel' st l = trace fuel st l ++ more.
Proof.
  intros H. induction H as [|m Hm IH].
  - exists []. rewrite app_nil_r. reflexivity.
  - destruct IH as [more IH]. destruct (trace_step_prefix m st l) as [more' E].
    exists (more ++ more'). rewrite E, IH, app_assoc. reflexivity.
Qed.

(** *** The items lie end to end from the start of the input *)

Lemma tiles_snoc inp p its q q' t v :
  tiles inp p its q -> slice inp q q' = Ok v ->
  tiles inp p (its ++ [mkItem t q v]) q'.
Proof.
  revert p. induction its as [|it its IH]; intros p H Hs; cbn in *.
  - subst p. pose proof (slice_ok _ _ _ _ Hs) as (A & B & C & D).
    replace (q + len v) with q' by lia. auto.
  - destruct H as (A & B & C). auto.
Qed.

Lemma tiles_bounds inp p its q :
  tiles inp p its q -> p <= q /\ Forall (fun it => p <= item_pos it) its.
Proof.
  revert p. induction its as [|it its IH]; intros p H; cbn in H.
  - subst. split; [lia | constructor].
  - destruct H as (A & B & C). apply IH in C. destruct C as [C1 C2].
    pose proof (len_nonneg (val it)). split; [lia|].
    constructor; [lia|]. eapply Forall_impl; [|exact C2]. cbn. intros; lia.
Qed.

Lemma tiles_sorted inp p its q :
  tiles inp p its q -> StronglySorted Z.le (map item_pos its).
Proof.
  revert p. induction its as [|it its IH]; intros p H; cbn in *.
  - constructor.
  - destruct H as (A & B & C). constructor; [eapply IH; exact C|].
    apply tiles_bounds in C. destruct C as [_ C].
    rewrite Forall_map. eapply Forall_impl; [|exact C].
    cbn. pose proof (len_nonneg (val it)). intros; lia.
Qed.

Lemma tiles_each inp p its q it :
  tiles inp p its q -> In it its ->
  slice inp (item_pos it) (item_pos it + len (val it)) = Ok (val it).
Proof.
  revert p. induction its as [|it0 its IH]; intros p H Hin; cbn in *; [tauto|].
  destruct H as (A & B & C). destruct Hin as [->|Hin].
  - rewrite A. exact B.
  - eapply IH; eassumption.
Qed.

Lemma tiled_step inp f l st l' :
  tiled inp l -> call f l = Ok (st, l') -> tiled inp l'.
Proof.
  intros [Hi Ht] H. pose proof (call_cases _ _ _ _ H) as Hc.
  destruct Hc as [(A & B & C)|(l1 & t & (A & B & C) & He & _)].
  - split; [congruence|]. rewrite C, B. exact Ht.
  - apply emit_spec in He. destruct He as (v & Hv & Hs & _ & Hi' & _ & Hst & _).
    split; [congruence|]. rewrite Hs, Hst, C.
    apply tiles_snoc; [rewrite B; exact Ht|]. rewrite <- Hi, <- A. exact Hv.
Qed.

Lemma emitted_tiled fuel inp :
  exists l, tiled inp l /\ emitted fuel inp = sent (items l).
Proof.
  unfold emitted. apply trace_inv.
  - intros f l st l'. apply tiled_step.
  - split; reflexivity.
Qed.

(** *** The types of the items *)

Lemma only_types_step (P : itemType -> Prop) :
  (forall f t, emitter f t -> P t) ->
  forall f l st l', only_types P l -> call f l = Ok (st, l') -> only_types P l'.
Proof.
  intros HP f l st l' Hl H. unfold only_types in *.
  apply call_sent in H. destruct H as [_ [E|(t & v & Ht & _ & E)]]; rewrite E.
  - exact Hl.
  - apply Forall_app. split; [exact Hl|]. constructor; [|constructor].
    cbn. eapply HP. exact Ht.
Qed.

End run_facts.

(* ================================================================== *)
(** ** Where the block rules are entered in a run *)

Module aligned_facts.
Import regexp utf8_facts regexp_facts shape_facts lexer_facts at_facts text_facts
       block_facts run_facts.

Lemma at_cursor_here l :
  0 <= pos l <= len (input l) ->
  at_cursor l (firstn (Z.to_nat (pos l)) (input l)) (skipn (Z.to_nat (pos l)) (input l)).
Proof.
  intros H. split.
  - symmetry. apply firstn_skipn.
  - unfold len in *. rewrite length_firstn. lia.
Qed.

Lemma byte_of_rune (c ca : byte) (t : gostring) (r w : Z) :
  utf8.DecodeRuneInString (c :: t) = (r, w) -> b2z ca < 0x80 ->
  (r =? b2z ca) = true -> c = ca /\ w = 1.
Proof.
  intros D Ha E. rewrite (rune_eqb_byte c ca t r w D Ha) in E.
  apply Byte.byte_dec_bl in E. subst c.
  rewrite decode_ascii in D by exact Ha. inversion D; auto.
Qed.

(** The two-byte lookahead of lexAny, after a first byte [c]. *)
Lemma lexAny_tail_spec inp p st it pre c t st' l' :
  inp = pre ++ c :: t -> p = len pre ->
  lexAny_tail (mkLexer inp (p + 1) st 1 it) = Ok (st', l') ->
  l' = mkLexer inp p st 1 it /\
  (st' = Some lexText \/
   (st' = Some lexGfmCode /\
    exists f t', t = f :: f :: t' /\ (f = x60 \/ f = x7e))).
Proof.
  intros Hi Hp H. unfold lexAny_tail in H. cbn [input pos] in H.
  apply bind_ok in H. destruct H as (cc & Hs & H).
  apply slice_ok in Hs. destruct Hs as (_ & Hlen & Hcc & _).
  replace (p + 1 + 2 - (p + 1)) with 2 in Hcc by lia.
  replace (Z.to_nat (p + 1)) with (length (pre ++ [c])) in Hcc
    by (rewrite length_app; subst p; unfold len; cbn; lia).
  rewrite Hi in Hcc. change (pre ++ c :: t) with (pre ++ [c] ++ t) in Hcc.
  rewrite app_assoc, skipn_app, skipn_all, Nat.sub_diag in Hcc.
  cbn [app skipn] in Hcc. change (Z.to_nat 2) with 2%nat in Hcc.
  unfold backup, set_pos in H. cbn [input pos start width items] in H.
  rewrite Z.add_simpl_r in H.
  destruct (bytes_eqb cc (bs "``") || bytes_eqb cc (bs "~~")) eqn:E;
    inversion H; subst st' l'; (split; [reflexivity|]); [right | left; reflexivity].
  split; [reflexivity|].
  unfold bytes_eqb in E.
  destruct (list_eq_dec Byte.byte_eq_dec cc (bs "``")) as [E1|_].
  - destruct t as [|f [|f' t']]; cbn in Hcc; rewrite Hcc in E1; try discriminate.
    inversion E1; subst. eauto.
  - destruct (list_eq_dec Byte.byte_eq_dec cc (bs "~~")) as [E2|_]; [|discriminate].
    destruct t as [|f [|f' t']]; cbn in Hcc; rewrite Hcc in E2; try discriminate.
    inversion E2; subst. eauto.
Qed.

(** What lexAny hands over to. *)
Lemma lexAny_aligned l st' l' :
  start l = pos l \/ len (input l) <= pos l ->
  call lexAny l = Ok (st', l') -> aligned st' l'.
Proof.
  intros Hal H. cbn [call] in H. unfold lexAny_fn in H.
  destruct (Z.le_gt_cases (len (input l)) (pos l)) as [Heof|Hlt].
  { rewrite next_eof in H by exact Heof. cbn [bind] in H.
    change (eof =? eof) with true in H. inversion H. exact I. }
  destruct Hal as [Hst|Hal]; [|lia].
  destruct (Z.lt_ge_cases (pos l) 0) as [Hneg|Hpos].
  { unfold next in H. replace (len (input l) <=? pos l) with false in H by lia.
    unfold slice_from in H. replace ((0 <=? pos l) && (pos l <=? len (input l))) with false in H by lia.
    discriminate. }
  pose proof (at_cursor_here l ltac:(lia)) as Hat.
  set (pre := firstn (Z.to_nat (pos l)) (input l)) in *.
  destruct (skipn (Z.to_nat (pos l)) (input l)) as [|c t] eqn:Es.
  { exfalso. apply (f_equal (@length byte)) in Es. rewrite length_skipn in Es.
    unfold len in *. cbn in Es. lia. }
  destruct (utf8.DecodeRuneInString (c :: t)) as [r w] eqn:D.
  rewrite (next_at _ _ _ _ _ Hat ltac:(discriminate) D) in H. cbn [bind] in H.
  pose proof (rune_nonneg (c :: t)) as Hr. rewrite D in Hr. cbn [fst] in Hr.
  replace (r =? eof) with false in H by (unfold eof; lia).
  destruct l as [inp p st w0 it]. cbn [input pos start width items] in *.
  destruct Hat as [Hi Hp]. cbn [input pos] in Hi, Hp.
  (* the star or dash case *)
  destruct ((r =? c_star) || (r =? c_dash)) eqn:Esd.
  { assert (Hc : (c = x2a \/ c = x2d) /\ w = 1).
    { apply orb_prop in Esd. destruct Esd as [E|E].
      - destruct (byte_of_rune c x2a t r w D ltac:(vm_compute; reflexivity) E); auto.
      - destruct (byte_of_rune c x2d t r w D ltac:(vm_compute; reflexivity) E); auto. }
    destruct Hc as [Hc ->].
    assert (Hat1 : at_cursor (mkLexer inp (p + 1) st 1 it) (pre ++ [c]) t).
    { split; cbn.
      - rewrite Hi, <- app_assoc. reflexivity.
      - rewrite len_app. unfold len at 2. cbn. lia. }
    destruct t as [|c2 t'].
    - rewrite peek_eof in H
        by (cbn; rewrite Hi, len_app; unfold len at 2; cbn; lia).
      cbn [bind input pos start width items] in H.
      change (eof =? c_star) with false in H. cbv iota in H.
      rewrite peek_eof in H
        by (cbn; rewrite Hi, len_app; unfold len at 2; cbn; lia).
      cbn [bind] in H. change (eof =? c_dash) with false in H. cbv iota in H.
      inversion H. exact I.
    - destruct (utf8.DecodeRuneInString (c2 :: t')) as [r2 w2] eqn:D2.
      rewrite (peek_at _ _ _ _ _ Hat1 ltac:(discriminate) D2) in H.
      cbn [bind input pos start width items] in H.
      assert (Hat2 : at_cursor (mkLexer inp (p + 1) st w2 it) (pre ++ [c]) (c2 :: t'))
        by (destruct Hat1; split; assumption).
      destruct (r2 =? c_star) eqn:E1.
      + destruct (byte_of_rune c2 x2a t' r2 w2 D2 ltac:(vm_compute; reflexivity) E1) as [-> ->].
        inversion H; subst st' l'. cbn [aligned].
        exists pre, c, x2a, t'. unfold backup, set_pos. cbn [input pos start width items].
        rewrite Z.add_simpl_r. repeat split; auto.
      + rewrite (peek_at _ _ _ _ _ Hat2 ltac:(discriminate) D2) in H.
        cbn [bind input pos start width items] in H.
        destruct (r2 =? c_dash) eqn:E2.
        * destruct (byte_of_rune c2 x2d t' r2 w2 D2 ltac:(vm_compute; reflexivity) E2) as [-> ->].
          inversion H; subst st' l'. cbn [aligned].
          exists pre, c, x2d, t'. unfold backup, set_pos. cbn [input pos start width items].
          rewrite Z.add_simpl_r. repeat split; auto.
        * inversion H. exact I. }
  (* the hash case *)
  destruct (r =? c_hash) eqn:Eh.
  { destruct (byte_of_rune c x23 t r w D ltac:(vm_compute; reflexivity) Eh) as [-> ->].
    inversion H; subst st' l'. cbn [aligned].
    exists pre, t. unfold backup, set_pos. cbn [input pos start width items].
    rewrite Z.add_simpl_r. repeat split; auto. }
  (* the space case *)
  destruct (r =? c_sp) eqn:Esp.
  { destruct (byte_of_rune c SP t r w D ltac:(vm_compute; reflexivity) Esp) as [-> ->].
    cbn [input pos] in H. apply bind_ok in H. destruct H as (s & _ & H).
    destruct (MatchString (block itemCodeBlock) s).
    - inversion H; subst st' l'. cbn [aligned].
      exists pre, t. unfold backup, set_pos. cbn [input pos start width items].
      rewrite Z.add_simpl_r. repeat split; auto.
    - destruct (lexAny_tail_spec inp p st it pre SP t st' l' Hi Hp H) as [-> [->|[-> Hf]]].
      + exact I.
      + destruct Hf as (f & t' & -> & Hf). cbn [aligned].
        exists pre, SP, f, t'. repeat split; auto. }
  (* the backtick or tilde case *)
  destruct ((r =? c_tick) || (r =? c_tilde)) eqn:Ett.
  { assert (Hc : (c = x60 \/ c = x7e) /\ w = 1).
    { apply orb_prop in Ett. destruct Ett as [E|E].
      - destruct (byte_of_rune c x60 t r w D ltac:(vm_compute; reflexivity) E); auto.
      - destruct (byte_of_rune c x7e t r w D ltac:(vm_compute; reflexivity) E); auto. }
    destruct Hc as [Hc ->].
    destruct (lexAny_tail_spec inp p st it pre c t st' l' Hi Hp H) as [-> [->|[-> Hf]]].
    - exact I.
    - destruct Hf as (f & t' & -> & Hf). cbn [aligned].
      exists pre, c, f, t'. repeat split; auto; tauto. }
  inversion H. exact I.
Qed.

(** What a block rule does where lexAny entered it. *)
Lemma lexBlock_aligned t l pre s st' l' :
  t = itemHeading \/ t = itemHr \/ t = itemGfmCodeBlock ->
  at_cursor l pre s -> start l = pos l ->
  lexBlock t l = Ok (st', l') ->
  (st' = Some lexText /\ l' = l /\ MatchString (block t) s = false) \/
  (exists m rest,
     s = m ++ rest /\
     MatchString (block t) s = true /\ FindString (block t) s = m /\
     st' = Some lexAny /\
     l' = mkLexer (input l) (pos l + len m) (pos l + len m) (width l)
            (mkChan (sent (items l) ++ [mkItem t (start l) m]) (closed (items l)))).
Proof.
  intros Ht Hat Hst H.
  assert (Hanch : anchored (block t) = true) by (apply block_anchored; tauto).
  destruct (MatchString (block t) s) eqn:HM.
  - right. destruct (MatchString_sound _ _ Hanch HM) as (m & rest & Hs & HF & _).
    exists m, rest. split; [exact Hs|]. split; [reflexivity|]. split; [exact HF|].
    subst s. rewrite (lexBlock_match t l pre m rest Hat) in H; try assumption.
    + inversion H. auto.
    + destruct Hat as [_ Hp]. congruence.
  - left. rewrite (lexBlock_nomatch t l pre s Hat HM) in H. inversion H. auto.
Qed.

Lemma found_by_rule_other inp t p v :
  t <> itemHeading -> t <> itemHr -> t <> itemGfmCodeBlock ->
  found_by_rule inp (mkItem t p v).
Proof. intros H1 H2 H3 [H|[H|H]]; cbn in H; congruence. Qed.

Lemma run_inv_step inp f l st' l' :
  run_inv inp (Some f) l -> call f l = Ok (st', l') -> run_inv inp st' l'.
Proof.
  intros (Hi & Hal & Hit) H.
  pose proof (call_sent _ _ _ _ H) as [Hi' Hsent].
  split; [congruence|].
  (* the block rules *)
  assert (Hblock : forall t pre s,
    t = itemHeading \/ t = itemHr \/ t = itemGfmCodeBlock ->
    at_cursor l pre s -> start l = pos l -> entered_at t s ->
    lexBlock t l = Ok (st', l') ->
    aligned st' l' /\ Forall (found_by_rule inp) (sent (items l'))).
  { intros t pre s Ht Hat Hst Hent Hb.
    destruct (lexBlock_aligned t l pre s st' l' Ht Hat Hst Hb)
      as [(-> & -> & _)|(m & rest & -> & HM & HF & -> & ->)].
    - split; [exact I | exact Hit].
    - split; [left; reflexivity|]. cbn [items sent].
      apply Forall_app. split; [exact Hit|]. constructor; [|constructor].
      intros _. cbn [typ val item_pos]. exists pre, rest.
      destruct Hat as [Hin Hp]. repeat split; congruence. }
  destruct f; cbn [aligned] in Hal.
  - (* lexAny *)
    split; [eapply lexAny_aligned; eassumption|].
    destruct Hsent as [E|(t & v & Ht & _)]; [rewrite E; exact Hit | destruct Ht].
  - destruct Hal as (pre & t & Hat & Hst).
    eapply (Hblock itemHeading); eauto. cbn. eauto.
  - destruct Hal as (pre & c1 & c2 & t & Hat & Hst & H1 & H2).
    eapply (Hblock itemHr); eauto. cbn. eauto 10.
  - destruct Hal as (pre & c & f & t & Hat & Hst & H1 & H2).
    eapply (Hblock itemGfmCodeBlock); eauto. cbn. eauto 10.
  - (* lexCode *)
    cbn [call] in H. unfold lexCode_fn in H.
    apply bind_ok in H. destruct H as (s & _ & H).
    apply bind_ok in H. destruct H as (l2 & He & H). inversion H; subst st' l2.
    apply emit_spec in He. destruct He as (v & _ & Hs & _ & _ & Hp & Hst & _).
    split; [left; congruence|]. rewrite Hs. apply Forall_app.
    split; [exact Hit|]. constructor; [|constructor].
    apply found_by_rule_other; discriminate.
  - (* lexList *)
    cbn [call] in H. inversion H; subst. split; [exact I | exact Hit].
  - (* lexText *)
    split.
    + cbn [call] in H. unfold lexText_fn, lexText_iter in H.
      apply bind_ok in H. destruct H as ([c l2] & Hiter & H).
      destruct c; [inversion H; exact I|]. inversion H; subst st' l2. clear H.
      apply bind_ok in Hiter. destruct Hiter as ([r l1] & Hn & H).
      cbv beta iota in H. apply next_spec in Hn. destruct Hn as [_ Hn].
      destruct (r =? eof) eqn:Er.
      * inversion H; subst l1. right.
        destruct Hn as [(A & _ & C & _)|(A & B & _)].
        -- destruct l'; destruct l; cbn in *. rewrite Hi'. lia.
        -- exfalso. apply Z.eqb_eq in Er. subst r.
           pose proof (rune_nonneg (skipn (Z.to_nat (pos l)) (input l))) as Hr.
           rewrite B in Hr. cbn in Hr. unfold eof in Hr. lia.
      * apply bind_ok in H. destruct H as ([b l3] & _ & H). cbv beta iota in H.
        destruct b.
        -- apply bind_ok in H. destruct H as (l4 & He & H). inversion H; subst l4.
           apply emit_spec in He. destruct He as (v & _ & _ & _ & _ & Hp & Hst & _).
           left. congruence.
        -- destruct (is_delim r).
           ++ apply bind_ok in H. destruct H as (s & _ & H).
              destruct (first_span span_order s) as [[t m]|];
                apply bind_ok in H; destruct H as (l4 & _ & H); discriminate.
           ++ apply bind_ok in H. destruct H as (l4 & _ & H). discriminate.
    + destruct Hsent as [E|(t & v & Ht & _ & E)]; rewrite E; [exact Hit|].
      apply Forall_app. split; [exact Hit|]. constructor; [|constructor].
      cbn [emitter] in Ht.
      apply found_by_rule_other;
        destruct Ht as [->|[->|[<-|[<-|[<-|[<-|[]]]]]]]; discriminate.
Qed.

(** The invariant along a run. *)
Lemma trace_inv_state (P : option stateFn -> lexer -> Prop) :
  (forall f l st l', P (Some f) l -> call f l = Ok (st, l') -> P st l') ->
  forall fuel st l, P st l ->
  exists st' l', P st' l' /\ trace fuel st l = sent (items l').
Proof.
  intros Hstep fuel. induction fuel as [|fuel IH]; intros st l Hl.
  - exists st, l. split; [exact Hl|]. destruct st; reflexivity.
  - destruct st as [f|]; [|exists None, l; split; [exact Hl | reflexivity]].
    cbn [trace]. destruct (call f l) as [[st' l']| |] eqn:E.
    + apply IH. eapply Hstep; eassumption.
    + exists (Some f), l. auto.
    + exists (Some f), l. auto.
Qed.

Theorem emitted_found_by_rule fuel inp :
  Forall (found_by_rule inp) (emitted fuel inp).
Proof.
  destruct (trace_inv_state (run_inv inp)) with
    (fuel := fuel) (st := Some lexAny) (l := new_lexer inp) as (st' & l' & Hl & E).
  - intros f l st l'. apply run_inv_step.
  - split; [reflexivity|]. split; [left; reflexivity | constructor].
  - unfold emitted. rewrite E. apply Hl.
Qed.

End aligned_facts.

(* ================================================================== *)
(** * The claims *)

Import regexp utf8_facts regexp_facts shape_facts lexer_facts at_facts text_facts.
Import block_facts path_facts heading_facts heading_group_facts hr_facts gfm_facts.
Import run_facts aligned_facts.

(** ** C1: every input is scanned to the end without a panic *)

(** C1.  The claim says that no input makes the scanner abort and that
    the two-byte lookahead slice of lexAny is always in range.  The
    code does not check that two bytes are left: on the input made of
    one backtick, of one space, or of a tilde and one more byte, the
    slice [l.input[l.pos : l.pos+2]] is out of range and the scanner
    panics at its first step.  (The empty input is scanned without a
    panic and sends no item.) *)
Theorem C1_lookahead_slice_out_of_range :
  (forall fuel, lex (S fuel) (bs "`") = Panic) /\
  (forall fuel, lex (S fuel) (bs " ") = Panic) /\
  (forall fuel, lex (S fuel) (bs "~a") = Panic) /\
  slice (bs "`") 1 (1 + 2) = Panic /\
  (forall fuel, exists l, lex (S fuel) [] = Ok l /\ sent (items l) = []).
Proof.
  repeat split; try (intros fuel; reflexivity).
  intros fuel. eexists. split; [destruct fuel; reflexivity | reflexivity].
Qed.

(** ** C2: the scanner terminates *)

(** After the boundary token for the two newlines, lexAny reads the
    star, peeks at the euro sign (width 3) and backs up by that width,
    to offset 0; lexText then reads the two newlines again and emits an
    empty boundary token, and lexAny is back where it was. *)
Lemma loop_cycle (w : Pos) (its : chan) :
  call lexAny (mkLexer loop_input 2 2 w its)
    = Ok (Some lexList, mkLexer loop_input 0 2 3 its) /\
  call lexList (mkLexer loop_input 0 2 3 its)
    = Ok (Some lexText, mkLexer loop_input 0 2 3 its) /\
  call lexText (mkLexer loop_input 0 2 3 its)
    = Ok (Some lexAny,
          mkLexer loop_input 2 2 1
            (mkChan (sent its ++ [mkItem itemNewLine 2 []]) (closed its))).
Proof. repeat split. Qed.

Lemma loop_never_ends (n : nat) :
  forall w its, run_loop n (Some lexAny) (mkLexer loop_input 2 2 w its) = OutOfFuel.
Proof.
  induction n as [n IH] using lt_wf_ind. intros w its.
  destruct (loop_cycle w its) as (E1 & E2 & E3).
  destruct n as [|[|[|n]]]; cbn [run_loop].
  - reflexivity.
  - rewrite E1. reflexivity.
  - rewrite E1. cbn [bind]. rewrite E2. reflexivity.
  - rewrite E1. cbn [bind]. rewrite E2. cbn [bind]. rewrite E3. cbn [bind].
    apply IH. lia.
Qed.

(** C2.  The claim says that the scanner terminates on every input and
    never loops without consuming input.  On [loop_input] it does not:
    whatever the number of steps allowed, the state [nil] is not
    reached (and no step panics), while empty boundary tokens keep
    being sent. *)
Theorem C2_scanner_loops_forever :
  (forall fuel, lex fuel loop_input = OutOfFuel) /\
  (forall k, (k <= length (emitted (3 * k + 2) loop_input))%nat).
Proof.
  split.
  - intros fuel. unfold lex, run.
    destruct fuel as [|[|fuel]]; try reflexivity.
    change (run_loop (S (S fuel)) (Some lexAny) (new_lexer loop_input))
      with (run_loop fuel (Some lexAny)
              (mkLexer loop_input 2 2 1 (mkChan [mkItem itemNewLine 0 [NL; NL]] false))).
    apply loop_never_ends.
  - intros k. unfold emitted.
    replace (3 * k + 2)%nat with (S (S (3 * k))) by lia.
    change (trace (S (S (3 * k))) (Some lexAny) (new_lexer loop_input))
      with (trace (3 * k) (Some lexAny)
              (mkLexer loop_input 2 2 1 (mkChan [mkItem itemNewLine 0 [NL; NL]] false))).
    assert (Hgrow : forall w its,
      (length (sent its) + k <=
       length (trace (3 * k) (Some lexAny) (mkLexer loop_input 2%Z 2%Z w its)))%nat).
    { induction k as [|k IH]; intros w its; [cbn; lia|].
      replace (3 * S k)%nat with (S (S (S (3 * k)))) by lia.
      destruct (loop_cycle w its) as (E1 & E2 & E3).
      cbn [trace]. rewrite E1, E2, E3.
      specialize (IH 1%Z (mkChan (sent its ++ [mkItem itemNewLine 2 []]) (closed its))).
      cbn [sent] in IH. rewrite length_app in IH. cbn [length] in IH. lia. }
    specialize (Hgrow 1%Z (mkChan [mkItem itemNewLine 0 [NL; NL]] false)).
    cbn [sent length] in Hgrow. lia.
Qed.

(** ** C3: horizontal-rule items *)




(** ** C4: list lines produce a list token *)

(** C4.  The claim says that a line that begins with a marker [-], [*]
    or [+] and item text, or with a number and [.] or [)], gives a list
    token through the list rule.  The code does not do it.  lexList,
    which its comment says scans ordered and unordered lists, sends
    nothing and returns lexText, whatever the state of the scanner; a
    [+] and a digit do not even reach it.  The lines [- foo] and
    [1. one], and likewise [* foo], [+ foo] and the two lines
    [- foo], [- bar], give one text item per character; and no input at
    all, after any number of steps, gives an item of type itemList. *)
Theorem C4_list_line_is_scanned_as_text :
  tokens 20 (bs "- foo") =
    Ok [mkItem itemText 0 (bs "-"); mkItem itemText 1 (bs " ");
        mkItem itemText 2 (bs "f"); mkItem itemText 3 (bs "o");
        mkItem itemText 4 (bs "o")] /\
  tokens 20 (bs "1. one") =
    Ok [mkItem itemText 0 (bs "1"); mkItem itemText 1 (bs ".");
        mkItem itemText 2 (bs " "); mkItem itemText 3 (bs "o");
        mkItem itemText 4 (bs "n"); mkItem itemText 5 (bs "e")] /\
  tokens 20 (bs "* foo") = Ok (text_items 0 (runes (bs "* foo"))) /\
  tokens 20 (bs "+ foo") = Ok (text_items 0 (runes (bs "+ foo"))) /\
  tokens 30 (bs "- foo" ++ [NL] ++ bs "- bar") =
    Ok (text_items 0 (runes (bs "- foo" ++ [NL] ++ bs "- bar"))) /\
  (forall l, call lexList l = Ok (Some lexText, l)) /\
  (forall fuel inp, Forall (fun it => typ it <> itemList) (emitted fuel inp)).
Proof.
  do 5 (split; [reflexivity|]). split; [reflexivity|].
  intros fuel inp. unfold emitted.
  destruct (trace_inv (only_types (fun t => t <> itemList))) with
    (fuel := fuel) (st := Some lexAny) (l := new_lexer inp) as (l' & Hl & E).
  - apply only_types_step. intros f t Ht.
    destruct f; cbn in Ht; try contradiction; try (subst; discriminate).
    destruct Ht as [->|[->|[<-|[<-|[<-|[<-|[]]]]]]]; discriminate.
  - constructor.
  - rewrite E. exact Hl.
Qed.
(** ** C5: heading items *)





(** ** C6: fenced code blocks *)

(** Every fenced-code item opens and closes with fences of the same
    character, 3 or more each time, and takes all the newlines after
    the closing fence. *)
Lemma gfm_item_shape inp it :
  found_by_rule inp it -> typ it = itemGfmCodeBlock ->
  (fence_shape x60 (val it) \/ fence_shape x7e (val it)) /\
  exists pre rest, inp = pre ++ val it ++ rest /\ item_pos it = len pre /\
                   no_nl_ahead rest.
Proof.
  intros Hf Ht. destruct (Hf (or_intror (or_intror Ht)))
    as (pre & rest & Hi & Hp & _ & HM & HF).
  rewrite Ht in *.
  rewrite MatchString_anchored in HM by reflexivity.
  rewrite FindString_anchored in HF by reflexivity.
  rewrite match_here_gfm in HM, HF.
  assert (Hcase : forall f g e c,
            b2z f < 0x80 ->
            exec (gfm_front (b2z f) g) 0%nat (val it ++ rest) []
                 (fun n' s' c' => exec re_eol n' s' c' accept) = Some (e, c) ->
            firstn e (val it ++ rest) = val it ->
            fence_shape f (val it) /\ no_nl_ahead rest).
  { intros f g e c Hfa E Hv.
    destruct (gfm_alt_shape f g _ e c Hfa E) as (Hsh & rest' & Hs & Hn).
    rewrite Hv in Hsh, Hs. apply app_inv_head in Hs. subst rest'. auto. }
  destruct (exec (gfm_front (b2z x60) 1) 0%nat (val it ++ rest) []
              (fun n' s' c' => exec re_eol n' s' c' accept)) as [[e c]|] eqn:E1.
  - cbn [orelse] in HF.
    destruct (Hcase x60 1%nat e c ltac:(vm_compute; reflexivity) E1 HF) as [Hsh Hn].
    split; [left; exact Hsh|]. exists pre, rest. auto.
  - cbn [orelse] in HM, HF.
    destruct (exec (gfm_front (b2z x7e) 3) 0%nat (val it ++ rest) []
                (fun n' s' c' => exec re_eol n' s' c' accept)) as [[e c]|] eqn:E2;
      [|discriminate].
    destruct (Hcase x7e 3%nat e c ltac:(vm_compute; reflexivity) E2 HF) as [Hsh Hn].
    split; [right; exact Hsh|]. exists pre, rest. auto.
Qed.

(** C6.  Every fenced-code item ever sent opens with a fence of 3 or
    more backticks and closes with a fence of 3 or more backticks, or
    opens with 3 or more tildes and closes with 3 or more tildes; the
    closing fence is followed by newlines only, all those of the input
    at that place.  A block opened by backticks and closed by tildes,
    or the other way round, gives text items only.  When top-level
    scanning stands, at the start of the pending item, at a block with
    an opening fence of [3 + a] characters and a closing fence of
    [3 + b] of the same character, for any [a] and [b], the scanner
    sends one fenced-code item whose value is the block with the
    newlines that follow it.  In the value of that item, the group of
    the rule for the tag (the first group of the alternative of the
    fence character) holds the word after the opening fence, and
    nothing when there is no word. *)
Theorem C6_fenced_code_same_fence_character :
  (forall fuel inp it,
     In it (emitted fuel inp) -> typ it = itemGfmCodeBlock ->
     (fence_shape x60 (val it) \/ fence_shape x7e (val it)) /\
     exists pre rest, inp = pre ++ val it ++ rest /\ item_pos it = len pre /\
                      no_nl_ahead rest) /\
  (exists its1 its2,
     tokens 60 (bs "```" ++ [NL] ++ bs "code" ++ [NL] ++ bs "~~~") = Ok its1 /\
     tokens 60 (bs "~~~" ++ [NL] ++ bs "code" ++ [NL] ++ bs "```") = Ok its2 /\
     forallb (fun it => itemType_eqb (typ it) itemText) (its1 ++ its2) = true) /\
  (forall l pre f a i tag j body b k rest,
     at_cursor l pre (fenced f (3 + a) i tag j body (3 + b) ++ repeat NL k ++ rest) ->
     start l = len pre ->
     f = x60 \/ f = x7e ->
     Forall (fun c => space_byte c = false) tag -> hd_error tag <> Some f ->
     body <> [] -> Forall (fun x => x <> f) body ->
     Forall (fun x => x <> f) rest -> no_nl_ahead rest -> (k = 0%nat -> rest = []) ->
     (exists l1 l2,
        call lexAny l = Ok (Some lexGfmCode, l1) /\
        call lexGfmCode l1 = Ok (Some lexAny, l2) /\
        sent (items l2) =
          sent (items l) ++
          [mkItem itemGfmCodeBlock (start l)
             (fenced f (3 + a) i tag j body (3 + b) ++ repeat NL k)] /\
        pos l2 = pos l + len (fenced f (3 + a) i tag j body (3 + b) ++ repeat NL k) /\
        start l2 = pos l2) /\
     Submatch (block itemGfmCodeBlock) (tag_group f)
        (fenced f (3 + a) i tag j body (3 + b) ++ repeat NL k)
       = match tag with [] => None | _ :: _ => Some tag end).
Proof.
  split; [|split].
  - intros fuel inp it Hin Ht.
    pose proof (emitted_found_by_rule fuel inp) as Hall.
    rewrite Forall_forall in Hall. apply gfm_item_shape; auto.
  - eexists. eexists. split; [vm_compute; reflexivity|].
    split; [vm_compute; reflexivity|]. vm_compute. reflexivity.
  - intros l pre f a i tag j body b k rest Hat Hst Hf Htag Hhd Hne Hbody Hrest Hn Hk.
    set (blk := fenced f (3 + a) i tag j body (3 + b)) in *.
    destruct (gfm_find f a i tag j body b k rest Hf Htag Hhd Hne Hbody Hrest Hn Hk)
      as (HM & HF & _).
    fold blk in HM, HF.
    split.
    + assert (Hblk : exists u, blk ++ repeat NL k ++ rest = f :: f :: f :: u).
      { unfold blk, fenced. cbn [repeat Nat.add app]. eauto. }
      destruct Hblk as (u & Hu).
      set (l1 := mkLexer (input l) (pos l) (start l) 1 (items l)).
      assert (Hat1 : at_cursor l1 pre ((blk ++ repeat NL k) ++ rest)).
      { rewrite <- app_assoc. destruct Hat; split; assumption. }
      exists l1. eexists. split.
      { rewrite Hu in Hat. apply (lexAny_fence l pre f u Hat Hf). }
      cbn [call]. unfold lexGfmCode_fn.
      rewrite app_assoc in HM, HF.
      rewrite (lexBlock_match itemGfmCodeBlock l1 pre _ rest Hat1 Hst HM HF).
      cbn [input pos start width items sent l1]. split; [reflexivity|]. auto.
    + destruct (gfm_find f a i tag j body b k [] Hf Htag Hhd Hne Hbody
                  (Forall_nil _) I (fun _ => eq_refl)) as (_ & _ & HS).
      fold blk in HS. rewrite app_nil_r in HS. exact HS.
Qed.

(** The third part of the theorem at the start of the input made of a
    block with an opening fence of 5 tildes, the tag [rb] between
    spaces, the body [x] and a newline, a closing fence of 3 tildes,
    two newlines and [y]. *)
Lemma C6_witness :
  let blk := fenced x7e 5 1 (bs "rb") 1 (bs "x" ++ [NL]) 3 in
  let l := new_lexer (blk ++ repeat NL 2 ++ bs "y") in
  at_cursor l [] (blk ++ repeat NL 2 ++ bs "y") /\ start l = len [] /\
  (exists l1 l2,
     call lexAny l = Ok (Some lexGfmCode, l1) /\
     call lexGfmCode l1 = Ok (Some lexAny, l2) /\
     sent (items l2) =
       sent (items l) ++ [mkItem itemGfmCodeBlock (start l) (blk ++ repeat NL 2)] /\
     pos l2 = pos l + len (blk ++ repeat NL 2) /\
     start l2 = pos l2) /\
  Submatch (block itemGfmCodeBlock) 3 (blk ++ repeat NL 2) = Some (bs "rb").
Proof.
  intros blk l.
  assert (Hat : at_cursor l [] (blk ++ repeat NL 2 ++ bs "y")) by (split; reflexivity).
  split; [exact Hat|]. split; [reflexivity|].
  apply (proj2 (proj2 C6_fenced_code_same_fence_character)
           l [] x7e 2%nat 1%nat (bs "rb") 1%nat (bs "x" ++ [NL]) 0%nat 2%nat (bs "y")
           Hat eq_refl).
  - auto.
  - repeat (apply Forall_cons; [reflexivity|]). apply Forall_nil.
  - cbn. discriminate.
  - discriminate.
  - repeat (apply Forall_cons; [discriminate|]). apply Forall_nil.
  - repeat (apply Forall_cons; [discriminate|]). apply Forall_nil.
  - cbn. discriminate.
  - discriminate.
Defined.
(** ** C7: delimiters in a text run *)

(** C7.  The claim says that at a delimiter in a text run the scanner
    sends one span token for the first rule that matches there and
    moves past the span, and that a delimiter at which no rule matches
    is consumed as ordinary text, after which scanning goes on.  The
    code does neither once lexAny has backed up by the width of a rune
    it peeked at.  On [rule_dash_euro], after the rule, lexAny reads
    the dash at offset 4, peeks at the euro sign and backs up by 3, to
    offset 2, with the pending item still starting at 4.  lexText then
    reaches the star at offset 2: no span rule matches there, and the
    text item it emits is the slice from 4 to 3, which panics.  On
    [rule_star_euro] the italic rule matches the three bytes from
    offset 2, and the italic item sent holds the one byte at offset 4,
    which is not what the rule matched. *)
Theorem C7_delimiter_after_wide_peek :
  (forall w its,
     call lexAny (mkLexer rule_dash_euro 4 4 w its) =
       Ok (Some lexList, mkLexer rule_dash_euro 2 4 3 its)) /\
  is_delim (b2z x2a) = true /\
  skipn 2 rule_dash_euro = x2a :: NL :: x2d :: euro /\
  first_span span_order (skipn 2 rule_dash_euro) = None /\
  (forall its, call lexText (mkLexer rule_dash_euro 2 4 3 its) = Panic) /\
  (forall fuel, lex (5 + fuel) rule_dash_euro = Panic) /\
  (forall fuel,
     emitted (5 + fuel) rule_dash_euro = [mkItem itemHr 0 (bs "***" ++ [NL])]) /\
  first_span span_order (skipn 2 rule_star_euro) =
    Some (itemItalic, [x2a; NL; x2a]) /\
  (forall its,
     call lexText (mkLexer rule_star_euro 2 4 3 its) =
       Ok (Some lexText,
           mkLexer rule_star_euro 5 5 1
             (mkChan (sent its ++ [mkItem itemItalic 4 [x2a]]) (closed its)))) /\
  tokens 20 rule_star_euro =
    Ok [mkItem itemHr 0 (bs "***" ++ [NL]); mkItem itemItalic 4 [x2a];
        mkItem itemText 5 euro].
Proof. repeat split. Qed.
(** ** C8: where a text run ends *)

(** C8.  The claim says that when two newlines in a row are read in a
    text run, the scanner sends a boundary token that consumes both,
    and control returns to top-level scanning.  The code does not once
    lexAny has backed up by the width of a rune it peeked at.  On
    [heading_star_clef], after the heading, lexAny reads the star at
    offset 6, peeks at the clef and backs up by 4, to offset 3, with
    the pending item still starting at 6.  lexText then reads the two
    newlines at offsets 3 and 4, and the boundary item it emits is the
    slice from 6 to 5, which panics: no boundary token is sent and
    top-level scanning never resumes.  On [loop_input] the boundary
    item sent for the two newlines read again is empty: it consumes
    neither of them. *)
Theorem C8_boundary_after_wide_peek :
  (forall w its,
     call lexAny (mkLexer heading_star_clef 6 6 w its) =
       Ok (Some lexList, mkLexer heading_star_clef 3 6 4 its)) /\
  skipn 3 heading_star_clef = NL :: NL :: NL :: x2a :: clef /\
  starts_boundary (skipn 3 heading_star_clef) = true /\
  (forall its, call lexText (mkLexer heading_star_clef 3 6 4 its) = Panic) /\
  (forall fuel, lex (5 + fuel) heading_star_clef = Panic) /\
  (forall fuel,
     emitted (5 + fuel) heading_star_clef =
       [mkItem itemHeading 0 (bs "# a" ++ [NL; NL; NL])]) /\
  (forall w its,
     call lexAny (mkLexer loop_input 2 2 w its) =
       Ok (Some lexList, mkLexer loop_input 0 2 3 its)) /\
  starts_boundary loop_input = true /\
  (forall its,
     call lexText (mkLexer loop_input 0 2 3 its) =
       Ok (Some lexAny,
           mkLexer loop_input 2 2 1
             (mkChan (sent its ++ [mkItem itemNewLine 2 []]) (closed its)))).
Proof. repeat split. Qed.
(** ** C9: positions and values of the items *)

(** C9.  At every emission the item sent carries the start position and
    the text of the input from there to the cursor, and the start moves
    to the cursor.  Hence, for every input and every number of steps,
    the items sent so far lie end to end in the input from offset 0
    (each begins where the previous one ended, and its value is the
    text of the input at its position), their positions never decrease,
    and a longer run adds items at the end without changing those
    already sent. *)
Theorem C9_items_in_input_order :
  (forall t l l', emit t l = Ok l' ->
     exists v, slice (input l) (start l) (pos l) = Ok v /\
               sent (items l') = sent (items l) ++ [mkItem t (start l) v] /\
               start l' = pos l) /\
  (forall fuel inp,
     (exists q, tiles inp 0 (emitted fuel inp) q) /\
     (forall it, In it (emitted fuel inp) ->
        slice inp (item_pos it) (item_pos it + len (val it)) = Ok (val it)) /\
     StronglySorted Z.le (map item_pos (emitted fuel inp)) /\
     (forall fuel', (fuel <= fuel')%nat ->
        exists more, emitted fuel' inp = emitted fuel inp ++ more)).
Proof.
  split.
  - intros t l l' H. apply emit_spec in H.
    destruct H as (v & A & B & _ & _ & _ & C & _). eauto.
  - intros fuel inp. destruct (emitted_tiled fuel inp) as (l & [Hi Ht] & E).
    rewrite E. repeat split.
    + eauto.
    + intros it Hin. eapply tiles_each; eassumption.
    + eapply tiles_sorted; eassumption.
    + intros fuel' Hle. rewrite <- E. apply trace_prefix. exact Hle.
Qed.

(** ** C10: one text item per ordinary character *)

(** C10.  The claim says that every ordinary character of a text run
    is sent as a text token that holds exactly that one rune.  The code
    does not do it once lexAny has backed up by the width of a rune it
    peeked at.  On [break_star_e_acute], after the break, lexAny reads
    the star at offset 4, peeks at the letter of two bytes and backs up
    by 2, to offset 3, with the pending item still starting at 4.
    lexText then reads the newline at offset 3, which is followed by
    the star and so begins no boundary, and the text item it sends for
    it is empty.  On [rule_dash_euro] the star at offset 2, at which no
    span rule matches, is not sent at all: emitting it panics. *)
Theorem C10_newline_sent_as_empty_text :
  (forall w its,
     call lexAny (mkLexer break_star_e_acute 4 4 w its) =
       Ok (Some lexList, mkLexer break_star_e_acute 3 4 2 its)) /\
  skipn 3 break_star_e_acute = NL :: x2a :: e_acute /\
  starts_boundary (skipn 3 break_star_e_acute) = false /\
  (forall its,
     call lexText (mkLexer break_star_e_acute 3 4 2 its) =
       Ok (Some lexText,
           mkLexer break_star_e_acute 4 4 1
             (mkChan (sent its ++ [mkItem itemText 4 []]) (closed its)))) /\
  tokens 20 break_star_e_acute =
    Ok [mkItem itemText 0 (bs "a"); mkItem itemText 1 (bs "b");
        mkItem itemNewLine 2 [NL; NL]; mkItem itemText 4 [];
        mkItem itemText 4 (bs "*"); mkItem itemText 5 e_acute] /\
  first_span span_order (skipn 2 rule_dash_euro) = None /\
  (forall its, call lexText (mkLexer rule_dash_euro 2 4 3 its) = Panic) /\
  (forall fuel, lex (5 + fuel) rule_dash_euro = Panic).
Proof. repeat split. Qed.

(* ================================================================== *)
(** * Further properties of the scanner *)

(** ** The cursor: next, backup, peek and emit *)

Module cursor_facts.
Import regexp utf8_facts regexp_facts shape_facts lexer_facts at_facts text_facts.

Lemma decode_width_max (s : gostring) : snd (utf8.DecodeRuneInString s) <= 4.
Proof.
  unfold utf8.DecodeRuneInString.
  destruct s as [|c0 [|c1 [|c2 [|c3 t]]]];
  repeat match goal with
  | |- context [if ?c then _ else _] => destruct c
  end; cbn [snd]; lia.
Qed.

Lemma skipn_nonempty (s : gostring) (p : Z) :
  0 <= p < len s -> skipn (Z.to_nat p) s <> [].
Proof.
  intros Hp E. apply (f_equal (@length byte)) in E.
  rewrite length_skipn in E. cbn in E. unfold len in Hp. lia.
Qed.

Lemma next_in_range l :
  0 <= pos l < len (input l) ->
  exists r w,
    next l = Ok (r, mkLexer (input l) (pos l + w) (start l) w (items l)) /\
    utf8.DecodeRuneInString (skipn (Z.to_nat (pos l)) (input l)) = (r, w) /\
    1 <= w <= 4 /\ pos l + w <= len (input l) /\ 0 <= r.
Proof.
  intros Hp. unfold next.
  replace (len (input l) <=? pos l) with false by (symmetry; apply Z.leb_gt; lia).
  rewrite slice_from_intro by lia. cbn [bind].
  pose proof (skipn_nonempty (input l) (pos l) Hp) as Hne.
  pose proof (decode_width _ Hne) as Hw.
  pose proof (decode_width_max (skipn (Z.to_nat (pos l)) (input l))) as Hm.
  pose proof (rune_nonneg (skipn (Z.to_nat (pos l)) (input l))) as Hr.
  destruct (utf8.DecodeRuneInString (skipn (Z.to_nat (pos l)) (input l))) as [r w].
  cbn [fst snd] in *. exists r, w. split; [reflexivity|]. split; [reflexivity|].
  unfold len in *. rewrite length_skipn in Hw. lia.
Qed.

Lemma next_below l : pos l < 0 -> next l = Panic.
Proof.
  intros Hp. unfold next. pose proof (len_nonneg (input l)).
  replace (len (input l) <=? pos l) with false by (symmetry; apply Z.leb_gt; lia).
  unfold slice_from.
  replace (0 <=? pos l) with false by (symmetry; apply Z.leb_gt; lia).
  reflexivity.
Qed.

End cursor_facts.

Import cursor_facts.

(** X1.  [next] at the end of the input returns [eof], leaves the
    cursor where it is and sets the width to 0.  Before the end it
    returns the rune decoded at the cursor, which is never [eof],
    moves the cursor by the width of that rune, 1 to 4 bytes and never
    past the end of the input, and records that width.  With the cursor
    before the input it panics. *)
Theorem next_reads_one_rune (l : lexer) :
  (pos l < 0 -> next l = Panic) /\
  (len (input l) <= pos l ->
     next l = Ok (eof, mkLexer (input l) (pos l) (start l) 0 (items l))) /\
  (0 <= pos l < len (input l) ->
     exists r w,
       next l = Ok (r, mkLexer (input l) (pos l + w) (start l) w (items l)) /\
       utf8.DecodeRuneInString (skipn (Z.to_nat (pos l)) (input l)) = (r, w) /\
       1 <= w <= 4 /\ pos l + w <= len (input l) /\ 0 <= r /\ r <> eof).
Proof.
  split; [apply next_below|]. split; [apply next_eof|].
  intros Hp. destruct (next_in_range l Hp) as (r & w & A & B & C & D & E).
  exists r, w. repeat split; try assumption; try lia. unfold eof. lia.
Qed.

(** X2.  With the cursor in the input or at its end, [backup] after
    [next] puts the cursor back where it was, and [peek] returns the
    rune [next] would return without moving the cursor.  But [peek]
    records the width of the rune it read (0 at the end of the input),
    so a [backup] after [next] and [peek] moves the cursor back by the
    width of the rune peeked at, not by the width of the rune read. *)
Theorem peek_keeps_cursor_and_sets_width (l : lexer) :
  0 <= pos l ->
  exists r l1 p l2,
    next l = Ok (r, l1) /\ same_out l l1 /\ pos l1 = pos l + width l1 /\
    pos (backup l1) = pos l /\
    peek l = Ok (r, backup l1) /\
    peek l1 = Ok (p, l2) /\ same_out l l2 /\ pos l2 = pos l1 /\
    (width l2 = 0 <-> len (input l) <= pos l1) /\
    pos (backup l2) = pos l + width l1 - width l2.
Proof.
  intros Hp.
  assert (Hn : forall l0, 0 <= pos l0 ->
            exists r l1, next l0 = Ok (r, l1) /\ same_out l0 l1 /\
                         pos l1 = pos l0 + width l1 /\ 0 <= width l1 /\
                         (width l1 = 0 <-> len (input l0) <= pos l0)).
  { intros l0 H0. destruct (Z.le_gt_cases (len (input l0)) (pos l0)) as [He|Hi].
    - eexists _, _. split; [apply next_eof; exact He|].
      cbn [pos width]. repeat split; try lia.
    - destruct (next_in_range l0 ltac:(lia)) as (r & w & A & _ & C & _).
      eexists _, _. split; [exact A|]. cbn [pos width]. repeat split; lia. }
  destruct (Hn l Hp) as (r & l1 & A & S1 & P1 & W1 & _).
  destruct (Hn l1 ltac:(lia)) as (p & l2' & B & S2 & P2 & W2 & Z2).
  exists r, l1, p, (backup l2').
  assert (Hin : input l1 = input l) by apply S1.
  split; [exact A|]. split; [exact S1|]. split; [exact P1|].
  split; [unfold backup; cbn [pos set_pos]; lia|].
  split; [unfold peek; rewrite A; reflexivity|].
  split; [unfold peek; rewrite B; reflexivity|].
  split; [eapply same_out_trans; [exact S1|];
          eapply same_out_trans; [exact S2 | apply same_out_backup]|].
  split; [unfold backup; cbn [pos set_pos]; lia|].
  split; [unfold backup; cbn [width set_pos]; rewrite <- Hin; exact Z2|].
  unfold backup. cbn [pos set_pos width]. lia.
Qed.

(** The theorem at the start of the input made of a star and the three
    bytes of the euro sign: after [next] and [peek], [backup] goes to
    offset [0 + 1 - 3]. *)
Lemma peek_keeps_cursor_and_sets_width_witness :
  let l := new_lexer [x2a; xe2; x82; xac] in
  0 <= pos l /\
  exists r l1 p l2,
    next l = Ok (r, l1) /\ same_out l l1 /\ pos l1 = pos l + width l1 /\
    pos (backup l1) = pos l /\
    peek l = Ok (r, backup l1) /\
    peek l1 = Ok (p, l2) /\ same_out l l2 /\ pos l2 = pos l1 /\
    (width l2 = 0 <-> len (input l) <= pos l1) /\
    pos (backup l2) = pos l + width l1 - width l2.
Proof.
  intros l. assert (H : 0 <= pos l) by (cbn; lia).
  split; [exact H|]. exact (peek_keeps_cursor_and_sets_width l H).
Defined.

(** X3.  [emit] sends one item, made of the start position and of the
    text of the input from the start to the cursor, and moves the start
    to the cursor, when [0 <= start <= pos <= len(input)]; otherwise
    the slice expression is out of range and [emit] panics. *)
Theorem emit_succeeds_exactly_in_bounds (t : itemType) (l : lexer) :
  (0 <= start l <= pos l /\ pos l <= len (input l) ->
     exists v,
       len v = pos l - start l /\
       input l = firstn (Z.to_nat (start l)) (input l) ++ v ++
                 skipn (Z.to_nat (pos l)) (input l) /\
       emit t l =
         Ok (mkLexer (input l) (pos l) (pos l) (width l)
               (mkChan (sent (items l) ++ [mkItem t (start l) v])
                       (closed (items l))))) /\
  (start l < 0 \/ pos l < start l \/ len (input l) < pos l -> emit t l = Panic).
Proof.
  split.
  - intros [Hs Hp]. unfold emit. rewrite slice_intro by lia. cbn [bind].
    eexists. split; [|split; [|reflexivity]].
    + unfold len in *. rewrite length_firstn, length_skipn. lia.
    + rewrite <- (firstn_skipn (Z.to_nat (start l)) (input l)) at 1. f_equal.
      rewrite <- (firstn_skipn (Z.to_nat (pos l - start l))
                               (skipn (Z.to_nat (start l)) (input l))) at 1.
      f_equal. rewrite skipn_skipn. f_equal. lia.
  - intros H. unfold emit, slice.
    replace ((0 <=? start l) && (start l <=? pos l) && (pos l <=? len (input l)))
      with false; [reflexivity|].
    symmetry. apply andb_false_iff. rewrite andb_false_iff, !Z.leb_gt. lia.
Qed.

(** ** The steps of the machine *)

Module step_facts.
Import regexp utf8_facts regexp_facts shape_facts lexer_facts at_facts text_facts
       run_facts cursor_facts.

(** The next state of each state function. *)
Lemma call_next_state f l st l' :
  call f l = Ok (st, l') ->
  match f with
  | lexAny =>
    (st = None /\ len (input l) <= pos l /\ pos l' = pos l) \/
    (0 <= pos l < len (input l) /\
     In st [Some lexHr; Some lexList; Some lexHeading; Some lexCode;
            Some lexGfmCode; Some lexText])
  | lexHeading | lexHr | lexGfmCode => (st = Some lexText /\ l' = l) \/ st = Some lexAny
  | lexCode => st = Some lexAny
  | lexList => st = Some lexText /\ l' = l
  | lexText => st = Some lexAny \/ st = Some lexText
  end.
Proof.
  assert (Hblock : forall t, lexBlock t l = Ok (st, l') ->
            (st = Some lexText /\ l' = l) \/ st = Some lexAny).
  { intros t H. unfold lexBlock in H.
    apply bind_ok in H. destruct H as (s & _ & H).
    destruct (MatchString _ s).
    - apply bind_ok in H. destruct H as (s' & _ & H).
      apply bind_ok in H. destruct H as (l2 & _ & H). inversion H. auto.
    - inversion H. auto. }
  destruct f; cbn [call]; intros H.
  - unfold lexAny_fn in H.
    apply bind_ok in H. destruct H as ([r l1] & Hn & H). cbv beta iota in H.
    apply next_spec in Hn. destruct Hn as [_ [(He & -> & Hp & _)|(Hp & D & _)]].
    + change (eof =? eof) with true in H. inversion H; subst. left. auto.
    + right. split; [exact Hp|].
      pose proof (rune_nonneg (skipn (Z.to_nat (pos l)) (input l))) as Hr.
      rewrite D in Hr. cbn [fst] in Hr.
      replace (r =? eof) with false in H by (unfold eof; lia).
      assert (Tail : forall l0, lexAny_tail l0 = Ok (st, l') ->
                st = Some lexGfmCode \/ st = Some lexText).
      { intros l0 Ht. unfold lexAny_tail in Ht.
        apply bind_ok in Ht. destruct Ht as (c & _ & Ht).
        destruct (bytes_eqb c _ || _); inversion Ht; auto. }
      destruct ((r =? c_star) || (r =? c_dash)).
      { apply bind_ok in H. destruct H as ([p1 l2] & _ & H). cbv beta iota in H.
        destruct (p1 =? c_star); [inversion H; cbn; auto|].
        apply bind_ok in H. destruct H as ([p2 l3] & _ & H). cbv beta iota in H.
        destruct (p2 =? c_dash); inversion H; cbn; auto. }
      destruct (r =? c_hash); [inversion H; cbn; auto|].
      destruct (r =? c_sp).
      { apply bind_ok in H. destruct H as (s & _ & H).
        destruct (MatchString _ s); [inversion H; cbn; auto|].
        destruct (Tail _ H) as [-> | ->]; cbn; auto 10. }
      destruct ((r =? c_tick) || (r =? c_tilde)).
      { destruct (Tail _ H) as [-> | ->]; cbn; auto 10. }
      inversion H; cbn; auto 10.
  - apply (Hblock itemHeading H).
  - apply (Hblock itemHr H).
  - apply (Hblock itemGfmCodeBlock H).
  - unfold lexCode_fn in H.
    apply bind_ok in H. destruct H as (s & _ & H).
    apply bind_ok in H. destruct H as (l2 & _ & H). inversion H. reflexivity.
  - unfold lexList_fn in H. inversion H. auto.
  - unfold lexText_fn in H.
    apply bind_ok in H. destruct H as ([c l2] & _ & H).
    destruct c; inversion H; auto.
Qed.

(** Only lexAny ends a run, and only at the end of the input. *)
Lemma call_none f l l' :
  call f l = Ok (None, l') ->
  f = lexAny /\ len (input l) <= pos l /\ pos l' = pos l.
Proof.
  intros H. pose proof (call_next_state f l None l' H) as Hc.
  destruct f.
  - destruct Hc as [(_ & He & Hp)|(_ & Hin)]; [auto|].
    cbn [In] in Hin. repeat (destruct Hin as [Hin|Hin]; [discriminate|]).
    destruct Hin.
  - destruct Hc as [[Hc _]|Hc]; discriminate.
  - destruct Hc as [[Hc _]|Hc]; discriminate.
  - destruct Hc as [[Hc _]|Hc]; discriminate.
  - discriminate.
  - destruct Hc as [Hc _]; discriminate.
  - destruct Hc as [Hc|Hc]; discriminate.
Qed.

(** A property kept by every step holds in the last state of a run
    that ends. *)
Lemma run_loop_inv (P : option stateFn -> lexer -> Prop) :
  (forall f l st l', P (Some f) l -> call f l = Ok (st, l') -> P st l') ->
  forall fuel st l l',
    P st l -> run_loop fuel st l = Ok l' ->
    exists l0, P None l0 /\ l' = close l0.
Proof.
  intros Hstep fuel. induction fuel as [|fuel IH]; intros st l l' Hl H.
  - destruct st; [discriminate|]. inversion H. eauto.
  - destruct st as [f|]; [|inversion H; eauto].
    cbn [run_loop] in H. apply bind_ok in H. destruct H as ([st1 l1] & Hc & H).
    eapply IH; [|exact H]. eapply Hstep; eassumption.
Qed.

Lemma tiles_end inp p its q :
  tiles inp p its q -> 0 <= p <= len inp -> p <= q <= len inp.
Proof.
  revert p. induction its as [|it its IH]; intros p H Hp; cbn [tiles] in H.
  - lia.
  - destruct H as (_ & Hs & H). apply slice_ok in Hs.
    pose proof (len_nonneg (val it)).
    specialize (IH _ H ltac:(lia)). lia.
Qed.

(** The values of items that lie end to end make up the text they
    cover. *)
Lemma tiles_concat inp p its q :
  tiles inp p its q -> 0 <= p ->
  concat (map val its) = firstn (Z.to_nat (q - p)) (skipn (Z.to_nat p) inp).
Proof.
  revert p. induction its as [|it its IH]; intros p H Hp; cbn [tiles] in H.
  - subst q. rewrite Z.sub_diag. reflexivity.
  - destruct H as (_ & Hs & H). pose proof (len_nonneg (val it)) as Hv.
    pose proof (tiles_bounds _ _ _ _ H) as [Hq _].
    apply slice_ok in Hs. destruct Hs as (_ & _ & Hval & _).
    cbn [map concat]. rewrite (IH _ H ltac:(lia)).
    rewrite Hval at 1.
    replace (p + len (val it) - p) with (len (val it)) by lia.
    replace (Z.to_nat (q - p))
      with (Z.to_nat (len (val it)) + Z.to_nat (q - (p + len (val it))))%nat by lia.
    replace (Z.to_nat (p + len (val it)))
      with (Z.to_nat (len (val it)) + Z.to_nat p)%nat by lia.
    rewrite <- skipn_skipn.
    set (x := skipn (Z.to_nat p) inp). set (a := Z.to_nat (len (val it))).
    rewrite <- (firstn_skipn a x) at 3.
    rewrite firstn_app, firstn_firstn.
    replace (Nat.min (a + Z.to_nat (q - (p + len (val it)))) a) with a by lia.
    f_equal. rewrite length_firstn.
    destruct (Nat.le_gt_cases a (length x)) as [Hle|Hgt].
    + replace (a + Z.to_nat (q - (p + len (val it))) - Nat.min a (length x))%nat
        with (Z.to_nat (q - (p + len (val it)))) by lia.
      reflexivity.
    + rewrite (skipn_all2 x) by lia. rewrite !firstn_nil. reflexivity.
Qed.

(** What a block rule sends. *)
Lemma lexBlock_sends t l st l' :
  lexBlock t l = Ok (st, l') -> sent_by_rule t l st l'.
Proof.
  intros H. unfold lexBlock in H.
  apply bind_ok in H. destruct H as (s & _ & H).
  destruct (MatchString _ s).
  - apply bind_ok in H. destruct H as (s' & _ & H).
    apply bind_ok in H. destruct H as (l2 & He & H). inversion H; subst.
    right. split; [reflexivity|].
    apply emit_spec in He. destruct He as (v & _ & Hs & _).
    exists v. exact Hs.
  - inversion H; subst. left. auto.
Qed.

End step_facts.

Import step_facts.

(** X4.  What a state function sends has a type fixed by the function.
    A call of lexAny or lexList sends nothing.  A call of lexHeading,
    lexHr or lexGfmCode returns lexText and leaves the scanner as it
    was, or returns lexAny and has sent one item of its own type, at
    the start of the pending item; a call of lexCode that returns has
    sent one indented-code item.  Whatever lexText sends is a boundary
    item, a text item or one of the four kinds of span.  Hence, on
    every input, the scanner sends items of ten types only; no item has
    the type itemError, itemHTML, itemLineBreak, itemLHeading,
    itemBlockQuote, itemList, itemTable, itemLinks or itemImages. *)
Theorem items_by_state_function :
  (forall f l st l',
     call f l = Ok (st, l') ->
     match f with
     | lexAny | lexList => sent (items l') = sent (items l)
     | lexHeading => sent_by_rule itemHeading l st l'
     | lexHr => sent_by_rule itemHr l st l'
     | lexGfmCode => sent_by_rule itemGfmCodeBlock l st l'
     | lexCode =>
       st = Some lexAny /\
       exists v,
         sent (items l') = sent (items l) ++ [mkItem itemCodeBlock (start l) v]
     | lexText =>
       exists new,
         sent (items l') = sent (items l) ++ new /\
         Forall (fun it =>
                   In (typ it)
                      [itemNewLine; itemText; itemStrong; itemItalic; itemStrike;
                       itemCode])
                new
     end) /\
  (forall fuel inp,
     Forall (fun it =>
               In (typ it)
                  [itemNewLine; itemText; itemHeading; itemCodeBlock;
                   itemGfmCodeBlock; itemHr; itemStrong; itemItalic; itemStrike;
                   itemCode])
            (emitted fuel inp)).
Proof.
  split.
  - intros f l st l' H. destruct f.
    + destruct (call_cases _ _ _ _ H) as [S|(l1 & t & _ & _ & [])].
      destruct S as (_ & _ & ->). reflexivity.
    + apply lexBlock_sends. exact H.
    + apply lexBlock_sends. exact H.
    + apply lexBlock_sends. exact H.
    + cbn [call] in H. unfold lexCode_fn in H.
      apply bind_ok in H. destruct H as (s & _ & H).
      apply bind_ok in H. destruct H as (l2 & He & H). inversion H; subst.
      split; [reflexivity|].
      apply emit_spec in He. destruct He as (v & _ & Hs & _).
      exists v. exact Hs.
    + cbn [call] in H. inversion H; subst. reflexivity.
    + destruct (call_cases _ _ _ _ H) as [S|(l1 & t & S & He & Hem)].
      * exists []. destruct S as (_ & _ & ->). rewrite app_nil_r. auto.
      * apply emit_spec in He. destruct He as (v & _ & Hs & _).
        destruct S as (_ & Hst & Hit). rewrite Hst, Hit in Hs.
        eexists. split; [exact Hs|]. constructor; [|constructor].
        cbn [typ emitter] in *. unfold span_order in Hem.
        cbn [In] in Hem |- *. intuition auto.
  - intros fuel inp. unfold emitted.
    destruct (trace_inv
                (only_types (fun t =>
                   In t [itemNewLine; itemText; itemHeading; itemCodeBlock;
                         itemGfmCodeBlock; itemHr; itemStrong; itemItalic;
                         itemStrike; itemCode])))
      with (fuel := fuel) (st := Some lexAny) (l := new_lexer inp) as (l' & Hl & E).
    + apply only_types_step. intros f t Ht.
      destruct f; cbn [emitter] in Ht; unfold span_order in Ht;
        cbn [In] in Ht |- *; intuition auto.
    + constructor.
    + rewrite E. exact Hl.
Qed.

(** X5.  Whatever the number of steps and the outcome, the values of
    the items sent so far, put end to end, are a prefix of the input:
    no text is sent twice, in another order, or changed.  A run ends
    only through lexAny, and only once the cursor has reached the end
    of the input; the channel is then closed, the items received are
    those sent, and their values make up the input up to the start of
    the pending item. *)
Theorem items_make_up_a_prefix_of_the_input :
  (forall fuel inp,
     exists q, 0 <= q <= len inp /\
       concat (map val (emitted fuel inp)) = firstn (Z.to_nat q) inp) /\
  (forall f l l', call f l = Ok (None, l') -> f = lexAny /\ len (input l) <= pos l) /\
  (forall fuel inp l,
     lex fuel inp = Ok l ->
     input l = inp /\ closed (items l) = true /\ len inp <= pos l /\
     0 <= start l <= len inp /\
     sent (items l) = emitted fuel inp /\
     concat (map val (sent (items l))) = firstn (Z.to_nat (start l)) inp).
Proof.
  split; [|split].
  - intros fuel inp. destruct (emitted_tiled fuel inp) as (l & [Hi Ht] & E).
    rewrite E. exists (start l).
    pose proof (len_nonneg inp).
    split; [apply (tiles_end _ _ _ _ Ht); lia|].
    rewrite (tiles_concat _ _ _ _ Ht) by lia.
    rewrite Z.sub_0_r. reflexivity.
  - intros f l l' H. destruct (call_none f l l' H) as (Hf & He & _). auto.
  - intros fuel inp l H. unfold lex, run in H.
    pose proof (run_loop_trace _ _ _ _ H) as [Etr Hcl].
    destruct (run_loop_inv
                (fun st l0 => tiled inp l0 /\ (st = None -> len inp <= pos l0)))
      with (fuel := fuel) (st := Some lexAny) (l := new_lexer inp) (l' := l)
      as (l0 & [[Hi Ht] Hp] & ->).
    + intros f l1 st l1' [Htl _] Hc. split; [eapply tiled_step; eassumption|].
      intros ->. destruct (call_none f l1 l1' Hc) as (_ & He & Hp').
      destruct Htl as [Hin _]. rewrite Hin in He. lia.
    + split; [split; reflexivity | discriminate].
    + exact H.
    + pose proof (len_nonneg inp).
      cbn [close input items closed pos start sent] in *.
      split; [exact Hi|]. split; [reflexivity|]. split; [auto|].
      split; [apply (tiles_end _ _ _ _ Ht); lia|].
      split; [symmetry; exact Etr|].
      rewrite (tiles_concat _ _ _ _ Ht) by lia.
      rewrite Z.sub_0_r. reflexivity.
Qed.

(** X6.  When top-level scanning stands at a star or a dash that is the
    last byte of the input, lexAny reads it, peeks at the end of the
    input, which sets the width to 0, and backs up by that width: the
    cursor stays after the byte.  The run then ends within four steps
    and the byte is in no item: it is dropped. *)
Theorem last_marker_is_dropped (l : lexer) (pre : gostring) (c : byte) :
  at_cursor l pre [c] -> c = x2a \/ c = x2d ->
  call lexAny l =
    Ok (Some lexList, mkLexer (input l) (pos l + 1) (start l) 0 (items l)) /\
  forall fuel, (4 <= fuel)%nat ->
    run_loop fuel (Some lexAny) l =
      Ok (mkLexer (input l) (pos l + 1) (start l) 0
            (mkChan (sent (items l)) true)).
Proof.
  intros Hat Hc. destruct l as [inp p st w it]. destruct Hat as [Hi Hp].
  cbn [input pos start width items] in *.
  assert (Hlen : len inp = p + 1).
  { rewrite Hi, len_app, <- Hp. unfold len. cbn. lia. }
  assert (D : utf8.DecodeRuneInString [c] = (b2z c, 1)).
  { apply decode_ascii. destruct Hc as [-> | ->]; vm_compute; reflexivity. }
  assert (Hr : (b2z c =? c_star) || (b2z c =? c_dash) = true).
  { destruct Hc as [-> | ->]; reflexivity. }
  assert (H1 : call lexAny (mkLexer inp p st w it) =
               Ok (Some lexList, mkLexer inp (p + 1) st 0 it)).
  { cbn [call]. unfold lexAny_fn.
    rewrite (next_at (mkLexer inp p st w it) pre [c] (b2z c) 1)
      by (try split; try discriminate; assumption).
    cbn [bind input pos start width items].
    replace (b2z c =? eof) with false
      by (destruct Hc as [-> | ->]; reflexivity).
    rewrite Hr.
    rewrite peek_eof by (cbn [input pos]; lia).
    cbn [bind input pos start width items].
    change (eof =? c_star) with false. cbv iota.
    rewrite peek_eof by (cbn [input pos]; lia).
    cbn [bind input pos start width items].
    change (eof =? c_dash) with false. cbv iota.
    unfold backup, set_pos. cbn [input pos start width items].
    rewrite Z.sub_0_r. reflexivity. }
  split; [exact H1|].
  intros fuel Hf.
  destruct fuel as [|[|[|[|fuel]]]]; try lia.
  cbn [run_loop]. rewrite H1. cbn [bind run_loop].
  cbn [call]. unfold lexList_fn. cbn [bind run_loop].
  change (call lexText ?x) with (call lexText x).
  rewrite (lexText_at_eof (mkLexer inp (p + 1) st 0 it) (pre ++ [c]))
    by (split; cbn [input pos];
        [rewrite app_nil_r; exact Hi
        | rewrite len_app, <- Hp; unfold len; cbn; lia]).
  cbn [bind input pos start width items run_loop call].
  unfold lexAny_fn. rewrite next_eof by (cbn [input pos]; lia).
  cbn [bind input pos start width items].
  change (eof =? eof) with true. cbv iota.
  destruct fuel; reflexivity.
Qed.

(** The theorem at the star that ends the input [ab*], after the text
    items for [a] and [b]. *)
Lemma last_marker_is_dropped_witness :
  let its := mkChan [mkItem itemText 0 (bs "a"); mkItem itemText 1 (bs "b")] false in
  let l := mkLexer (bs "ab*") 2 2 1 its in
  at_cursor l (bs "ab") [x2a] /\
  call lexAny l =
    Ok (Some lexList, mkLexer (input l) (pos l + 1) (start l) 0 (items l)) /\
  forall fuel, (4 <= fuel)%nat ->
    run_loop fuel (Some lexAny) l =
      Ok (mkLexer (input l) (pos l + 1) (start l) 0
            (mkChan (sent (items l)) true)).
Proof.
  intros its l.
  assert (Hat : at_cursor l (bs "ab") [x2a]) by (split; reflexivity).
  split; [exact Hat|].
  exact (last_marker_is_dropped l (bs "ab") x2a Hat (or_introl eq_refl)).
Defined.

(** ** The indented-code rule *)

Module code_facts.
Import regexp utf8_facts regexp_facts shape_facts lexer_facts at_facts text_facts
       block_facts path_facts heading_facts heading_group_facts run_facts
       aligned_facts cursor_facts step_facts.

Lemma block_code_unfold :
  block itemCodeBlock = Cat BeginText (Cat code_group (Star true code_group)).
Proof. reflexivity. Qed.

Lemma code_group_unfold :
  code_group =
    Group 1 (Cat (Cat (Lit c_sp) (Cat (Lit c_sp) (Cat (Lit c_sp) (Lit c_sp))))
                 (Cat (Cat re_notnl (Star true re_notnl)) (Star true (Lit c_nl)))).
Proof. reflexivity. Qed.

(** *** What the rule can match *)

Lemma code_group_inv n w rest :
  matches code_group n w rest ->
  exists ch, chunk_ok ch /\ w = code_chunk ch.
Proof.
  intros H. rewrite code_group_unfold in H.
  apply matches_Group_inv in H.
  apply matches_Cat_inv in H. destruct H as (w4 & r1 & -> & H4 & H).
  apply matches_Cat_inv in H4. destruct H4 as (a1 & r2 & -> & A1 & H4).
  apply matches_Cat_inv in H4. destruct H4 as (a2 & r3 & -> & A2 & H4).
  apply matches_Cat_inv in H4. destruct H4 as (a3 & a4 & -> & A3 & A4).
  change c_sp with (b2z SP) in A1, A2, A3, A4.
  apply matches_Lit_inv in A1, A2, A3, A4; try (vm_compute; reflexivity).
  subst a1 a2 a3 a4.
  apply matches_Cat_inv in H. destruct H as (wl & wn & -> & Hl & Hn).
  apply matches_Cat_inv in Hl. destruct Hl as (l1 & l2 & -> & L1 & L2).
  change c_nl with (b2z NL) in Hn.
  apply matches_Star_Lit_inv in Hn; [|vm_compute; reflexivity]. destruct Hn as [k ->].
  exists (l1 ++ l2, k). split; [split|].
  - cbn [fst]. apply app_nonempty_l. apply matches_Class_inv in L1. tauto.
  - cbn [fst]. apply Forall_app. split.
    + eapply matches_notnl_free; exact L1.
    + eapply matches_star_notnl_free; exact L2.
  - unfold code_chunk. cbn [fst snd repeat app]. reflexivity.
Qed.

Lemma code_star_inv g n w rest :
  matches (Star g code_group) n w rest ->
  exists chs, Forall chunk_ok chs /\ w = code_text chs.
Proof.
  intros H. remember (Star g code_group) as r eqn:Er.
  induction H; try discriminate; inversion Er; subst.
  - exists []. split; [constructor | reflexivity].
  - destruct (code_group_inv _ _ _ H0) as (ch & Hch & ->).
    destruct (IHmatches2 eq_refl) as (chs & Hchs & ->).
    exists (ch :: chs). split; [constructor; assumption | reflexivity].
Qed.

Lemma block_code_inv w rest :
  matches (block itemCodeBlock) 0%nat w rest ->
  exists ch chs, chunk_ok ch /\ Forall chunk_ok chs /\ w = code_text (ch :: chs).
Proof.
  intros H. rewrite block_code_unfold in H.
  apply matches_Cat_inv in H. destruct H as (w0 & r1 & -> & H0 & H).
  apply matches_BeginText_inv in H0. destruct H0 as [-> _].
  apply matches_Cat_inv in H. destruct H as (w1 & w2 & -> & H1 & H2).
  destruct (code_group_inv _ _ _ H1) as (ch & Hch & ->).
  destruct (code_star_inv _ _ _ _ H2) as (chs & Hchs & ->).
  exists ch, chs. auto.
Qed.

Lemma code_chunk_length ch : length (code_chunk ch) = (4 + length (fst ch) + snd ch)%nat.
Proof. unfold code_chunk. rewrite !length_app, !repeat_length. lia. Qed.

Lemma chunk_starts ch s : chunk_ok ch -> starts_chunk (code_chunk ch ++ s).
Proof.
  intros [Hne Hfree]. destruct ch as [[|c t] k]; [cbn in Hne; congruence|].
  cbn [fst snd] in *. exists c, (t ++ repeat NL k ++ s). split.
  - unfold code_chunk. cbn [fst snd]. rewrite <- !app_assoc. reflexivity.
  - apply (Forall_inv Hfree).
Qed.

(** *** What the rule finds *)

(** The group takes an indented line with its newlines. *)
Lemma exec_code_group ch s n c k v :
  chunk_ok ch -> (snd ch = 0%nat -> s = []) -> hd_error s <> Some NL ->
  k (n + length (code_chunk ch))%nat s
    ((1%nat, (n, (n + length (code_chunk ch))%nat)) :: c) = Some v ->
  exec code_group n (code_chunk ch ++ s) c k = Some v.
Proof.
  intros [Hne Hfree] H0 Hhd Hk. destruct ch as [line j]. cbn [fst snd] in *.
  rewrite code_chunk_length in Hk. cbn [fst snd] in Hk.
  rewrite code_group_unfold, exec_Group. unfold code_chunk. cbn [fst snd repeat app].
  rewrite <- !app_assoc. change c_sp with (b2z SP). change c_nl with (b2z NL).
  cat_step. rewrite exec_Lit_hit by (vm_compute; reflexivity).
  cat_step. rewrite exec_Lit_hit by (vm_compute; reflexivity).
  cat_step. rewrite exec_Lit_hit by (vm_compute; reflexivity).
  cbv beta. rewrite exec_Lit_hit by (vm_compute; reflexivity).
  cbv beta. rewrite exec_Cat. unfold re_notnl.
  apply (exec_Plus_class_greedy (fun b => b <> NL) true [Ch c_nl] notnl_rune);
    [exact Hne | exact Hfree | |].
  { destruct j; [rewrite H0 by reflexivity; exact I|].
    cbn. split; reflexivity. }
  apply exec_Star_Lit_greedy; [vm_compute; reflexivity | exact Hhd |].
  rewrite <- Hk. f_equal; [lia|]. repeat (f_equal; try lia).
Qed.

(** The group fails where no indented line begins. *)
Lemma exec_code_group_fail s n c k :
  ~ starts_chunk s -> exec code_group n s c k = None.
Proof.
  intros Hs. rewrite code_group_unfold, exec_Group.
  change c_sp with (b2z SP).
  assert (Step : forall b (t : gostring) m K,
            (b = SP -> K (m + 1)%nat t c = None) ->
            exec (Lit (b2z SP)) m (b :: t) c K = None).
  { intros b t m K HK. destruct (Byte.byte_eq_dec b SP) as [->|N].
    - rewrite exec_Lit_hit by (vm_compute; reflexivity). apply HK. reflexivity.
    - apply exec_Lit_miss; [vm_compute; reflexivity|]. cbn. congruence. }
  cat_step.
  destruct s as [|b1 s]; [apply exec_Lit_miss; [vm_compute; reflexivity | discriminate]|].
  apply Step. intros ->. cat_step.
  destruct s as [|b2 s]; [apply exec_Lit_miss; [vm_compute; reflexivity | discriminate]|].
  apply Step. intros ->. cat_step.
  destruct s as [|b3 s]; [apply exec_Lit_miss; [vm_compute; reflexivity | discriminate]|].
  apply Step. intros ->. cbv beta.
  destruct s as [|b4 s]; [apply exec_Lit_miss; [vm_compute; reflexivity | discriminate]|].
  apply Step. intros ->. cbv beta.
  cat_step. unfold re_notnl. rewrite exec_Class_unfold. unfold step.
  destruct s as [|b5 s]; [reflexivity|].
  destruct (Byte.byte_eq_dec b5 NL) as [->|N].
  - rewrite decode_ascii by (vm_compute; reflexivity). reflexivity.
  - exfalso. apply Hs. exists b5, s. split; [reflexivity | exact N].
Qed.

Lemma canon_context ch chs rest :
  code_canon (ch :: chs) rest ->
  chunk_ok ch /\ code_canon chs rest /\
  (snd ch = 0%nat -> code_text chs ++ rest = []) /\
  hd_error (code_text chs ++ rest) <> Some NL.
Proof.
  intros (Hch & Hctx & Hc). split; [exact Hch|]. split; [exact Hc|].
  destruct chs as [|ch2 chs].
  - cbn [code_text map concat app]. destruct Hctx as [H0 Hn]. split; [exact H0|].
    destruct rest; [discriminate|]. cbn in Hn |- *. congruence.
  - split; [lia|]. cbn. discriminate.
Qed.

Lemma code_text_cons ch chs : code_text (ch :: chs) = code_chunk ch ++ code_text chs.
Proof. reflexivity. Qed.

Lemma code_text_length chs : (length chs <= length (code_text chs))%nat.
Proof.
  induction chs as [|ch chs IH]; [cbn; lia|].
  rewrite code_text_cons, length_app, code_chunk_length. cbn [length]. lia.
Qed.

(** The repetition of the group takes all the indented lines. *)
Lemma star_code_greedy chs :
  forall fuel n c rest,
    (length chs < fuel)%nat -> code_canon chs rest ->
    exists c',
      star_loop (exec code_group) true fuel n (code_text chs ++ rest) c accept
        = Some ((n + length (code_text chs))%nat, c').
Proof.
  induction chs as [|ch chs IH]; intros fuel n c rest Hf Hc;
    (destruct fuel as [|fuel]; [cbn in Hf; lia|]); rewrite star_loop_unfold.
  - cbn [code_text map concat app length]. cbn [code_canon] in Hc.
    rewrite exec_code_group_fail by exact Hc. cbn [orelse]. unfold accept.
    exists c. f_equal. f_equal. lia.
  - destruct (canon_context _ _ _ Hc) as (Hch & Hc' & H0 & Hhd).
    cbn [length] in Hf.
    destruct (IH fuel (n + length (code_chunk ch))%nat
                ((1%nat, (n, (n + length (code_chunk ch))%nat)) :: c) rest
                ltac:(lia) Hc') as (c' & E).
    exists c'. rewrite code_text_cons, <- app_assoc.
    rewrite (exec_code_group ch (code_text chs ++ rest) n c _
               (n + length (code_chunk ch ++ code_text chs), c')%nat Hch H0 Hhd).
    + reflexivity.
    + cbv beta.
      replace (n <? n + length (code_chunk ch))%nat with true
        by (symmetry; apply Nat.ltb_lt; rewrite code_chunk_length; lia).
      rewrite E. f_equal. f_equal. rewrite length_app. lia.
Qed.

(** At indented lines cut as the rule cuts them, the rule finds all
    the lines. *)
Lemma code_find ch chs rest :
  code_canon (ch :: chs) rest ->
  MatchString (block itemCodeBlock) (code_text (ch :: chs) ++ rest) = true /\
  FindString (block itemCodeBlock) (code_text (ch :: chs) ++ rest)
    = code_text (ch :: chs).
Proof.
  intros Hc. destruct (canon_context _ _ _ Hc) as (Hch & Hc' & H0 & Hhd).
  destruct (star_code_greedy chs (S (length (code_text chs ++ rest)))
              (0 + length (code_chunk ch))%nat
              [(1%nat, (0%nat, (0 + length (code_chunk ch))%nat))] rest)
    as (c' & E).
  { pose proof (code_text_length chs). rewrite length_app. lia. }
  { exact Hc'. }
  assert (Hm : match_here (block itemCodeBlock) (code_text (ch :: chs) ++ rest)
               = Some (length (code_text (ch :: chs)), c')).
  { unfold match_here. rewrite block_code_unfold, exec_Cat, exec_BeginText_0.
    cbv beta. rewrite exec_Cat, code_text_cons, <- app_assoc.
    apply exec_code_group; [exact Hch | exact H0 | exact Hhd |].
    rewrite exec_Star_unfold, E. f_equal. f_equal. rewrite length_app. lia. }
  rewrite MatchString_anchored, FindString_anchored by reflexivity.
  rewrite Hm. split; [reflexivity|].
  rewrite firstn_app, firstn_all, Nat.sub_diag. cbn [firstn]. apply app_nil_r.
Qed.

(** *** Every text that begins with an indented line is cut in one way *)

Lemma split_line (s : gostring) :
  exists line s',
    s = line ++ s' /\ Forall (fun b => b <> NL) line /\
    (s' = [] \/ exists t, s' = NL :: t).
Proof.
  induction s as [|b s IH].
  - exists [], []. repeat split; auto.
  - destruct (Byte.byte_eq_dec b NL) as [->|N].
    + exists [], (NL :: s). repeat split; eauto.
    + destruct IH as (line & s' & -> & Hf & Hs').
      exists (b :: line), s'. repeat split; auto.
Qed.

Lemma starts_chunk_dec (s : gostring) : starts_chunk s \/ ~ starts_chunk s.
Proof.
  destruct s as [|b1 [|b2 [|b3 [|b4 [|b5 s]]]]];
    try (right; intros (c & t & E & _); discriminate).
  destruct (Byte.byte_eq_dec b1 SP) as [->|N1];
    [|right; intros (c & t & E & _); inversion E; congruence].
  destruct (Byte.byte_eq_dec b2 SP) as [->|N2];
    [|right; intros (c & t & E & _); inversion E; congruence].
  destruct (Byte.byte_eq_dec b3 SP) as [->|N3];
    [|right; intros (c & t & E & _); inversion E; congruence].
  destruct (Byte.byte_eq_dec b4 SP) as [->|N4];
    [|right; intros (c & t & E & _); inversion E; congruence].
  destruct (Byte.byte_eq_dec b5 NL) as [->|N5].
  - right. intros (c & t & E & Hc). inversion E. congruence.
  - left. exists b5, s. split; [reflexivity | exact N5].
Qed.

Lemma canon_exists :
  forall n s, (length s <= n)%nat -> starts_chunk s ->
  exists ch chs rest,
    s = code_text (ch :: chs) ++ rest /\ code_canon (ch :: chs) rest.
Proof.
  induction n as [|n IH]; intros s Hn (c & t & -> & Hc).
  { cbn in Hn. lia. }
  destruct (split_line t) as (line0 & s' & -> & Hfree & Hs').
  destruct (leading_nl_split s') as (s'' & Es & Hnn).
  set (k := leading_nl s') in *.
  assert (Hk0 : k = 0%nat -> s'' = []).
  { intros E0. rewrite E0 in Es. cbn [repeat app] in Es. subst s''.
    destruct Hs' as [->|(u & ->)]; [reflexivity|]. cbn in Hnn. congruence. }
  assert (Hch : chunk_ok (c :: line0, k)).
  { split; cbn [fst]; [discriminate|]. constructor; assumption. }
  assert (Hs : repeat SP 4 ++ c :: line0 ++ s' = code_chunk (c :: line0, k) ++ s'').
  { unfold code_chunk. cbn [fst snd]. rewrite Es at 1.
    rewrite <- !app_assoc. reflexivity. }
  destruct (starts_chunk_dec s'') as [Hst|Hst].
  - destruct (IH s'') as (ch2 & chs & rest & E2 & Hc2).
    + rewrite Hs, length_app, code_chunk_length in Hn. lia.
    + exact Hst.
    + exists (c :: line0, k), (ch2 :: chs), rest. split.
      * rewrite Hs, E2, (code_text_cons (c :: line0, k)), <- app_assoc. reflexivity.
      * split; [exact Hch|]. split; [|exact Hc2]. cbn [snd].
        destruct k; [|lia]. rewrite Hk0 in Hst by reflexivity.
        destruct Hst as (c0 & t0 & E0 & _). discriminate.
  - exists (c :: line0, k), [], s''. split.
    + rewrite Hs. cbn [code_text map concat]. rewrite app_nil_r. reflexivity.
    + split; [exact Hch|]. split; [|exact Hst]. cbn [snd]. auto.
Qed.

(** What the rule finds is a run of indented lines that cannot be
    extended. *)
Lemma code_found_canon s :
  MatchString (block itemCodeBlock) s = true ->
  exists ch chs rest,
    s = code_text (ch :: chs) ++ rest /\ code_canon (ch :: chs) rest /\
    FindString (block itemCodeBlock) s = code_text (ch :: chs).
Proof.
  intros HM.
  destruct (MatchString_sound (block itemCodeBlock) s eq_refl HM)
    as (w & r & Hs & _ & Hm).
  destruct (block_code_inv _ _ Hm) as (ch0 & chs0 & Hch0 & _ & Hw).
  assert (Hst : starts_chunk s).
  { rewrite Hs, Hw, code_text_cons, <- app_assoc. apply chunk_starts. exact Hch0. }
  destruct (canon_exists (length s) s ltac:(lia) Hst) as (ch & chs & rest & E & Hc).
  exists ch, chs, rest. split; [exact E|]. split; [exact Hc|].
  rewrite E. apply code_find. exact Hc.
Qed.

(** *** The rule in the scanner *)

Lemma lexAny_code l pre t :
  at_cursor l pre (SP :: t) ->
  MatchString (block itemCodeBlock) (SP :: t) = true ->
  call lexAny l = Ok (Some lexCode, mkLexer (input l) (pos l) (start l) 1 (items l)).
Proof.
  intros Hat HM. cbn [call]. unfold lexAny_fn.
  rewrite (next_at _ _ _ _ _ Hat ltac:(discriminate)
             (decode_ascii SP t ltac:(vm_compute; reflexivity))).
  cbn [bind]. change (b2z SP =? eof) with false.
  change ((b2z SP =? c_star) || (b2z SP =? c_dash)) with false.
  change (b2z SP =? c_hash) with false.
  change (b2z SP =? c_sp) with true. cbv iota.
  cbn [input pos start width items]. rewrite Z.add_simpl_r.
  rewrite (at_cursor_slice_from _ _ _ Hat). cbn [bind]. rewrite HM.
  unfold backup, set_pos. cbn [input pos start width items].
  rewrite Z.add_simpl_r. reflexivity.
Qed.

Lemma lexCode_match l pre m rest :
  at_cursor l pre (m ++ rest) -> start l = len pre ->
  FindString (block itemCodeBlock) (m ++ rest) = m ->
  call lexCode l =
    Ok (Some lexAny,
        mkLexer (input l) (pos l + len m) (pos l + len m) (width l)
          (mkChan (sent (items l) ++ [mkItem itemCodeBlock (start l) m])
                  (closed (items l)))).
Proof.
  intros Hat Hst HF. cbn [call]. unfold lexCode_fn.
  rewrite (at_cursor_slice_from _ _ _ Hat). cbn [bind]. rewrite HF.
  rewrite (emit_at itemCodeBlock _ pre m).
  - reflexivity.
  - right. exists rest. destruct l as [inp p st w0 it]. destruct Hat as [Hi Hp].
    cbn in *. split; cbn.
    + rewrite Hi, app_assoc. reflexivity.
    + rewrite len_app. lia.
  - exact Hst.
Qed.

(** lexAny goes to lexCode only where the rule matches. *)
Lemma lexAny_to_code l l' :
  call lexAny l = Ok (Some lexCode, l') ->
  MatchString (block itemCodeBlock) (skipn (Z.to_nat (pos l')) (input l')) = true.
Proof.
  intros H. cbn [call] in H. unfold lexAny_fn in H.
  apply bind_ok in H. destruct H as ([r l1] & Hn & H). cbv beta iota in H.
  apply next_spec in Hn.
  destruct Hn as [(Hin & _ & _) [(He & -> & Hp & _)|(Hp & D & Hp1 & _)]].
  { change (eof =? eof) with true in H. discriminate. }
  assert (Tail : forall l0, lexAny_tail l0 = Ok (Some lexCode, l') -> False).
  { intros l0 Ht. unfold lexAny_tail in Ht.
    apply bind_ok in Ht. destruct Ht as (c & _ & Ht).
    destruct (bytes_eqb c _ || _); discriminate. }
  destruct (r =? eof); [discriminate|].
  destruct ((r =? c_star) || (r =? c_dash)).
  { apply bind_ok in H. destruct H as ([p1 l2] & _ & H). cbv beta iota in H.
    destruct (p1 =? c_star); [discriminate|].
    apply bind_ok in H. destruct H as ([p2 l3] & _ & H). cbv beta iota in H.
    destruct (p2 =? c_dash); discriminate. }
  destruct (r =? c_hash); [discriminate|].
  destruct (r =? c_sp) eqn:Esp.
  - apply bind_ok in H. destruct H as (s & Hs & H).
    destruct (MatchString (block itemCodeBlock) s) eqn:HM;
      [|exfalso; eapply Tail; exact H].
    inversion H; subst l'. clear H.
    apply slice_from_ok in Hs. destruct Hs as [_ ->].
    destruct (skipn (Z.to_nat (pos l)) (input l)) as [|c t] eqn:Es.
    { cbn in D. inversion D. subst r. discriminate. }
    destruct (byte_of_rune c SP t r (width l1) D ltac:(vm_compute; reflexivity) Esp)
      as [_ Hw].
    unfold backup, set_pos. cbn [input pos]. rewrite Hw. exact HM.
  - destruct ((r =? c_tick) || (r =? c_tilde)); [exfalso; eapply Tail; exact H|].
    discriminate.
Qed.

Lemma found_code_other inp t p v : t <> itemCodeBlock -> found_code inp (mkItem t p v).
Proof. intros Ht H. cbn in H. congruence. Qed.

(** The invariant is kept by every step. *)
Lemma code_inv_step inp f l st' l' :
  code_inv inp (Some f) l -> call f l = Ok (st', l') -> code_inv inp st' l'.
Proof.
  intros (Hrun & Hent & Hit) H.
  split; [eapply run_inv_step; eassumption|]. split.
  - intros ->. pose proof (call_next_state f l _ l' H) as Hn.
    destruct f.
    + apply (lexAny_to_code l l' H).
    + destruct Hn as [[Hn _]|Hn]; discriminate.
    + destruct Hn as [[Hn _]|Hn]; discriminate.
    + destruct Hn as [[Hn _]|Hn]; discriminate.
    + discriminate.
    + destruct Hn as [Hn _]. discriminate.
    + destruct Hn as [Hn|Hn]; discriminate.
  - destruct (call_cases f l st' l' H) as [S|(l1 & t & S & He & Hem)].
    { destruct S as (_ & _ & ->). exact Hit. }
    destruct (itemType_eqb t itemCodeBlock) eqn:Et.
    + assert (t = itemCodeBlock) by (destruct t; cbn in Et; congruence). subst t.
      assert (f = lexCode).
      { destruct f; cbn [emitter] in Hem; try congruence; try contradiction.
        unfold span_order in Hem. cbn [In] in Hem.
        intuition discriminate. }
      subst f. clear He S Hem l1.
      destruct Hrun as (Hin & Hal & _). cbn [aligned] in Hal.
      destruct Hal as (pre & t & Hat & Hst).
      specialize (Hent eq_refl). rewrite (at_cursor_skipn _ _ _ Hat) in Hent.
      destruct (MatchString_sound (block itemCodeBlock) _ eq_refl Hent)
        as (m & rest & Hs & HF & _).
      rewrite Hs in Hat, HF, Hent.
      assert (Hst' : start l = len pre) by (destruct Hat; congruence).
      rewrite (lexCode_match l pre m rest Hat Hst' HF) in H.
      inversion H; subst st' l'. cbn [items sent].
      apply Forall_app. split; [exact Hit|]. constructor; [|constructor].
      intros _. cbn [typ val item_pos]. exists pre, rest.
      destruct Hat as [Hi Hp]. repeat split; congruence.
    + apply emit_spec in He. destruct He as (v & _ & Hs & _).
      destruct S as (_ & Hst & Hits). rewrite Hs, Hits.
      apply Forall_app. split; [exact Hit|]. constructor; [|constructor].
      apply found_code_other. intros ->. discriminate.
Qed.

Theorem emitted_found_code fuel inp :
  Forall (found_code inp) (emitted fuel inp).
Proof.
  destruct (trace_inv_state (code_inv inp)) with
    (fuel := fuel) (st := Some lexAny) (l := new_lexer inp) as (st' & l' & Hl & E).
  - intros f l st l'. apply code_inv_step.
  - split; [|split].
    + split; [reflexivity|]. split; [left; reflexivity | constructor].
    + discriminate.
    + constructor.
  - unfold emitted. rewrite E. apply Hl.
Qed.

End code_facts.

Import code_facts.

(** X7.  When top-level scanning stands, at the start of the pending
    item, at a run of indented lines (each made of 4 spaces and a text
    that is not empty, with the newlines that follow) that is cut as
    [code_canon] says and cannot be extended, lexAny goes to lexCode
    and lexCode sends one indented-code item whose value is the whole
    run, newlines included; top-level scanning resumes after it.  And
    every indented-code item ever sent is such a run: it begins with
    4 spaces, each of its lines begins with 4 spaces, and it stops only
    before a text that does not begin with an indented line. *)
Theorem indented_code_item_is_a_maximal_run :
  (forall l pre ch chs rest,
     at_cursor l pre (code_text (ch :: chs) ++ rest) -> start l = len pre ->
     code_canon (ch :: chs) rest ->
     exists l1 l2,
       call lexAny l = Ok (Some lexCode, l1) /\
       call lexCode l1 = Ok (Some lexAny, l2) /\
       sent (items l2) =
         sent (items l) ++ [mkItem itemCodeBlock (start l) (code_text (ch :: chs))] /\
       pos l2 = pos l + len (code_text (ch :: chs)) /\
       start l2 = pos l2) /\
  (forall fuel inp it,
     In it (emitted fuel inp) -> typ it = itemCodeBlock ->
     exists ch chs pre rest,
       inp = pre ++ val it ++ rest /\ item_pos it = len pre /\
       val it = code_text (ch :: chs) /\ code_canon (ch :: chs) rest).
Proof.
  split.
  - intros l pre ch chs rest Hat Hst Hc.
    destruct (code_find ch chs rest Hc) as [HM HF].
    assert (Hsp : exists t, code_text (ch :: chs) ++ rest = SP :: t).
    { rewrite code_text_cons. unfold code_chunk. cbn [repeat app]. eauto. }
    destruct Hsp as (t & Ht).
    set (l1 := mkLexer (input l) (pos l) (start l) 1 (items l)).
    assert (Hat1 : at_cursor l1 pre (code_text (ch :: chs) ++ rest))
      by (destruct Hat; split; assumption).
    exists l1. eexists. split.
    { rewrite Ht in Hat, HM. apply (lexAny_code l pre t Hat HM). }
    rewrite (lexCode_match l1 pre _ rest Hat1 Hst HF).
    cbn [input pos start width items sent l1]. split; [reflexivity|]. auto.
  - intros fuel inp it Hin Ht.
    pose proof (emitted_found_code fuel inp) as Hall.
    rewrite Forall_forall in Hall.
    destruct (Hall it Hin Ht) as (pre & rest & Hi & Hp & HM & HF).
    destruct (code_found_canon _ HM) as (ch & chs & rest' & Hs & Hc & HF').
    rewrite HF in HF'. rewrite HF' in Hs at 1. apply app_inv_head in Hs. subst rest'.
    exists ch, chs, pre, rest. auto.
Qed.

(** The first part of the theorem at the start of the input made of
    the indented lines [a] (with one newline) and [b c] (with two), and
    then [x]. *)
Lemma indented_code_item_is_a_maximal_run_witness :
  let ch := (bs "a", 1%nat) in
  let chs := [(bs "b c", 2%nat)] in
  let l := new_lexer (code_text (ch :: chs) ++ bs "x") in
  at_cursor l [] (code_text (ch :: chs) ++ bs "x") /\ start l = len [] /\
  exists l1 l2,
    call lexAny l = Ok (Some lexCode, l1) /\
    call lexCode l1 = Ok (Some lexAny, l2) /\
    sent (items l2) =
      sent (items l) ++ [mkItem itemCodeBlock (start l) (code_text (ch :: chs))] /\
    pos l2 = pos l + len (code_text (ch :: chs)) /\
    start l2 = pos l2.
Proof.
  intros ch chs l.
  assert (Hat : at_cursor l [] (code_text (ch :: chs) ++ bs "x")) by (split; reflexivity).
  split; [exact Hat|]. split; [reflexivity|].
  apply (proj1 indented_code_item_is_a_maximal_run l [] ch chs (bs "x") Hat eq_refl).
  split; [split; [discriminate | repeat constructor; discriminate]|].
  split; [cbn; lia|].
  split; [split; [discriminate | repeat constructor; discriminate]|].
  split; [split; [discriminate | cbn; discriminate]|].
  intros (c & t & E & _). discriminate.
Defined.

(** ** Progress and termination *)

Module progress_facts.
Import regexp utf8_facts regexp_facts shape_facts lexer_facts at_facts text_facts
       block_facts path_facts heading_facts hr_facts gfm_facts run_facts
       aligned_facts cursor_facts step_facts code_facts.

(** *** No step runs out of fuel: only the loop of run is bounded *)

Lemma bind_oof {A B : Type} (m : result A) (f : A -> result B) :
  m <> OutOfFuel -> (forall a, f a <> OutOfFuel) -> bind m f <> OutOfFuel.
Proof. intros Hm Hf. destruct m; cbn; [apply Hf | discriminate | congruence]. Qed.

Lemma slice_oof s lo hi : slice s lo hi <> OutOfFuel.
Proof. unfold slice. destruct (_ && _); discriminate. Qed.

Lemma slice_from_oof s lo : slice_from s lo <> OutOfFuel.
Proof. unfold slice_from. destruct (_ && _); discriminate. Qed.

Lemma next_oof l : next l <> OutOfFuel.
Proof.
  unfold next. destruct (_ <=? _); [discriminate|].
  apply bind_oof; [apply slice_from_oof|]. intros s.
  destruct (utf8.DecodeRuneInString s). discriminate.
Qed.

Lemma peek_oof l : peek l <> OutOfFuel.
Proof.
  unfold peek. apply bind_oof; [apply next_oof|]. intros [r l1]. discriminate.
Qed.

Lemma emit_oof t l : emit t l <> OutOfFuel.
Proof.
  unfold emit. apply bind_oof; [apply slice_oof|]. intros v. discriminate.
Qed.

Lemma lexText_boundary_oof r l : lexText_boundary r l <> OutOfFuel.
Proof.
  unfold lexText_boundary. apply bind_oof.
  - destruct (r =? c_nl); [|discriminate].
    apply bind_oof; [apply peek_oof|]. intros [p l1]. discriminate.
  - intros [a l1]. destruct a; [discriminate|].
    destruct (r =? c_sp); [|discriminate].
    apply bind_oof; [apply peek_oof|]. intros [p l2]. discriminate.
Qed.

Lemma call_oof f l : call f l <> OutOfFuel.
Proof.
  assert (Tail : forall l0, lexAny_tail l0 <> OutOfFuel).
  { intros l0. unfold lexAny_tail. apply bind_oof; [apply slice_oof|].
    intros c. destruct (_ || _); discriminate. }
  assert (Block : forall t, lexBlock t l <> OutOfFuel).
  { intros t. unfold lexBlock. apply bind_oof; [apply slice_from_oof|].
    intros s. destruct (MatchString _ s); [|discriminate].
    apply bind_oof; [apply slice_from_oof|]. intros s'.
    apply bind_oof; [apply emit_oof|]. intros l1. discriminate. }
  destruct f; cbn [call].
  - unfold lexAny_fn. apply bind_oof; [apply next_oof|]. intros [r l1].
    destruct (r =? eof); [discriminate|].
    destruct (_ || _).
    { apply bind_oof; [apply peek_oof|]. intros [p1 l2].
      destruct (p1 =? c_star); [discriminate|].
      apply bind_oof; [apply peek_oof|]. intros [p2 l3].
      destruct (p2 =? c_dash); discriminate. }
    destruct (r =? c_hash); [discriminate|].
    destruct (r =? c_sp).
    { apply bind_oof; [apply slice_from_oof|]. intros s.
      destruct (MatchString _ s); [discriminate | apply Tail]. }
    destruct (_ || _); [apply Tail | discriminate].
  - apply Block.
  - apply Block.
  - apply Block.
  - unfold lexCode_fn. apply bind_oof; [apply slice_from_oof|]. intros s.
    apply bind_oof; [apply emit_oof|]. intros l1. discriminate.
  - discriminate.
  - unfold lexText_fn. apply bind_oof; [|intros [c l1]; destruct c; discriminate].
    unfold lexText_iter. apply bind_oof; [apply next_oof|]. intros [r l1].
    destruct (r =? eof); [discriminate|].
    apply bind_oof; [apply lexText_boundary_oof|]. intros [b l2].
    destruct b.
    { apply bind_oof; [apply emit_oof|]. intros l3. discriminate. }
    destruct (is_delim r).
    { apply bind_oof; [apply slice_from_oof|]. intros s.
      destruct (first_span span_order s) as [[t m]|];
        (apply bind_oof; [apply emit_oof|]; intros l3; discriminate). }
    apply bind_oof; [apply emit_oof|]. intros l3. discriminate.
Qed.

(** *** Every rule that matches takes at least one byte *)

Lemma first_span_nonempty ts s t m : first_span ts s = Some (t, m) -> m <> [].
Proof.
  induction ts as [|t0 ts IH]; cbn [first_span]; [discriminate|].
  destruct (FindString (span t0) s) eqn:E; [exact IH|].
  intros H. inversion H. discriminate.
Qed.

Lemma firstn_nonempty (e : nat) (w r : gostring) :
  w <> [] -> (length w <= e)%nat -> firstn e (w ++ r) <> [].
Proof.
  intros Hw He E. destruct w as [|b w]; [congruence|].
  destruct e; [cbn in He; lia | discriminate].
Qed.

Lemma front_found_nonempty (front : regex) (s : gostring) :
  (forall w rest, matches front 0%nat w rest -> w <> []) ->
  match exec front 0%nat s [] (fun n' s' c' => exec re_eol n' s' c' accept) with
  | Some (e, _) => firstn e s <> []
  | None => True
  end.
Proof.
  intros Hne.
  destruct (exec front 0%nat s [] _) as [[e c]|] eqn:E; [|exact I].
  destruct (find_front_eol _ _ _ _ E) as (w & k & rest & -> & -> & Hm & _).
  apply firstn_nonempty; [eapply Hne; exact Hm | lia].
Qed.

Lemma block_found_nonempty t s :
  t = itemHeading \/ t = itemHr \/ t = itemGfmCodeBlock \/ t = itemCodeBlock ->
  MatchString (block t) s = true -> FindString (block t) s <> [].
Proof.
  intros Ht HM.
  destruct Ht as [->|[->|[->| ->]]].
  - rewrite MatchString_anchored in HM by reflexivity.
    rewrite FindString_anchored by reflexivity.
    rewrite match_here_heading in *.
    pose proof (front_found_nonempty heading_front s) as Hf.
    destruct (exec heading_front 0%nat s [] _) as [[e c]|]; [|discriminate].
    apply Hf. intros w rest Hm. apply heading_front_inv in Hm.
    destruct Hm as (i & h & line & -> & Hh & Hl & _).
    apply app_nonempty_r, app_nonempty_r. exact Hl.
  - rewrite MatchString_anchored in HM by reflexivity.
    rewrite FindString_anchored by reflexivity.
    rewrite match_here_hr in *.
    pose proof (front_found_nonempty hr_front s) as Hf.
    destruct (exec hr_front 0%nat s [] _) as [[e c]|]; [|discriminate].
    apply Hf. intros w rest Hm. apply hr_front_inv in Hm.
    destruct Hm as (gs & t & -> & Hlen & _).
    destruct gs as [|g gs]; [cbn in Hlen; lia|].
    unfold hr_line. cbn [map concat]. rewrite <- app_assoc.
    apply app_nonempty_l, hr_group_nonempty.
  - rewrite MatchString_anchored in HM by reflexivity.
    rewrite FindString_anchored by reflexivity.
    rewrite match_here_gfm in *.
    pose proof (front_found_nonempty (gfm_front (b2z x60) 1) s) as H1.
    pose proof (front_found_nonempty (gfm_front (b2z x7e) 3) s) as H2.
    assert (Hne : forall (f : byte) g w rest,
              b2z f < 0x80 -> matches (gfm_front (b2z f) g) 0%nat w rest -> w <> []).
    { intros f g w rest Hf Hm. apply gfm_front_inv in Hm; [|exact Hf].
      destruct Hm as (a & info & body & b & -> & _). cbn. discriminate. }
    destruct (exec (gfm_front (b2z x60) 1) 0%nat s [] _) as [[e c]|].
    + cbn [orelse]. apply H1. intros w rest. apply Hne. vm_compute. reflexivity.
    + cbn [orelse] in *.
      destruct (exec (gfm_front (b2z x7e) 3) 0%nat s [] _) as [[e c]|]; [|discriminate].
      apply H2. intros w rest. apply Hne. vm_compute. reflexivity.
  - destruct (code_found_canon s HM) as (ch & chs & rest & _ & _ & ->).
    rewrite code_text_cons. unfold code_chunk. cbn. discriminate.
Qed.

(** *** How far each state function moves the cursor *)

Lemma lexBlock_progress t l st l' :
  t = itemHeading \/ t = itemHr \/ t = itemGfmCodeBlock ->
  lexBlock t l = Ok (st, l') ->
  (st = Some lexText /\ l' = l) \/
  (st = Some lexAny /\ input l' = input l /\ pos l < pos l').
Proof.
  intros Ht H. unfold lexBlock in H.
  apply bind_ok in H. destruct H as (s & Hs & H).
  destruct (MatchString (block t) s) eqn:HM; [|inversion H; auto].
  right. rewrite Hs in H. cbn [bind] in H.
  apply bind_ok in H. destruct H as (l2 & He & H). inversion H; subst st l2.
  apply emit_spec in He. destruct He as (v & _ & _ & _ & Hi & Hp & _).
  cbn [set_pos input pos] in Hi, Hp.
  assert (Hne : FindString (block t) s <> []) by (apply block_found_nonempty; tauto).
  split; [reflexivity|]. split; [exact Hi|]. rewrite Hp.
  destruct (FindString (block t) s); [congruence|]. unfold len. cbn [length]. lia.
Qed.

Lemma lexCode_progress l st l' :
  MatchString (block itemCodeBlock) (skipn (Z.to_nat (pos l)) (input l)) = true ->
  call lexCode l = Ok (st, l') ->
  st = Some lexAny /\ input l' = input l /\ pos l < pos l'.
Proof.
  intros HM H. cbn [call] in H. unfold lexCode_fn in H.
  apply bind_ok in H. destruct H as (s & Hs & H).
  apply bind_ok in H. destruct H as (l2 & He & H). inversion H; subst st l2.
  apply slice_from_ok in Hs. destruct Hs as [_ ->].
  apply emit_spec in He. destruct He as (v & _ & _ & _ & Hi & Hp & _).
  cbn [set_pos input pos] in Hi, Hp.
  assert (Hne : FindString (block itemCodeBlock)
                  (skipn (Z.to_nat (pos l)) (input l)) <> [])
    by (apply block_found_nonempty; tauto).
  split; [reflexivity|]. split; [exact Hi|]. rewrite Hp.
  destruct (FindString _ _); [congruence|]. unfold len. cbn [length]. lia.
Qed.

Lemma boundary_not_peeked r l :
  r <> c_nl -> r <> c_sp -> lexText_boundary r l = Ok (false, l).
Proof.
  intros H1 H2. unfold lexText_boundary.
  replace (r =? c_nl) with false by (symmetry; apply Z.eqb_neq; exact H1).
  cbn [bind].
  replace (r =? c_sp) with false by (symmetry; apply Z.eqb_neq; exact H2).
  reflexivity.
Qed.

(** A round of lexText that reads a rune moves the cursor forward. *)
Lemma lexText_progress l st l' :
  call lexText l = Ok (st, l') ->
  input l' = input l /\
  ((len (input l) <= pos l /\ st = Some lexAny /\ pos l' = pos l) \/
   (pos l < len (input l) /\ pos l < pos l' /\
    (st = Some lexAny \/ st = Some lexText))).
Proof.
  intros H. pose proof (call_sent _ _ _ _ H) as [Hin _]. split; [exact Hin|].
  pose proof (call_next_state lexText l st l' H) as Hst. cbn in Hst.
  cbn [call] in H. unfold lexText_fn in H.
  apply bind_ok in H. destruct H as ([c l2] & Hi & H).
  assert (l2 = l') by (destruct c; inversion H; reflexivity). subst l2.
  unfold lexText_iter in Hi.
  apply bind_ok in Hi. destruct Hi as ([r l1] & Hn & Hi). cbv beta iota in Hi.
  apply next_spec in Hn.
  destruct Hn as [_ [(He & -> & Hp & _)|(Hp & D & Hp1 & Hw & _)]].
  { change (eof =? eof) with true in Hi. inversion Hi; subst c l1.
    left. inversion H. auto. }
  right. split; [lia|]. split; [|exact Hst].
  pose proof (rune_nonneg (skipn (Z.to_nat (pos l)) (input l))) as Hr.
  rewrite D in Hr. cbn [fst] in Hr.
  replace (r =? eof) with false in Hi by (unfold eof; lia).
  destruct (is_delim r) eqn:Ed.
  - assert (Hnl : r <> c_nl /\ r <> c_sp).
    { unfold is_delim in Ed.
      repeat (apply orb_true_iff in Ed; destruct Ed as [Ed|Ed]);
        apply Z.eqb_eq in Ed; subst r; split; discriminate. }
    rewrite (boundary_not_peeked r l1) in Hi by tauto.
    cbn [bind] in Hi. cbv beta iota in Hi.
    apply bind_ok in Hi. destruct Hi as (s & _ & Hi).
    destruct (first_span span_order s) as [[t m]|] eqn:Hf.
    + apply first_span_nonempty in Hf.
      apply bind_ok in Hi. destruct Hi as (l4 & He & Hi). inversion Hi; subst c l4.
      apply emit_spec in He. destruct He as (v & _ & _ & _ & _ & Hp' & _).
      unfold backup in Hp'. cbn [set_pos pos] in Hp'. rewrite Hp'.
      destruct m; [congruence|]. unfold len. cbn [length]. lia.
    + apply bind_ok in Hi. destruct Hi as (l4 & He & Hi). inversion Hi; subst c l4.
      apply emit_spec in He. destruct He as (v & _ & _ & _ & _ & Hp' & _).
      unfold backup in Hp'. cbn [set_pos pos width] in Hp'. lia.
  - apply bind_ok in Hi. destruct Hi as ([b l3] & Hb & Hi). cbv beta iota in Hi.
    apply lexText_boundary_same in Hb. destruct Hb as [_ Hp3].
    destruct b.
    + apply bind_ok in Hi. destruct Hi as (l4 & He & Hi). inversion Hi; subst c l4.
      apply emit_spec in He. destruct He as (v & _ & _ & _ & _ & Hp' & _).
      cbn [set_pos pos] in Hp'. lia.
    + apply bind_ok in Hi. destruct Hi as (l4 & He & Hi). inversion Hi; subst c l4.
      apply emit_spec in He. destruct He as (v & _ & _ & _ & _ & Hp' & _). lia.
Qed.

(** *** On ASCII input lexAny never moves the cursor back *)

Lemma ascii_skipn (s : gostring) (n : nat) : ascii_only s -> ascii_only (skipn n s).
Proof.
  unfold ascii_only. intros H. rewrite <- (firstn_skipn n s) in H.
  apply Forall_app in H. tauto.
Qed.

Lemma ascii_width (s : gostring) (p r w : Z) :
  ascii_only s -> utf8.DecodeRuneInString (skipn (Z.to_nat p) s) = (r, w) -> w <= 1.
Proof.
  intros Ha D. apply (ascii_skipn s (Z.to_nat p)) in Ha.
  destruct (skipn (Z.to_nat p) s) as [|c t].
  - cbn in D. inversion D. lia.
  - rewrite decode_ascii in D by (apply (Forall_inv Ha)). inversion D. lia.
Qed.

Lemma next_ascii l r l1 :
  ascii_only (input l) -> next l = Ok (r, l1) ->
  input l1 = input l /\ pos l1 = pos l + width l1 /\ 0 <= width l1 <= 1 /\
  (r <> eof -> width l1 = 1).
Proof.
  intros Ha H. apply next_spec in H.
  destruct H as [(Hi & _) [(_ & Hr & Hp & Hw)|(_ & D & Hp & Hw & _)]].
  - repeat split; try lia; try assumption; congruence.
  - pose proof (ascii_width _ _ _ _ Ha D). repeat split; try lia; assumption.
Qed.

Lemma peek_ascii l p l2 :
  ascii_only (input l) -> peek l = Ok (p, l2) ->
  input l2 = input l /\ pos l2 = pos l /\ 0 <= width l2 <= 1.
Proof.
  intros Ha H. apply peek_spec in H.
  destruct H as ((Hi & _) & Hp & [(_ & _ & Hw)|(_ & D & Hw & _)]).
  - repeat split; try lia; assumption.
  - pose proof (ascii_width _ _ _ _ Ha D). repeat split; try lia; assumption.
Qed.

Lemma lexAny_progress l st l' :
  ascii_only (input l) -> call lexAny l = Ok (st, l') -> pos l <= pos l'.
Proof.
  intros Ha H. cbn [call] in H. unfold lexAny_fn in H.
  apply bind_ok in H. destruct H as ([r l1] & Hn & H). cbv beta iota in H.
  destruct (next_ascii _ _ _ Ha Hn) as (Hi1 & Hp1 & Hw1 & Hr1).
  destruct (r =? eof) eqn:Er; [inversion H; subst; lia|].
  assert (Hw : width l1 = 1) by (apply Hr1; intros ->; discriminate).
  assert (Hb : pos (backup l1) = pos l)
    by (unfold backup; cbn [set_pos pos]; lia).
  assert (Tail : lexAny_tail l1 = Ok (st, l') -> pos l <= pos l').
  { intros Ht. unfold lexAny_tail in Ht.
    apply bind_ok in Ht. destruct Ht as (c & _ & Ht).
    destruct (bytes_eqb c _ || _); inversion Ht; subst; lia. }
  destruct ((r =? c_star) || (r =? c_dash)).
  { apply bind_ok in H. destruct H as ([p1 l2] & Hp & H). cbv beta iota in H.
    destruct (peek_ascii l1 p1 l2 ltac:(congruence) Hp) as (Hi2 & Hp2 & Hw2).
    destruct (p1 =? c_star).
    - inversion H; subst. unfold backup. cbn [set_pos pos]. lia.
    - apply bind_ok in H. destruct H as ([p2 l3] & Hp' & H). cbv beta iota in H.
      destruct (peek_ascii l2 p2 l3 ltac:(congruence) Hp') as (Hi3 & Hp3 & Hw3).
      destruct (p2 =? c_dash); inversion H; subst;
        unfold backup; cbn [set_pos pos]; lia. }
  destruct (r =? c_hash); [inversion H; subst; lia|].
  destruct (r =? c_sp).
  { apply bind_ok in H. destruct H as (s & _ & H).
    destruct (MatchString _ s); [inversion H; subst; lia | apply Tail; exact H]. }
  destruct ((r =? c_tick) || (r =? c_tilde)); [apply Tail; exact H|].
  inversion H; subst; lia.
Qed.

(** *** Every step lowers the bound *)

Lemma steps_left_lower f l st' l' :
  ascii_inv (Some f) l -> call f l = Ok (st', l') ->
  ascii_inv st' l' /\ (steps_left st' l' < steps_left (Some f) l)%nat.
Proof.
  intros [Ha Hcode] H.
  pose proof (call_sent _ _ _ _ H) as [Hin _].
  assert (Hinv : ascii_inv st' l').
  { split; [rewrite Hin; exact Ha|].
    intros ->. pose proof (call_next_state f l _ l' H) as Hn.
    destruct f.
    - apply (lexAny_to_code l l' H).
    - destruct Hn as [[Hn _]|Hn]; discriminate.
    - destruct Hn as [[Hn _]|Hn]; discriminate.
    - destruct Hn as [[Hn _]|Hn]; discriminate.
    - discriminate.
    - destruct Hn as [Hn _]. discriminate.
    - destruct Hn as [Hn|Hn]; discriminate. }
  split; [exact Hinv|].
  assert (Hblock : forall st0 l0,
            ((st0 = Some lexText /\ l0 = l) \/
             (st0 = Some lexAny /\ input l0 = input l /\ pos l < pos l0)) ->
            (steps_left st0 l0 <
             4 * Z.to_nat (len (input l) - pos l) +
             (if (Z.to_nat (len (input l) - pos l) =? 0)%nat then 3 else 1))%nat).
  { intros st0 l0 [[-> ->]|(-> & Hi0 & Hp0)]; unfold steps_left, state_rank;
      cbv zeta; rewrite ?Hi0;
      destruct (Z.to_nat (len (input l) - pos l) =? 0)%nat eqn:E0;
      try (destruct (Z.to_nat (len (input l) - pos l0) =? 0)%nat eqn:E1);
      rewrite ?Nat.eqb_eq, ?Nat.eqb_neq in *; lia. }
  pose proof (call_next_state f l st' l' H) as Hn.
  destruct f; cbn [call] in H.
  - (* lexAny *)
    pose proof (lexAny_progress l st' l' Ha H) as Hp.
    destruct Hn as [(-> & He & _)|(Hr & Hst)].
    + unfold steps_left, state_rank. cbv zeta.
      destruct (Z.to_nat (len (input l) - pos l) =? 0)%nat; lia.
    + assert (Hrank : exists f', st' = Some f' /\ f' <> lexAny).
      { cbn [In] in Hst.
        repeat (destruct Hst as [<-|Hst]; [eexists; split; [reflexivity|discriminate]|]).
        destruct Hst. }
      destruct Hrank as (f' & -> & Hf').
      unfold steps_left, state_rank. cbv zeta. rewrite Hin.
      destruct (Z.to_nat (len (input l) - pos l) =? 0)%nat eqn:E0;
        destruct (Z.to_nat (len (input l) - pos l') =? 0)%nat eqn:E1;
        rewrite ?Nat.eqb_eq, ?Nat.eqb_neq in *; destruct f'; try congruence; lia.
  - apply Hblock. apply (lexBlock_progress itemHeading); [tauto | exact H].
  - apply Hblock. apply (lexBlock_progress itemHr); [tauto | exact H].
  - apply Hblock. apply (lexBlock_progress itemGfmCodeBlock); [tauto | exact H].
  - apply Hblock. right. apply (lexCode_progress l st' l' (Hcode eq_refl) H).
  - destruct Hn as [-> ->]. unfold steps_left, state_rank. cbv zeta.
    destruct (Z.to_nat (len (input l) - pos l) =? 0)%nat; lia.
  - destruct (lexText_progress l st' l' H)
      as [_ [(He & -> & Hp)|(Hp & Hp' & Hst)]].
    + unfold steps_left, state_rank. cbv zeta. rewrite Hin, Hp.
      replace (Z.to_nat (len (input l) - pos l)) with 0%nat by lia.
      cbn. lia.
    + assert (Hrank : exists f', st' = Some f')
        by (destruct Hst as [-> | ->]; eauto).
      destruct Hrank as (f' & ->).
      unfold steps_left, state_rank. cbv zeta. rewrite Hin.
      destruct (Z.to_nat (len (input l) - pos l) =? 0)%nat eqn:E0;
        destruct (Z.to_nat (len (input l) - pos l') =? 0)%nat eqn:E1;
        rewrite ?Nat.eqb_eq, ?Nat.eqb_neq in *; destruct f'; lia.
Qed.

(** The loop of run stops within the bound. *)
Lemma run_loop_stops fuel :
  forall st l,
    ascii_inv st l -> (steps_left st l <= fuel)%nat ->
    (exists l', run_loop fuel st l = Ok l') \/ run_loop fuel st l = Panic.
Proof.
  induction fuel as [|fuel IH]; intros st l Hinv Hm.
  - destruct st as [f|]; [|left; eexists; reflexivity].
    exfalso. unfold steps_left, state_rank in Hm. cbv zeta in Hm.
    destruct (Z.to_nat (len (input l) - pos l)) as [|d] eqn:Ed; cbn in Hm.
    + destruct f; lia.
    + lia.
  - destruct st as [f|]; [|left; eexists; reflexivity].
    cbn [run_loop]. destruct (call f l) as [[st' l']| |] eqn:Hc.
    + cbn [bind]. destruct (steps_left_lower f l st' l' Hinv Hc) as [Hinv' Hlt].
      apply IH; [exact Hinv' | lia].
    + right. reflexivity.
    + exfalso. exact (call_oof f l Hc).
Qed.

End progress_facts.

Import progress_facts.

(** X8.  On an input of ASCII bytes the scanner stops: within
    [4 * len(input) + 2] steps of the machine it has reached [nil] or
    has panicked.  lexAny never moves the cursor back on such an input
    (a peeked rune has width 1, or 0 at the end of the input), every
    block rule that matches and every round of lexText that reads a
    rune move it forward, and the steps that leave it in place go from
    lexAny to a block rule or lexList, then to lexText. *)
Theorem scanner_stops_on_ascii_input (inp : gostring) (fuel : nat) :
  ascii_only inp -> (4 * length inp + 2 <= fuel)%nat ->
  (exists l, lex fuel inp = Ok l) \/ lex fuel inp = Panic.
Proof.
  intros Ha Hf. unfold lex, run. apply run_loop_stops.
  - split; [exact Ha | discriminate].
  - unfold steps_left, state_rank, new_lexer. cbv zeta. cbn [input pos].
    rewrite Z.sub_0_r. unfold len. rewrite Nat2Z.id.
    destruct (length inp =? 0)%nat; lia.
Qed.

(** The theorem at the input [a *b*], with 22 steps. *)
Lemma scanner_stops_on_ascii_input_witness :
  ascii_only (bs "a *b*") /\ (4 * length (bs "a *b*") + 2 <= 22)%nat /\
  ((exists l, lex 22 (bs "a *b*") = Ok l) \/ lex 22 (bs "a *b*") = Panic).
Proof.
  assert (Ha : ascii_only (bs "a *b*"))
    by (repeat (apply Forall_cons; [reflexivity|]); apply Forall_nil).
  assert (Hf : (4 * length (bs "a *b*") + 2 <= 22)%nat) by (cbn; lia).
  split; [exact Ha|]. split; [exact Hf|].
  exact (scanner_stops_on_ascii_input (bs "a *b*") 22 Ha Hf).
Defined.

(** ** Where a run on ASCII input can panic *)

Module safe_facts.
Import regexp utf8_facts regexp_facts shape_facts lexer_facts at_facts text_facts
       block_facts run_facts aligned_facts cursor_facts step_facts code_facts
       progress_facts.

Lemma bind_panic {A B : Type} (m : result A) (f : A -> result B) :
  bind m f = Panic -> m = Panic \/ exists a, m = Ok a /\ f a = Panic.
Proof. destruct m; cbn; intros H; [right; eauto | left; reflexivity | discriminate]. Qed.

Lemma slice_from_panic s lo : slice_from s lo = Panic -> lo < 0 \/ len s < lo.
Proof.
  unfold slice_from. destruct (0 <=? lo) eqn:E1; destruct (lo <=? len s) eqn:E2;
    cbn; intros H; try discriminate; rewrite ?Z.leb_gt in *; lia.
Qed.

Lemma slice_panic s lo hi : slice s lo hi = Panic -> lo < 0 \/ hi < lo \/ len s < hi.
Proof.
  unfold slice. destruct (0 <=? lo) eqn:E1; destruct (lo <=? hi) eqn:E2;
    destruct (hi <=? len s) eqn:E3;
    cbn; intros H; try discriminate; rewrite ?Z.leb_gt in *; lia.
Qed.

Lemma next_panic l : next l = Panic -> pos l < 0.
Proof.
  unfold next. destruct (len (input l) <=? pos l) eqn:E; [discriminate|].
  intros H. apply bind_panic in H. destruct H as [H|(s & _ & H)].
  - apply slice_from_panic in H. apply Z.leb_gt in E. lia.
  - destruct (utf8.DecodeRuneInString s). discriminate.
Qed.

Lemma peek_panic l : peek l = Panic -> pos l < 0.
Proof.
  unfold peek. intros H. apply bind_panic in H. destruct H as [H|([r l1] & _ & H)].
  - apply next_panic. exact H.
  - discriminate.
Qed.

Lemma emit_panic t l :
  emit t l = Panic -> start l < 0 \/ pos l < start l \/ len (input l) < pos l.
Proof.
  unfold emit. intros H. apply bind_panic in H. destruct H as [H|(v & _ & H)].
  - apply slice_panic. exact H.
  - discriminate.
Qed.

Lemma lexText_boundary_panic r l : lexText_boundary r l = Panic -> pos l < 0.
Proof.
  unfold lexText_boundary. intros H.
  apply bind_panic in H. destruct H as [H|([a l1] & Ha & H)].
  - destruct (r =? c_nl); [|discriminate].
    apply bind_panic in H. destruct H as [H|([p l1] & _ & H)]; [|discriminate].
    apply peek_panic. exact H.
  - assert (Hp : pos l1 = pos l).
    { destruct (r =? c_nl); [|inversion Ha; reflexivity].
      apply bind_ok in Ha. destruct Ha as ([p l2] & Hpk & Ha). inversion Ha; subst.
      apply peek_spec in Hpk. tauto. }
    destruct a; [discriminate|]. destruct (r =? c_sp); [|discriminate].
    apply bind_panic in H. destruct H as [H|([p l2] & _ & H)]; [|discriminate].
    apply peek_panic in H. lia.
Qed.

(** A boundary is found only where a second byte is left. *)
Lemma boundary_true_room r l l' :
  lexText_boundary r l = Ok (true, l') -> pos l < len (input l).
Proof.
  unfold lexText_boundary. intros H.
  assert (Hpk : forall l0 p l1 (c : Z),
            peek l0 = Ok (p, l1) -> (p =? c) = true -> 0 <= c ->
            pos l0 < len (input l0)).
  { intros l0 p l1 c Hp Hc H0. apply Z.eqb_eq in Hc. subst p.
    apply peek_spec in Hp. destruct Hp as (_ & _ & [(_ & He & _)|(Hr & _)]).
    - unfold eof in He. lia.
    - lia. }
  apply bind_ok in H. destruct H as ([a l1] & Ha & H).
  destruct (r =? c_nl) eqn:Enl.
  - apply bind_ok in Ha. destruct Ha as ([p l2] & Hp & Ha). inversion Ha; subst a l1.
    destruct (p =? c_nl) eqn:Ep.
    + eapply Hpk; [exact Hp | exact Ep | unfold c_nl; lia].
    + destruct (r =? c_sp) eqn:Esp; [|discriminate].
      apply Z.eqb_eq in Enl, Esp. subst r. discriminate.
  - inversion Ha; subst a l1. destruct (r =? c_sp); [|discriminate].
    apply bind_ok in H. destruct H as ([p l2] & Hp & H). inversion H.
    eapply Hpk; [exact Hp | eassumption | unfold c_sp; lia].
Qed.

Lemma find_length (r : regex) (s : gostring) : len (FindString r s) <= len s.
Proof.
  unfold FindString. destruct (find r s) as [[[b e] c]|].
  - unfold len. rewrite length_firstn, length_skipn. lia.
  - unfold len. cbn [length]. lia.
Qed.

(** *** The bounds are kept *)

Lemma emit_bounds t l l' : emit t l = Ok l' -> in_bounds l'.
Proof.
  intros H. apply emit_spec in H.
  destruct H as (v & Hs & _ & _ & Hi & Hp & Hst & _).
  apply slice_ok in Hs. unfold in_bounds. rewrite Hi, Hp, Hst. lia.
Qed.

Lemma lexAny_upper l st l' :
  ascii_only (input l) -> pos l <= len (input l) ->
  call lexAny l = Ok (st, l') -> pos l' <= len (input l).
Proof.
  intros Ha Hb H. cbn [call] in H. unfold lexAny_fn in H.
  apply bind_ok in H. destruct H as ([r l1] & Hn & H). cbv beta iota in H.
  destruct (next_ascii _ _ _ Ha Hn) as (Hi1 & Hp1 & Hw1 & _).
  assert (Hu : pos l1 <= len (input l)).
  { apply next_spec in Hn. destruct Hn as [_ [(_ & _ & Hp & _)|(_ & _ & _ & _ & Hp)]]; lia. }
  assert (Tail : lexAny_tail l1 = Ok (st, l') -> pos l' <= len (input l)).
  { intros Ht. unfold lexAny_tail in Ht.
    apply bind_ok in Ht. destruct Ht as (c & _ & Ht).
    destruct (bytes_eqb c _ || _); inversion Ht; subst;
      unfold backup; cbn [set_pos pos]; lia. }
  destruct (r =? eof); [inversion H; subst; lia|].
  destruct ((r =? c_star) || (r =? c_dash)).
  { apply bind_ok in H. destruct H as ([p1 l2] & Hp & H). cbv beta iota in H.
    destruct (peek_ascii l1 p1 l2 ltac:(congruence) Hp) as (Hi2 & Hp2 & Hw2).
    destruct (p1 =? c_star).
    - inversion H; subst. unfold backup. cbn [set_pos pos]. lia.
    - apply bind_ok in H. destruct H as ([p2 l3] & Hp' & H). cbv beta iota in H.
      destruct (peek_ascii l2 p2 l3 ltac:(congruence) Hp') as (Hi3 & Hp3 & Hw3).
      destruct (p2 =? c_dash); inversion H; subst;
        unfold backup; cbn [set_pos pos]; lia. }
  destruct (r =? c_hash); [inversion H; subst; unfold backup; cbn [set_pos pos]; lia|].
  destruct (r =? c_sp).
  { apply bind_ok in H. destruct H as (s & _ & H).
    destruct (MatchString _ s);
      [inversion H; subst; unfold backup; cbn [set_pos pos]; lia | apply Tail; exact H]. }
  destruct ((r =? c_tick) || (r =? c_tilde)); [apply Tail; exact H|].
  inversion H; subst; unfold backup; cbn [set_pos pos]; lia.
Qed.

Lemma call_bounds f l st l' :
  ascii_only (input l) -> in_bounds l -> call f l = Ok (st, l') -> in_bounds l'.
Proof.
  intros Ha Hb H.
  assert (Block : forall t, lexBlock t l = Ok (st, l') -> in_bounds l').
  { intros t Ht. unfold lexBlock in Ht.
    apply bind_ok in Ht. destruct Ht as (s & _ & Ht).
    destruct (MatchString _ s); [|inversion Ht; subst; exact Hb].
    apply bind_ok in Ht. destruct Ht as (s' & _ & Ht).
    apply bind_ok in Ht. destruct Ht as (l2 & He & Ht). inversion Ht; subst.
    eapply emit_bounds; exact He. }
  destruct f.
  - pose proof (lexAny_progress l st l' Ha H) as Hlo.
    pose proof (lexAny_upper l st l' Ha ltac:(apply Hb) H) as Hhi.
    destruct (call_cases _ _ _ _ H) as [(Hi & Hs & _)|(l1 & t & _ & _ & [])].
    unfold in_bounds in *. rewrite Hi, Hs. lia.
  - apply (Block itemHeading H).
  - apply (Block itemHr H).
  - apply (Block itemGfmCodeBlock H).
  - cbn [call] in H. unfold lexCode_fn in H.
    apply bind_ok in H. destruct H as (s & _ & H).
    apply bind_ok in H. destruct H as (l2 & He & H). inversion H; subst.
    eapply emit_bounds; exact He.
  - cbn [call] in H. inversion H; subst. exact Hb.
  - cbn [call] in H. unfold lexText_fn in H.
    apply bind_ok in H. destruct H as ([c l2] & Hi & H).
    assert (l2 = l') by (destruct c; inversion H; reflexivity). subst l2. clear H.
    unfold lexText_iter in Hi.
    apply bind_ok in Hi. destruct Hi as ([r l1] & Hn & Hi). cbv beta iota in Hi.
    destruct (r =? eof) eqn:Er.
    { inversion Hi; subst. apply next_spec in Hn.
      destruct Hn as [(Hin & Hs & _) [(_ & _ & Hp & _)|(_ & D & _)]].
      - unfold in_bounds in *. rewrite Hin, Hs, Hp. exact Hb.
      - exfalso. apply Z.eqb_eq in Er. subst r.
        pose proof (rune_nonneg (skipn (Z.to_nat (pos l)) (input l))) as Hr.
        rewrite D in Hr. cbn in Hr. unfold eof in Hr. lia. }
    apply bind_ok in Hi. destruct Hi as ([b l3] & _ & Hi). cbv beta iota in Hi.
    destruct b.
    { apply bind_ok in Hi. destruct Hi as (l4 & He & Hi). inversion Hi; subst.
      eapply emit_bounds; exact He. }
    destruct (is_delim r).
    { apply bind_ok in Hi. destruct Hi as (s & _ & Hi).
      destruct (first_span span_order s) as [[t m]|];
        apply bind_ok in Hi; destruct Hi as (l4 & He & Hi); inversion Hi; subst;
        eapply emit_bounds; exact He. }
    apply bind_ok in Hi. destruct Hi as (l4 & He & Hi). inversion Hi; subst.
    eapply emit_bounds; exact He.
Qed.

(** *** Only the lookahead of lexAny panics *)

Lemma len_skipn (s : gostring) (p : Z) :
  0 <= p <= len s -> len (skipn (Z.to_nat p) s) = len s - p.
Proof. intros H. unfold len in *. rewrite length_skipn. lia. Qed.

Lemma found_fits (r : regex) l s :
  in_bounds l -> slice_from (input l) (pos l) = Ok s ->
  forall t, emit t (set_pos l (pos l + len (FindString r s))) <> Panic.
Proof.
  intros Hb Hs t H. apply slice_from_ok in Hs. destruct Hs as [Hp ->].
  apply emit_panic in H. cbn [set_pos start pos input] in H.
  pose proof (find_length r (skipn (Z.to_nat (pos l)) (input l))) as Hf.
  rewrite len_skipn in Hf by exact Hp.
  pose proof (len_nonneg (FindString r (skipn (Z.to_nat (pos l)) (input l)))).
  unfold in_bounds in Hb. lia.
Qed.

Lemma lexBlock_no_panic t l : in_bounds l -> lexBlock t l <> Panic.
Proof.
  intros Hb H. unfold lexBlock in H.
  apply bind_panic in H. destruct H as [H|(s & Hs & H)].
  { apply slice_from_panic in H. unfold in_bounds in Hb. lia. }
  destruct (MatchString (block t) s); [|discriminate].
  rewrite Hs in H. cbn [bind] in H.
  apply bind_panic in H. destruct H as [H|(l2 & _ & H)]; [|discriminate].
  exact (found_fits (block t) l s Hb Hs t H).
Qed.

Lemma lexCode_no_panic l : in_bounds l -> call lexCode l <> Panic.
Proof.
  intros Hb H. cbn [call] in H. unfold lexCode_fn in H.
  apply bind_panic in H. destruct H as [H|(s & Hs & H)].
  { apply slice_from_panic in H. unfold in_bounds in Hb. lia. }
  apply bind_panic in H. destruct H as [H|(l2 & _ & H)]; [|discriminate].
  exact (found_fits (block itemCodeBlock) l s Hb Hs itemCodeBlock H).
Qed.

Lemma lexText_no_panic l : in_bounds l -> call lexText l <> Panic.
Proof.
  intros Hb H. cbn [call] in H. unfold lexText_fn in H.
  apply bind_panic in H. destruct H as [H|([c l2] & _ & H)];
    [|destruct c; discriminate].
  unfold lexText_iter in H.
  apply bind_panic in H. destruct H as [H|([r l1] & Hn & H)].
  { apply next_panic in H. unfold in_bounds in Hb. lia. }
  cbv beta iota in H. destruct (r =? eof) eqn:Er; [discriminate|].
  apply next_spec in Hn.
  destruct Hn as [(Hin & Hst & Hit) [(_ & -> & _)|(Hp & D & Hp1 & Hw & Hu)]];
    [discriminate|].
  unfold in_bounds in Hb.
  apply bind_panic in H. destruct H as [H|([b l3] & Hbd & H)].
  { apply lexText_boundary_panic in H. lia. }
  cbv beta iota in H.
  pose proof (lexText_boundary_same _ _ _ _ Hbd) as [(Hin3 & Hst3 & _) Hp3].
  assert (Hl1 : len (input l1) = len (input l)) by congruence.
  assert (Hl3 : len (input l3) = len (input l)) by congruence.
  assert (Hs3 : start l3 = start l) by congruence.
  destruct b.
  { apply boundary_true_room in Hbd.
    apply bind_panic in H. destruct H as [H|(l4 & _ & H)]; [|discriminate].
    apply emit_panic in H. cbn [set_pos start pos input] in H. lia. }
  destruct (is_delim r) eqn:Ed.
  - assert (Hnl : r <> c_nl /\ r <> c_sp).
    { unfold is_delim in Ed.
      repeat (apply orb_true_iff in Ed; destruct Ed as [Ed|Ed]);
        apply Z.eqb_eq in Ed; subst r; split; discriminate. }
    rewrite (boundary_not_peeked r l1) in Hbd by tauto.
    inversion Hbd; subst l3.
    assert (Hbk : pos (backup l1) = pos l) by (unfold backup; cbn [set_pos pos]; lia).
    apply bind_panic in H. destruct H as [H|(s & Hs & H)].
    { apply slice_from_panic in H. rewrite Hbk in H.
      unfold backup in H. cbn [set_pos input] in H. lia. }
    destruct (first_span span_order s) as [[t m]|] eqn:Hf.
    + apply first_span_in in Hf. destruct Hf as (_ & -> & _).
      apply bind_panic in H. destruct H as [H|(l4 & _ & H)]; [|discriminate].
      refine (found_fits (span t) (backup l1) s _ Hs t H).
      unfold in_bounds, backup. cbn [set_pos start pos input]. lia.
    + apply bind_panic in H. destruct H as [H|(l4 & _ & H)]; [|discriminate].
      apply emit_panic in H. unfold backup in H.
      cbn [set_pos start pos input width] in H. lia.
  - apply bind_panic in H. destruct H as [H|(l4 & _ & H)]; [|discriminate].
    apply emit_panic in H. lia.
Qed.

Lemma lexAny_panic_cause l :
  in_bounds l -> call lexAny l = Panic ->
  exists pre c t,
    input l = pre ++ c :: t /\ pos l = len pre /\
    fence_or_space c /\ (length t < 2)%nat.
Proof.
  intros Hb H. cbn [call] in H. unfold lexAny_fn in H. unfold in_bounds in Hb.
  apply bind_panic in H. destruct H as [H|([r l1] & Hn & H)].
  { apply next_panic in H. lia. }
  cbv beta iota in H. destruct (r =? eof) eqn:Er; [discriminate|].
  apply next_spec in Hn.
  destruct Hn as [(Hin & Hst & Hit) [(_ & -> & _)|(Hp & D & Hp1 & Hw & Hu)]];
    [discriminate|].
  pose proof (at_cursor_here l ltac:(lia)) as Hat.
  set (pre := firstn (Z.to_nat (pos l)) (input l)) in *.
  destruct (skipn (Z.to_nat (pos l)) (input l)) as [|c t] eqn:Es.
  { cbn in D. inversion D. lia. }
  destruct Hat as [Hi Hpre].
  assert (Hlen : len (input l) = pos l + 1 + len t).
  { rewrite Hi at 1. rewrite len_app, <- Hpre. rewrite len_cons. lia. }
  assert (Tail : forall c0, c = c0 -> fence_or_space c0 -> width l1 = 1 ->
            lexAny_tail l1 = Panic ->
            exists pre c t,
              input l = pre ++ c :: t /\ pos l = len pre /\
              fence_or_space c /\ (length t < 2)%nat).
  { intros c0 -> Hc Hw1 Ht. unfold lexAny_tail in Ht.
    apply bind_panic in Ht. destruct Ht as [Ht|(cc & _ & Ht)].
    - apply slice_panic in Ht. rewrite Hin in Ht.
      exists pre, c0, t. split; [exact Hi|]. split; [exact Hpre|]. split; [exact Hc|].
      unfold len in Hlen, Ht. lia.
    - destruct (bytes_eqb cc _ || _); discriminate. }
  destruct ((r =? c_star) || (r =? c_dash)).
  { apply bind_panic in H. destruct H as [H|([p1 l2] & Hpk & H)].
    { apply peek_panic in H. lia. }
    cbv beta iota in H. destruct (p1 =? c_star); [discriminate|].
    apply peek_spec in Hpk. destruct Hpk as (_ & Hp2 & _).
    apply bind_panic in H. destruct H as [H|([p2 l3] & _ & H)].
    { apply peek_panic in H. lia. }
    cbv beta iota in H. destruct (p2 =? c_dash); discriminate. }
  destruct (r =? c_hash); [discriminate|].
  destruct (r =? c_sp) eqn:Esp.
  { destruct (byte_of_rune c SP t r (width l1) D ltac:(vm_compute; reflexivity) Esp)
      as [Hc Hw1].
    apply bind_panic in H. destruct H as [H|(s & _ & H)].
    { apply slice_from_panic in H. rewrite Hin in H. lia. }
    destruct (MatchString _ s); [discriminate|].
    apply (Tail SP Hc); [left; reflexivity | exact Hw1 | exact H]. }
  destruct ((r =? c_tick) || (r =? c_tilde)) eqn:Ett; [|discriminate].
  apply orb_prop in Ett. destruct Ett as [E|E].
  - destruct (byte_of_rune c x60 t r (width l1) D ltac:(vm_compute; reflexivity) E)
      as [Hc Hw1].
    apply (Tail x60 Hc); [right; left; reflexivity | exact Hw1 | exact H].
  - destruct (byte_of_rune c x7e t r (width l1) D ltac:(vm_compute; reflexivity) E)
      as [Hc Hw1].
    apply (Tail x7e Hc); [right; right; reflexivity | exact Hw1 | exact H].
Qed.

(** A run on ASCII input panics only at a space, a backtick or a tilde
    among the last two bytes of the input. *)
Lemma run_loop_panic_cause fuel :
  forall st l,
    ascii_only (input l) -> in_bounds l -> run_loop fuel st l = Panic ->
    exists pre c t,
      input l = pre ++ c :: t /\ fence_or_space c /\ (length t < 2)%nat.
Proof.
  induction fuel as [|fuel IH]; intros st l Ha Hb H.
  - destruct st; discriminate.
  - destruct st as [f|]; [|discriminate].
    cbn [run_loop] in H. apply bind_panic in H.
    destruct H as [H|([st' l'] & Hc & H)].
    + destruct f.
      * destruct (lexAny_panic_cause l Hb H) as (pre & c & t & A & _ & B & C).
        eauto 10.
      * exfalso. exact (lexBlock_no_panic itemHeading l Hb H).
      * exfalso. exact (lexBlock_no_panic itemHr l Hb H).
      * exfalso. exact (lexBlock_no_panic itemGfmCodeBlock l Hb H).
      * exfalso. exact (lexCode_no_panic l Hb H).
      * discriminate.
      * exfalso. exact (lexText_no_panic l Hb H).
    + pose proof (call_sent _ _ _ _ Hc) as [Hin _].
      rewrite <- Hin. apply (IH st' l').
      * rewrite Hin. exact Ha.
      * eapply call_bounds; eassumption.
      * exact H.
Qed.

Lemma last_two_spec (pre t : gostring) (c : byte) :
  (length t < 2)%nat -> In c (last_two (pre ++ c :: t)).
Proof.
  intros Ht. unfold last_two. rewrite skipn_app.
  apply in_or_app.
  destruct (Nat.le_gt_cases (length (pre ++ c :: t) - 2) (length pre)) as [Hle|Hgt].
  - right.
    replace (length (pre ++ c :: t) - 2 - length pre)%nat with 0%nat by lia.
    left. reflexivity.
  - rewrite length_app in Hgt. cbn [length] in Hgt. lia.
Qed.

End safe_facts.

Import safe_facts.

(** X9.  On an input of ASCII bytes the only step that can panic is
    the two-byte lookahead of lexAny: a run panics only if a space, a
    backtick or a tilde is among the last two bytes of the input.
    Hence an ASCII input whose last two bytes are none of these is
    scanned to the end: within [4 * len(input) + 2] steps the state
    [nil] is reached and the channel is closed. *)
Theorem ascii_run_panics_only_at_lookahead :
  (forall inp fuel,
     ascii_only inp -> lex fuel inp = Panic ->
     exists pre c t,
       inp = pre ++ c :: t /\ fence_or_space c /\ (length t < 2)%nat) /\
  (forall inp fuel,
     ascii_only inp ->
     Forall (fun c => c <> SP /\ c <> x60 /\ c <> x7e) (last_two inp) ->
     (4 * length inp + 2 <= fuel)%nat ->
     exists l, lex fuel inp = Ok l /\ closed (items l) = true).
Proof.
  assert (Hcause : forall inp fuel,
            ascii_only inp -> lex fuel inp = Panic ->
            exists pre c t,
              inp = pre ++ c :: t /\ fence_or_space c /\ (length t < 2)%nat).
  { intros inp fuel Ha H. unfold lex, run in H.
    apply (run_loop_panic_cause fuel (Some lexAny) (new_lexer inp)); [exact Ha| |exact H].
    unfold in_bounds, new_lexer. cbn [start pos input].
    pose proof (len_nonneg inp). lia. }
  split; [exact Hcause|].
  intros inp fuel Ha Hlast Hf.
  destruct (run_loop_stops fuel (Some lexAny) (new_lexer inp)) as [(l & Hl)|Hp].
  - split; [exact Ha | discriminate].
  - unfold steps_left, state_rank, new_lexer. cbv zeta. cbn [input pos].
    rewrite Z.sub_0_r. unfold len. rewrite Nat2Z.id.
    destruct (length inp =? 0)%nat; lia.
  - exists l. split; [exact Hl|]. apply (run_loop_trace _ _ _ _ Hl).
  - exfalso. destruct (Hcause inp fuel Ha Hp) as (pre & c & t & -> & Hc & Ht).
    rewrite Forall_forall in Hlast.
    destruct (Hlast c (last_two_spec pre t c Ht)) as (H1 & H2 & H3).
    destruct Hc as [Hc|[Hc|Hc]]; congruence.
Qed.

(** The second part of the theorem at the input [a *b*], with 22
    steps. *)
Lemma ascii_run_panics_only_at_lookahead_witness :
  ascii_only (bs "a *b*") /\
  Forall (fun c => c <> SP /\ c <> x60 /\ c <> x7e) (last_two (bs "a *b*")) /\
  (4 * length (bs "a *b*") + 2 <= 22)%nat /\
  exists l, lex 22 (bs "a *b*") = Ok l /\ closed (items l) = true.
Proof.
  assert (Ha : ascii_only (bs "a *b*"))
    by (repeat (apply Forall_cons; [reflexivity|]); apply Forall_nil).
  assert (Hl : Forall (fun c => c <> SP /\ c <> x60 /\ c <> x7e) (last_two (bs "a *b*"))).
  { repeat (apply Forall_cons; [repeat split; discriminate|]). apply Forall_nil. }
  assert (Hf : (4 * length (bs "a *b*") + 2 <= 22)%nat) by (cbn; lia).
  split; [exact Ha|]. split; [exact Hl|]. split; [exact Hf|].
  exact (proj2 ascii_run_panics_only_at_lookahead (bs "a *b*") 22%nat Ha Hl Hf).
Defined.

(** ** When the items make up the whole input *)

Module whole_facts.
Import regexp utf8_facts regexp_facts shape_facts lexer_facts at_facts text_facts
       block_facts run_facts aligned_facts cursor_facts step_facts code_facts
       progress_facts safe_facts.

Lemma emit_aligned t l l' : emit t l = Ok l' -> start l' = pos l'.
Proof.
  intros H. apply emit_spec in H.
  destruct H as (v & _ & _ & _ & _ & Hp & Hst & _). congruence.
Qed.

(** On ASCII input lexAny puts the cursor back where it was, unless it
    read a star or a dash that is the last byte of the input. *)
Lemma lexAny_restores l st l' :
  ascii_only (input l) -> 0 <= pos l ->
  last (input l) x00 <> x2a -> last (input l) x00 <> x2d ->
  call lexAny l = Ok (st, l') -> pos l' = pos l.
Proof.
  intros Ha H0 Hs Hd H. cbn [call] in H. unfold lexAny_fn in H.
  apply bind_ok in H. destruct H as ([r l1] & Hn & H). cbv beta iota in H.
  destruct (next_ascii _ _ _ Ha Hn) as (Hi1 & Hp1 & Hw1 & Hr1).
  apply next_spec in Hn.
  destruct Hn as [_ [(_ & -> & Hp & _)|(Hp & D & _ & _ & Hu)]].
  { change (eof =? eof) with true in H. inversion H; subst. exact Hp. }
  pose proof (rune_nonneg (skipn (Z.to_nat (pos l)) (input l))) as Hr.
  rewrite D in Hr. cbn [fst] in Hr.
  replace (r =? eof) with false in H by (unfold eof; lia).
  assert (Hw : width l1 = 1) by (apply Hr1; unfold eof; lia).
  assert (Hb : pos (backup l1) = pos l)
    by (unfold backup; cbn [set_pos pos]; lia).
  assert (Tail : lexAny_tail l1 = Ok (st, l') -> pos l' = pos l).
  { intros Ht. unfold lexAny_tail in Ht.
    apply bind_ok in Ht. destruct Ht as (c & _ & Ht).
    destruct (bytes_eqb c _ || _); inversion Ht; subst; exact Hb. }
  destruct ((r =? c_star) || (r =? c_dash)) eqn:Esd.
  { (* the byte read is a star or a dash *)
    pose proof (at_cursor_here l ltac:(lia)) as [Hi Hpre].
    destruct (skipn (Z.to_nat (pos l)) (input l)) as [|c t] eqn:Es.
    { cbn in D. inversion D. lia. }
    assert (Hc : c = x2a \/ c = x2d).
    { apply orb_prop in Esd. destruct Esd as [E|E].
      - destruct (byte_of_rune c x2a t r _ D ltac:(vm_compute; reflexivity) E); auto.
      - destruct (byte_of_rune c x2d t r _ D ltac:(vm_compute; reflexivity) E); auto. }
    assert (Hroom : pos l1 < len (input l1)).
    { rewrite Hi1. destruct t as [|c2 t].
      - exfalso. rewrite Hi in Hs, Hd. rewrite last_last in Hs, Hd.
        destruct Hc; congruence.
      - rewrite Hi at 1. rewrite len_app, !len_cons, <- Hpre.
        pose proof (len_nonneg t). lia. }
    assert (Hpk : forall l0 p l2,
              input l0 = input l1 -> pos l0 = pos l1 ->
              peek l0 = Ok (p, l2) ->
              input l2 = input l1 /\ pos l2 = pos l1 /\ width l2 = 1).
    { intros l0 p l2 Hi0 Hp0 Hp2.
      destruct (peek_ascii l0 p l2 ltac:(congruence) Hp2) as (A & B & C).
      apply peek_spec in Hp2. destruct Hp2 as (_ & _ & [(He & _)|(_ & _ & Hw2 & _)]).
      - rewrite Hi0, Hp0 in He. lia.
      - repeat split; try congruence; lia. }
    apply bind_ok in H. destruct H as ([p1 l2] & Hp2 & H). cbv beta iota in H.
    destruct (Hpk l1 p1 l2 eq_refl eq_refl Hp2) as (Hi2 & Hq2 & Hw2).
    destruct (p1 =? c_star).
    - inversion H; subst. unfold backup. cbn [set_pos pos]. lia.
    - apply bind_ok in H. destruct H as ([p2 l3] & Hp3 & H). cbv beta iota in H.
      destruct (Hpk l2 p2 l3 Hi2 Hq2 Hp3) as (Hi3 & Hq3 & Hw3).
      destruct (p2 =? c_dash); inversion H; subst;
        unfold backup; cbn [set_pos pos]; lia. }
  destruct (r =? c_hash); [inversion H; subst; exact Hb|].
  destruct (r =? c_sp).
  { apply bind_ok in H. destruct H as (s & _ & H).
    destruct (MatchString _ s); [inversion H; subst; exact Hb | apply Tail; exact H]. }
  destruct ((r =? c_tick) || (r =? c_tilde)); [apply Tail; exact H|].
  inversion H; subst; exact Hb.
Qed.

(** Then every state function is entered at the start of the pending
    item. *)
Lemma start_at_cursor_step f l st l' :
  ascii_only (input l) -> 0 <= pos l ->
  last (input l) x00 <> x2a -> last (input l) x00 <> x2d ->
  start l = pos l -> call f l = Ok (st, l') -> start l' = pos l'.
Proof.
  intros Ha H0 Hs Hd Hst H.
  assert (Block : forall t, lexBlock t l = Ok (st, l') -> start l' = pos l').
  { intros t Ht. unfold lexBlock in Ht.
    apply bind_ok in Ht. destruct Ht as (s & _ & Ht).
    destruct (MatchString _ s); [|inversion Ht; subst; exact Hst].
    apply bind_ok in Ht. destruct Ht as (s' & _ & Ht).
    apply bind_ok in Ht. destruct Ht as (l2 & He & Ht). inversion Ht; subst.
    eapply emit_aligned; exact He. }
  destruct f.
  - pose proof (lexAny_restores l st l' Ha H0 Hs Hd H) as Hp.
    destruct (call_cases _ _ _ _ H) as [(_ & Hs' & _)|(l1 & t & _ & _ & [])].
    congruence.
  - apply (Block itemHeading H).
  - apply (Block itemHr H).
  - apply (Block itemGfmCodeBlock H).
  - cbn [call] in H. unfold lexCode_fn in H.
    apply bind_ok in H. destruct H as (s & _ & H).
    apply bind_ok in H. destruct H as (l2 & He & H). inversion H; subst.
    eapply emit_aligned; exact He.
  - cbn [call] in H. inversion H; subst. exact Hst.
  - cbn [call] in H. unfold lexText_fn in H.
    apply bind_ok in H. destruct H as ([c l2] & Hi & H).
    assert (l2 = l') by (destruct c; inversion H; reflexivity). subst l2. clear H.
    unfold lexText_iter in Hi.
    apply bind_ok in Hi. destruct Hi as ([r l1] & Hn & Hi). cbv beta iota in Hi.
    destruct (r =? eof) eqn:Er.
    { inversion Hi; subst. apply next_spec in Hn.
      destruct Hn as [(_ & Hs1 & _) [(_ & _ & Hp & _)|(_ & D & _)]].
      - congruence.
      - exfalso. apply Z.eqb_eq in Er. subst r.
        pose proof (rune_nonneg (skipn (Z.to_nat (pos l)) (input l))) as Hr.
        rewrite D in Hr. cbn in Hr. unfold eof in Hr. lia. }
    apply bind_ok in Hi. destruct Hi as ([b l3] & _ & Hi). cbv beta iota in Hi.
    destruct b.
    { apply bind_ok in Hi. destruct Hi as (l4 & He & Hi). inversion Hi; subst.
      eapply emit_aligned; exact He. }
    destruct (is_delim r).
    { apply bind_ok in Hi. destruct Hi as (s & _ & Hi).
      destruct (first_span span_order s) as [[t m]|];
        apply bind_ok in Hi; destruct Hi as (l4 & He & Hi); inversion Hi; subst;
        eapply emit_aligned; exact He. }
    apply bind_ok in Hi. destruct Hi as (l4 & He & Hi). inversion Hi; subst.
    eapply emit_aligned; exact He.
Qed.

End whole_facts.

Import whole_facts.

(** X10.  An input of ASCII bytes whose last two bytes are none of
    space, backtick and tilde, and whose last byte is neither a star
    nor a dash, is scanned to the end, and the values of the items
    sent, put end to end, are the input: every byte is in one item and
    in one only.  (On such an input lexAny always puts the cursor back
    where it was, so every state function is entered at the start of
    the pending item.) *)
Theorem items_make_up_the_whole_input (inp : gostring) (fuel : nat) :
  ascii_only inp ->
  Forall (fun c => c <> SP /\ c <> x60 /\ c <> x7e) (last_two inp) ->
  last inp x00 <> x2a -> last inp x00 <> x2d ->
  (4 * length inp + 2 <= fuel)%nat ->
  exists l,
    lex fuel inp = Ok l /\ closed (items l) = true /\
    start l = len inp /\ pos l = len inp /\
    concat (map val (sent (items l))) = inp.
Proof.
  intros Ha Hlast Hs Hd Hf.
  assert (Hrun : exists l, lex fuel inp = Ok l).
  { destruct (run_loop_stops fuel (Some lexAny) (new_lexer inp)) as [(l & Hl)|Hp].
    - split; [exact Ha | discriminate].
    - unfold steps_left, state_rank, new_lexer. cbv zeta. cbn [input pos].
      rewrite Z.sub_0_r. unfold len. rewrite Nat2Z.id.
      destruct (length inp =? 0)%nat; lia.
    - exists l. exact Hl.
    - exfalso.
      destruct (run_loop_panic_cause fuel (Some lexAny) (new_lexer inp))
        as (pre & c & t & E & Hc & Ht); [exact Ha | | exact Hp |].
      + unfold in_bounds, new_lexer. cbn [start pos input].
        pose proof (len_nonneg inp). lia.
      + cbn [new_lexer input] in E. subst inp.
        rewrite Forall_forall in Hlast.
        destruct (Hlast c (last_two_spec pre t c Ht)) as (H1 & H2 & H3).
        destruct Hc as [Hc|[Hc|Hc]]; congruence. }
  destruct Hrun as (l & Hl). exists l. split; [exact Hl|].
  unfold lex, run in Hl.
  pose proof (run_loop_trace _ _ _ _ Hl) as [_ Hcl].
  destruct (run_loop_inv
              (fun st l0 => tiled inp l0 /\ in_bounds l0 /\ start l0 = pos l0 /\
                            (st = None -> len inp <= pos l0)))
    with (fuel := fuel) (st := Some lexAny) (l := new_lexer inp) (l' := l)
    as (l0 & ([Hi Ht] & Hb & Hst & Hp) & ->).
  - intros f l1 st l1' ([Hin Htl] & Hb & Hst & _) Hc.
    assert (Ha1 : ascii_only (input l1)) by (rewrite Hin; exact Ha).
    split; [eapply tiled_step; [split; eassumption | exact Hc]|].
    split; [eapply call_bounds; eassumption|].
    split.
    + apply (start_at_cursor_step f l1 st l1' Ha1).
      * unfold in_bounds in Hb. lia.
      * rewrite Hin. exact Hs.
      * rewrite Hin. exact Hd.
      * exact Hst.
      * exact Hc.
    + intros ->. destruct (call_none f l1 l1' Hc) as (_ & He & Hp').
      rewrite Hin in He. lia.
  - pose proof (len_nonneg inp).
    split; [split; reflexivity|]. split; [unfold in_bounds; cbn; lia|].
    split; [reflexivity | discriminate].
  - exact Hl.
  - specialize (Hp eq_refl). unfold in_bounds in Hb. rewrite Hi in Hb.
    cbn [close input items closed pos start sent] in *.
    split; [reflexivity|].
    assert (Hend : start l0 = len inp) by lia.
    split; [exact Hend|]. split; [lia|].
    rewrite (tiles_concat _ _ _ _ Ht) by lia.
    rewrite Hend, Z.sub_0_r. cbn [skipn Z.to_nat]. unfold len.
    rewrite Nat2Z.id. apply firstn_all.
Qed.

(** The theorem at the input [a *b*x], with 26 steps. *)
Lemma items_make_up_the_whole_input_witness :
  ascii_only (bs "a *b*x") /\
  Forall (fun c => c <> SP /\ c <> x60 /\ c <> x7e) (last_two (bs "a *b*x")) /\
  last (bs "a *b*x") x00 <> x2a /\ last (bs "a *b*x") x00 <> x2d /\
  (4 * length (bs "a *b*x") + 2 <= 26)%nat /\
  exists l,
    lex 26 (bs "a *b*x") = Ok l /\ closed (items l) = true /\
    start l = len (bs "a *b*x") /\ pos l = len (bs "a *b*x") /\
    concat (map val (sent (items l))) = bs "a *b*x".
Proof.
  assert (Ha : ascii_only (bs "a *b*x"))
    by (repeat (apply Forall_cons; [reflexivity|]); apply Forall_nil).
  assert (Hl : Forall (fun c => c <> SP /\ c <> x60 /\ c <> x7e) (last_two (bs "a *b*x"))).
  { repeat (apply Forall_cons; [repeat split; discriminate|]). apply Forall_nil. }
  assert (Hs : last (bs "a *b*x") x00 <> x2a) by discriminate.
  assert (Hd : last (bs "a *b*x") x00 <> x2d) by discriminate.
  assert (Hf : (4 * length (bs "a *b*x") + 2 <= 26)%nat) by (cbn; lia).
  split; [exact Ha|]. split; [exact Hl|]. split; [exact Hs|]. split; [exact Hd|].
  split; [exact Hf|].
  exact (items_make_up_the_whole_input (bs "a *b*x") 26 Ha Hl Hs Hd Hf).
Defined.

(** ** A fence after a space *)

Module indent_facts.
Import regexp utf8_facts regexp_facts shape_facts lexer_facts at_facts text_facts
       block_facts path_facts gfm_facts code_facts.




End indent_facts.

Import indent_facts.



(** ** What the span rules find *)

Module span_facts.
Import regexp utf8_facts regexp_facts shape_facts lexer_facts at_facts text_facts
       block_facts path_facts gfm_facts.

Lemma exec_Times_Lit_hit (b : byte) j :
  b2z b < 0x80 ->
  forall n s c k,
    exec (Times (S j) (Lit (b2z b))) n (repeat b (S j) ++ s) c k =
      k (n + S j)%nat s c.
Proof.
  intros Hb. induction j as [|j IH]; intros n s c k.
  - cbn [Times repeat app]. apply exec_Lit_hit. exact Hb.
  - change (Times (S (S j)) (Lit (b2z b)))
      with (Cat (Lit (b2z b)) (Times (S j) (Lit (b2z b)))).
    change (repeat b (S (S j)) ++ s) with (b :: (repeat b (S j) ++ s)).
    rewrite exec_Cat, exec_Lit_hit by exact Hb. rewrite IH. f_equal. lia.
Qed.

Lemma exec_Times_Lit_miss (b : byte) j n s c k :
  b2z b < 0x80 -> hd_error s <> Some b ->
  exec (Times (S j) (Lit (b2z b))) n s c k = None.
Proof.
  intros Hb Hh. destruct j as [|j].
  - cbn [Times]. apply exec_Lit_miss; assumption.
  - change (Times (S (S j)) (Lit (b2z b)))
      with (Cat (Lit (b2z b)) (Times (S j) (Lit (b2z b)))).
    rewrite exec_Cat. apply exec_Lit_miss; assumption.
Qed.

Lemma firstn_exact (a b : gostring) n : n = length a -> firstn n (a ++ b) = a.
Proof.
  intros ->. rewrite firstn_app, Nat.sub_diag, firstn_all. cbn [firstn].
  apply app_nil_r.
Qed.

Lemma firstn_three (a b c rest : gostring) n :
  n = (length a + length b + length c)%nat ->
  firstn n (a ++ b ++ c ++ rest) = a ++ b ++ c.
Proof.
  intros ->.
  replace (a ++ b ++ c ++ rest) with ((a ++ b ++ c) ++ rest)
    by (rewrite <- !app_assoc; reflexivity).
  apply firstn_exact. rewrite !length_app. lia.
Qed.

Lemma hd_not_in (d : byte) (body s : gostring) :
  body <> [] -> ~ In d body -> hd_error (body ++ s) <> Some d.
Proof.
  destruct body as [|x t]; [congruence|]. intros _ Hn E. cbn in E.
  inversion E; subst. apply Hn. left. reflexivity.
Qed.

(** The pattern of a delimited span on a text that opens with the
    delimiters, whose body has no delimiter. *)
Lemma delimited_exec (d : byte) j g body rest :
  b2z d < 0x80 -> body <> [] -> ~ In d body ->
  exec (delimited (b2z d) j g) 0
       (repeat d (S j) ++ body ++ repeat d (S j) ++ rest) [] accept =
    Some ((S j + length body + S j)%nat, [(g, (S j, (S j + length body)%nat))]).
Proof.
  intros Hd Hne Hn. unfold delimited. cbn [Seq].
  rewrite exec_Cat, exec_BeginText_0. cbv beta.
  rewrite exec_Cat, exec_Times_Lit_hit by exact Hd. cbv beta.
  rewrite exec_Cat, exec_Group. unfold Plus, re_any.
  apply (exec_Plus_class_lazy (fun _ => True) false [PerlSpace; PerlNotSpace] any_rune).
  - exact Hne.
  - apply Forall_forall. trivial.
  - cbn [repeat app]. exact Hd.
  - intros w1 w2 Hs H1 H2. apply exec_Times_Lit_miss; [exact Hd|].
    apply hd_not_in; [exact H2|]. intros Hin. apply Hn. rewrite Hs.
    apply in_or_app. right. exact Hin.
  - rewrite exec_Times_Lit_hit by exact Hd. unfold accept. reflexivity.
Qed.

Lemma delimited_miss (d : byte) j g s :
  b2z d < 0x80 -> hd_error s <> Some d ->
  exec (delimited (b2z d) j g) 0 s [] accept = None.
Proof.
  intros Hd Hh. unfold delimited. cbn [Seq].
  rewrite exec_Cat, exec_BeginText_0. cbv beta.
  rewrite exec_Cat. apply exec_Times_Lit_miss; assumption.
Qed.

(** Two delimiters are wanted and the text has one. *)
Lemma delimited_miss_second (d : byte) g s :
  b2z d < 0x80 -> hd_error s <> Some d ->
  exec (delimited (b2z d) 1 g) 0 (d :: s) [] accept = None.
Proof.
  intros Hd Hh. unfold delimited. cbn [Seq].
  rewrite exec_Cat, exec_BeginText_0. cbv beta.
  rewrite exec_Cat.
  change (Times 2 (Lit (b2z d))) with (Cat (Lit (b2z d)) (Lit (b2z d))).
  rewrite exec_Cat, exec_Lit_hit by exact Hd.
  apply exec_Lit_miss; assumption.
Qed.

Lemma FindString_none (r : regex) (s : gostring) :
  anchored r = true -> match_here r s = None -> FindString r s = [].
Proof. intros Ha H. rewrite FindString_anchored, H by exact Ha. reflexivity. Qed.

Lemma emphasise_unfold n :
  reEmphasise (S n) = Alt (delimited c_under n 1) (delimited c_star n 2).
Proof. reflexivity. Qed.

(** What reEmphasise finds on a text that opens with its delimiters. *)
Lemma find_emphasis (d : byte) j body rest :
  d = x5f \/ d = x2a -> body <> [] -> ~ In d body ->
  FindString (reEmphasise (S j)) (repeat d (S j) ++ body ++ repeat d (S j) ++ rest) =
    repeat d (S j) ++ body ++ repeat d (S j).
Proof.
  intros Hd Hne Hn.
  assert (Ha : anchored (reEmphasise (S j)) = true) by reflexivity.
  rewrite FindString_anchored by exact Ha. unfold match_here.
  rewrite emphasise_unfold, exec_Alt.
  assert (Hlen : (S j + length body + S j)%nat =
                 (length (repeat d (S j)) + length body + length (repeat d (S j)))%nat)
    by (rewrite !repeat_length; lia).
  destruct Hd as [-> | ->].
  - change c_under with (b2z x5f).
    rewrite delimited_exec by (try assumption; vm_compute; reflexivity).
    cbn [orelse].
    apply firstn_three. exact Hlen.
  - change c_under with (b2z x5f).
    rewrite (delimited_miss x5f) by (try (vm_compute; reflexivity); discriminate).
    cbn [orelse]. change c_star with (b2z x2a).
    rewrite delimited_exec by (try assumption; vm_compute; reflexivity).
    apply firstn_three. exact Hlen.
Qed.

(** reEmphasise finds nothing on a text that opens with another byte,
    and the rule for two delimiters nothing on a text that opens with
    one. *)
Lemma emphasis_miss j s :
  hd_error s <> Some x5f -> hd_error s <> Some x2a ->
  FindString (reEmphasise (S j)) s = [].
Proof.
  intros H1 H2. apply FindString_none; [reflexivity|]. unfold match_here.
  rewrite emphasise_unfold, exec_Alt.
  change c_under with (b2z x5f). change c_star with (b2z x2a).
  rewrite !delimited_miss by (try (vm_compute; reflexivity); assumption).
  reflexivity.
Qed.

Lemma strong_miss_single (d : byte) s :
  hd_error s <> Some d -> FindString (reEmphasise 2) (d :: s) = [].
Proof.
  intros Hh. apply FindString_none; [reflexivity|]. unfold match_here.
  rewrite emphasise_unfold, exec_Alt.
  change c_under with (b2z x5f). change c_star with (b2z x2a).
  destruct (Byte.byte_eq_dec d x5f) as [-> |N1].
  - rewrite delimited_miss_second by (try (vm_compute; reflexivity); assumption).
    rewrite delimited_miss by (try (vm_compute; reflexivity); discriminate).
    reflexivity.
  - rewrite (delimited_miss x5f)
      by (try (vm_compute; reflexivity); cbn; congruence).
    cbn [orelse]. destruct (Byte.byte_eq_dec d x2a) as [-> |N2].
    + apply delimited_miss_second; [vm_compute; reflexivity | assumption].
    + apply delimited_miss; [vm_compute; reflexivity | cbn; congruence].
Qed.

Lemma find_strike body rest :
  body <> [] -> ~ In x7e body ->
  FindString (span itemStrike) ([x7e; x7e] ++ body ++ [x7e; x7e] ++ rest) =
    [x7e; x7e] ++ body ++ [x7e; x7e].
Proof.
  intros Hne Hn.
  rewrite FindString_anchored by reflexivity. unfold match_here.
  change (span itemStrike) with (delimited (b2z x7e) 1 1).
  change [x7e; x7e] with (repeat x7e 2).
  rewrite delimited_exec by (try assumption; vm_compute; reflexivity).
  apply firstn_three. rewrite !repeat_length. lia.
Qed.

Lemma strike_miss s :
  hd_error s <> Some x7e -> FindString (span itemStrike) s = [].
Proof.
  intros Hh. apply FindString_none; [reflexivity|]. unfold match_here.
  change (span itemStrike) with (delimited (b2z x7e) 1 1).
  apply delimited_miss; [vm_compute; reflexivity | assumption].
Qed.

Lemma exec_Empty n s c k : exec Empty n s c k = k n s c.
Proof. reflexivity. Qed.

Lemma ws_star_skip (y : byte) s n c k :
  b2z y < 0x80 -> is_space (b2z y) = false ->
  exec (Star true re_ws) n (y :: s) c k = k n (y :: s) c.
Proof.
  intros Hy Hs. unfold re_ws.
  rewrite exec_Star_unfold, star_loop_unfold, exec_Class_unfold.
  unfold step. rewrite decode_ascii by exact Hy.
  unfold class_match. cbn [existsb citem_match xorb]. rewrite Hs.
  reflexivity.
Qed.

Lemma nontick_take (x : byte) s n c k :
  b2z x < 0x80 -> x <> x60 ->
  exec (Class true [Ch c_tick]) n (x :: s) c k = k (n + 1)%nat s c.
Proof.
  intros Hx Hn. rewrite exec_Class_unfold. unfold step.
  rewrite decode_ascii by exact Hx.
  unfold class_match. cbn [existsb citem_match xorb].
  replace (b2z x =? c_tick) with false; [reflexivity|].
  symmetry. apply Z.eqb_neq. intros E. apply Hn. apply b2z_inj. exact E.
Qed.

(** The end of the rule for inline code, after the body:
    [\s*`{1,2}]. *)
Lemma code_close_miss (y : byte) s n c :
  b2z y < 0x80 -> is_space (b2z y) = false -> y <> x60 ->
  exec (Cat (Star true re_ws) (Between 1 2 (Lit c_tick))) n (y :: s) c accept = None.
Proof.
  intros Hy Hs Hn. rewrite exec_Cat, ws_star_skip by assumption.
  change (Between 1 2 (Lit c_tick))
    with (Cat (Lit (b2z x60)) (Alt (Lit (b2z x60)) Empty)).
  rewrite exec_Cat. apply exec_Lit_miss; [vm_compute; reflexivity|].
  cbn. congruence.
Qed.

Lemma code_close_hit s n c :
  hd_error s <> Some x60 ->
  exec (Cat (Star true re_ws) (Between 1 2 (Lit c_tick))) n (x60 :: s) c accept =
    Some ((n + 1)%nat, c).
Proof.
  intros Hh.
  rewrite exec_Cat, ws_star_skip by (vm_compute; reflexivity).
  change (Between 1 2 (Lit c_tick))
    with (Cat (Lit (b2z x60)) (Alt (Lit (b2z x60)) Empty)).
  rewrite exec_Cat, exec_Lit_hit by (vm_compute; reflexivity).
  rewrite exec_Alt, exec_Lit_miss by (try (vm_compute; reflexivity); exact Hh).
  reflexivity.
Qed.

(** What the rule for inline code finds on a word between two
    backticks. *)
Lemma find_code text rest :
  text <> [] -> Forall word_byte text -> hd_error rest <> Some x60 ->
  FindString (span itemCode) ([x60] ++ text ++ [x60] ++ rest) = [x60] ++ text ++ [x60].
Proof.
  intros Hne Hw Hr.
  destruct (exists_last Hne) as (body & y & ->).
  apply Forall_app in Hw. destruct Hw as [Hb Hy].
  inversion Hy as [|? ? (Hy1 & Hy2 & Hy3) _]; subst.
  assert (Hhd : exists x t, (body ++ [y]) ++ x60 :: rest = x :: t /\ word_byte x).
  { destruct body as [|x t]; cbn [app].
    - eexists _, _. split; [reflexivity|]. repeat split; assumption.
    - inversion Hb; subst. eexists _, _. split; [reflexivity | assumption]. }
  destruct Hhd as (x & t & Ex & Hx1 & Hx2 & Hx3).
  rewrite FindString_anchored by reflexivity. unfold match_here.
  change (span itemCode)
    with (Cat BeginText
           (Cat (Cat (Lit (b2z x60)) (Alt (Lit (b2z x60)) Empty))
              (Cat (Star true re_ws)
                 (Cat (Group 1 (Cat (Star false re_any) (Class true [Ch c_tick])))
                    (Cat (Star true re_ws) (Between 1 2 (Lit c_tick))))))).
  rewrite exec_Cat, exec_BeginText_0. cbv beta.
  rewrite exec_Cat, exec_Cat. cbn [app].
  rewrite exec_Lit_hit by (vm_compute; reflexivity). cbv beta.
  rewrite exec_Alt, Ex.
  rewrite exec_Lit_miss by (try (vm_compute; reflexivity); cbn; congruence).
  cbn [orelse Nat.add]. rewrite exec_Empty.
  rewrite exec_Cat, ws_star_skip by assumption.
  rewrite <- Ex. rewrite exec_Cat, exec_Group, exec_Cat.
  unfold re_any at 1. rewrite exec_Star_unfold.
  rewrite <- (app_assoc body). cbn [app].
  rewrite (star_class_lazy (fun _ => True) false [PerlSpace; PerlNotSpace] any_rune
             _ body 1%nat (y :: x60 :: rest) [] _
             ((1 + length body + 1 + 1)%nat, [(1%nat, (1%nat, (1 + length body + 1)%nat))])).
  - replace (x60 :: body ++ y :: x60 :: rest) with ((x60 :: body ++ [y; x60]) ++ rest)
      by (cbn [app]; rewrite <- app_assoc; reflexivity).
    replace (x60 :: body ++ [y] ++ [x60]) with (x60 :: body ++ [y; x60])
      by reflexivity.
    rewrite <- (app_assoc body [y]). cbn [app].
    change (x60 :: (body ++ [y; x60]) ++ rest)
      with ((x60 :: body ++ [y; x60]) ++ rest).
    apply firstn_exact. cbn [length]. rewrite !length_app. cbn [length]. lia.
  - rewrite !length_app. cbn [length]. lia.
  - apply Forall_forall. trivial.
  - exact Hy1.
  - intros w1 w2 Hs H2. destruct w2 as [|z w2]; [congruence|]. cbn [app].
    assert (Hz : word_byte z).
    { rewrite Forall_forall in Hb. apply Hb. rewrite Hs. apply in_or_app.
      right. left. reflexivity. }
    destruct Hz as (Hz1 & Hz2 & Hz3).
    rewrite nontick_take by assumption.
    destruct w2 as [|z2 w2]; cbn [app].
    + apply code_close_miss; assumption.
    + assert (Hz' : word_byte z2).
      { rewrite Forall_forall in Hb. apply Hb. rewrite Hs. apply in_or_app.
        right. right. left. reflexivity. }
      destruct Hz' as (Hq1 & Hq2 & Hq3). apply code_close_miss; assumption.
  - rewrite nontick_take by assumption.
    rewrite code_close_hit by exact Hr. reflexivity.
Qed.

Lemma code_miss s :
  hd_error s <> Some x60 -> FindString (span itemCode) s = [].
Proof.
  intros Hh. apply FindString_none; [reflexivity|]. unfold match_here.
  change (span itemCode)
    with (Cat BeginText
           (Cat (Cat (Lit (b2z x60)) (Alt (Lit (b2z x60)) Empty))
              (Cat (Star true re_ws)
                 (Cat (Group 1 (Cat (Star false re_any) (Class true [Ch c_tick])))
                    (Cat (Star true re_ws) (Between 1 2 (Lit c_tick))))))).
  rewrite exec_Cat, exec_BeginText_0. cbv beta.
  rewrite exec_Cat, exec_Cat.
  apply exec_Lit_miss; [vm_compute; reflexivity | exact Hh].
Qed.

Lemma first_span_strong (d : byte) body rest :
  d = x5f \/ d = x2a -> body <> [] -> ~ In d body ->
  first_span span_order ([d; d] ++ body ++ [d; d] ++ rest) =
    Some (itemStrong, [d; d] ++ body ++ [d; d]).
Proof.
  intros Hd Hne Hn.
  assert (H1 : FindString (span itemStrong) ([d; d] ++ body ++ [d; d] ++ rest) =
               [d; d] ++ body ++ [d; d])
    by (apply (find_emphasis d 1 body rest); assumption).
  unfold span_order. cbn [first_span]. rewrite H1. reflexivity.
Qed.

Lemma first_span_italic (d : byte) body rest :
  d = x5f \/ d = x2a -> body <> [] -> ~ In d body ->
  first_span span_order ([d] ++ body ++ [d] ++ rest) =
    Some (itemItalic, [d] ++ body ++ [d]).
Proof.
  intros Hd Hne Hn.
  assert (H1 : FindString (span itemStrong) ([d] ++ body ++ [d] ++ rest) = [])
    by (apply strong_miss_single, hd_not_in; assumption).
  assert (H2 : FindString (span itemItalic) ([d] ++ body ++ [d] ++ rest) =
               [d] ++ body ++ [d])
    by (apply (find_emphasis d 0 body rest); assumption).
  unfold span_order. cbn [first_span]. rewrite H1, H2. reflexivity.
Qed.

Lemma first_span_strike body rest :
  body <> [] -> ~ In x7e body ->
  first_span span_order ([x7e; x7e] ++ body ++ [x7e; x7e] ++ rest) =
    Some (itemStrike, [x7e; x7e] ++ body ++ [x7e; x7e]).
Proof.
  intros Hne Hn.
  assert (H1 : FindString (span itemStrong) ([x7e; x7e] ++ body ++ [x7e; x7e] ++ rest) = [])
    by (apply (emphasis_miss 1); discriminate).
  assert (H2 : FindString (span itemItalic) ([x7e; x7e] ++ body ++ [x7e; x7e] ++ rest) = [])
    by (apply (emphasis_miss 0); discriminate).
  unfold span_order. cbn [first_span].
  rewrite H1, H2, find_strike by assumption. reflexivity.
Qed.

Lemma first_span_code text rest :
  text <> [] -> Forall word_byte text -> hd_error rest <> Some x60 ->
  first_span span_order ([x60] ++ text ++ [x60] ++ rest) =
    Some (itemCode, [x60] ++ text ++ [x60]).
Proof.
  intros Hne Hw Hr.
  assert (H1 : FindString (span itemStrong) ([x60] ++ text ++ [x60] ++ rest) = [])
    by (apply (emphasis_miss 1); discriminate).
  assert (H2 : FindString (span itemItalic) ([x60] ++ text ++ [x60] ++ rest) = [])
    by (apply (emphasis_miss 0); discriminate).
  assert (H3 : FindString (span itemStrike) ([x60] ++ text ++ [x60] ++ rest) = [])
    by (apply strike_miss; discriminate).
  unfold span_order. cbn [first_span].
  rewrite H1, H2, H3, find_code by assumption. reflexivity.
Qed.

(** A round of lexText at a delimiter. *)
Lemma delim_round l pre (d : byte) rest :
  at_cursor l pre (d :: rest) -> start l = len pre ->
  is_delim (b2z d) = true ->
  match first_span span_order (d :: rest) with
  | Some (t, m) => sends_in_run l t m
  | None => sends_in_run l itemText [d]
  end.
Proof.
  intros Hat Hst Hd.
  assert (Hasc : b2z d < 0x80).
  { destruct (is_delim_byte d Hd) as [->|[->|[->| ->]]]; vm_compute; reflexivity. }
  assert (D : utf8.DecodeRuneInString (d :: rest) = (b2z d, 1))
    by (apply decode_ascii; exact Hasc).
  assert (Hb : starts_boundary (d :: rest) = false).
  { destruct rest as [|b rest']; [reflexivity|]. cbn [starts_boundary].
    destruct (is_delim_byte d Hd) as [->|[->|[->| ->]]]; reflexivity. }
  destruct (lexText_at_char l pre (d :: rest) _ _ Hat Hst ltac:(discriminate) Hb D)
    as (t & m & rest' & w' & Hs & Hcall & Hcase).
  rewrite Hd in Hcase.
  destruct (first_span span_order (d :: rest)) as [[t0 m0]|].
  - inversion Hcase; subst. exists w'. exact Hcall.
  - destruct Hcase as [-> ->]. exists w'. exact Hcall.
Qed.

End span_facts.

(** ** One text item per plain rune *)

Module plain_facts.
Import regexp utf8_facts regexp_facts shape_facts lexer_facts at_facts text_facts
       block_facts.

(** What the runes of a plain byte are not. *)
Lemma plain_rune (c : byte) (t : gostring) (r w : Z) :
  plain_byte c = true -> utf8.DecodeRuneInString (c :: t) = (r, w) ->
  (r =? eof) = false /\ (r =? c_nl) = false /\ (r =? c_sp) = false /\
  (r =? c_hash) = false /\ (r =? c_star) = false /\ (r =? c_dash) = false /\
  (r =? c_tick) = false /\ (r =? c_tilde) = false /\ is_delim r = false.
Proof.
  intros Hp D. unfold plain_byte in Hp. cbn [existsb] in Hp.
  apply negb_true_iff in Hp. rewrite !orb_false_iff in Hp.
  destruct Hp as (H1 & H2 & H3 & H4 & H5 & H6 & H7 & H8 & _).
  pose proof (rune_nonneg (c :: t)) as Hr. rewrite D in Hr. cbn [fst] in Hr.
  pose proof (fun ca Hca => rune_eqb_byte c ca t r w D Hca) as E.
  pose proof (E x0a ltac:(vm_compute; reflexivity)) as E1.
  pose proof (E x20 ltac:(vm_compute; reflexivity)) as E2.
  pose proof (E x23 ltac:(vm_compute; reflexivity)) as E3.
  pose proof (E x2a ltac:(vm_compute; reflexivity)) as E4.
  pose proof (E x2d ltac:(vm_compute; reflexivity)) as E5.
  pose proof (E x5f ltac:(vm_compute; reflexivity)) as E6.
  pose proof (E x60 ltac:(vm_compute; reflexivity)) as E7.
  pose proof (E x7e ltac:(vm_compute; reflexivity)) as E8.
  rewrite H1 in E1. rewrite H2 in E2. rewrite H3 in E3. rewrite H4 in E4.
  rewrite H5 in E5. rewrite H6 in E6. rewrite H7 in E7. rewrite H8 in E8.
  change (b2z "010") with c_nl in E1. change (b2z " ") with c_sp in E2.
  change (b2z "#") with c_hash in E3. change (b2z "*") with c_star in E4.
  change (b2z "-") with c_dash in E5. change (b2z "_") with c_under in E6.
  change (b2z "`") with c_tick in E7. change (b2z "~") with c_tilde in E8.
  unfold is_delim. rewrite E1, E2, E3, E4, E5, E6, E7, E8.
  repeat split. unfold eof. lia.
Qed.

Lemma plain_no_boundary (s : gostring) :
  forallb plain_byte s = true -> starts_boundary s = false.
Proof.
  destruct s as [|a [|b t]]; try reflexivity. cbn [forallb starts_boundary].
  intros H. apply andb_prop in H. destruct H as [Ha _].
  unfold plain_byte in Ha. cbn [existsb] in Ha. apply negb_true_iff in Ha.
  rewrite !orb_false_iff in Ha. destruct Ha as (H1 & H2 & _).
  change (Byte.eqb a NL) with (Byte.eqb a x0a). change (Byte.eqb a SP) with (Byte.eqb a x20).
  rewrite H1, H2. reflexivity.
Qed.

Lemma forallb_skipn {A} (f : A -> bool) n (s : list A) :
  forallb f s = true -> forallb f (skipn n s) = true.
Proof.
  intros H. rewrite <- (firstn_skipn n s), forallb_app in H.
  apply andb_prop in H. tauto.
Qed.

(** A text run over plain bytes: one text item per rune, then the end
    of the input, where lexAny stops the scanner. *)
Lemma plain_text_run (fuel : nat) :
  forall l pre s,
    (length s <= fuel)%nat ->
    at_cursor l pre s -> start l = len pre ->
    forallb plain_byte s = true ->
    exists l',
      run_loop (length (runes_fuel fuel s) + 2) (Some lexText) l = Ok l' /\
      sent (items l') = sent (items l) ++ text_items (len pre) (runes_fuel fuel s) /\
      closed (items l') = true.
Proof.
  induction fuel as [|fuel IH]; intros l pre s Hlen Hat Hst Hpl.
  - destruct s; [|cbn in Hlen; lia]. cbn [runes_fuel length Nat.add run_loop].
    rewrite (lexText_at_eof l pre Hat). cbn [bind call]. unfold lexAny_fn.
    rewrite next_eof.
    + cbn [bind]. change (eof =? eof) with true. cbn [run_loop close items sent closed].
      eexists. split; [reflexivity|]. cbn. rewrite app_nil_r. auto.
    + destruct Hat as [Hi Hp]. cbn. rewrite Hi, Hp, app_nil_r. lia.
  - destruct s as [|c t].
    + cbn [runes_fuel length Nat.add run_loop].
      rewrite (lexText_at_eof l pre Hat). cbn [bind call]. unfold lexAny_fn.
      rewrite next_eof.
      * cbn [bind]. change (eof =? eof) with true. cbn [run_loop close items sent closed].
        eexists. split; [reflexivity|]. cbn. rewrite app_nil_r. auto.
      * destruct Hat as [Hi Hp]. cbn. rewrite Hi, Hp, app_nil_r. lia.
    + cbn [runes_fuel]. cbn [length Nat.add].
      destruct (utf8.DecodeRuneInString (c :: t)) as [r w] eqn:D. cbn [snd].
      assert (Hc : plain_byte c = true) by (cbn in Hpl; apply andb_prop in Hpl; tauto).
      destruct (plain_rune c t r w Hc D) as (_ & _ & _ & _ & _ & _ & _ & _ & Hd).
      destruct (lexText_at_char l pre (c :: t) r w Hat Hst ltac:(discriminate)
                  (plain_no_boundary _ Hpl) D)
        as (t' & m & rest & w' & Hs & Hcall & Hcase).
      rewrite Hd in Hcase. destruct Hcase as [-> ->].
      assert (Hne : c :: t <> []) by discriminate.
      pose proof (decode_width _ Hne) as Hw. rewrite D in Hw. cbn [snd] in Hw.
      assert (Hrest : rest = skipn (Z.to_nat w) (c :: t)).
      { rewrite <- (firstn_skipn (Z.to_nat w) (c :: t)) in Hs at 1.
        apply app_inv_head in Hs. congruence. }
      subst rest.
      cbn [run_loop]. rewrite Hcall. cbn [bind].
      match goal with
      | |- context [run_loop _ (Some lexText) ?l1] => set (l1' := l1)
      end.
      destruct (IH l1' (pre ++ firstn (Z.to_nat w) (c :: t)) (skipn (Z.to_nat w) (c :: t)))
        as (l' & Hrun & Hsent & Hcl).
      * rewrite length_skipn. cbn [length] in *. lia.
      * destruct l as [inp p st w0 it]. destruct Hat as [Hi Hp]. cbn in *. split; cbn.
        -- rewrite Hi, <- app_assoc, firstn_skipn. reflexivity.
        -- rewrite len_app. lia.
      * cbn [start l1']. destruct Hat as [_ Hp]. rewrite len_app. lia.
      * apply forallb_skipn. exact Hpl.
      * exists l'. split; [exact Hrun|]. split; [|exact Hcl].
        rewrite Hsent. cbn [items sent text_items l1']. rewrite <- app_assoc. cbn [app].
        rewrite Hst, len_app. reflexivity.
Qed.

Lemma lexAny_plain l pre c t :
  at_cursor l pre (c :: t) -> plain_byte c = true ->
  exists w, call lexAny l =
    Ok (Some lexText, mkLexer (input l) (pos l) (start l) w (items l)).
Proof.
  intros Hat Hc. destruct (utf8.DecodeRuneInString (c :: t)) as [r w] eqn:D.
  destruct (plain_rune c t r w Hc D) as (E0 & E1 & E2 & E3 & E4 & E5 & E6 & E7 & _).
  exists w. cbn [call]. unfold lexAny_fn.
  rewrite (next_at _ _ _ _ _ Hat ltac:(discriminate) D). cbn [bind].
  rewrite E0, E4, E5, E3, E2, E6, E7. cbn [orb].
  unfold backup, set_pos. cbn [input pos start width items].
  rewrite Z.add_simpl_r. reflexivity.
Qed.

Lemma runes_concat (fuel : nat) :
  forall s, (length s <= fuel)%nat -> concat (runes_fuel fuel s) = s.
Proof.
  induction fuel as [|fuel IH]; intros s Hl.
  - destruct s; [reflexivity | cbn in Hl; lia].
  - destruct s as [|c t]; [reflexivity|]. cbn [runes_fuel concat].
    assert (Hne : c :: t <> []) by discriminate.
    pose proof (decode_width _ Hne) as Hw.
    rewrite IH; [apply firstn_skipn|].
    rewrite length_skipn. cbn [length] in *. lia.
Qed.

Lemma text_items_length p pieces : length (text_items p pieces) = length pieces.
Proof.
  revert p. induction pieces as [|r pieces IH]; intros p; cbn; [reflexivity|].
  rewrite IH. reflexivity.
Qed.

End plain_facts.

Import span_facts plain_facts.

(** X12.  In a text run whose cursor stands, at the start of the
    pending item, at a delimiter byte (underscore, star, tilde or
    backtick), a round of lexText sends exactly one item and stays in
    the text run, with the cursor just after the value of that item.
    The item is the span of the first rule, in the order strong,
    italic, strike, inline code, whose pattern matches at the cursor,
    with what the pattern matched as its value; or, when no rule
    matches, a text item holding the delimiter byte alone.  So two
    underscores or two stars, a text without that byte and the same
    two bytes again are sent as one strong item; one underscore or
    star, such a text and the same byte again as one italic item; two
    tildes, a text without tilde and two tildes as one strike item; a
    backtick, a word of ASCII bytes without space or backtick and a
    backtick that no backtick follows as one inline-code item. *)
Theorem spans_in_a_text_run (l : lexer) (pre s : gostring) :
  at_cursor l pre s -> start l = len pre ->
  (forall d rest,
     s = d :: rest -> is_delim (b2z d) = true ->
     exists t m rest', s = m ++ rest' /\ sends_in_run l t m /\
       ((exists ts1 ts2,
           span_order = ts1 ++ t :: ts2 /\
           Forall (fun t' => FindString (span t') s = []) ts1 /\
           FindString (span t) s = m /\ m <> [] /\ span_shape t m)
        \/
        (Forall (fun t' => FindString (span t') s = []) span_order /\
         t = itemText /\ m = [d]))) /\
  (forall d body rest,
     s = [d; d] ++ body ++ [d; d] ++ rest ->
     d = x5f \/ d = x2a -> body <> [] -> ~ In d body ->
     sends_in_run l itemStrong ([d; d] ++ body ++ [d; d])) /\
  (forall d body rest,
     s = [d] ++ body ++ [d] ++ rest ->
     d = x5f \/ d = x2a -> body <> [] -> ~ In d body ->
     sends_in_run l itemItalic ([d] ++ body ++ [d])) /\
  (forall body rest,
     s = [x7e; x7e] ++ body ++ [x7e; x7e] ++ rest ->
     body <> [] -> ~ In x7e body ->
     sends_in_run l itemStrike ([x7e; x7e] ++ body ++ [x7e; x7e])) /\
  (forall text rest,
     s = [x60] ++ text ++ [x60] ++ rest ->
     text <> [] -> Forall word_byte text -> hd_error rest <> Some x60 ->
     sends_in_run l itemCode ([x60] ++ text ++ [x60])).
Proof.
  intros Hat Hst.
  assert (Round : forall d rest t m,
            s = d :: rest -> is_delim (b2z d) = true ->
            first_span span_order s = Some (t, m) -> sends_in_run l t m).
  { intros d rest t m Hs Hd Hf. subst s.
    pose proof (delim_round l pre d rest Hat Hst Hd) as H.
    rewrite Hf in H. exact H. }
  split; [|split; [|split; [|split]]].
  - intros d rest Hs Hd. subst s.
    pose proof (delim_round l pre d rest Hat Hst Hd) as H.
    destruct (first_span span_order (d :: rest)) as [[t m]|] eqn:Hf.
    + destruct (first_span_split _ _ _ _ Hf) as (ts1 & ts2 & Ho & Hall & Hm & Hne).
      destruct (first_span_prefix _ _ _ Hf) as (rest' & Hs & _ & Hin & Hmt).
      exists t, m, rest'. split; [exact Hs|]. split; [exact H|]. left.
      exists ts1, ts2. repeat split; try assumption.
      eapply span_shape_of_match; eassumption.
    + exists itemText, [d], rest. split; [reflexivity|]. split; [exact H|]. right.
      split; [|auto]. apply first_span_none. exact Hf.
  - intros d body rest Hs Hd Hne Hn.
    apply (Round d (d :: body ++ [d; d] ++ rest)); [exact Hs| |].
    + destruct Hd as [-> | ->]; reflexivity.
    + rewrite Hs. apply first_span_strong; assumption.
  - intros d body rest Hs Hd Hne Hn.
    apply (Round d (body ++ [d] ++ rest)); [exact Hs| |].
    + destruct Hd as [-> | ->]; reflexivity.
    + rewrite Hs. apply first_span_italic; assumption.
  - intros body rest Hs Hne Hn.
    apply (Round x7e (x7e :: body ++ [x7e; x7e] ++ rest)); [exact Hs|reflexivity|].
    rewrite Hs. apply first_span_strike; assumption.
  - intros text rest Hs Hne Hw Hr.
    apply (Round x60 (text ++ [x60] ++ rest)); [exact Hs|reflexivity|].
    rewrite Hs. apply first_span_code; assumption.
Qed.

(** The theorem at the start of the input [**a** b]: the round sends
    the strong item [**a**]. *)
Lemma spans_in_a_text_run_witness :
  let inp := bs "**a** b" in
  let l := new_lexer inp in
  at_cursor l [] inp /\ start l = len [] /\
  sends_in_run l itemStrong (bs "**a**").
Proof.
  intros inp l.
  assert (Hat : at_cursor l [] inp) by (split; reflexivity).
  assert (Hst : start l = len []) by reflexivity.
  split; [exact Hat|]. split; [exact Hst|].
  apply (proj1 (proj2 (spans_in_a_text_run l [] inp Hat Hst)) x2a (bs "a") (bs " b")).
  - reflexivity.
  - right. reflexivity.
  - discriminate.
  - intros [H|[]]. discriminate.
Defined.

(** X13.  In a text run whose cursor stands at the start of the
    pending item, a round of lexText never panics; it ends the run
    (next state lexAny) exactly when nothing is left or when the text
    ahead begins with two newlines or two spaces, and goes on (next
    state lexText) otherwise.  Where nothing is left no item is sent;
    at two newlines or two spaces one boundary item (itemNewLine) is
    sent whose value is these two bytes, and the cursor moves past
    both. *)
Theorem text_round_ends_at_boundary (l : lexer) (pre s : gostring) :
  at_cursor l pre s -> start l = len pre ->
  (exists st l',
     call lexText l = Ok (st, l') /\
     (st = Some lexAny \/ st = Some lexText) /\
     (st = Some lexAny <-> s = [] \/ starts_boundary s = true)) /\
  (s = [] ->
     exists l', call lexText l = Ok (Some lexAny, l') /\
                sent (items l') = sent (items l)) /\
  (starts_boundary s = true ->
     exists c rest l',
       s = c :: c :: rest /\ (c = NL \/ c = SP) /\
       call lexText l = Ok (Some lexAny, l') /\
       sent (items l') = sent (items l) ++ [mkItem itemNewLine (start l) [c; c]] /\
       pos l' = pos l + 2 /\ start l' = pos l').
Proof.
  intros Hat Hst. split; [|split].
  - destruct s as [|c t] eqn:Es.
    + eexists _, _. split; [apply (lexText_at_eof l pre Hat)|].
      split; [auto|]. split; auto.
    + rewrite <- Es in *. destruct (starts_boundary s) eqn:Hb.
      * destruct (lexText_at_boundary l pre s Hat Hst Hb) as (c' & rest & w' & _ & _ & Hc).
        eexists _, _. split; [exact Hc|]. split; [auto|]. split; auto.
      * destruct (utf8.DecodeRuneInString s) as [r w] eqn:D.
        assert (Hne : s <> []) by (rewrite Es; discriminate).
        destruct (lexText_at_char l pre s r w Hat Hst Hne Hb D)
          as (t' & m & rest & w' & _ & Hc & _).
        eexists _, _. split; [exact Hc|]. split; [auto|]. split.
        -- discriminate.
        -- intros [H|H]; congruence.
  - intros ->. eexists. split; [apply (lexText_at_eof l pre Hat) | reflexivity].
  - intros Hb.
    destruct (lexText_at_boundary l pre s Hat Hst Hb) as (c & rest & w' & Hs & Hc & Hcall).
    exists c, rest. eexists. split; [exact Hs|]. split; [exact Hc|].
    split; [exact Hcall|]. cbn. auto.
Qed.

(** The theorem at the second byte of the input made of [a], two
    newlines and [b]. *)
Lemma text_round_ends_at_boundary_witness :
  let inp := bs "a" ++ [NL; NL] ++ bs "b" in
  let l := mkLexer inp 1 1 1 (mkChan [mkItem itemText 0 (bs "a")] false) in
  at_cursor l (bs "a") ([NL; NL] ++ bs "b") /\ start l = len (bs "a") /\
  exists c rest l',
    [NL; NL] ++ bs "b" = c :: c :: rest /\ (c = NL \/ c = SP) /\
    call lexText l = Ok (Some lexAny, l') /\
    sent (items l') = sent (items l) ++ [mkItem itemNewLine (start l) [c; c]] /\
    pos l' = pos l + 2 /\ start l' = pos l'.
Proof.
  intros inp l.
  assert (Hat : at_cursor l (bs "a") ([NL; NL] ++ bs "b")) by (split; reflexivity).
  assert (Hst : start l = len (bs "a")) by reflexivity.
  split; [exact Hat|]. split; [exact Hst|].
  exact (proj2 (proj2 (text_round_ends_at_boundary l (bs "a") ([NL; NL] ++ bs "b") Hat Hst))
           eq_refl).
Defined.

(** X14.  In a text run whose cursor stands at the start of the
    pending item, a character that does not begin a boundary and is not
    a delimiter, or is a delimiter at which no span rule matches, is
    sent as one text item whose value is the bytes of that one rune,
    and the run goes on after it.  So an input made of plain bytes only
    (no newline, space, [#], [*], [-], [_], backtick or [~]) is scanned
    to the end and yields exactly one text item per rune, in order, end
    to end from offset 0. *)
Theorem one_text_item_per_plain_rune :
  (forall l pre s r w,
     at_cursor l pre s -> start l = len pre ->
     s <> [] -> starts_boundary s = false ->
     utf8.DecodeRuneInString s = (r, w) ->
     is_delim r = false \/ first_span span_order s = None ->
     sends_in_run l itemText (firstn (Z.to_nat w) s) /\
     len (firstn (Z.to_nat w) s) = w) /\
  (forall inp,
     forallb plain_byte inp = true ->
     exists l,
       lex (length (runes inp) + 3) inp = Ok l /\
       sent (items l) = text_items 0 (runes inp) /\
       closed (items l) = true /\
       length (sent (items l)) = length (runes inp) /\
       concat (runes inp) = inp).
Proof.
  split.
  - intros l pre s r w Hat Hst Hs Hb D Hcase.
    destruct (lexText_at_char l pre s r w Hat Hst Hs Hb D)
      as (t & m & rest & w' & Hsm & Hcall & Hc).
    pose proof (decode_width _ Hs) as Hw. rewrite D in Hw. cbn [snd] in Hw.
    assert (Htm : t = itemText /\ m = firstn (Z.to_nat w) s).
    { destruct (is_delim r) eqn:Hd.
      - destruct Hcase as [Hcase|Hcase]; [discriminate|]. rewrite Hcase in Hc.
        destruct (delim_rune s r w Hs D Hd) as (d & rest' & _ & _ & -> & _).
        exact Hc.
      - exact Hc. }
    destruct Htm as [-> ->].
    split; [exists w'; exact Hcall|].
    unfold len in *. rewrite length_firstn. lia.
  - intros inp Hpl. unfold lex, run, runes.
    assert (Hat : at_cursor (new_lexer inp) [] inp) by (split; reflexivity).
    destruct inp as [|c t] eqn:Ei.
    + eexists. split; [reflexivity|]. cbn. auto.
    + rewrite <- Ei in *.
      assert (Hc : plain_byte c = true).
      { rewrite Ei in Hpl. cbn in Hpl. apply andb_prop in Hpl. tauto. }
      rewrite Ei in Hat at 2.
      destruct (lexAny_plain _ _ _ _ Hat Hc) as (w & Hcall).
      replace (length (runes_fuel (length inp) inp) + 3)%nat
        with (S (length (runes_fuel (length inp) inp) + 2)) by lia.
      cbn [run_loop]. rewrite Hcall. cbn [bind new_lexer input pos start items].
      rewrite <- Ei in Hat.
      destruct (plain_text_run (length inp) (mkLexer inp 0 0 w (mkChan [] false)) [] inp
                  (Nat.le_refl _) (conj eq_refl eq_refl) eq_refl Hpl)
        as (l' & Hrun & Hsent & Hcl).
      exists l'. split; [exact Hrun|]. cbn in Hsent. split; [exact Hsent|].
      split; [exact Hcl|]. split.
      * rewrite Hsent. apply text_items_length.
      * apply runes_concat. lia.
Qed.

(** The second part of the theorem on a word of three letters and a
    rune of two bytes. *)
Lemma one_text_item_per_plain_rune_witness :
  forallb plain_byte (bs "foo" ++ e_acute) = true /\
  exists l,
    lex (length (runes (bs "foo" ++ e_acute)) + 3) (bs "foo" ++ e_acute) = Ok l /\
    sent (items l) = text_items 0 (runes (bs "foo" ++ e_acute)) /\
    closed (items l) = true /\
    length (sent (items l)) = length (runes (bs "foo" ++ e_acute)) /\
    concat (runes (bs "foo" ++ e_acute)) = bs "foo" ++ e_acute.
Proof.
  split; [reflexivity|].
  exact (proj2 one_text_item_per_plain_rune (bs "foo" ++ e_acute) eq_refl).
Defined.

(** ** Where the state functions are entered *)

Module enter_facts.
Import lexer_facts run_facts cursor_facts step_facts progress_facts safe_facts
       whole_facts.

(** A property kept by every step holds after any number of steps. *)
Lemma steps_inv (P : lexer -> Prop) :
  (forall f l st l', P l -> call f l = Ok (st, l') -> P l') ->
  forall n st l st' l',
    P l -> steps n st l = Ok (st', l') -> P l'.
Proof.
  intros Hstep n. induction n as [|n IH]; intros st l st' l' Hl H.
  - cbn [steps] in H. inversion H; subst. exact Hl.
  - destruct st as [f|]; [|cbn [steps] in H; inversion H; subst; exact Hl].
    cbn [steps] in H. apply bind_ok in H. destruct H as ([st1 l1] & Hc & H).
    cbv beta iota in H. eapply IH; [|exact H]. eapply Hstep; eassumption.
Qed.

End enter_facts.

Import enter_facts.

(** X15.  In a run on an input of ASCII bytes whose last byte is
    neither a star nor a dash, every state function, lexText and each
    round of its loop included, is entered with the cursor at the start
    of the pending item, inside the input: all that was read has been
    sent, and nothing is read twice. *)
Theorem ascii_run_enters_at_pending_start (inp : gostring) (n : nat)
    (st : option stateFn) (l : lexer) :
  ascii_only inp -> last inp x00 <> x2a -> last inp x00 <> x2d ->
  steps n (Some lexAny) (new_lexer inp) = Ok (st, l) ->
  input l = inp /\ start l = pos l /\ 0 <= pos l <= len inp /\
  concat (map val (sent (items l))) = firstn (Z.to_nat (pos l)) inp.
Proof.
  intros Ha Hs Hd H.
  assert (Hinv : tiled inp l /\ in_bounds l /\ start l = pos l).
  { apply (steps_inv (fun l0 => tiled inp l0 /\ in_bounds l0 /\ start l0 = pos l0))
      with (n := n) (st := Some lexAny) (l := new_lexer inp) (st' := st).
    - intros f l1 st1 l1' ([Hin Htl] & Hb & Hst) Hc.
      assert (Ha1 : ascii_only (input l1)) by (rewrite Hin; exact Ha).
      split; [eapply tiled_step; [split; eassumption | exact Hc]|].
      split; [eapply call_bounds; eassumption|].
      apply (start_at_cursor_step f l1 st1 l1' Ha1).
      + unfold in_bounds in Hb. lia.
      + rewrite Hin. exact Hs.
      + rewrite Hin. exact Hd.
      + exact Hst.
      + exact Hc.
    - pose proof (len_nonneg inp).
      split; [split; reflexivity|]. split; [unfold in_bounds; cbn; lia|].
      reflexivity.
    - exact H. }
  destruct Hinv as ([Hi Ht] & Hb & Hst). unfold in_bounds in Hb. rewrite Hi in Hb.
  split; [exact Hi|]. split; [exact Hst|]. split; [lia|].
  rewrite (tiles_concat _ _ _ _ Ht) by lia.
  rewrite Hst, Z.sub_0_r. reflexivity.
Qed.

(** The theorem after three steps on the input [a *b*x]: the third
    round of lexText is entered at offset 2, after the text items for
    [a] and the space. *)
Lemma ascii_run_enters_at_pending_start_witness :
  let l := mkLexer (bs "a *b*x") 2 2 1
             (mkChan [mkItem itemText 0 (bs "a"); mkItem itemText 1 (bs " ")] false) in
  ascii_only (bs "a *b*x") /\
  last (bs "a *b*x") x00 <> x2a /\ last (bs "a *b*x") x00 <> x2d /\
  steps 3 (Some lexAny) (new_lexer (bs "a *b*x")) = Ok (Some lexText, l) /\
  input l = bs "a *b*x" /\ start l = pos l /\ 0 <= pos l <= len (bs "a *b*x") /\
  concat (map val (sent (items l))) = firstn (Z.to_nat (pos l)) (bs "a *b*x").
Proof.
  intros l.
  assert (Ha : ascii_only (bs "a *b*x"))
    by (repeat (apply Forall_cons; [reflexivity|]); apply Forall_nil).
  assert (Hs : last (bs "a *b*x") x00 <> x2a) by discriminate.
  assert (Hd : last (bs "a *b*x") x00 <> x2d) by discriminate.
  assert (Hn : steps 3 (Some lexAny) (new_lexer (bs "a *b*x")) = Ok (Some lexText, l))
    by reflexivity.
  split; [exact Ha|]. split; [exact Hs|]. split; [exact Hd|]. split; [exact Hn|].
  exact (ascii_run_enters_at_pending_start (bs "a *b*x") 3 (Some lexText) l Ha Hs Hd Hn).
Defined.
